(** * routio: the genetic TSP solver and the cost-table pipeline

    A shallow embedding of
      - src/utils/general.ts                  (random, fact, raise, capitalize)
      - src/core/algorithms/ga/quickSort.ts   (quickSort, choosePivot, partition)
      - src/core/algorithms/ga/constants.ts   (class GA)
      - src/services/brokerServices.ts        (getNeshanRoute, getCoords,
                                               calculateCostTable)
      - src/core/broker.ts                    (class Broker)
    and the properties of the specification checked against it.

    Conventions.
      - A JavaScript array is a [list]; an index is a [Z], because the code
        lets indices run to -1.  A [Set] is the list of its members in
        insertion order, a [Map] the list of its entries in insertion order.
      - A JavaScript number that holds a cost, an index or a gene is a [Z].
        A fitness is the reciprocal of a cost: a rational or +Infinity
        ([number]).  Arithmetic on these is exact; the rounding of doubles is
        modelled where the code leaves the range in which doubles are exact:
        in the products of [fact] ([Whole]).
      - [Math.random()] is a value of [Unif], a rational in [0,1).  Code that
        draws takes the finite list of the draws still to come and returns the
        rest of it.
      - A call ends in a [Completion]: it returns, it throws, or the budget of
        draws or steps given to the model ran out before it ended
        ([Unfinished]): a call that is [Unfinished] for every budget and all
        draws is one that never returns. *)

From Stdlib Require Import ZArith QArith Qround Lia.
From stdpp Require Import base tactics option list numbers strings sorting.

Local Open Scope Z_scope.

(* ===================================================================== *)
(** * Completions *)
(* ===================================================================== *)

(** Modelled from the spec: the HttpStatusCode enum of
    constants/statusConstants.ts, which is not under src/.  The spec's error
    kinds are 400-class and 500-class; only these two members are used by the
    code embedded here. *)
Inductive HttpStatusCode := BAD_REQUEST | INTERNAL_SERVER_ERROR.

Definition statusNumber (s : HttpStatusCode) : Z :=
  match s with BAD_REQUEST => 400 | INTERNAL_SERVER_ERROR => 500 end.

Inductive Exn :=
| TypeError
| SyntaxError
| RangeError
| Error (message : string)
| AppError (statusCode : HttpStatusCode) (message : string).

Inductive Completion (A : Type) :=
| Return (a : A)
| Throw (e : Exn)
| Unfinished      (* the draws or the steps given to the model are used up *)
| Unmodelled.     (* the run stores undefined or null where the model has a Z *)
Arguments Return {A} a.
Arguments Throw {A} e.
Arguments Unfinished {A}.
Arguments Unmodelled {A}.

#[global] Instance Completion_ret : MRet Completion := @Return.
#[global] Instance Completion_bind : MBind Completion := fun A B k c =>
  match c with
  | Return a => k a
  | Throw e => Throw e
  | Unfinished => Unfinished
  | Unmodelled => Unmodelled
  end.

(** [raise] of src/utils/general.ts. *)
Definition raise {A} (message : string) (statusCode : option HttpStatusCode)
  : Completion A :=
  match statusCode with
  | Some s => if statusNumber s =? 0 then Throw (Error message)
              else Throw (AppError s message)
  | None => Throw (Error message)
  end.

(** An array read that throws a TypeError when a member of the element is
    taken and the element is undefined: [a[i][k]], [const [x,y] = a[i]]. *)
Definition orTypeError {A} (o : option A) : Completion A :=
  match o with Some a => Return a | None => Throw TypeError end.

(* ===================================================================== *)
(** * JavaScript arrays, sets and maps *)
(* ===================================================================== *)

Module JS.
Section Arrays.
Context {A : Type}.

Definition len (a : list A) : Z := Z.of_nat (length a).

(** [a[i]]: undefined outside the array. *)
Definition get (a : list A) (i : Z) : option A :=
if i <? 0 then None else a !! Z.to_nat i.

(** The relative index of [slice] and [splice]: a negative index counts
  from the end, and the result is clamped to [0, length]. *)
Definition relIndex (a : list A) (i : Z) : nat :=
Z.to_nat (if i <? 0 then Z.max (len a + i) 0 else Z.min i (len a)).

(** [a.slice(b, e)]. *)
Definition slice (a : list A) (b e : Z) : list A :=
let kb := relIndex a b in
let ke := relIndex a e in
take (ke - kb) (drop kb a).

(** The array after [a.splice(start, deleteCount, ...items)]. *)
Definition splice (a : list A) (start deleteCount : Z) (items : list A)
: list A :=
let ks := relIndex a start in
let dc := Z.to_nat (Z.min (Z.max deleteCount 0) (len a - Z.of_nat ks)) in
take ks a ++ items ++ drop (ks + dc) a.

(** The array after [[a[i], a[j]] = [a[j], a[i]]], both indices in range. *)
Definition swap (a : list A) (i j : nat) : list A :=
match a !! i, a !! j with
| Some x, Some y => <[j := x]> (<[i := y]> a)
| _, _ => a
end.
End Arrays.

Section Members.
Context {A : Type} `{EqDecision A}.

(** [a.includes(x)], [s.has(x)]. *)
Definition includes (a : list A) (x : A) : bool := bool_decide (x ∈ a).

(** [a.indexOf(x)]: the first position of x, or -1. *)
Fixpoint indexOf_from (a : list A) (x : A) (i : Z) : Z :=
match a with
| [] => -1
| y :: a' => if bool_decide (y = x) then i else indexOf_from a' x (i + 1)
end.
Definition indexOf (a : list A) (x : A) : Z := indexOf_from a x 0.

(** [s.add(x)] on a Set kept in insertion order. *)
Definition Set_add (s : list A) (x : A) : list A :=
if includes s x then s else s ++ [x].

(** [new Set(a)]. *)
Definition Set_of (a : list A) : list A := foldl Set_add [] a.
End Members.

Section Maps.
Context {K V : Type} `{EqDecision K}.

Definition Map_has (m : list (K * V)) (k : K) : bool :=
bool_decide (k ∈ m.*1).

(** [m.set(k, v)]: a present key keeps its place and takes the new value. *)
Fixpoint Map_set (m : list (K * V)) (k : K) (v : V) : list (K * V) :=
match m with
| [] => [(k, v)]
| (k', v') :: m' =>
    if bool_decide (k' = k) then (k, v) :: m' else (k', v') :: Map_set m' k v
end.

(** [new Map(entries)]. *)
Definition Map_of (entries : list (K * V)) : list (K * V) :=
foldl (fun m e => Map_set m e.1 e.2) [] entries.
End Maps.
End JS.

(* ===================================================================== *)
(** * Numbers: fitness values *)
(* ===================================================================== *)

Inductive number :=
| Fin (q : Q)
| Infinity.

Definition Qltb (a b : Q) : bool := negb (Qle_bool b a).

(** [x < y] *)
Definition num_ltb (x y : number) : bool :=
  match x, y with
  | Fin a, Fin b => Qltb a b
  | Fin _, Infinity => true
  | Infinity, _ => false
  end.

(** [x === y] on numbers *)
Definition num_eqb (x y : number) : bool :=
  match x, y with
  | Fin a, Fin b => Qeq_bool a b
  | Infinity, Infinity => true
  | _, _ => false
  end.

(** [1 / x] for x >= 0 *)
Definition num_inv (x : number) : number :=
  match x with
  | Fin q => if Qeq_bool q 0 then Infinity else Fin (/ q)
  | Infinity => Fin 0
  end.

Definition num_of_Z (z : Z) : number := Fin (inject_Z z).

(** Truthiness of a number: false for 0 only (NaN does not arise). *)
Definition num_truthy (x : number) : bool :=
  match x with Fin q => negb (Qeq_bool q 0) | Infinity => true end.

(* ===================================================================== *)
(** * src/utils/general.ts *)
(* ===================================================================== *)

(** A value of [Math.random()]: a rational u with 0 <= u < 1. *)
Record Unif := mkUnif {
  unif : Q;
  unif_range : Qle_bool 0 unif && Qltb unif 1 = true
}.

(** [random(min, max) = Math.floor(Math.random() * (max - min + 1)) + min] *)
Definition random (u : Unif) (min max : Z) : Z :=
  Qfloor (unif u * inject_Z (max - min + 1)) + min.

(** What [fact] computes with: doubles that are whole numbers, or Infinity. *)
Inductive Whole :=
| Finite (z : Z)
| Infinite.
#[global] Instance Whole_eq_dec : EqDecision Whole.
Proof. solve_decision. Defined.

(** The double nearest to a whole number z >= 1, a tie going to the even
    neighbour: z itself below 2^53; from there on the 53 bits that start at
    the leading one, rounded by the bits that follow them; Infinity when the
    rounded number reaches 2^1024. *)
Definition toDouble (z : Z) : Whole :=
  if z <? 2 ^ 53 then Finite z
  else
    let shift := Z.log2 z - 52 in
    let head := Z.shiftr z shift in
    let rest := Z.land z (Z.ones shift) in
    let half := Z.shiftl 1 (shift - 1) in
    let rounded :=
      if rest <? half then head
      else if half <? rest then head + 1
      else if Z.even head then head else head + 1 in
    let d := Z.shiftl rounded shift in
    if d <? 2 ^ 1024 then Finite d else Infinite.

(** [num * f] in doubles, for a whole number num >= 1. *)
Definition times (num : Z) (f : Whole) : Whole :=
  match f with
  | Finite z => toDouble (num * z)
  | Infinite => Infinite
  end.

(** [fact(num)] for a whole number num.  [stack] is the number of calls that
    the platform lets a call nest: a recursion that goes deeper ends in a
    RangeError.  The call for num - 1 returns only when num - 1 >= 0, so the
    product is taken for num >= 2 only; [Unmodelled] stands for a product
    with another num, which no run reaches. *)
Fixpoint fact (stack : nat) (num : Z) : Completion Whole :=
  if (num =? 0) || (num =? 1) then Return (Finite 1)
  else
    match stack with
    | O => Throw RangeError
    | S stack' =>
        f ← fact stack' (num - 1);
        if 2 <=? num then Return (times num f) else Unmodelled
    end.

(** What [fact(num)] returns when it returns: the stack that sufficed does
    not change it. *)
Definition factOf (num : Z) : Whole :=
  match fact (Z.to_nat num) num with
  | Return f => f
  | _ => Finite 1
  end.

(* ===================================================================== *)
(** * src/core/algorithms/ga/quickSort.ts *)
(* ===================================================================== *)

(** The array is sorted in place; the model threads it through.  The two
    inner [while] loops of [partition] and the recursion take a budget of
    steps; [quickSort] gives them one that the array's length bounds. *)
Section QuickSort.
Context {K : Type}.
Abbreviation Entry := (K * number)%type.

(** [source[i][1]] *)
Definition fitnessAt (source : list Entry) (i : Z) : Completion number :=
  orTypeError (snd <$> JS.get source i).

Definition choosePivot (source : list Entry) (left right : Z) : Completion Z :=
  let mid := (left + right) `div` 2 in
  l ← fitnessAt source left;
  m ← fitnessAt source mid;
  r ← fitnessAt source right;
  Return (if num_ltb l m
          then (if num_ltb m r then mid else if num_ltb l r then right else left)
          else (if num_ltb m r then (if num_ltb l r then left else right)
                else mid)).

(** [while (source[left][1] < pivot) left++] *)
Fixpoint scanLeft (budget : nat) (source : list Entry) (pivot : number)
    (left : Z) : Completion Z :=
  match budget with
  | O => Unfinished
  | S budget' =>
      v ← fitnessAt source left;
      if num_ltb v pivot then scanLeft budget' source pivot (left + 1)
      else Return left
  end.

(** [while (source[right][1] > pivot) right--] *)
Fixpoint scanRight (budget : nat) (source : list Entry) (pivot : number)
    (right : Z) : Completion Z :=
  match budget with
  | O => Unfinished
  | S budget' =>
      v ← fitnessAt source right;
      if num_ltb pivot v then scanRight budget' source pivot (right - 1)
      else Return right
  end.

(** [while (left <= right) { ... }] of [partition]; returns the array and
    the final [left]. *)
Fixpoint partitionLoop (budget : nat) (source : list Entry) (pivot : number)
    (left right : Z) : Completion (list Entry * Z) :=
  match budget with
  | O => Unfinished
  | S budget' =>
      if left <=? right then
        left1 ← scanLeft (S (length source)) source pivot left;
        right1 ← scanRight (S (length source)) source pivot right;
        if left1 <=? right1 then
          partitionLoop budget'
            (JS.swap source (Z.to_nat left1) (Z.to_nat right1)) pivot
            (left1 + 1) (right1 - 1)
        else partitionLoop budget' source pivot left1 right1
      else Return (source, left)
  end.

Definition partition (source : list Entry) (left right : Z)
  : Completion (list Entry * Z) :=
  pivotIndex ← choosePivot source left right;
  pivot ← fitnessAt source pivotIndex;
  partitionLoop (S (S (length source))) source pivot left right.

Fixpoint quickSortRange (budget : nat) (source : list Entry) (left right : Z)
  : Completion (list Entry) :=
  match budget with
  | O => Unfinished
  | S budget' =>
      if 1 <? JS.len source then
        '(source1, index) ← partition source left right;
        source2 ← (if left <? index - 1
                   then quickSortRange budget' source1 left (index - 1)
                   else Return source1);
        if index <? right then quickSortRange budget' source2 index right
        else Return source2
      else Return source
  end.

(** [quickSort(source)] with the default [left = 0],
    [right = source.length - 1]. *)
Definition quickSort (source : list Entry) : Completion (list Entry) :=
  quickSortRange (S (length source)) source 0 (JS.len source - 1).
End QuickSort.

(* ===================================================================== *)
(** * src/core/algorithms/ga: types and constants *)
(* ===================================================================== *)

(** [CostTable = [number, number, Cost][]] of src/types/brokerTypes.ts *)
Definition Cost := Z.
Definition CostTable := list (Z * Z * Cost).

(** src/core/algorithms/ga/types.ts *)
Record IConfigs := {
  dimension : Z;
  fixedOriginIndex : option Z;
  returnToOrigin : option bool;
  populationSize : option Z;
  nnaPercentage : option Z;
  maxGens : option Z;
  maxChrAge : option Z;
  mutationRate : option Z;
  eliteCount : option Z
}.

(** A chromosome is a [Set<number>]: its genes in insertion order. *)
Definition Chromosome := list Z.
(** [ChromosomeStr] is the JSON text of an array of genes.  [JSON.stringify]
    and [JSON.parse] are inverse to each other on such arrays, and two texts
    are equal exactly when the arrays are; the model identifies the text with
    the array it denotes. *)
Definition ChromosomeStr := list Z.
Definition Population := list ChromosomeStr.          (* Set<ChromosomeStr> *)
Definition Couple := list ChromosomeStr.              (* Set<ChromosomeStr> *)
Definition Fitness := number.
Definition EvaluatedPopulation := list (ChromosomeStr * Fitness).   (* Map *)

(** [chrToStr(chromosome) = JSON.stringify([...chromosome])] *)
Definition chrToStr (chromosome : list Z) : ChromosomeStr := chromosome.
(** [strToChr(chromosome) = new Set(JSON.parse(chromosome))] *)
Definition strToChr (chromosome : ChromosomeStr) : Chromosome :=
  JS.Set_of chromosome.

(** src/core/algorithms/ga/constants.ts *)
Module gc.
Definition POPULATION_SIZE := 100.
Definition NNA_POPULATION_PERCENTAGE := 40.
Definition MAX_GENERATION_COUNT := 1000.
Definition MAX_CHROMOSOME_AGE := 250.
Definition MUTATION_RATE := 2.
Definition ELITE_COUNT := 2.
Definition SELECTION_INVALID_POPULATION : string :=
  "Selection requires an evaluated population with at least 2 members".
Definition INVALID_COUPLE_TYPE : string := "Invalid couple type provided".
End gc.

(** [x || d] on an optional number: undefined and 0 give d. *)
Definition orElse (x : option Z) (d : Z) : Z :=
  match x with Some v => if v =? 0 then d else v | None => d end.
(** Truthiness of an optional integer: undefined, null and 0 are falsy. *)
Definition truthy (g : option Z) : bool :=
  match g with Some v => negb (v =? 0) | None => false end.

(** [x ?? d] *)
Definition nullish {A} (x : option A) (d : A) : A := default d x.

(** A GA object: what [BaseAlgorithm] keeps.  The private fields that the
    constructor computes from these two and that nothing changes afterwards
    are the functions below.  The object exists when the constructor
    returned, so when its call of [fact] did ([newGA] below). *)
Record GA := {
  costTable : CostTable;
  configs : IConfigs
}.

Section Constructor.
Variable this : GA.

(** [!!fixedOriginIndex || fixedOriginIndex === 0] *)
Definition _isOriginFixed : bool :=
  bool_decide (is_Some (fixedOriginIndex (configs this))).

Definition defaultPopulationMaxSize : Z :=
  orElse (populationSize (configs this)) gc.POPULATION_SIZE.

Definition dimensionBasedPopulationSize : Whole :=
  if _isOriginFixed then factOf (dimension (configs this) - 1)
  else factOf (dimension (configs this)).

(** [dimensionBasedPopulationSize > defaultPopulationMaxSize
     ? defaultPopulationMaxSize : dimensionBasedPopulationSize] *)
Definition _populationSize : Z :=
  match dimensionBasedPopulationSize with
  | Finite size =>
      if defaultPopulationMaxSize <? size then defaultPopulationMaxSize
      else size
  | Infinite => defaultPopulationMaxSize
  end.

(** [dimensionBasedPopulationSize > defaultPopulationMaxSize] *)
Definition _isProblemLarge : bool :=
  match dimensionBasedPopulationSize with
  | Finite size => defaultPopulationMaxSize <? size
  | Infinite => true
  end.

Definition _returnToOrigin : bool :=
  nullish (returnToOrigin (configs this)) true.

(** [Math.trunc((this._populationSize * mutationRate) / 100) || 1] *)
Definition _mutationCount : Z :=
  let mutationRate := nullish (mutationRate (configs this)) gc.MUTATION_RATE in
  orElse (Some ((_populationSize * mutationRate) `quot` 100)) 1.

Definition _eliteCount : Z :=
  orElse (eliteCount (configs this)) gc.ELITE_COUNT.

Definition _maxGens : Z :=
  nullish (maxGens (configs this)) gc.MAX_GENERATION_COUNT.

Definition _maxChromosomeAge : Z :=
  nullish (maxChrAge (configs this)) gc.MAX_CHROMOSOME_AGE.
End Constructor.

(** [new GA(costTable, configs)].  [_validateConfigs] passes on configs that
    are an object with a dimension, as [IConfigs] are; the constructor
    throws what its call of [fact] throws. *)
Definition newGA (stack : nat) (costTable : CostTable) (configs : IConfigs)
  : Completion GA :=
  let this := {| costTable := costTable; configs := configs |} in
  _ ← fact stack (if _isOriginFixed this then dimension configs - 1
                  else dimension configs);
  Return this.

(* ===================================================================== *)
(** * class GA: evaluation *)
(* ===================================================================== *)

Section Evaluation.
Variable this : GA.

(** [_getRouteCost(originIndex, destIndex)] *)
Definition _getRouteCost (originIndex destIndex : Z) : Completion Cost :=
  let routeIndex := originIndex * dimension (configs this) + destIndex in
  orTypeError (snd <$> JS.get (costTable this) routeIndex).

(** [_getCostTableBoundaries(node)] *)
Definition _getCostTableBoundaries (node : Z) : Z * Z :=
  let firstRouteIndex := node * dimension (configs this) in
  let lastRouteIndex := firstRouteIndex + dimension (configs this) in
  (firstRouteIndex, lastRouteIndex).

(** The variables of the [for (let gene of chromosome)] loop of
    [_evaluateChromosomeFitness]. *)
Record EvalVars := {
  cost : Cost;
  lastGene : option Z;
  firstGene : option Z
}.

Definition evalGene (vars : EvalVars) (gene : Z) : Completion EvalVars :=
  match lastGene vars with
  | None =>
      Return {| cost := cost vars; lastGene := Some gene;
                firstGene := Some gene |}
  | Some last =>
      c ← _getRouteCost last gene;
      Return {| cost := cost vars + c; lastGene := Some gene;
                firstGene := firstGene vars |}
  end.

Fixpoint evalGenes (vars : EvalVars) (genes : list Z) : Completion EvalVars :=
  match genes with
  | [] => Return vars
  | gene :: genes' => vars' ← evalGene vars gene; evalGenes vars' genes'
  end.

(** The value of [cost] when [_evaluateChromosomeFitness] returns. *)
Definition chromosomeCost (chromosome : Chromosome) : Completion Cost :=
  vars ← evalGenes {| cost := 0; lastGene := None; firstGene := None |}
           chromosome;
  if _returnToOrigin this && truthy (firstGene vars)
     && truthy (lastGene vars)
  then
    match lastGene vars, firstGene vars with
    | Some last, Some first =>
        c ← _getRouteCost last first; Return (cost vars + c)
    | _, _ => Return (cost vars)
    end
  else Return (cost vars).

(** [_evaluateChromosomeFitness(chromosome)]: [return 1 / cost]. *)
Definition _evaluateChromosomeFitness (chromosome : Chromosome)
  : Completion Fitness :=
  cost ← chromosomeCost chromosome;
  Return (num_inv (num_of_Z cost)).

(** [_evaluatePopulationFitness(population)] *)
Fixpoint evaluateInto (evaluatedPopulation : EvaluatedPopulation)
    (population : Population) : Completion EvaluatedPopulation :=
  match population with
  | [] => Return evaluatedPopulation
  | chromosomeStr :: rest =>
      fitness ← _evaluateChromosomeFitness (strToChr chromosomeStr);
      evaluateInto (JS.Map_set evaluatedPopulation chromosomeStr fitness) rest
  end.
Definition _evaluatePopulationFitness (population : Population)
  : Completion EvaluatedPopulation :=
  evaluateInto [] population.

(** [_survivalSelection(lastGeneration, evolvedPopulation)] *)
Definition _survivalSelection (lastGeneration : EvaluatedPopulation)
    (evolvedPopulation : Population) : Completion EvaluatedPopulation :=
  sortedLastGeneration ← quickSort lastGeneration;
  evaluatedPopulation ← _evaluatePopulationFitness evolvedPopulation;
  nextGeneration ← quickSort evaluatedPopulation;
  Return (JS.Map_of
    (JS.splice nextGeneration
       (JS.len nextGeneration - _eliteCount this)
       (_eliteCount this)
       (JS.slice sortedLastGeneration 0 (_eliteCount this + 1)))).
End Evaluation.

(** The table of the spec's first scenario. *)
Definition table4 : CostTable :=
  [(0,0,0); (0,1,1); (0,2,2); (0,3,3);
   (1,0,1); (1,1,0); (1,2,1); (1,3,2);
   (2,0,2); (2,1,1); (2,2,0); (2,3,1);
   (3,0,3); (3,1,2); (3,2,1); (3,3,0)].

Definition configs4 : IConfigs :=
  {| dimension := 4; fixedOriginIndex := Some 0; returnToOrigin := Some true;
     populationSize := Some 6; nnaPercentage := None; maxGens := Some 50;
     maxChrAge := None; mutationRate := None; eliteCount := None |}.

Definition ga4 : GA := {| costTable := table4; configs := configs4 |}.

(* ===================================================================== *)
(** * class GA: statistics and termination *)
(* ===================================================================== *)

(** [Partial<SolvedProblem>]: an absent field is [None]. *)
Record Solution := {
  solvedIn : option Z;
  generations : option Z;
  solution : option ChromosomeStr;
  bestCost : option number;
  worstCost : option number;
  bestCostGeneration : option Z;
  worstCostGeneration : option Z;
  bestCostHistory : option (list number);
  worstCostHistory : option (list number)
}.

Definition emptySolution : Solution :=
  {| solvedIn := None; generations := None; solution := None;
     bestCost := None; worstCost := None; bestCostGeneration := None;
     worstCostGeneration := None; bestCostHistory := None;
     worstCostHistory := None |}.

(** The fields of a GA object that change while it runs. *)
Record GAState := {
  _generationCount : Z;
  _solution : Solution;
  _solvingStartTime : Z
}.

(** [!x] for an optional number *)
Definition falsyNum (x : option number) : bool :=
  match x with Some v => negb (num_truthy v) | None => true end.

(** [_registerSolutionStats(population)]; [now] is the value of
    [Date.now()]. *)
Definition _registerSolutionStats (now : Z) (population : EvaluatedPopulation)
    (st : GAState) : Completion GAState :=
  let sol := _solution st in
  let solvedIn' := now - _solvingStartTime st in
  let generations' := _generationCount st in
  sortedPopulation ← quickSort population;
  bestChromosome ←
    orTypeError (JS.get sortedPopulation (JS.len sortedPopulation - 1));
  worstChromosome ← orTypeError (JS.get sortedPopulation 0);
  let bestCost' := num_inv bestChromosome.2 in
  let worstCost' := num_inv worstChromosome.2 in
  let updateBest :=
    falsyNum (bestCost sol)
    || from_option (fun old => num_ltb bestCost' old) false (bestCost sol) in
  let updateWorst :=
    falsyNum (worstCost sol)
    || from_option (fun old => num_ltb old worstCost') false (worstCost sol) in
  Return
    {| _generationCount := _generationCount st;
       _solvingStartTime := _solvingStartTime st;
       _solution :=
         {| solvedIn := Some solvedIn';
            generations := Some generations';
            solution :=
              if updateBest then Some bestChromosome.1 else solution sol;
            bestCost := if updateBest then Some bestCost' else bestCost sol;
            bestCostGeneration :=
              if updateBest then Some (_generationCount st)
              else bestCostGeneration sol;
            worstCost := if updateWorst then Some worstCost' else worstCost sol;
            worstCostGeneration :=
              if updateWorst then Some (_generationCount st)
              else worstCostGeneration sol;
            bestCostHistory :=
              Some (default [] (bestCostHistory sol) ++ [bestCost']);
            worstCostHistory :=
              Some (default [] (worstCostHistory sol) ++ [worstCost']) |} |}.

(** [_hasEndingConditionsMet()] *)
Definition _hasEndingConditionsMet (this : GA) (st : GAState) : bool :=
  if _maxGens this <? _generationCount st then true
  else if truthy (bestCostGeneration (_solution st))
          && (_maxChromosomeAge this
              <? _generationCount st
                 - default 0 (bestCostGeneration (_solution st)))
  then true
  else if negb (_isProblemLarge this) then true
  else false.

(* ===================================================================== *)
(** * Draws and loops *)
(* ===================================================================== *)

(** A computation that reads [Math.random()]: it takes the draws to come and
    returns its value with the draws it left. *)
Definition Rand (A : Type) : Type := list Unif -> Completion (A * list Unif).

Definition Math_random : Rand Unif := fun draws =>
  match draws with
  | [] => Unfinished
  | u :: draws' => Return (u, draws')
  end.

(** [random(min, max)] on the next draw *)
Definition randomR (min max : Z) : Rand Z := fun draws =>
  '(u, draws) ← Math_random draws;
  Return (random u min max, draws).

(** [while (cond) body] on loop variables of type S, at most [budget]
    iterations. *)
Fixpoint while {S : Type} (budget : nat) (cond : S -> bool)
    (body : S -> Rand S) (s : S) : Rand S := fun draws =>
  match budget with
  | O => Unfinished
  | S budget' =>
      if cond s then
        '(s', draws) ← body s draws;
        while budget' cond body s' draws
      else Return (s, draws)
  end.

(** [do body while (cond)] *)
Definition doWhile {S : Type} (budget : nat) (cond : S -> bool)
    (body : S -> Rand S) (s : S) : Rand S := fun draws =>
  '(s', draws) ← body s draws;
  while budget cond body s' draws.

(* ===================================================================== *)
(** * class GA: selection *)
(* ===================================================================== *)

(** [x + y], [u * x] and [x >= y] on fitness values.  [0 * Infinity] is NaN:
    [None]; a comparison with NaN is false. *)
Definition num_add (x y : number) : number :=
  match x, y with
  | Fin a, Fin b => Fin (a + b)
  | _, _ => Infinity
  end.
Definition num_scale (u : Q) (x : number) : option number :=
  match x with
  | Fin a => Some (Fin (u * a))
  | Infinity => if Qeq_bool u 0 then None else Some Infinity
  end.
Definition num_geb (x : number) (y : option number) : bool :=
  match y with
  | Some y => negb (num_ltb x y)
  | None => false
  end.

Section Selection.
Variable this : GA.

(** [_randomSelection(population)] *)
Definition _randomSelection (population : EvaluatedPopulation)
  : Rand ChromosomeStr := fun draws =>
  if JS.len population <? 2 then
    raise gc.SELECTION_INVALID_POPULATION (Some INTERNAL_SERVER_ERROR)
  else
    '(randomChromosomeIndex, draws) ← randomR 0 (JS.len population - 1) draws;
    match JS.get population.*1 randomChromosomeIndex with
    | Some chromosome => Return (chromosome, draws)
    | None => Unmodelled
    end.

(** [selectChromosome(index)] of [_rouletteWheelSelection] *)
Fixpoint selectChromosome (population : EvaluatedPopulation)
    (fitnessAccumulator : number) (index : option number)
  : option ChromosomeStr :=
  match population with
  | [] => None
  | (chromosome, fitness) :: rest =>
      let fitnessAccumulator := num_add fitnessAccumulator fitness in
      if num_geb fitnessAccumulator index then Some chromosome
      else selectChromosome rest fitnessAccumulator index
  end.

(** [_rouletteWheelSelection(population)] *)
Definition _rouletteWheelSelection (budget : nat)
    (population : EvaluatedPopulation) : Rand Couple := fun draws =>
  if JS.len population <? 2 then
    raise gc.SELECTION_INVALID_POPULATION (Some INTERNAL_SERVER_ERROR)
  else
    let totalFitness := foldl num_add (Fin 0) population.*2 in
    while budget
      (fun selectedChromosomes : Couple => JS.len selectedChromosomes <? 2)
      (fun selectedChromosomes draws =>
         '(u, draws) ← Math_random draws;
         let index := num_scale (unif u) totalFitness in
         match selectChromosome population (Fin 0) index with
         | Some selected =>
             Return (JS.Set_add selectedChromosomes selected, draws)
         | None => Return (selectedChromosomes, draws)
         end)
      [] draws.
End Selection.

(* ===================================================================== *)
(** * class GA: crossover and mutation *)
(* ===================================================================== *)

(** [a.sort(cmp)]: the language asks for a stable sort by the comparator. *)
Module JSsort.
Section Sort.
Context {A : Type} (cmp : A -> A -> Z).
Fixpoint insert (x : A) (a : list A) : list A :=
match a with
| [] => [x]
| y :: a' => if cmp x y <=? 0 then x :: a else y :: insert x a'
end.
Definition sort (a : list A) : list A := foldr insert [] a.
End Sort.
End JSsort.

Section Variation.
Variable this : GA.

(** The lowest locus a draw may give: 1 under a fixed origin, else 0. *)
Definition firstFreeLocus : Z := if _isOriginFixed this then 1 else 0.

(** The genes [chromosome.add(fixedOrigin!)] puts first. *)
Definition originGenes : list Z :=
  match fixedOriginIndex (configs this) with
  | Some fixedOrigin => [fixedOrigin]
  | None => []
  end.

(** [do { locus = random(..) } while (selectedLoci.has(locus))] *)
Definition drawLocus (budget : nat) (selectedLoci : list Z) : Rand Z :=
  doWhile budget
    (fun locus => JS.includes selectedLoci locus)
    (fun _ => randomR firstFreeLocus (dimension (configs this) - 1))
    0.

(** [while (selectedLoci.size < locusSelectionCount) { .. }] *)
Definition selectLoci (budget : nat) (locusSelectionCount : Z)
  : Rand (list Z) :=
  while budget
    (fun selectedLoci => JS.len selectedLoci <? locusSelectionCount)
    (fun selectedLoci draws =>
       '(locus, draws) ← drawLocus budget selectedLoci draws;
       Return (JS.Set_add selectedLoci locus, draws))
    [].

(** One round of [for (const locus of selectedLoci)]: the gene of the other
    parent at the locus becomes the hole -1 in each offspring. *)
Definition markLocus (parentA parentB : list Z)
    (offspring : list Z * list Z) (locus : Z) : Completion (list Z * list Z) :=
  match JS.get parentB locus, JS.get parentA locus with
  | Some geneB, Some geneA =>
      Return
        (JS.splice offspring.1 (JS.indexOf offspring.1 geneB) 1 [-1],
         JS.splice offspring.2 (JS.indexOf offspring.2 geneA) 1 [-1])
  | _, _ => Unmodelled
  end.

(** [for (let [index, gene] of offspring.entries())
       { if (gene !== -1) continue; offspring[index] = g; break; }] *)
Fixpoint fillFirstHole (offspring : list Z) (g : Z) : list Z :=
  match offspring with
  | [] => []
  | gene :: rest =>
      if negb (gene =? -1) then gene :: fillFirstHole rest g
      else g :: rest
  end.

Definition fillLocus (parentA parentB : list Z)
    (offspring : list Z * list Z) (locus : Z) : Completion (list Z * list Z) :=
  match JS.get parentB locus, JS.get parentA locus with
  | Some geneB, Some geneA =>
      Return (fillFirstHole offspring.1 geneB,
              fillFirstHole offspring.2 geneA)
  | _, _ => Unmodelled
  end.

Fixpoint forEachLocus
    (body : list Z * list Z -> Z -> Completion (list Z * list Z))
    (offspring : list Z * list Z) (loci : list Z)
  : Completion (list Z * list Z) :=
  match loci with
  | [] => Return offspring
  | locus :: loci' =>
      offspring' ← body offspring locus; forEachLocus body offspring' loci'
  end.

(** The two offspring arrays of [_mate], given the selected loci. *)
Definition crossover (parentA parentB : list Z) (selectedLoci : list Z)
  : Completion (list Z * list Z) :=
  marked ← forEachLocus (markLocus parentA parentB) (parentA, parentB)
             selectedLoci;
  let sortedSelectedLoci := JSsort.sort (fun a b => a - b) selectedLoci in
  forEachLocus (fillLocus parentA parentB) marked sortedSelectedLoci.

(** The loci [_mate] selects. *)
Definition mateLoci (budget : nat) : Rand (list Z) := fun draws =>
  let maxLocusSelectionCount :=
    if _isOriginFixed this then dimension (configs this) - 1
    else dimension (configs this) in
  '(locusSelectionCount, draws) ← randomR 1 maxLocusSelectionCount draws;
  selectLoci budget locusSelectionCount draws.

(** [_mate(parents)] *)
Definition _mate (budget : nat) (parents : Couple) : Rand Couple := fun draws =>
  match parents with
  | [a; b] =>
      let parentA := strToChr a in
      let parentB := strToChr b in
      '(selectedLoci, draws) ← mateLoci budget draws;
      '(offspringA, offspringB) ← crossover parentA parentB selectedLoci;
      Return (JS.Set_of [chrToStr offspringA; chrToStr offspringB], draws)
  | _ => raise gc.INVALID_COUPLE_TYPE (Some INTERNAL_SERVER_ERROR)
  end.

(** [do { firstLocus = random(..); lastLocus = random(..) }
     while (firstLocus === lastLocus)] *)
Definition drawMutationLoci (budget : nat) : Rand (Z * Z) :=
  doWhile budget
    (fun loci => loci.1 =? loci.2)
    (fun _ draws =>
       '(firstLocus, draws) ←
         randomR firstFreeLocus (dimension (configs this) - 1) draws;
       '(lastLocus, draws) ←
         randomR firstFreeLocus (dimension (configs this) - 1) draws;
       Return ((firstLocus, lastLocus), draws))
    (0, 0).

(** [_mutate(chromosome)].  The argument is the chromosome's text; for a
    chromosome handed over as a Set, [strToChr] leaves its genes as they
    are. *)
Definition _mutate (budget : nat) (chromosomeStr : ChromosomeStr)
  : Rand ChromosomeStr := fun draws =>
  let chromosome := strToChr chromosomeStr in
  '(loci, draws) ← drawMutationLoci budget draws;
  let '(firstLocus, lastLocus) :=
    if loci.2 <? loci.1 then (loci.2, loci.1) else loci in
  let chromosomeArray := chromosome in
  let invertedPart :=
    reverse (JS.slice chromosomeArray firstLocus (lastLocus + 1)) in
  let chromosomeArray :=
    List.filter (fun gene => negb (JS.includes invertedPart gene))
      chromosomeArray in
  '(displacementPosition, draws) ←
    randomR firstFreeLocus (JS.len chromosomeArray) draws;
  let chromosomeArray :=
    JS.splice chromosomeArray displacementPosition 0 invertedPart in
  if negb (JS.len chromosomeArray =? JS.len chromosome) then
    Throw (Error "Mutate Offspring chromosomes have incorrect gene count")
  else Return (chrToStr (JS.Set_of chromosomeArray), draws).
End Variation.

(* ===================================================================== *)
(** * class GA: the initial population *)
(* ===================================================================== *)

Section Seeding.
Variable this : GA.

(** The variables of the [for (let route = ..)] loop of [_generateNnaChrs]. *)
Record NnVars := {
  nearestNeighborCost : option Cost;
  nextGeneCandidate : option Z
}.

(** One round of the loop over the routes of the last gene's row. *)
Definition nnRoute (visitedNodes : list Z) (vars : NnVars) (route : Z)
  : Completion NnVars :=
  '(origin, dest, cost) ← orTypeError (JS.get (costTable this) route);
  if origin =? dest then Return vars
  else
    let isNeighborUnvisited := negb (JS.includes visitedNodes dest) in
    let isNearestNeighborUninitialized :=
      negb (truthy (nearestNeighborCost vars)) in
    let isCurrentCostLower :=
      truthy (nearestNeighborCost vars)
      && from_option (fun nearest => cost <? nearest) false
           (nearestNeighborCost vars) in
    if (isNearestNeighborUninitialized || isCurrentCostLower)
       && isNeighborUnvisited
    then Return {| nearestNeighborCost := Some cost;
                   nextGeneCandidate := Some dest |}
    else Return vars.

Fixpoint nnRoutes (visitedNodes : list Z) (vars : NnVars) (routes : list Z)
  : Completion NnVars :=
  match routes with
  | [] => Return vars
  | route :: routes' =>
      vars' ← nnRoute visitedNodes vars route;
      nnRoutes visitedNodes vars' routes'
  end.

(** The gene that one round of [while (chromosome.size < dimension)] adds:
    the value of [nextGeneCandidate] after the scan of the row of the last
    gene. *)
Definition nearestNeighbor (chromosome visitedNodes : list Z)
  : Completion (option Z) :=
  match last chromosome with
  | None => Unmodelled
  | Some tail =>
      let '(firstRouteIndex, lastRouteIndex) :=
        _getCostTableBoundaries this tail in
      vars ← nnRoutes visitedNodes
               {| nearestNeighborCost := None; nextGeneCandidate := None |}
               (seqZ firstRouteIndex (lastRouteIndex - firstRouteIndex));
      Return (nextGeneCandidate vars)
  end.

(** One chromosome of [_generateNnaChrs]: the body of its outer loop up to
    [chrToStr].  The loop variables are the chromosome and the visited
    nodes. *)
Definition nnaChromosome (budget : nat) : Rand Chromosome := fun draws =>
  let chromosome := foldl JS.Set_add [] (originGenes this) in
  let visitedNodes := foldl JS.Set_add [] (originGenes this) in
  '(found, draws) ←
    while budget
      (fun v : list Z * list Z * bool => negb v.2)
      (fun v draws =>
         '(randomNode, draws) ←
           randomR 0 (dimension (configs this) - 1) draws;
         if JS.includes v.1.2 randomNode then Return (v, draws)
         else Return ((JS.Set_add v.1.1 randomNode,
                       JS.Set_add v.1.2 randomNode, true), draws))
      (chromosome, visitedNodes, false) draws;
  '(filled, draws) ←
    while budget
      (fun v : list Z * list Z => JS.len v.1 <? dimension (configs this))
      (fun v draws =>
         match nearestNeighbor v.1 v.2 with
         | Return (Some gene) =>
             Return ((JS.Set_add v.1 gene, JS.Set_add v.2 gene), draws)
         | Return None => Unmodelled
         | Throw e => Throw e
         | Unfinished => Unfinished
         | Unmodelled => Unmodelled
         end)
      found.1 draws;
  Return (filled.1, draws).

(** [_generateNnaChrs(count)] *)
Definition _generateNnaChrs (budget : nat) (count : Z) : Rand Population :=
  while budget
    (fun population : Population => JS.len population <? count)
    (fun population draws =>
       '(chromosome, draws) ← nnaChromosome budget draws;
       Return (JS.Set_add population (chrToStr chromosome), draws))
    [].

(** One chromosome of [_generateRandomChrs]. *)
Definition randomChromosome (budget : nat) : Rand Chromosome :=
  while budget
    (fun chromosome : list Z => JS.len chromosome <? dimension (configs this))
    (fun chromosome draws =>
       '(randomNode, draws) ←
         randomR 0 (dimension (configs this) - 1) draws;
       if JS.includes chromosome randomNode then Return (chromosome, draws)
       else Return (JS.Set_add chromosome randomNode, draws))
    (foldl JS.Set_add [] (originGenes this)).

(** [_generateRandomChrs(count)] *)
Definition _generateRandomChrs (budget : nat) (count : Z) : Rand Population :=
  while budget
    (fun population : Population => JS.len population <? count)
    (fun population draws =>
       '(chromosome, draws) ← randomChromosome budget draws;
       Return (JS.Set_add population (chrToStr chromosome), draws))
    [].

(** [randomPopulation.forEach(..)] of [_generateInitialPopulation]: the
    population and the count of duplicates afterwards. *)
Definition admitRandom (initialPopulation : Population)
    (randomPopulation : Population) : Population * Z :=
  foldl (fun acc chr =>
           if JS.includes acc.1 chr then (acc.1, acc.2 + 1)
           else (JS.Set_add acc.1 chr, acc.2))
    (initialPopulation, 0) randomPopulation.

(** [_generateInitialPopulation()]: the population, and the generation
    count raised by one. *)
Definition _generateInitialPopulation (budget : nat) (st : GAState)
  : Rand (Population * GAState) := fun draws =>
  let nnaChrMaxCount :=
    if _isOriginFixed this then dimension (configs this) - 1
    else dimension (configs this) in
  let nnaPopulationPercentage :=
    nullish (nnaPercentage (configs this)) gc.NNA_POPULATION_PERCENTAGE in
  (* Math.round(x / 100) = floor(x / 100 + 1 / 2) *)
  let nnaCount :=
    (2 * (nnaPopulationPercentage * _populationSize this) + 100) `div` 200 in
  let nnaChrCount :=
    if nnaChrMaxCount <? nnaCount then nnaChrMaxCount else nnaCount in
  let randomChrCount := _populationSize this - nnaChrCount in
  '(initialPopulation, draws) ← _generateNnaChrs budget nnaChrCount draws;
  '(randomPopulation, draws) ← _generateRandomChrs budget randomChrCount draws;
  '(v, draws) ←
    while budget
      (fun v : Population * Population =>
         JS.len v.1 <? _populationSize this)
      (fun v draws =>
         let '(initialPopulation, duplicateChrsCount) := admitRandom v.1 v.2 in
         '(randomPopulation, draws) ←
           _generateRandomChrs budget duplicateChrsCount draws;
         Return ((initialPopulation, randomPopulation), draws))
      (initialPopulation, randomPopulation) draws;
  Return ((v.1,
           {| _generationCount := _generationCount st + 1;
              _solution := _solution st;
              _solvingStartTime := _solvingStartTime st |}), draws).
End Seeding.

(* ===================================================================== *)
(** * class GA: evolution and the main loop *)
(* ===================================================================== *)

Section Engine.
Variable this : GA.

(** [_evolvePopulation(lastGeneration)] *)
Definition _evolvePopulation (budget : nat)
    (lastGeneration : EvaluatedPopulation) : Rand Population := fun draws =>
  '(population, draws) ←
    while budget
      (fun population : Population =>
         JS.len population <? _mutationCount this)
      (fun population draws =>
         '(chromosome, draws) ← _randomSelection lastGeneration draws;
         '(chromosome, draws) ← _mutate this budget chromosome draws;
         if negb (_isProblemLarge this)
            || negb (JS.Map_has lastGeneration chromosome)
         then Return (JS.Set_add population chromosome, draws)
         else Return (population, draws))
      [] draws;
  while budget
    (fun population : Population =>
       JS.len population <? _populationSize this)
    (fun population draws =>
       '(parents, draws) ← _rouletteWheelSelection budget lastGeneration draws;
       '(offsprings, draws) ← _mate this budget parents draws;
       Return
         (foldl (fun population chromosome =>
                   if negb (JS.includes population chromosome)
                      && (JS.len population <? _populationSize this)
                   then
                     if negb (_isProblemLarge this)
                        || negb (JS.Map_has lastGeneration chromosome)
                     then JS.Set_add population chromosome
                     else population
                   else population)
            population offsprings, draws))
    population draws.

(** The loop variables of [solve]: the evaluated population and the
    object's changing fields. *)
Definition solveStep (budget : nat) (clock : Z -> Z)
    (v : EvaluatedPopulation * GAState)
  : Rand (EvaluatedPopulation * GAState) := fun draws =>
  let '(evaluatedPopulation, st) := v in
  '(evolvedPopulation, draws) ← _evolvePopulation budget evaluatedPopulation draws;
  evaluatedPopulation ←
    _survivalSelection this evaluatedPopulation evolvedPopulation;
  let st := {| _generationCount := _generationCount st + 1;
               _solution := _solution st;
               _solvingStartTime := _solvingStartTime st |} in
  st ← _registerSolutionStats (clock (_generationCount st))
         evaluatedPopulation st;
  Return ((evaluatedPopulation, st), draws).

(** [solve()].  [clock g] is the value [Date.now()] has when the statistics
    of generation g are registered, [start] its value on entry. *)
Definition solve (budget : nat) (start : Z) (clock : Z -> Z) (st : GAState)
  : Rand (EvaluatedPopulation * GAState) := fun draws =>
  let st := {| _generationCount := _generationCount st;
               _solution := _solution st;
               _solvingStartTime := start |} in
  '(population, st, draws) ← _generateInitialPopulation this budget st draws;
  evaluatedPopulation ← _evaluatePopulationFitness this population;
  st ← _registerSolutionStats (clock (_generationCount st))
         evaluatedPopulation st;
  while budget
    (fun v => negb (_hasEndingConditionsMet this v.2))
    (solveStep budget clock)
    (evaluatedPopulation, st) draws.

(** The fields of a GA object as its declaration initialises them. *)
Definition initialState : GAState :=
  {| _generationCount := 0; _solution := emptySolution;
     _solvingStartTime := 0 |}.
End Engine.

(* ===================================================================== *)
(** * src/services/brokerServices.ts *)
(* ===================================================================== *)

(** src/constants/brokerConstants.ts, src/constants/problemConstants.ts *)
Module bc.
Definition ORG_DEST_VALID_ERR : string := "Origin or destination are invalid".
Definition API_UNSUPPORTED_ERR : string := "Unsupported API".
Definition NESHAN_V4_BASE_URL : string := "https://api.neshan.org/v4/direction".
Definition NESHAN_API_FAILED : string :=
  "Fetching routing data from Neshan failed".
Definition NESHAN_API_KEY_NOT_FOUND : string :=
  "Neshan API key is missing or invalid".
Inductive NeshanVehicle := MOTORCYCLE | CAR.
Definition vehicleText (v : NeshanVehicle) : string :=
  match v with MOTORCYCLE => "motorcycle" | CAR => "CAR" end.
End bc.
Module pc.
Definition NESHAN : string := "neshan".     (* SupportedApi.NESHAN *)
End pc.

(** src/types/brokerTypes.ts *)
Definition Coordinate := string.
Record RouteCost := { distance : Z; duration : Z }.
Record RouteData := {
  origin : string;
  destination : string;
  route_cost : RouteCost;      (* the field [cost] *)
  fetchedAt : Z
}.
Record Leg := { leg_distance : Z; leg_duration : Z }.
Record NeshanDirection := { legs : list Leg }.
Record NeshanResponse := { routes : list NeshanDirection }.

(** What [fetch] resolves to: the status, and the body if it parses as JSON. *)
Record Response := {
  status : Z;
  json : option NeshanResponse
}.
(** [response.ok] *)
Definition ok (r : Response) : bool := (200 <=? status r) && (status r <=? 299).

(** [Error.prototype.toString]: the name alone when the message is empty. *)
Definition errorString (name message : string) : string :=
  if bool_decide (message = EmptyString) then name
  else name +:+ ": " +:+ message.

(** The text [`${err}`] of a thrown value.  AppError does not rename itself,
    so it prints as an Error.  A TypeError, SyntaxError or RangeError of the
    platform prints its name and the platform's message; the model keeps no
    message for them, and this text is their name, with which the text of
    the platform starts. *)
Definition exnText (e : Exn) : string :=
  match e with
  | TypeError => "TypeError"
  | SyntaxError => "SyntaxError"
  | RangeError => "RangeError"
  | Error m => errorString "Error" m
  | AppError _ m => errorString "Error" m
  end.

(** The order in which pending promises settle.  Promise k is put at place
    [code mod (k + 1)] among the k that are already placed, so every list of
    codes is an order and every order has its codes. *)
Fixpoint settleOrder {A} (codes : list nat) (pending : list A) (settled : list A)
  : list A :=
  match pending with
  | [] => settled
  | p :: pending' =>
      let code := default 0%nat (head codes) in
      let place := (code `mod` S (length settled))%nat in
      settleOrder (tail codes) pending'
        (take place settled ++ p :: drop place settled)
  end.

Section BrokerServices.
(** The surroundings: [isLatLong] of the validator package, [fetch] with
    what it resolves to or rejects with for a URL and an Api-Key header,
    and the clock. *)
Variable isLatLong : string -> bool.
Variable fetch : string -> string -> Exn + Response.
Variable Date_now : Z.

(** [getNeshanRoute(apiKey, coords, vehicle)] *)
Definition getNeshanRoute (apiKey : string) (coords : string * string)
    (vehicle : option bc.NeshanVehicle) : Completion RouteData :=
  let vehicle := nullish vehicle bc.MOTORCYCLE in
  let '(origin, dest) := coords in
  if negb (isLatLong origin) || negb (isLatLong dest) then
    Throw (AppError BAD_REQUEST bc.ORG_DEST_VALID_ERR)
  else
    let url := bc.NESHAN_V4_BASE_URL +:+ "?type=" +:+ bc.vehicleText vehicle
               +:+ "&origin=" +:+ origin +:+ "&destination=" +:+ dest in
    match fetch url apiKey with
    | inl e => Throw e
    | inr response =>
        if negb (ok response) then
          Throw (AppError INTERNAL_SERVER_ERROR bc.NESHAN_API_FAILED)
        else
          match json response with
          | None => Throw SyntaxError
          | Some route =>
              direction ← orTypeError (JS.get (routes route) 0);
              leg ← orTypeError (JS.get (legs direction) 0);
              Return {| origin := origin; destination := dest;
                        route_cost := {| distance := leg_distance leg;
                                         duration := leg_duration leg |};
                        fetchedAt := Date_now |}
          end
    end.

(** A promise of [resps]: the indices it will push and what its fetcher
    settles with. *)
Definition Pending : Type := Z * Z * Completion RouteData.

(** The two nested loops of [calculateCostTable]: the entries pushed at
    once, and the promises in the order of their creation. *)
Definition issueRow (apiKey : string) (vehicle : option bc.NeshanVehicle)
    (coords : list Coordinate) (originIndex : Z) (origin : Coordinate)
  : CostTable * list Pending :=
  foldl (fun (acc : CostTable * list Pending) (d : Z * Coordinate) =>
           let '(destIndex, dest) := d in
           if originIndex =? destIndex
           then (acc.1 ++ [(originIndex, destIndex, 0)], acc.2)
           else (acc.1,
                 acc.2 ++ [(originIndex, destIndex,
                            getNeshanRoute apiKey (origin, dest) vehicle)]))
    ([], []) (zip (seqZ 0 (JS.len coords)) coords).

Definition issueAll (apiKey : string) (vehicle : option bc.NeshanVehicle)
    (coords : list Coordinate) : CostTable * list Pending :=
  foldl (fun (acc : CostTable * list Pending) (o : Z * Coordinate) =>
           let row := issueRow apiKey vehicle coords o.1 o.2 in
           (acc.1 ++ row.1, acc.2 ++ row.2))
    ([], []) (zip (seqZ 0 (JS.len coords)) coords).

(** [await Promise.all(resps)] over the promises in the order they settle:
    the table after the pushes of those that fulfilled, or the error of the
    first that rejected, wrapped by the [catch] handler. *)
Fixpoint awaitAll (costTable : CostTable) (settling : list Pending)
  : Completion CostTable :=
  match settling with
  | [] => Return costTable
  | (originIndex, destIndex, outcome) :: settling' =>
      match outcome with
      | Return data =>
          awaitAll (costTable ++ [(originIndex, destIndex,
                                   duration (route_cost data))]) settling'
      | Throw err =>
          raise (bc.NESHAN_API_FAILED +:+ ", " +:+ exnText err) None
      | Unfinished => Unfinished
      | Unmodelled => Unmodelled
      end
  end.

(** [calculateCostTable(coords, apiInfo, vehicle)]; [codes] fixes the order
    in which the fetches settle. *)
Definition calculateCostTable (coords : list Coordinate)
    (apiInfo : string * option string) (vehicle : option bc.NeshanVehicle)
    (codes : list nat) : Completion CostTable :=
  let apiKey := apiInfo.1 in
  let apiName := nullish apiInfo.2 pc.NESHAN in
  if bool_decide (apiKey = EmptyString) then raise bc.NESHAN_API_KEY_NOT_FOUND None
  else if negb (bool_decide (apiName = pc.NESHAN)) then
    raise bc.API_UNSUPPORTED_ERR None
  else
    let '(costTable, resps) := issueAll apiKey vehicle coords in
    costTable ← awaitAll costTable (settleOrder codes resps []);
    Return (JSsort.sort
              (fun a b => if a.1.1 =? b.1.1 then a.1.2 - b.1.2
                          else a.1.1 - b.1.1)
              costTable).
End BrokerServices.


(* ===================================================================== *)
(** * src/utils/general.ts: capitalize *)
(* ===================================================================== *)

(** For [capitalize] a text is the list of its UTF-16 code units.
    [toUpperCase] of the platform, on a text of one code unit, is taken as
    it is: the section is about any such mapping. *)
Module Utf16.
Local Open Scope N_scope.

(** The code units that [\s] matches: WhiteSpace and LineTerminator of the
    language. *)
Definition isWhiteSpace (c : N) : bool :=
  ((9 <=? c) && (c <=? 13))                 (* TAB, LF, VT, FF, CR *)
  || (c =? 32) || (c =? 160)                (* SP, NBSP *)
  || (c =? 5760)                            (* U+1680 *)
  || ((8192 <=? c) && (c <=? 8202))         (* U+2000 .. U+200A *)
  || (c =? 8232) || (c =? 8233)             (* U+2028, U+2029 *)
  || (c =? 8239) || (c =? 8287)             (* U+202F, U+205F *)
  || (c =? 12288) || (c =? 65279).          (* U+3000, U+FEFF *)

(** [c] put in front of the first text of a list. *)
Definition ontoFirst (c : N) (words : list (list N)) : list (list N) :=
  match words with
  | [] => [[c]]
  | w :: ws => (c :: w) :: ws
  end.

(** [str.split(/\s+/)]: the texts between the runs of white space.
    [inRun] says that the code unit before was white space. *)
Fixpoint splitRuns (inRun : bool) (str : list N) : list (list N) :=
  match str with
  | [] => [[]]
  | c :: str' =>
      if isWhiteSpace c then
        if inRun then splitRuns true str' else [] :: splitRuns true str'
      else ontoFirst c (splitRuns false str')
  end.

(** [words.join(' ')] *)
Fixpoint join (words : list (list N)) : list N :=
  match words with
  | [] => []
  | [w] => w
  | w :: ws => w ++ 32 :: join ws
  end.
End Utf16.

Section Capitalize.
Variable toUpperCase : N -> list N.

(** [word.charAt(0).toUpperCase() + word.slice(1)] *)
Definition capitalizeWord (word : list N) : list N :=
  match word with
  | [] => []
  | c :: word' => toUpperCase c ++ word'
  end.

(** [capitalize(str)] *)
Definition capitalize (str : list N) : list N :=
  match str with
  | [] => str
  | _ => Utf16.join (capitalizeWord <$> Utf16.splitRuns false str)
  end.
End Capitalize.

(* ===================================================================== *)
(** * src/services/brokerServices.ts: getCoords *)
(* ===================================================================== *)

(** The texts of the routing client are [string]s: one [ascii] for each
    code unit, for the texts whose code units are below 256. *)
Module Text.
Definition code (c : Ascii.ascii) : N := Ascii.N_of_ascii c.

(** WhiteSpace and LineTerminator below 256, what [trim] strips. *)
Definition isWhiteSpace (c : Ascii.ascii) : bool :=
  (((9 <=? code c) && (code c <=? 13)) || (code c =? 32) || (code c =? 160))%N.

(** What [/\n|\r/] matches. *)
Definition isLineBreak (c : Ascii.ascii) : bool :=
  ((code c =? 10) || (code c =? 13))%N.

Definition ontoFirst (c : Ascii.ascii) (lines : list string) : list string :=
  match lines with
  | [] => [String c EmptyString]
  | l :: ls => String c l :: ls
  end.

(** [s.split(/\n|\r/gm)] *)
Fixpoint splitLines (s : string) : list string :=
  match s with
  | EmptyString => [EmptyString]
  | String c s' =>
      if isLineBreak c then EmptyString :: splitLines s'
      else ontoFirst c (splitLines s')
  end.

(** [s.trimStart()] *)
Fixpoint trimStart (s : string) : string :=
  match s with
  | EmptyString => EmptyString
  | String c s' => if isWhiteSpace c then trimStart s' else s
  end.

(** [s.trimEnd()] *)
Fixpoint trimEnd (s : string) : string :=
  match s with
  | EmptyString => EmptyString
  | String c s' =>
      match trimEnd s' with
      | EmptyString => if isWhiteSpace c then EmptyString
                       else String c EmptyString
      | t => String c t
      end
  end.

(** [s.trim()] *)
Definition trim (s : string) : string := trimEnd (trimStart s).

(** Truthiness of a text: the empty text is falsy. *)
Definition truthy (s : string) : bool := negb (bool_decide (s = EmptyString)).
End Text.

Section GetCoords.
(** The surroundings: [isLatLong] of the validator package, [readFile] of
    node:fs/promises with what it resolves to or rejects with for a path,
    and the text of [pc.PROBLEM_COORDS_FILE_ERR], which the constants under
    src/ do not have. *)
Variable isLatLong : string -> bool.
Variable readFile : string -> Exn + string.
Variable PROBLEM_COORDS_FILE_ERR : string.

(** [getCoords(path, isRealInstance)] *)
Definition getCoords (path : string) (isRealInstance : bool)
  : Completion (list Coordinate) :=
  match readFile path with
  | inl e => Throw e
  | inr coordsStr =>
      if negb (Text.truthy coordsStr) then
        raise PROBLEM_COORDS_FILE_ERR (Some BAD_REQUEST)
      else
        let coords :=
          List.filter (fun line => Text.truthy (Text.trim line))
            (Text.splitLines coordsStr) in
        if isRealInstance && negb (forallb isLatLong coords) then
          raise PROBLEM_COORDS_FILE_ERR (Some BAD_REQUEST)
        else Return coords
  end.
End GetCoords.

(* ===================================================================== *)
(** * src/core/broker.ts *)
(* ===================================================================== *)

(** [Problem] of src/types/problemTypes.ts, the fields the broker reads. *)
Module pb.
Record Problem := {
  path : string;
  dimension : Z;
  algorithm : string;
  isRealInstance : bool;
  apiName : option string
}.
End pb.

(** src/constants/problemConstants.ts and brokerConstants.ts, further texts *)
Module pc2.
Definition ALGORITHM_ENUM_ERR : string := "Invalid or unsupported algorithm".
Definition PROBLEM_NOT_SUPPORTED : string :=
  "This problem type is not supported for solving yet".
End pc2.

(** A Broker object once constructed: the selected algorithm is GA. *)
Record Broker := {
  _problem : pb.Problem;
  _apiKey : option string
}.

(** [configs['dimension'] = dimension] *)
Definition setDimension (configs : IConfigs) (dimension : Z) : IConfigs :=
  {| dimension := dimension;
     fixedOriginIndex := fixedOriginIndex configs;
     returnToOrigin := returnToOrigin configs;
     populationSize := populationSize configs;
     nnaPercentage := nnaPercentage configs;
     maxGens := maxGens configs;
     maxChrAge := maxChrAge configs;
     mutationRate := mutationRate configs;
     eliteCount := eliteCount configs |}.

Section BrokerClass.
(** The surroundings: those of the routing client and of [getCoords], the
    value of [process.env.NESHAN_API_KEY], and the text of
    [SupportedAlgorithm.GA], which the constants under src/ do not have. *)
Variable isLatLong : string -> bool.
Variable fetch : string -> string -> Exn + Response.
Variable readFile : string -> Exn + string.
Variable PROBLEM_COORDS_FILE_ERR : string.
Variable NESHAN_API_KEY : option string.
Variable SupportedAlgorithm_GA : string.

(** [_handleApiKey()] *)
Definition _handleApiKey (problem : pb.Problem)
  : Completion (option string) :=
  if pb.isRealInstance problem
     && bool_decide (pb.apiName problem = Some pc.NESHAN)
  then
    match NESHAN_API_KEY with
    | Some key => Return (Some key)
    | None => raise bc.NESHAN_API_KEY_NOT_FOUND None
    end
  else Return None.

(** [_selectAlgorithm()] *)
Definition _selectAlgorithm (problem : pb.Problem) : Completion unit :=
  if bool_decide (pb.algorithm problem = SupportedAlgorithm_GA) then Return tt
  else raise pc2.ALGORITHM_ENUM_ERR (Some BAD_REQUEST).

(** [new Broker(problem)] *)
Definition newBroker (problem : pb.Problem) : Completion Broker :=
  apiKey ← _handleApiKey problem;
  _ ← _selectAlgorithm problem;
  Return {| _problem := problem; _apiKey := apiKey |}.

(** The cost table of [exec].  [calculateCostTable] reads of the key only
    whether it is falsy before it fetches anything, and [undefined] is falsy
    as the empty text is: a key that is [undefined] is passed as the empty
    text. *)
Definition execCostTable (this : Broker) (now : Z) (codes : list nat)
  : Completion CostTable :=
  coords ← getCoords isLatLong readFile PROBLEM_COORDS_FILE_ERR
             (pb.path (_problem this)) (pb.isRealInstance (_problem this));
  if pb.isRealInstance (_problem this) then
    calculateCostTable isLatLong fetch now coords
      (default EmptyString (_apiKey this), pb.apiName (_problem this))
      None codes
  else raise pc2.PROBLEM_NOT_SUPPORTED (Some BAD_REQUEST).

(** [exec(configs)]: the solution that [solve] resolves to.  [now] is the
    clock while the costs are fetched, [stack] the depth of calls that the
    constructor of GA has for [fact], [start] and [clock] are those of
    [solve]; [codes] fixes the order in which the fetches settle. *)
Definition exec (this : Broker) (configs : IConfigs) (now : Z)
    (codes : list nat) (stack budget : nat) (start : Z) (clock : Z -> Z)
  : Rand Solution := fun draws =>
  costTable ← execCostTable this now codes;
  let configs := setDimension configs (pb.dimension (_problem this)) in
  algorithm ← newGA stack costTable configs;
  '(v, draws) ← solve algorithm budget start clock initialState draws;
  Return (_solution v.2, draws).
End BrokerClass.
(* ********************************************************************* *)
(** * The vocabulary of the properties *)
(* ********************************************************************* *)

(** ** Sorting *)

Section SortVocabulary.
Context {K : Type}.
Implicit Types (s : list (K * number)) (p v : number).

(** The fitness at an index, when there is an element. *)
Definition fz s (i : Z) : option number := snd <$> JS.get s i.

Definition below s p i := exists v, fz s i = Some v /\ num_ltb v p = true.

Definition above s p i := exists v, fz s i = Some v /\ num_ltb p v = true.

Definition atMost s p i := exists v, fz s i = Some v /\ num_ltb p v = false.

Definition atLeast s p i := exists v, fz s i = Some v /\ num_ltb v p = false.

(** What [partition] and the recursive calls keep of the array they were
    given: they permute the segment [lo..hi] and touch nothing else. *)
Record segPerm (lo hi : Z) (s0 s : list (K * number)) : Prop := {
  sp_length : length s = length s0;
  sp_perm : s ≡ₚ s0;
  sp_outside : forall i, i < lo \/ hi < i -> JS.get s i = JS.get s0 i;
  sp_inside : forall i, lo <= i <= hi ->
                exists j, lo <= j <= hi /\ JS.get s i = JS.get s0 j
}.

(** The state of the loop of [partition] between two rounds. *)
Record partInv (L0 R0 : Z) (p : number) (s : list (K * number))
    (left right : Z) : Prop := {
  pi_left : L0 <= left <= R0;
  pi_right : right <= R0;
  pi_low : forall i, L0 <= i < left -> atMost s p i;
  pi_high : forall i, right < i <= R0 -> atLeast s p i;
  pi_stopL : left <= right ->
             exists t, left <= t <= R0 /\ atLeast s p t /\ (t < R0 \/ right < R0);
  pi_stopR : left <= right -> exists t, L0 <= t <= right /\ atMost s p t;
  pi_moved : L0 < left \/ left <= right
}.

(** [s[i] <= s[j]] for all i <= j of the segment. *)
Definition ascending (lo hi : Z) s : Prop :=
  forall i j, lo <= i -> i <= j -> j <= hi ->
    exists a b, fz s i = Some a /\ fz s j = Some b /\ num_ltb b a = false.
End SortVocabulary.

(** ** Outcomes *)

(** [post E P c]: what c returns satisfies P.  c may also have used up the
    budget or the draws given to it, and it may end in an error only if E
    holds: with [E := False] it ends in none. *)
Definition post {A} (E : Prop) (P : A -> Prop) (c : Completion A) : Prop :=
  match c with
  | Return a => P a
  | Unfinished => True
  | Throw _ | Unmodelled => E
  end.

(** ** Crossover *)

(** The first occurrence of a gene becomes the hole -1: what
    [offspring.splice(offspring.indexOf(g), 1, -1)] does when g is there. *)
Fixpoint punch (g : Z) (offspring : list Z) : list Z :=
  match offspring with
  | [] => []
  | y :: rest => if bool_decide (y = g) then -1 :: rest else y :: punch g rest
  end.

(** The number of holes of an offspring. *)
Definition holes (offspring : list Z) : nat := count_occ Z.eq_dec offspring (-1).

(** The genes a parent has at the loci; 0 stands in outside the parent. *)
Definition genesAt (parent : list Z) (loci : list Z) : list Z :=
  (fun locus => default 0 (JS.get parent locus)) <$> loci.

(** The marking and the filling of one offspring. *)
Definition mark1 (offspring : list Z) (g : Z) : list Z :=
  JS.splice offspring (JS.indexOf offspring g) 1 [-1].

(** ** Draws for the examples *)

(** The draw q, or 0 when q is outside [0,1). *)
Definition toUnif (q : Q) : Unif :=
  match Qle_bool 0 q && Qltb q 1 as b
        return (Qle_bool 0 q && Qltb q 1 = b -> Unif) with
  | true => fun H => mkUnif q H
  | false => fun _ => mkUnif 0 eq_refl
  end eq_refl.

(** A linear congruential sequence of draws. *)
Fixpoint lcg (k : nat) (x : Z) : list Unif :=
  match k with
  | O => []
  | S k' =>
      let x' := (x * 1103515245 + 12345) `mod` 2147483648 in
      toUnif ((x' `div` 65536) # 32768) :: lcg k' x'
  end.

(** ** The cost of a tour in the words of the specification *)

(** [Σ costTable[c_k, c_k+1]] over k = 0..N-2. *)
Fixpoint pathCost (this : GA) (c : list Z) : Completion Cost :=
  match c with
  | a :: (b :: _) as rest =>
      x ← _getRouteCost this a b;
      y ← pathCost this rest;
      Return (x + y)
  | _ => Return 0
  end.

(** [cost(C)]: the path, plus [costTable[c_N-1, c_0]] iff returnToOrigin. *)
Definition specCost (this : GA) (c : list Z) : Completion Cost :=
  p ← pathCost this c;
  if _returnToOrigin this then
    match last c, head c with
    | Some l, Some f => r ← _getRouteCost this l f; Return (p + r)
    | _, _ => Return p
    end
  else Return p.

(** The cost [_evaluateChromosomeFitness] arrives at, said in one formula:
    the closing edge is added only if, besides, neither the first nor the
    last gene is node 0. *)
Definition codeCost (this : GA) (c : list Z) : Completion Cost :=
  p ← pathCost this c;
  if _returnToOrigin this && truthy (head c) && truthy (last c) then
    match last c, head c with
    | Some l, Some f => r ← _getRouteCost this l f; Return (p + r)
    | _, _ => Return p
    end
  else Return p.

(** ** Nearest neighbour in the words of the specification *)

(** The unvisited node with minimum cost from the tail, ties broken by the
    first found when the tail's row is scanned: the candidate and its cost
    so far, over the entries of the row. *)
Fixpoint specNearest (visitedNodes : list Z) (best : option (Z * Cost))
    (row : list (Z * Z * Cost)) : option (Z * Cost) :=
  match row with
  | [] => best
  | (origin, dest, cost) :: row' =>
      let better :=
        match best with Some (_, c) => cost <? c | None => true end in
      if negb (origin =? dest) && negb (JS.includes visitedNodes dest) && better
      then specNearest visitedNodes (Some (dest, cost)) row'
      else specNearest visitedNodes best row'
  end.

(** ** The instances of the examples *)

(** Four nodes on the table of the spec's first scenario, no fixed origin,
    open tours, five chromosomes a generation, two of them elite. *)
Definition configsS : IConfigs :=
  {| dimension := 4; fixedOriginIndex := None; returnToOrigin := Some false;
     populationSize := Some 5; nnaPercentage := None; maxGens := Some 2;
     maxChrAge := None; mutationRate := None; eliteCount := Some 2 |}.
Definition gaS : GA := {| costTable := table4; configs := configsS |}.

(** A previous generation and an evolved population for [gaS]. *)
Definition prevPopulation : Population :=
  [[0;1;2;3]; [1;0;2;3]; [0;2;1;3]; [3;0;2;1]; [1;3;0;2]].
Definition evolvedPopulation : Population :=
  [[2;0;3;1]; [0;3;1;2]; [2;3;0;1]; [0;1;3;2]; [3;2;1;0]].

(** Three nodes, the first two at the same place. *)
Definition table3 : CostTable :=
  [(0,0,0); (0,1,0); (0,2,5);
   (1,0,0); (1,1,0); (1,2,5);
   (2,0,5); (2,1,5); (2,2,0)].
Definition configs3 : IConfigs :=
  {| dimension := 3; fixedOriginIndex := None; returnToOrigin := None;
     populationSize := None; nnaPercentage := None; maxGens := None;
     maxChrAge := None; mutationRate := None; eliteCount := None |}.
Definition ga3 : GA := {| costTable := table3; configs := configs3 |}.

(** ** The statistics record *)

(** [history[generation - shift] == value], all three present. *)
Definition recordedAt (history : option (list number)) (generation : option Z)
    (value : option number) (shift : Z) : Prop :=
  exists h g v, history = Some h /\ generation = Some g /\ value = Some v
                /\ JS.get h (g - shift) = Some v.

Definition bestRecorded (sol : Solution) (shift : Z) : Prop :=
  recordedAt (bestCostHistory sol) (bestCostGeneration sol) (bestCost sol) shift.
Definition worstRecorded (sol : Solution) (shift : Z) : Prop :=
  recordedAt (worstCostHistory sol) (worstCostGeneration sol) (worstCost sol)
    shift.

(** The length of a history that may not have been created yet. *)
Definition historyLength (history : option (list number)) : Z :=
  JS.len (default [] history).

(** [this._generationCount++] *)
Definition nextGeneration (st : GAState) : GAState :=
  {| _generationCount := _generationCount st + 1;
     _solution := _solution st;
     _solvingStartTime := _solvingStartTime st |}.

(** Between the increment of the generation count and the registration that
    follows it: the histories are one entry short, and what is recorded is
    recorded one place before its generation. *)
Definition statsPending (st : GAState) : Prop :=
  historyLength (bestCostHistory (_solution st)) = _generationCount st - 1
  /\ historyLength (worstCostHistory (_solution st)) = _generationCount st - 1
  /\ (bestCost (_solution st) = None \/ bestRecorded (_solution st) 1)
  /\ (worstCost (_solution st) = None \/ worstRecorded (_solution st) 1).

(** After a registration. *)
Definition statsRegistered (st : GAState) : Prop :=
  historyLength (bestCostHistory (_solution st)) = _generationCount st
  /\ historyLength (worstCostHistory (_solution st)) = _generationCount st
  /\ bestRecorded (_solution st) 1
  /\ worstRecorded (_solution st) 1.

(** ** The cost table of the routing client *)

(** [a] comes before [b], or has the same origin and destination: what the
    comparator of [calculateCostTable] calls not greater. *)
Definition lexLe (a b : Z * Z * Cost) : Prop :=
  a.1.1 < b.1.1 \/ (a.1.1 = b.1.1 /\ a.1.2 <= b.1.2).

(** The duration a settled fetch reports; 0 if it did not fulfil. *)
Definition durationOf (outcome : Completion RouteData) : Z :=
  match outcome with
  | Return data => duration (route_cost data)
  | _ => 0
  end.

(** The entry a promise pushes when it fulfils. *)
Definition pushOf (p : Z * Z * Completion RouteData) : Z * Z * Cost :=
  (p.1.1, p.1.2, durationOf p.2).

Definition fulfilled {A} (c : Completion A) : Prop := exists a, c = Return a.

(** The table that [calculateCostTable] is to return: row by row, for every
    origin every destination, 0 on the diagonal and elsewhere the duration
    that the fetch for the two coordinates reported. *)
Definition tableRow (fetched : string -> string -> Completion RouteData)
    (coords : list Coordinate) (o : Z * Coordinate) : list (Z * Z * Cost) :=
  (fun d : Z * Coordinate =>
     (o.1, d.1, if o.1 =? d.1 then 0 else durationOf (fetched o.2 d.2)))
  <$> zip (seqZ 0 (JS.len coords)) coords.

Definition tableOf (fetched : string -> string -> Completion RouteData)
    (coords : list Coordinate) : list (Z * Z * Cost) :=
  zip (seqZ 0 (JS.len coords)) coords ≫= tableRow fetched coords.

(** The loop variables of the scan of a row stand for the candidate found so
    far. *)
Definition nnStands (vars : NnVars) (best : option (Z * Cost)) : Prop :=
  match best with
  | Some (d, c) =>
      nextGeneCandidate vars = Some d /\ nearestNeighborCost vars = Some c
  | None => nextGeneCandidate vars = None /\ nearestNeighborCost vars = None
  end.

(** ** States of a run *)

(** The changing fields of a GA object right after a registration, as
    [solve] reaches them: the first one after seeding has raised the
    generation count from 0 to 1, every later one after one more
    generation. *)
Inductive registeredState : GAState -> Prop :=
| registered_seed start now population st :
    _registerSolutionStats now population
      (nextGeneration {| _generationCount := 0; _solution := emptySolution;
                         _solvingStartTime := start |}) = Return st ->
    registeredState st
| registered_step now population st st' :
    registeredState st ->
    _registerSolutionStats now population (nextGeneration st) = Return st' ->
    registeredState st'.

(** ** Position 0 *)

(** [tour[0] = O] *)
Definition startsAt (O : Z) (tour : list Z) : Prop := JS.get tour 0 = Some O.

(** The previous generation of the examples, evaluated. *)
Definition prevGeneration : EvaluatedPopulation :=
  [([0;1;2;3], Fin (1 # 3)); ([1;0;2;3], Fin (1 # 4));
   ([0;2;1;3], Fin (1 # 5)); ([3;0;2;1], Fin (1 # 6));
   ([1;3;0;2], Fin (1 # 7))].

(** ** A routing provider for the examples *)

Definition coordsEx : list Coordinate :=
  ["35.70,51.40"; "35.71,51.42"; "35.69,51.38"].

(** Every text of the examples is a valid coordinate but "nowhere". *)
Definition isLatLongEx (s : string) : bool := negb (bool_decide (s = "nowhere")).

(** A number for a text. *)
Fixpoint textCode (s : string) (acc : Z) : Z :=
  match s with
  | EmptyString => acc
  | String c s' => textCode s' ((acc * 31 + Z.of_N (Ascii.N_of_ascii c)) `mod` 1009)
  end.

(** The provider answers 200 with one route of one leg; the duration is a
    number made from the URL it was asked, so that the pairs differ. *)
Definition fetchEx (url apiKey : string) : Exn + Response :=
  inr {| status := 200;
         json := Some {| routes :=
                   [ {| legs := [ {| leg_distance := 1000;
                                     leg_duration := textCode url 0 |} ] |} ] |} |}.

(** The provider answers 500 to every request. *)
Definition fetchDown (url apiKey : string) : Exn + Response :=
  inr {| status := 500; json := None |}.

(* ********************************************************************* *)
(** * The vocabulary of the further properties *)
(* ********************************************************************* *)

(** ** Sorting *)

(** The fitness does not decrease along the array. *)
Definition fitnessAscending {K} (s : list (K * number)) : Prop :=
  forall (i j : nat) x y, s !! i = Some x -> s !! j = Some y -> (i <= j)%nat ->
    num_ltb y.2 x.2 = false.

(** p is a median of the three values p, a, b: it is not above both of the
    others and not below both of them. *)
Definition medianOf (p a b : number) : Prop :=
  ~ (num_ltb a p = true /\ num_ltb b p = true)
  /\ ~ (num_ltb p a = true /\ num_ltb p b = true).

(** ** Numbers *)

(** n! *)
Fixpoint factorial (n : nat) : Z :=
  match n with
  | O => 1
  | S n' => Z.of_nat n * factorial n'
  end.

(** [fact] unfolded: 1 for 0 and for 1, then the products in doubles. *)
Fixpoint products (n : nat) : Whole :=
  match n with
  | O => Finite 1
  | S n' => if bool_decide (n = 1%nat) then Finite 1
            else times (Z.of_nat n) (products n')
  end.

(** A whole number that is at least 1, or Infinity. *)
Definition atLeastOne (f : Whole) : Prop :=
  match f with
  | Finite z => 1 <= z
  | Infinite => True
  end.

(** ** Tables and tours *)

(** The table lists, row by row, every origin with every destination of
    [0,N): the entry for (o, d) is at o * N + d. *)
Definition rowMajor (N : Z) (table : CostTable) : Prop :=
  forall o d, 0 <= o < N -> 0 <= d < N ->
    exists c, JS.get table (o * N + d) = Some (o, d, c).

Definition nonNegative (table : CostTable) : Prop :=
  forall e, e ∈ table -> 0 <= e.2.

(** The cost from a to b is the cost from b to a, for the genes of c. *)
Definition symmetricOn (this : GA) (c : list Z) : Prop :=
  forall a b, a ∈ c -> b ∈ c -> _getRouteCost this a b = _getRouteCost this b a.

(** A tour: every node of [0,N) once. *)
Definition tour (N : Z) (c : list Z) : Prop := c ≡ₚ seqZ 0 N.

Definition inRange (N : Z) (c : list Z) : Prop := forall g, g ∈ c -> 0 <= g < N.

(** The configured origin, if there is one, is a node. *)
Definition originInRange (this : GA) : Prop :=
  forall O, fixedOriginIndex (configs this) = Some O ->
    0 <= O < dimension (configs this).

(** Every entry carries the fitness that the evaluator gives its
    chromosome. *)
Definition evaluatedBy (this : GA) (ev : EvaluatedPopulation) : Prop :=
  forall e, e ∈ ev -> _evaluateChromosomeFitness this (strToChr e.1) = Return e.2.

(** ** The statistics record *)

(** The recorded best cost is an entry of the history of best costs, and
    no entry is below it. *)
Definition leastRecorded (sol : Solution) : Prop :=
  exists h b, bestCostHistory sol = Some h /\ bestCost sol = Some b
              /\ b ∈ h /\ forall v, v ∈ h -> num_ltb v b = false.

(** The recorded worst cost is an entry of the history of worst costs, and
    no entry is above it. *)
Definition greatestRecorded (sol : Solution) : Prop :=
  exists h w, worstCostHistory sol = Some h /\ worstCost sol = Some w
              /\ w ∈ h /\ forall v, v ∈ h -> num_ltb w v = false.

(** A cost that [!cost] does not take for a missing one. *)
Definition nonZero (c : option number) : Prop :=
  forall v, c = Some v -> num_truthy v = true.

(** The state in which [solve] ends: the count of generations it reports,
    the lengths of its histories and the bound on them. *)
Definition summarised (this : GA) (st : GAState) : Prop :=
  generations (_solution st) = Some (_generationCount st)
  /\ historyLength (bestCostHistory (_solution st)) = _generationCount st
  /\ historyLength (worstCostHistory (_solution st)) = _generationCount st
  /\ 1 <= _generationCount st <= Z.max 1 (_maxGens this + 1).

(** The solution on record is a tour, and the best cost on record is the
    cost at which the evaluator has it. *)
Definition solutionOK (this : GA) (sol : Solution) : Prop :=
  exists c f,
    solution sol = Some c /\ tour (dimension (configs this)) c
    /\ _evaluateChromosomeFitness this c = Return f
    /\ bestCost sol = Some (num_inv f).

(** ** Seeding and evolution *)

(** The candidate of the scan of a row, if there is one, is a node that
    was not visited. *)
Definition candidateOK (this : GA) (visited : list Z) (vars : NnVars) : Prop :=
  (nextGeneCandidate vars = None -> nearestNeighborCost vars = None)
  /\ forall g, nextGeneCandidate vars = Some g ->
       (g ∉ visited) /\ 0 <= g < dimension (configs this).

(** The route is an entry of the row of the tail. *)
Definition rowOf (this : GA) (tail : Z) (route : Z) : Prop :=
  exists d c, JS.get (costTable this) route = Some (tail, d, c)
              /\ 0 <= d < dimension (configs this).

(** The number of chromosomes that [_generateInitialPopulation] asks the
    nearest-neighbour seeding for. *)
Definition nnaChrCount (this : GA) : Z :=
  let nnaChrMaxCount :=
    if _isOriginFixed this then dimension (configs this) - 1
    else dimension (configs this) in
  let nnaPopulationPercentage :=
    nullish (nnaPercentage (configs this)) gc.NNA_POPULATION_PERCENTAGE in
  let nnaCount :=
    (2 * (nnaPopulationPercentage * _populationSize this) + 100) `div` 200 in
  if nnaChrMaxCount <? nnaCount then nnaChrMaxCount else nnaCount.

(** What the two loops of [_evolvePopulation] keep of the population they
    fill: different tours, none of the last generation when the problem is
    large, at most hi of them. *)
Definition evolving (this : GA) (lastGeneration : EvaluatedPopulation)
    (hi : Z) (p : Population) : Prop :=
  NoDup p /\ (forall c, c ∈ p -> tour (dimension (configs this)) c)
  /\ (_isProblemLarge this = true -> forall c, c ∈ p -> c ∉ lastGeneration.*1)
  /\ JS.len p <= hi.

(** A generation as [solve] keeps it. *)
Definition generationOK (this : GA) (ev : EvaluatedPopulation) : Prop :=
  NoDup ev.*1
  /\ (forall c, c ∈ ev.*1 -> tour (dimension (configs this)) c)
  /\ evaluatedBy this ev
  /\ ev <> []
  /\ (_isProblemLarge this = true -> 2 <= JS.len ev).

(** A test for tours, for the examples. *)
Definition tourCheck (N : Z) (c : list Z) : bool :=
  bool_decide (NoDup c)
  && forallb (fun g => (0 <=? g) && (g <? N)) c
  && (N <=? JS.len c).

(** ** The routing client and the broker *)

(** The URL that [getNeshanRoute] asks. *)
Definition routeUrl (vehicle : option bc.NeshanVehicle) (o d : string) : string :=
  bc.NESHAN_V4_BASE_URL +:+ "?type="
  +:+ bc.vehicleText (nullish vehicle bc.MOTORCYCLE)
  +:+ "&origin=" +:+ o +:+ "&destination=" +:+ d.

(** Every code unit of the text is white space. *)
Fixpoint allSpace (s : string) : bool :=
  match s with
  | EmptyString => true
  | String c s' => Text.isWhiteSpace c && allSpace s'
  end.

(** No code unit of the text is a line break. *)
Fixpoint noBreak (s : string) : bool :=
  match s with
  | EmptyString => true
  | String c s' => negb (Text.isLineBreak c) && noBreak s'
  end.

(** Every code unit of the text is a line break. *)
Fixpoint allBreaks (s : string) : bool :=
  match s with
  | EmptyString => true
  | String c s' => Text.isLineBreak c && allBreaks s'
  end.

(** The line feed and the carriage return. *)
Definition LF : string := String (Ascii.ascii_of_N 10) EmptyString.
Definition CR : string := String (Ascii.ascii_of_N 13) EmptyString.

(** The providers of the examples that cannot be reached, answer with a
    page that is no JSON, and answer with no route. *)
Definition fetchOffline (url apiKey : string) : Exn + Response :=
  inl TypeError.
Definition fetchPage (url apiKey : string) : Exn + Response :=
  inr {| status := 200; json := None |}.
Definition fetchNoRoute (url apiKey : string) : Exn + Response :=
  inr {| status := 200; json := Some {| routes := [] |} |}.

(** The files of the examples: the coordinates of [coordsEx] on Windows
    lines, a file of blank lines, and no other file. *)
Definition readFileEx (path : string) : Exn + string :=
  if bool_decide (path = "coords.txt") then
    inr (String.concat (CR +:+ LF) coordsEx)
  else if bool_decide (path = "blank.txt") then inr (" " +:+ LF +:+ LF)
  else inl (Error "ENOENT: no such file or directory").

(** The problem of the examples. *)
Definition problemEx : pb.Problem :=
  {| pb.path := "coords.txt"; pb.dimension := 3; pb.algorithm := "GA";
     pb.isRealInstance := true; pb.apiName := Some pc.NESHAN |}.

(** ** capitalize *)

(** No code unit of the text is white space. *)
Definition noSpace (w : list N) : bool :=
  forallb (fun c => negb (Utf16.isWhiteSpace c)) w.

(** Every code unit of the text is white space. *)
Definition spaces (w : list N) : bool := forallb Utf16.isWhiteSpace w.

(** The text does not begin with white space. *)
Definition startsWord (str : list N) : bool :=
  match str with
  | [] => true
  | c :: _ => negb (Utf16.isWhiteSpace c)
  end.

(** Upper case for the letters a to z, for the examples. *)
Definition toUpperCaseEx (c : N) : list N :=
  if ((97 <=? c) && (c <=? 122))%N then [(c - 32)%N] else [c].

(** ** Problems with too few tours *)

(** Three nodes and four chromosomes a generation: more than half of the
    six tours and fewer than all. *)
Definition tableT : CostTable :=
  [(0,0,0); (0,1,2); (0,2,3);
   (1,0,2); (1,1,0); (1,2,4);
   (2,0,3); (2,1,4); (2,2,0)].
Definition configsT : IConfigs :=
  {| dimension := 3; fixedOriginIndex := None; returnToOrigin := None;
     populationSize := Some 4; nnaPercentage := None; maxGens := None;
     maxChrAge := None; mutationRate := None; eliteCount := None |}.
Definition gaT : GA := {| costTable := tableT; configs := configsT |}.
Definition generationT : EvaluatedPopulation :=
  [([0;1;2], Fin (1 # 6)); ([0;2;1], Fin (1 # 7));
   ([1;0;2], Fin (1 # 5)); ([2;0;1], Fin (1 # 5))].

(** Five nodes on a line and the configs that only give the dimension: the
    population size is the default one, 100 of the 120 tours. *)
Definition table5 : CostTable :=
  o ← seqZ 0 5; d ← seqZ 0 5; [(o, d, Z.abs (o - d))].
Definition configs5 : IConfigs :=
  {| dimension := 5; fixedOriginIndex := None; returnToOrigin := None;
     populationSize := None; nnaPercentage := None; maxGens := None;
     maxChrAge := None; mutationRate := None; eliteCount := None |}.
Definition ga5 : GA := {| costTable := table5; configs := configs5 |}.

(** ** The text of a thrown value *)

(** The text [`${err}`] of a thrown value as far as the model has it: all
    of it for an Error and an AppError; for a TypeError, SyntaxError or
    RangeError of the platform the name that the text starts with. *)
Definition printsAs (e : Exn) (text : string) : Prop :=
  match e with
  | Error m | AppError _ m => text = errorString "Error" m
  | TypeError => String.prefix "TypeError" text = true
  | SyntaxError => String.prefix "SyntaxError" text = true
  | RangeError => String.prefix "RangeError" text = true
  end.
(* ********************************************************************* *)
(** * Properties *)
(* ********************************************************************* *)

(** ** The order of fitness values *)
Lemma Qltb_lt a b : Qltb a b = true <-> (a < b)%Q.
Proof.
  unfold Qltb. rewrite negb_true_iff. split.
  - intros H. apply Qnot_le_lt. intros Hle. apply Qle_bool_iff in Hle. congruence.
  - intros H. destruct (Qle_bool b a) eqn:E; auto.
    apply Qle_bool_iff in E. exfalso. eapply Qlt_not_le; eauto.
Qed.
Lemma Qltb_ge a b : Qltb a b = false <-> (b <= a)%Q.
Proof.
  unfold Qltb. rewrite negb_false_iff. apply Qle_bool_iff.
Qed.

Lemma num_ltb_irrefl x : num_ltb x x = false.
Proof. destruct x; simpl; auto. apply Qltb_ge. apply Qle_refl. Qed.

Lemma num_ltb_trans x y z : num_ltb x y = true -> num_ltb y z = true -> num_ltb x z = true.
Proof.
  destruct x, y, z; simpl; auto; try discriminate.
  rewrite !Qltb_lt. apply Qlt_trans.
Qed.

Lemma num_leb_trans x y z : num_ltb y x = false -> num_ltb z y = false -> num_ltb z x = false.
Proof.
  destruct x, y, z; simpl; auto; try discriminate.
  rewrite !Qltb_ge. intros. eapply Qle_trans; eauto.
Qed.

Lemma num_ltb_asym x y : num_ltb x y = true -> num_ltb y x = false.
Proof.
  destruct x, y; simpl; auto; try discriminate.
  rewrite Qltb_lt, Qltb_ge. apply Qlt_le_weak.
Qed.

(** ** quickSort sorts *)

Section QuickSortProofs.
Context {K : Type}.
Implicit Types (s : list (K * number)) (p v : number).

Lemma get_Some_range {A} (a : list A) i x : JS.get a i = Some x -> 0 <= i < JS.len a.
Proof.
  unfold JS.get, JS.len. destruct (i <? 0) eqn:E; [discriminate|].
  intros H%lookup_lt_Some. lia.
Qed.

Lemma get_in_range {A} (a : list A) i : 0 <= i < JS.len a -> exists x, JS.get a i = Some x.
Proof.
  unfold JS.get, JS.len. intros H. destruct (i <? 0) eqn:E; [lia|].
  destruct (lookup_lt_is_Some_2 a (Z.to_nat i)) as [x Hx]; [lia|]. eauto.
Qed.

Lemma get_lookup {A} (a : list A) i : 0 <= i -> JS.get a i = a !! Z.to_nat i.
Proof. unfold JS.get. intros. destruct (i <? 0) eqn:E; [lia|done]. Qed.



Lemma below_atMost s p i : below s p i -> atMost s p i.
Proof. intros (v & ? & ?). exists v. eauto using num_ltb_asym. Qed.
Lemma above_atLeast s p i : above s p i -> atLeast s p i.
Proof. intros (v & ? & ?). exists v. eauto using num_ltb_asym. Qed.

Lemma fz_Some_range s i v : fz s i = Some v -> 0 <= i < JS.len s.
Proof.
  unfold fz. destruct (JS.get s i) eqn:E; [|discriminate].
  intros _. eapply get_Some_range; eauto.
Qed.

Lemma fz_in_range s i : 0 <= i < JS.len s -> exists v, fz s i = Some v.
Proof. intros [x Hx]%get_in_range. unfold fz. rewrite Hx. simpl. eauto. Qed.

Lemma scanLeft_spec b s p : forall l t,
  0 <= l <= t -> atLeast s p t -> t - l < Z.of_nat b ->
  exists l', scanLeft b s p l = Return l' /\ l <= l' <= t /\ atLeast s p l'
             /\ forall i, l <= i < l' -> below s p i.
Proof.
  induction b as [|b IH]; intros l t Hlt Hge Hb; [lia|].
  destruct Hge as (vt & Hvt & Hcmp).
  pose proof (fz_Some_range _ _ _ Hvt) as Hr.
  destruct (fz_in_range s l) as [v Hv]; [lia|].
  simpl. unfold fitnessAt. fold (fz s l). rewrite Hv. simpl.
  destruct (num_ltb v p) eqn:E.
  - assert (l <> t) by (intros ->; congruence).
    destruct (IH (l + 1) t) as (l' & Hs & Hl' & Hat & Hbelow);
      [lia| exists vt; auto | lia |].
    exists l'. split; [exact Hs|]. split; [lia|]. split; [exact Hat|].
    intros i Hi. destruct (decide (i = l)) as [->|]; [exists v; auto|].
    apply Hbelow. lia.
  - exists l. split; [reflexivity|]. split; [lia|]. split; [exists v; auto|].
    intros; lia.
Qed.

Lemma scanRight_spec b s p : forall r t,
  0 <= t <= r -> r < JS.len s -> atMost s p t -> r - t < Z.of_nat b ->
  exists r', scanRight b s p r = Return r' /\ t <= r' <= r /\ atMost s p r'
             /\ forall i, r' < i <= r -> above s p i.
Proof.
  induction b as [|b IH]; intros r t Hlt Hlen Hle Hb; [lia|].
  destruct Hle as (vt & Hvt & Hcmp).
  destruct (fz_in_range s r) as [v Hv]; [lia|].
  simpl. unfold fitnessAt. fold (fz s r). rewrite Hv. simpl.
  destruct (num_ltb p v) eqn:E.
  - assert (r <> t) by (intros ->; congruence).
    destruct (IH (r - 1) t) as (r' & Hs & Hr' & Hat & Habove);
      [lia| lia | exists vt; auto | lia |].
    exists r'. split; [exact Hs|]. split; [lia|]. split; [exact Hat|].
    intros i Hi. destruct (decide (i = r)) as [->|]; [exists v; auto|].
    apply Habove. lia.
  - exists r. split; [reflexivity|]. split; [lia|]. split; [exists v; auto|].
    intros; lia.
Qed.

Lemma swap_length s i j : length (JS.swap s i j) = length s.
Proof.
  unfold JS.swap. destruct (s !! i), (s !! j); auto.
  by rewrite !length_insert.
Qed.

Lemma swap_Permutation s i j : JS.swap s i j ≡ₚ s.
Proof.
  unfold JS.swap. destruct (s !! i) eqn:Ei, (s !! j) eqn:Ej; auto.
  by apply Permutation_insert_swap.
Qed.

Lemma get_swap s i j k :
  (0 <= i < JS.len s) -> (0 <= j < JS.len s) ->
  JS.get (JS.swap s (Z.to_nat i) (Z.to_nat j)) k
  = if decide (k = j) then JS.get s i
    else if decide (k = i) then JS.get s j else JS.get s k.
Proof.
  intros Hi Hj.
  destruct (get_in_range s i Hi) as [x Hx], (get_in_range s j Hj) as [y Hy].
  rewrite get_lookup in Hx, Hy by lia.
  unfold JS.swap. rewrite Hx, Hy.
  unfold JS.get. destruct (k <? 0) eqn:Ek.
  { assert ((i <? 0) = false) as Hi0 by lia. assert ((j <? 0) = false) as Hj0 by lia.
    repeat case_decide; try lia. rewrite Hi0 || rewrite Hj0 || done. }
  assert ((i <? 0) = false) as -> by lia. assert ((j <? 0) = false) as -> by lia.
  unfold JS.len in *.
  repeat case_decide; subst.
  - rewrite list_lookup_insert_eq; [auto|]. rewrite length_insert. lia.
  - rewrite list_lookup_insert_ne by lia.
    rewrite list_lookup_insert_eq by lia. auto.
  - rewrite !list_lookup_insert_ne by lia. auto.
Qed.


Lemma segPerm_refl lo hi s : segPerm lo hi s s.
Proof. split; auto. intros i Hi. exists i. auto. Qed.

Lemma segPerm_trans lo hi s0 s1 s2 :
  segPerm lo hi s0 s1 -> segPerm lo hi s1 s2 -> segPerm lo hi s0 s2.
Proof.
  intros [L1 P1 O1 I1] [L2 P2 O2 I2]. split.
  - congruence.
  - etrans; eauto.
  - intros i Hi. rewrite O2, O1; auto.
  - intros i Hi. destruct (I2 i Hi) as (j & Hj & ->). apply I1; auto.
Qed.

Lemma segPerm_widen lo hi lo' hi' s0 s :
  lo' <= lo -> hi <= hi' -> segPerm lo hi s0 s -> segPerm lo' hi' s0 s.
Proof.
  intros Hlo Hhi [L P O I]. split; auto.
  - intros i Hi. apply O. lia.
  - intros i Hi. destruct (decide (lo <= i <= hi)) as [Hin|Hout].
    + destruct (I i Hin) as (j & Hj & ->). exists j. split; [lia|done].
    + exists i. split; [lia|]. apply O. lia.
Qed.

Lemma segPerm_swap lo hi s i j :
  0 <= lo -> hi < JS.len s -> lo <= i <= hi -> lo <= j <= hi ->
  segPerm lo hi s (JS.swap s (Z.to_nat i) (Z.to_nat j)).
Proof.
  intros Hlo Hhi Hi Hj. split.
  - apply swap_length.
  - apply swap_Permutation.
  - intros k Hk. rewrite get_swap by lia. repeat case_decide; auto; lia.
  - intros k Hk. rewrite get_swap by lia.
    repeat case_decide; subst; eauto.
Qed.

Lemma fz_segPerm_outside lo hi s0 s i :
  segPerm lo hi s0 s -> i < lo \/ hi < i -> fz s i = fz s0 i.
Proof. intros H Hi. unfold fz. by rewrite (sp_outside _ _ _ _ H). Qed.

Lemma len_segPerm lo hi s0 s : segPerm lo hi s0 s -> JS.len s = JS.len s0.
Proof. intros H. unfold JS.len. by rewrite (sp_length _ _ _ _ H). Qed.


Lemma atMost_swap s p i j k :
  (0 <= i < JS.len s) -> (0 <= j < JS.len s) ->
  atMost (JS.swap s (Z.to_nat i) (Z.to_nat j)) p k
  <-> atMost s p (if decide (k = j) then i else if decide (k = i) then j else k).
Proof.
  intros Hi Hj. unfold atMost, fz. rewrite get_swap by lia.
  repeat case_decide; reflexivity.
Qed.
Lemma atLeast_swap s p i j k :
  (0 <= i < JS.len s) -> (0 <= j < JS.len s) ->
  atLeast (JS.swap s (Z.to_nat i) (Z.to_nat j)) p k
  <-> atLeast s p (if decide (k = j) then i else if decide (k = i) then j else k).
Proof.
  intros Hi Hj. unfold atLeast, fz. rewrite get_swap by lia.
  repeat case_decide; reflexivity.
Qed.

Lemma partitionLoop_S b s p left right :
  partitionLoop (S b) s p left right
  = if left <=? right then
      left1 ← scanLeft (S (length s)) s p left;
      right1 ← scanRight (S (length s)) s p right;
      if left1 <=? right1 then
        partitionLoop b (JS.swap s (Z.to_nat left1) (Z.to_nat right1)) p
          (left1 + 1) (right1 - 1)
      else partitionLoop b s p left1 right1
    else Return (s, left).
Proof. reflexivity. Qed.

Lemma partitionLoop_spec L0 R0 p b : forall s left right,
  0 <= L0 -> R0 < JS.len s ->
  partInv L0 R0 p s left right ->
  (left <= right -> right - left + 3 <= Z.of_nat b) -> (1 <= b)%nat ->
  exists s' index,
    partitionLoop b s p left right = Return (s', index)
    /\ segPerm L0 R0 s s'
    /\ L0 < index <= R0
    /\ (forall i, L0 <= i < index -> atMost s' p i)
    /\ (forall i, index <= i <= R0 -> atLeast s' p i).
Proof.
  induction b as [|b IH]; intros s left right HL0 HR0 Inv Hb Hb1; [lia|].
  destruct Inv as [Hleft Hright Hlow Hhigh HstopL HstopR Hmoved].
  rewrite partitionLoop_S. destruct (left <=? right) eqn:Elr.
  - apply Z.leb_le in Elr.
    destruct (HstopL Elr) as (tl & Htl & Hatl & Hcap).
    destruct (HstopR Elr) as (tr & Htr & Hatr).
    destruct (scanLeft_spec (S (length s)) s p left tl) as (l1 & -> & Hl1 & Hl1ge & Hl1below);
      [lia | done | unfold JS.len in *; lia |].
    destruct (scanRight_spec (S (length s)) s p right tr) as (r1 & Hsr & Hr1 & Hr1le & Hr1above);
      [lia | lia | done | unfold JS.len in *; lia |].
    cbn [mbind Completion_bind]. rewrite Hsr. cbn [mbind Completion_bind].
    destruct (l1 <=? r1) eqn:E1.
    + apply Z.leb_le in E1.
      set (s1 := JS.swap s (Z.to_nat l1) (Z.to_nat r1)).
      assert (segPerm L0 R0 s s1) as Hseg by (apply segPerm_swap; lia).
      destruct (IH s1 (l1 + 1) (r1 - 1)) as (s' & index & Hrun & Hseg' & Hidx & Hlo' & Hhi');
        [lia | rewrite (len_segPerm _ _ _ _ Hseg); lia | | lia | lia |].
      { split.
        - lia.
        - lia.
        - intros i Hi. apply atMost_swap; [lia..|].
          repeat case_decide.
          + replace l1 with r1 by lia. done.
          + done.
          + destruct (decide (i < left)); [apply Hlow; lia|].
            apply below_atMost, Hl1below. lia.
        - intros i Hi. apply atLeast_swap; [lia..|].
          repeat case_decide.
          + done.
          + replace r1 with l1 by lia. done.
          + destruct (decide (right < i)); [apply Hhigh; lia|].
            apply above_atLeast, Hr1above. lia.
        - intros Hle. exists r1. split; [lia|]. split; [|lia].
          apply atLeast_swap; [lia..|]. rewrite decide_True by done. done.
        - intros Hle. exists l1. split; [lia|].
          apply atMost_swap; [lia..|].
          rewrite decide_False by lia. rewrite decide_True by done. done.
        - lia. }
      exists s', index. split; [exact Hrun|]. split; [|auto].
      eapply segPerm_trans; eauto.
    + apply Z.leb_gt in E1.
      destruct b as [|b']; [lia|]. rewrite partitionLoop_S.
      assert ((l1 <=? r1) = false) as -> by lia.
      exists s, l1. split; [done|]. split; [apply segPerm_refl|].
      split; [lia|]. split.
      * intros i Hi. destruct (decide (i < left)); [apply Hlow; lia|].
        apply below_atMost, Hl1below. lia.
      * intros i Hi. destruct (decide (right < i)); [apply Hhigh; lia|].
        apply above_atLeast, Hr1above. lia.
  - apply Z.leb_gt in Elr.
    exists s, left. split; [done|]. split; [apply segPerm_refl|].
    split; [lia|]. split.
    + auto.
    + intros i Hi. apply Hhigh. lia.
Qed.

Lemma atMost_self s i v : fz s i = Some v -> atMost s v i.
Proof. intros H. exists v. split; [done|apply num_ltb_irrefl]. Qed.
Lemma atLeast_self s i v : fz s i = Some v -> atLeast s v i.
Proof. intros H. exists v. split; [done|apply num_ltb_irrefl]. Qed.

(** The median of three leaves, left of the right end, an element that is
    not below the pivot: the first scan from the left stops before the
    right end. *)
Lemma choosePivot_spec s L0 R0 :
  0 <= L0 -> L0 < R0 -> R0 < JS.len s ->
  exists pivotIndex p,
    choosePivot s L0 R0 = Return pivotIndex
    /\ L0 <= pivotIndex <= R0
    /\ fz s pivotIndex = Some p
    /\ exists t, L0 <= t < R0 /\ atLeast s p t.
Proof.
  intros HL0 HLR HR0.
  assert (L0 <= (L0 + R0) `div` 2 < R0) as Hmid.
  { split; [apply Z.div_le_lower_bound; lia|apply Z.div_lt_upper_bound; lia]. }
  destruct (fz_in_range s L0) as [l Hl]; [lia|].
  destruct (fz_in_range s ((L0 + R0) `div` 2)) as [m Hm]; [lia|].
  destruct (fz_in_range s R0) as [r Hr]; [lia|].
  unfold choosePivot, fitnessAt. fold (fz s L0) (fz s ((L0 + R0) `div` 2)) (fz s R0).
  rewrite Hl, Hm, Hr. cbn [orTypeError mbind Completion_bind].
  destruct (num_ltb l m) eqn:Elm, (num_ltb m r) eqn:Emr, (num_ltb l r) eqn:Elr;
    eexists _, _; (split; [reflexivity|]); (split; [lia|]);
    (split; [eassumption|]);
    first [ by (exists ((L0 + R0) `div` 2); split; [lia|]; eexists; split; [exact Hm|first [apply num_ltb_irrefl|done]])
          | by (exists L0; split; [lia|]; eexists; split; [exact Hl|first [apply num_ltb_irrefl|done]]) ].
Qed.

Lemma partition_spec s L0 R0 :
  0 <= L0 -> L0 < R0 -> R0 < JS.len s ->
  exists s' index p,
    partition s L0 R0 = Return (s', index)
    /\ segPerm L0 R0 s s'
    /\ L0 < index <= R0
    /\ (forall i, L0 <= i < index -> atMost s' p i)
    /\ (forall i, index <= i <= R0 -> atLeast s' p i).
Proof.
  intros HL0 HLR HR0.
  destruct (choosePivot_spec s L0 R0) as (pi & p & Hcp & Hpi & Hp & t & Ht & Hat); [lia..|].
  destruct (partitionLoop_spec L0 R0 p (S (S (length s))) s L0 R0)
    as (s' & index & Hrun & Hrest); [lia|lia| |unfold JS.len in *; lia|lia|].
  { split; try lia.
    - intros _. exists t. split; [lia|]. split; [done|lia].
    - intros _. exists pi. split; [lia|]. by apply atMost_self. }
  exists s', index, p. split; [|exact Hrest].
  unfold partition. rewrite Hcp. cbn [mbind Completion_bind].
  unfold fitnessAt. fold (fz s pi). rewrite Hp. cbn [orTypeError mbind Completion_bind].
  exact Hrun.
Qed.


Lemma atMost_segPerm lo hi s0 s p a b :
  segPerm lo hi s0 s -> a <= lo -> hi <= b ->
  (forall i, a <= i <= b -> atMost s0 p i) ->
  (forall i, a <= i <= b -> atMost s p i).
Proof.
  intros H Ha Hb Hall i Hi. destruct (decide (lo <= i <= hi)) as [Hin|Hout].
  - destruct (sp_inside _ _ _ _ H i Hin) as (j & Hj & E).
    unfold atMost, fz. rewrite E. apply Hall. lia.
  - unfold atMost. rewrite (fz_segPerm_outside _ _ _ _ _ H) by lia. apply Hall. lia.
Qed.
Lemma atLeast_segPerm lo hi s0 s p a b :
  segPerm lo hi s0 s -> a <= lo -> hi <= b ->
  (forall i, a <= i <= b -> atLeast s0 p i) ->
  (forall i, a <= i <= b -> atLeast s p i).
Proof.
  intros H Ha Hb Hall i Hi. destruct (decide (lo <= i <= hi)) as [Hin|Hout].
  - destruct (sp_inside _ _ _ _ H i Hin) as (j & Hj & E).
    unfold atLeast, fz. rewrite E. apply Hall. lia.
  - unfold atLeast. rewrite (fz_segPerm_outside _ _ _ _ _ H) by lia. apply Hall. lia.
Qed.

Lemma ascending_segPerm_outside lo hi a b s0 s :
  segPerm lo hi s0 s -> (b < lo \/ hi < a) -> ascending a b s0 -> ascending a b s.
Proof.
  intros H Hd Hasc i j Hi Hij Hj.
  rewrite !(fz_segPerm_outside _ _ _ _ _ H) by lia. by apply Hasc.
Qed.

Lemma ascending_single s i : (0 <= i < JS.len s) -> ascending i i s.
Proof.
  intros Hi a b Ha Hab Hb. assert (a = i) as -> by lia. assert (b = i) as -> by lia.
  destruct (fz_in_range s i Hi) as [v Hv]. exists v, v. eauto using num_ltb_irrefl.
Qed.

Lemma quickSortRange_S b s left right :
  quickSortRange (S b) s left right
  = if 1 <? JS.len s then
      '(source1, index) ← partition s left right;
      source2 ← (if left <? index - 1
                 then quickSortRange b source1 left (index - 1)
                 else Return source1);
      if index <? right then quickSortRange b source2 index right
      else Return source2
    else Return s.
Proof. reflexivity. Qed.

Lemma quickSortRange_spec b : forall s L0 R0,
  0 <= L0 -> L0 < R0 -> R0 < JS.len s -> R0 - L0 <= Z.of_nat b ->
  exists s', quickSortRange b s L0 R0 = Return s'
             /\ segPerm L0 R0 s s' /\ ascending L0 R0 s'.
Proof.
  induction b as [|b IH]; intros s L0 R0 HL0 HLR HR0 Hb; [lia|].
  rewrite quickSortRange_S.
  assert ((1 <? JS.len s) = true) as -> by lia.
  destruct (partition_spec s L0 R0) as (s1 & index & p & -> & Hseg1 & Hidx & Hlo & Hhi); [lia..|].
  cbn [mbind Completion_bind].
  pose proof (len_segPerm _ _ _ _ Hseg1) as Hlen1.
  (* the left part *)
  assert (exists s2, (if L0 <? index - 1 then quickSortRange b s1 L0 (index - 1)
                      else Return s1) = Return s2
                     /\ segPerm L0 (index - 1) s1 s2 /\ ascending L0 (index - 1) s2)
    as (s2 & -> & Hseg2 & Hasc2).
  { destruct (L0 <? index - 1) eqn:E.
    - apply IH; lia.
    - exists s1. split; [done|]. split; [apply segPerm_refl|].
      replace (index - 1) with L0 by lia. apply ascending_single. lia. }
  cbn [mbind Completion_bind].
  pose proof (len_segPerm _ _ _ _ Hseg2) as Hlen2.
  (* the right part *)
  assert (exists s3, (if index <? R0 then quickSortRange b s2 index R0
                      else Return s2) = Return s3
                     /\ segPerm index R0 s2 s3 /\ ascending index R0 s3)
    as (s3 & -> & Hseg3 & Hasc3).
  { destruct (index <? R0) eqn:E.
    - apply IH; lia.
    - exists s2. split; [done|]. split; [apply segPerm_refl|].
      replace R0 with index by lia. apply ascending_single. lia. }
  exists s3. split; [done|]. split.
  { eapply segPerm_trans; [exact Hseg1|].
    eapply segPerm_trans; [eapply segPerm_widen; [| |exact Hseg2]; lia|].
    eapply segPerm_widen; [| |exact Hseg3]; lia. }
  (* the bounds survive the recursive calls *)
  assert (forall i, L0 <= i <= index - 1 -> atMost s3 p i) as Hlo3.
  { intros i Hi. unfold atMost.
    rewrite (fz_segPerm_outside _ _ _ _ _ Hseg3) by lia.
    apply (atMost_segPerm L0 (index - 1) s1 s2 p L0 (index - 1)); [done|lia|lia| |done].
    intros k Hk. apply Hlo. lia. }
  assert (forall i, index <= i <= R0 -> atLeast s3 p i) as Hhi3.
  { apply (atLeast_segPerm index R0 s2 s3 p index R0); [done|lia|lia|].
    intros k Hk. unfold atLeast.
    rewrite (fz_segPerm_outside _ _ _ _ _ Hseg2) by lia. apply Hhi. lia. }
  intros i j Hi Hij Hj.
  destruct (decide (j <= index - 1)) as [Hj1|Hj1].
  { apply (ascending_segPerm_outside index R0 L0 (index - 1) s2 s3); auto. lia. }
  destruct (decide (index <= i)) as [Hi1|Hi1].
  { apply Hasc3; lia. }
  destruct (Hlo3 i) as (a & Ha & Hap); [lia|].
  destruct (Hhi3 j) as (c & Hc & Hcp); [lia|].
  exists a, c. split; [done|]. split; [done|].
  eapply num_leb_trans; eauto.
Qed.

Theorem quickSort_spec s :
  exists s', quickSort s = Return s' /\ s' ≡ₚ s
             /\ forall i j x y, s' !! i = Some x -> s' !! j = Some y ->
                  (i <= j)%nat -> num_ltb y.2 x.2 = false.
Proof.
  unfold quickSort. destruct (decide (JS.len s <= 1)) as [Hs|Hl].
  - rewrite quickSortRange_S. assert ((1 <? JS.len s) = false) as -> by lia.
    exists s. split; [done|]. split; [done|].
    intros i j x y Hx Hy Hij.
    apply lookup_lt_Some in Hx as Hi. apply lookup_lt_Some in Hy as Hj.
    unfold JS.len in Hs. assert (i = j) as -> by lia.
    rewrite Hx in Hy. injection Hy as ->. apply num_ltb_irrefl.
  - destruct (quickSortRange_spec (S (length s)) s 0 (JS.len s - 1))
      as (s' & Hrun & Hseg & Hasc); [lia|lia|lia|unfold JS.len; lia|].
    exists s'. split; [done|]. split; [apply (sp_perm _ _ _ _ Hseg)|].
    intros i j x y Hx Hy Hij.
    apply lookup_lt_Some in Hy as Hj.
    rewrite (sp_length _ _ _ _ Hseg) in Hj.
    destruct (Hasc (Z.of_nat i) (Z.of_nat j)) as (a & c & Ha & Hc & Hac);
      [lia|lia|unfold JS.len; lia|].
    unfold fz in Ha, Hc. rewrite get_lookup in Ha, Hc by lia.
    rewrite Nat2Z.id in Ha, Hc. rewrite Hx in Ha. rewrite Hy in Hc.
    simpl in Ha, Hc. congruence.
Qed.
End QuickSortProofs.

(** ** Sets and maps *)

Section SetFacts.
Context {A : Type} `{EqDecision A}.
Implicit Types (s l : list A).

Lemma includes_true s x : JS.includes s x = true <-> x ∈ s.
Proof. unfold JS.includes. apply bool_decide_eq_true. Qed.
Lemma includes_false s x : JS.includes s x = false <-> x ∉ s.
Proof. unfold JS.includes. apply bool_decide_eq_false. Qed.

Lemma Set_add_elem s x y : y ∈ JS.Set_add s x <-> y ∈ s \/ y = x.
Proof.
  unfold JS.Set_add. destruct (JS.includes s x) eqn:E.
  - apply includes_true in E. split; [auto|]. intros [?| ->]; auto.
  - rewrite elem_of_app, list_elem_of_singleton. tauto.
Qed.

Lemma Set_add_NoDup s x : NoDup s -> NoDup (JS.Set_add s x).
Proof.
  unfold JS.Set_add. destruct (JS.includes s x) eqn:E; auto.
  apply includes_false in E. intros H. apply NoDup_app. split; [done|].
  split; [|apply NoDup_singleton].
  intros y Hy ->%list_elem_of_singleton. done.
Qed.

Lemma Set_add_head s x a : head s = Some a -> head (JS.Set_add s x) = Some a.
Proof.
  unfold JS.Set_add. destruct (JS.includes s x); auto.
  destruct s; simpl; [discriminate|auto].
Qed.

Lemma Set_of_acc_NoDup l : forall s, NoDup (s ++ l) -> foldl JS.Set_add s l = s ++ l.
Proof.
  induction l as [|x l IH]; intros s H; simpl.
  - by rewrite app_nil_r.
  - assert (JS.Set_add s x = s ++ [x]) as ->.
    { unfold JS.Set_add. destruct (JS.includes s x) eqn:E; auto.
      apply includes_true in E. apply NoDup_app in H as (_ & H & _).
      exfalso. apply (H x E). left. }
    rewrite IH; rewrite <- app_assoc; done.
Qed.

Lemma Set_of_NoDup l : NoDup l -> JS.Set_of l = l.
Proof. intros H. unfold JS.Set_of. by rewrite Set_of_acc_NoDup. Qed.

Lemma Set_of_acc_spec l : forall s, NoDup s ->
  NoDup (foldl JS.Set_add s l) /\ forall y, y ∈ foldl JS.Set_add s l <-> y ∈ s \/ y ∈ l.
Proof.
  induction l as [|x l IH]; intros s H; simpl.
  - split; [done|]. intros y. rewrite elem_of_nil. tauto.
  - destruct (IH (JS.Set_add s x) (Set_add_NoDup s x H)) as [Hn He].
    split; [done|]. intros y. rewrite He, Set_add_elem, elem_of_cons. tauto.
Qed.

Lemma Set_of_is_NoDup l : NoDup (JS.Set_of l).
Proof. apply Set_of_acc_spec. constructor. Qed.
Lemma Set_of_elem l y : y ∈ JS.Set_of l <-> y ∈ l.
Proof.
  unfold JS.Set_of. destruct (Set_of_acc_spec l [] (NoDup_nil_2)) as [_ H].
  rewrite H, elem_of_nil. tauto.
Qed.
End SetFacts.

(** ** random(min, max) stays in its range *)

Lemma unif_bounds (u : Unif) : (0 <= unif u)%Q /\ (unif u < 1)%Q.
Proof.
  destruct u as [q H]. simpl. apply andb_true_iff in H as [H1 H2].
  split; [by apply Qle_bool_iff|by apply Qltb_lt].
Qed.

Lemma random_range (u : Unif) (min max : Z) :
  min <= max -> min <= random u min max <= max.
Proof.
  intros H. unfold random. destruct (unif_bounds u) as [H0 H1].
  set (k := max - min + 1). assert (0 < k) by lia.
  assert (0 <= Qfloor (unif u * inject_Z k) < k); [|lia].
  split.
  - change 0 with (Qfloor (inject_Z 0)). apply Qfloor_resp_le.
    change (inject_Z 0) with 0%Q. apply Qmult_le_0_compat; [done|].
    change 0%Q with (inject_Z 0). rewrite <- Zle_Qle. lia.
  - rewrite Zlt_Qlt. eapply Qle_lt_trans; [apply Qfloor_le|].
    rewrite <- (Qmult_1_l (inject_Z k)) at 2.
    apply Qmult_lt_compat_r; [|done].
    change 0%Q with (inject_Z 0). rewrite <- Zlt_Qlt. lia.
Qed.

(** Under a fixed origin a locus is drawn from [1, N-1]; the draw is at
    least 1 for every N >= 1. *)
Lemma random_lower (u : Unif) (min max : Z) :
  min <= max + 1 -> min <= random u min max.
Proof.
  intros H. destruct (decide (min <= max)) as [Hle|Hgt].
  - apply random_range; done.
  - unfold random. replace (max - min + 1) with 0 by lia.
    assert (unif u * inject_Z 0 == inject_Z 0)%Q as -> by (simpl; ring).
    rewrite Qfloor_Z. lia.
Qed.

(** ** Rules for outcomes *)

Lemma post_Return {A} E (P : A -> Prop) a : P a -> post E P (Return a).
Proof. done. Qed.

Lemma post_mono {A} E (P Q : A -> Prop) c :
  (forall a, P a -> Q a) -> post E P c -> post E Q c.
Proof. destruct c; simpl; auto. Qed.

Lemma post_weaken {A} (E : Prop) (P : A -> Prop) c : post False P c -> post E P c.
Proof. destruct c; simpl; tauto. Qed.

Lemma post_bind {A B} E (Q : A -> Prop) (P : B -> Prop) c (k : A -> Completion B) :
  post E Q c -> (forall a, Q a -> post E P (k a)) -> post E P (c ≫= k).
Proof. destruct c; simpl; auto. Qed.

Lemma post_Return_inv {A} E (P : A -> Prop) c a : post E P c -> c = Return a -> P a.
Proof. intros H ->. exact H. Qed.

Lemma post_Math_random E draws :
  post E (fun r : Unif * list Unif => True) (Math_random draws).
Proof. destruct draws; done. Qed.

Lemma post_randomR E min max draws :
  post E (fun r : Z * list Unif => exists u, r.1 = random u min max)
    (randomR min max draws).
Proof. destruct draws; simpl; eauto. Qed.

Lemma post_while {S} E (I : S -> Prop) budget cond (body : S -> Rand S) :
  (forall s draws, I s -> cond s = true ->
     post E (fun r => I r.1) (body s draws)) ->
  forall s draws, I s ->
    post E (fun r => I r.1 /\ cond r.1 = false) (while budget cond body s draws).
Proof.
  intros Hbody. induction budget as [|b IH]; intros s draws Hs; simpl; [done|].
  destruct (cond s) eqn:Ec; [|done].
  eapply post_bind; [apply Hbody; done|].
  intros [s' draws'] Hs'. apply IH. exact Hs'.
Qed.

Lemma post_doWhile {S} E (I : S -> Prop) budget cond (body : S -> Rand S) :
  (forall s draws, post E (fun r => I r.1) (body s draws)) ->
  forall s draws,
    post E (fun r => I r.1 /\ cond r.1 = false) (doWhile budget cond body s draws).
Proof.
  intros Hbody s draws. unfold doWhile.
  eapply post_bind; [apply Hbody|].
  intros [s' draws'] Hs'. apply post_while; [|done].
  intros; apply Hbody.
Qed.

(** ** Mutation *)

Lemma slice_sublist {A} (a : list A) b e : JS.slice a b e `sublist_of` a.
Proof.
  unfold JS.slice. etrans; [apply sublist_take|apply sublist_drop].
Qed.

Lemma splice_insert_Permutation {A} (a items : list A) start :
  JS.splice a start 0 items ≡ₚ items ++ a.
Proof.
  unfold JS.splice. simpl.
  replace (Z.to_nat (Z.min 0 _)) with 0%nat by lia.
  rewrite Nat.add_0_r.
  rewrite (Permutation_app_comm (take _ a)), <- app_assoc.
  apply Permutation_app_head.
  rewrite Permutation_app_comm. by rewrite take_drop.
Qed.

Lemma filter_out_Permutation (c inv : list Z) :
  NoDup c -> NoDup inv -> (forall x, x ∈ inv -> x ∈ c) ->
  inv ++ List.filter (fun gene => negb (JS.includes inv gene)) c ≡ₚ c.
Proof.
  intros Hc Hinv Hsub. apply NoDup_Permutation; [|done|].
  - apply NoDup_app. split; [done|]. split; [|by apply NoDup_ListNoDup, List.NoDup_filter, NoDup_ListNoDup].
    intros x Hx [_ Hf]%list_elem_of_In%filter_In.
    apply negb_true_iff, includes_false in Hf. done.
  - intros x. rewrite elem_of_app, (list_elem_of_In (List.filter _ _)), filter_In.
    rewrite <- list_elem_of_In, negb_true_iff, includes_false.
    split; [intros [?|[? _]]; auto|].
    intros Hx. destruct (decide (x ∈ inv)); auto.
  Qed.

Lemma drawMutationLoci_post this budget draws :
  post False (fun _ => True) (drawMutationLoci this budget draws).
Proof.
  unfold drawMutationLoci.
  eapply post_mono; [|apply (post_doWhile False (fun _ => True))]; [done|].
  intros s d. eapply post_bind; [apply post_randomR|]. intros [a d1] _.
  eapply post_bind; [apply post_randomR|]. intros [b d2] _. done.
Qed.

(** Whatever the loci and the displacement are, a chromosome without
    repeated genes keeps its genes, the gene count check passes and the
    result has no repeated gene either. *)
Lemma mutate_post this budget (c : ChromosomeStr) draws :
  NoDup c ->
  post False (fun r => r.1 ≡ₚ c) (_mutate this budget c draws).
Proof.
  intros Hc. unfold _mutate, strToChr. rewrite (Set_of_NoDup c Hc).
  eapply post_bind; [apply drawMutationLoci_post|]. intros [loci d1] _.
  destruct (if loci.2 <? loci.1 then (loci.2, loci.1) else loci)
    as [firstLocus lastLocus].
  set (inv := reverse (JS.slice c firstLocus (lastLocus + 1))).
  set (f := List.filter _ c).
  eapply post_bind; [apply post_randomR|]. intros [disp d2] _.
  assert (JS.splice f disp 0 inv ≡ₚ c) as Hperm.
  { rewrite splice_insert_Permutation. apply filter_out_Permutation; [done| |].
    - unfold inv. rewrite reverse_Permutation.
      eapply sublist_NoDup; [done|apply slice_sublist].
    - intros x Hx. unfold inv in Hx. rewrite elem_of_reverse in Hx.
      eapply elem_of_sublist; [done|apply slice_sublist]. }
  assert (JS.len (JS.splice f disp 0 inv) = JS.len c) as ->.
  { unfold JS.len. by rewrite Hperm. }
  rewrite Z.eqb_refl. simpl. unfold chrToStr.
  rewrite Set_of_NoDup; [done|]. by rewrite Hperm.
Qed.

(** ** Crossover *)

Lemma indexOf_from_found (l : list Z) g : forall k,
  g ∈ l -> exists n : nat, JS.indexOf_from l g k = k + Z.of_nat n /\ (n < length l)%nat.
Proof.
  induction l as [|y l IH]; intros k Hg; [by apply elem_of_nil in Hg|].
  simpl. case_bool_decide as E.
  - exists 0%nat. simpl. split; lia.
  - apply elem_of_cons in Hg as [->|Hg]; [done|].
    destruct (IH (k + 1) Hg) as (n & -> & Hn). exists (S n). simpl. split; lia.
Qed.

Lemma splice_cons {A} (y : A) l i dc items :
  0 <= i -> JS.splice (y :: l) (i + 1) dc items = y :: JS.splice l i dc items.
Proof.
  intros Hi. unfold JS.splice, JS.relIndex, JS.len.
  assert ((i + 1 <? 0) = false) as -> by lia. assert ((i <? 0) = false) as -> by lia.
  cbn [length].
  replace (Z.to_nat (Z.min (i + 1) (Z.of_nat (S (length l)))))
    with (S (Z.to_nat (Z.min i (Z.of_nat (length l))))) by lia.
  set (ks := Z.to_nat (Z.min i (Z.of_nat (length l)))).
  replace (Z.of_nat (S (length l)) - Z.of_nat (S ks))
    with (Z.of_nat (length l) - Z.of_nat ks) by lia.
  done.
Qed.

Lemma indexOf_from_shift (l : list Z) g : forall k,
  g ∈ l -> JS.indexOf_from l g (k + 1) = JS.indexOf_from l g k + 1.
Proof.
  induction l as [|z l IH]; intros k Hg; [by apply elem_of_nil in Hg|].
  cbn [JS.indexOf_from]. case_bool_decide; [lia|].
  apply elem_of_cons in Hg as [->|Hg]; [done|]. by rewrite (IH (k + 1) Hg).
Qed.

Lemma mark1_punch l g : g ∈ l -> mark1 l g = punch g l.
Proof.
  unfold mark1, JS.indexOf. induction l as [|y l IH]; intros Hg; [by apply elem_of_nil in Hg|].
  cbn [JS.indexOf_from punch]. case_bool_decide as E.
  - unfold JS.splice, JS.relIndex, JS.len. simpl.
    replace (Z.to_nat (Z.min 1 _)) with 1%nat by lia. done.
  - apply elem_of_cons in Hg as [->|Hg]; [done|].
    destruct (indexOf_from_found l g 0 Hg) as (m & Hm & _).
    rewrite (indexOf_from_shift l g 0 Hg).
    rewrite splice_cons by lia. rewrite IH; done.
Qed.

Lemma punch_Permutation l g : g ∈ l -> g :: punch g l ≡ₚ -1 :: l.
Proof.
  induction l as [|y l IH]; intros Hg; [by apply elem_of_nil in Hg|].
  simpl. case_bool_decide as E.
  - subst. apply Permutation_swap.
  - apply elem_of_cons in Hg as [->|Hg]; [done|].
    rewrite Permutation_swap, (IH Hg). apply Permutation_swap.
Qed.

Lemma punch_length l g : length (punch g l) = length l.
Proof. induction l as [|y l IH]; simpl; [done|]. case_bool_decide; simpl; auto. Qed.

Lemma punch_head l g a : head l = Some a -> a <> g -> head (punch g l) = Some a.
Proof. destruct l; simpl; [done|]. intros [= ->] ?. by rewrite bool_decide_false. Qed.

Lemma fill_Permutation l g : -1 ∈ l -> -1 :: fillFirstHole l g ≡ₚ g :: l.
Proof.
  induction l as [|y l IH]; intros Hg; [by apply elem_of_nil in Hg|].
  simpl. destruct (y =? -1) eqn:E; simpl.
  - apply Z.eqb_eq in E as ->. apply Permutation_swap.
  - apply Z.eqb_neq in E. apply elem_of_cons in Hg as [Hg|Hg]; [done|].
    rewrite Permutation_swap, (IH Hg). apply Permutation_swap.
Qed.

Lemma fill_head l g a : head l = Some a -> a <> -1 -> head (fillFirstHole l g) = Some a.
Proof.
  destruct l; simpl; [done|]. intros [= ->] ?.
  assert ((a =? -1) = false) as -> by lia. done.
Qed.

(** Marking: the genes taken out and the holes put in. *)
Lemma mark_all gs : forall o,
  NoDup gs -> (forall g, g ∈ gs -> g ∈ o) ->
  gs ++ foldl mark1 o gs ≡ₚ replicate (length gs) (-1) ++ o.
Proof.
  induction gs as [|g gs IH]; intros o Hnd Hin; simpl; [done|].
  apply NoDup_cons in Hnd as [Hg Hnd].
  rewrite mark1_punch by (apply Hin; left).
  rewrite IH; [|done|].
  - rewrite (Permutation_middle _ _ g), punch_Permutation by (apply Hin; left).
    by rewrite <- Permutation_middle.
  - intros h Hh. assert (h ∈ g :: punch g o) as Hx.
    { rewrite punch_Permutation by (apply Hin; left). right. apply Hin. by right. }
    apply elem_of_cons in Hx as [->|]; done.
Qed.

Lemma holes_Permutation l k : l ≡ₚ k -> holes l = holes k.
Proof. intros H. unfold holes. by apply Permutation_count_occ. Qed.

Lemma holes_replicate n : holes (replicate n (-1)) = n.
Proof. induction n; simpl; [done|]. unfold holes in *. simpl. by rewrite IHn. Qed.

Lemma holes_0 l : -1 ∉ l -> holes l = 0%nat.
Proof. intros H. apply count_occ_not_In. by rewrite <- list_elem_of_In. Qed.

Lemma holes_pos l : (0 < holes l)%nat -> -1 ∈ l.
Proof. intros H. apply list_elem_of_In. by apply (count_occ_In Z.eq_dec). Qed.

Lemma holes_app l k : holes (l ++ k) = (holes l + holes k)%nat.
Proof. apply count_occ_app. Qed.

(** Filling: as many genes as there are holes. *)
Lemma fill_all gs : forall o,
  -1 ∉ gs -> (length gs <= holes o)%nat ->
  replicate (length gs) (-1) ++ foldl fillFirstHole o gs ≡ₚ gs ++ o.
Proof.
  induction gs as [|g gs IH]; intros o Hgs Hlen; simpl; [done|].
  apply not_elem_of_cons in Hgs as [Hg Hgs]. simpl in Hlen.
  assert (-1 ∈ o) as Ho by (apply holes_pos; lia).
  pose proof (fill_Permutation o g Ho) as Hfill.
  assert (holes (fillFirstHole o g) = pred (holes o)) as Hh.
  { apply holes_Permutation in Hfill. unfold holes in *. simpl in Hfill.
    destruct (Z.eq_dec g (-1)); [congruence|]. lia. }
  rewrite IH; [|done|lia].
  rewrite (Permutation_middle gs _ (-1)), Hfill.
  by rewrite <- Permutation_middle.
Qed.

(** The two loops of [_mate] on the pair of offspring are the marking and the
    filling of each, as long as the loci lie inside both parents. *)
Lemma forEachLocus_mark pA pB loci : forall o,
  (forall l, l ∈ loci -> 0 <= l < JS.len pA /\ 0 <= l < JS.len pB) ->
  forEachLocus (markLocus pA pB) o loci
  = Return (foldl mark1 o.1 (genesAt pB loci), foldl mark1 o.2 (genesAt pA loci)).
Proof.
  induction loci as [|l loci IH]; intros [oA oB] Hr; [done|].
  destruct (Hr l) as [HA HB]; [left|].
  destruct (get_in_range pA l HA) as [gA EA], (get_in_range pB l HB) as [gB EB].
  cbn [forEachLocus].
  assert (markLocus pA pB (oA, oB) l = Return (mark1 oA gB, mark1 oB gA)) as ->
    by (unfold markLocus; by rewrite EA, EB).
  cbn [mbind Completion_bind].
  rewrite IH by (intros; apply Hr; by right).
  unfold genesAt. rewrite !fmap_cons, EA, EB. done.
Qed.

Lemma forEachLocus_fill pA pB loci : forall o,
  (forall l, l ∈ loci -> 0 <= l < JS.len pA /\ 0 <= l < JS.len pB) ->
  forEachLocus (fillLocus pA pB) o loci
  = Return (foldl fillFirstHole o.1 (genesAt pB loci),
            foldl fillFirstHole o.2 (genesAt pA loci)).
Proof.
  induction loci as [|l loci IH]; intros [oA oB] Hr; [done|].
  destruct (Hr l) as [HA HB]; [left|].
  destruct (get_in_range pA l HA) as [gA EA], (get_in_range pB l HB) as [gB EB].
  cbn [forEachLocus].
  assert (fillLocus pA pB (oA, oB) l = Return (fillFirstHole oA gB, fillFirstHole oB gA)) as ->
    by (unfold fillLocus; by rewrite EA, EB).
  cbn [mbind Completion_bind].
  rewrite IH by (intros; apply Hr; by right).
  unfold genesAt. rewrite !fmap_cons, EA, EB. done.
Qed.

Lemma JSsort_insert_Permutation {A} (cmp : A -> A -> Z) x l :
  JSsort.insert cmp x l ≡ₚ x :: l.
Proof.
  induction l as [|y l IH]; simpl; [done|].
  destruct (cmp x y <=? 0); [done|]. rewrite IH. apply Permutation_swap.
Qed.

Lemma JSsort_Permutation {A} (cmp : A -> A -> Z) l : JSsort.sort cmp l ≡ₚ l.
Proof.
  induction l as [|x l IH]; simpl; [done|].
  rewrite JSsort_insert_Permutation. by rewrite IH.
Qed.

Lemma genesAt_elem p loci g :
  g ∈ genesAt p loci -> (forall l, l ∈ loci -> 0 <= l < JS.len p) -> g ∈ p.
Proof.
  unfold genesAt. intros (l & -> & Hl)%list_elem_of_fmap Hr.
  pose proof (Hr l Hl) as R.
  destruct (get_in_range p l R) as [x Hx]. rewrite Hx. simpl.
  rewrite get_lookup in Hx by lia.
  by eapply list_elem_of_lookup_2.
Qed.

Lemma genesAt_NoDup p loci :
  NoDup p -> NoDup loci -> (forall l, l ∈ loci -> 0 <= l < JS.len p) ->
  NoDup (genesAt p loci).
Proof.
  intros Hp Hl Hr. unfold genesAt. apply NoDup_fmap_2_strong; [|done].
  intros l1 l2 H1 H2 E.
  pose proof (Hr l1 H1) as R1. pose proof (Hr l2 H2) as R2.
  destruct (get_in_range p l1 R1) as [x1 E1].
  destruct (get_in_range p l2 R2) as [x2 E2].
  rewrite E1, E2 in E. simpl in E. subst x2.
  rewrite get_lookup in E1, E2 by lia.
  pose proof (NoDup_lookup p _ _ _ Hp E1 E2). lia.
Qed.

Lemma genesAt_Permutation p l1 l2 : l1 ≡ₚ l2 -> genesAt p l1 ≡ₚ genesAt p l2.
Proof. intros H. unfold genesAt. by rewrite H. Qed.

(** One offspring: marked at the genes [gs] of the other parent and filled
    with the same genes in another order, it has the genes of its parent. *)
Lemma mark_fill_Permutation (o gs gs' : list Z) :
  NoDup gs -> (forall g, g ∈ gs -> g ∈ o) -> -1 ∉ o -> gs' ≡ₚ gs ->
  foldl fillFirstHole (foldl mark1 o gs) gs' ≡ₚ o.
Proof.
  intros Hnd Hin Ho Hperm.
  pose proof (mark_all gs o Hnd Hin) as Hmark.
  assert (-1 ∉ gs) as Hgs by (intros H; apply Ho, Hin, H).
  assert (holes (foldl mark1 o gs) = length gs) as Hholes.
  { apply holes_Permutation in Hmark. rewrite !holes_app in Hmark.
    rewrite holes_replicate, (holes_0 gs), (holes_0 o) in Hmark by done. lia. }
  pose proof (fill_all gs' (foldl mark1 o gs)) as Hfill.
  rewrite Hperm in Hfill at 1 2 3. rewrite Hholes in Hfill.
  specialize (Hfill Hgs (le_n _)).
  rewrite Hperm in Hfill at 2. rewrite Hmark in Hfill.
  by apply Permutation_app_inv_l in Hfill.
Qed.

Lemma crossover_Permutation pA pB loci N :
  pA ≡ₚ seqZ 0 N -> pB ≡ₚ seqZ 0 N ->
  NoDup loci -> (forall l, l ∈ loci -> 0 <= l < N) ->
  exists cA cB, crossover pA pB loci = Return (cA, cB) /\ cA ≡ₚ pA /\ cB ≡ₚ pB.
Proof.
  intros HA HB Hnd Hr.
  assert (forall p, p ≡ₚ seqZ 0 N ->
            NoDup p /\ JS.len p = Z.max N 0 /\ ((-1) ∉ p)
            /\ forall g, g ∈ p <-> 0 <= g < N) as Hperm.
  { intros p Hp. split; [rewrite Hp; apply NoDup_seqZ|].
    split; [unfold JS.len; rewrite Hp, length_seqZ; lia|].
    split; [rewrite Hp, elem_of_seqZ; lia|].
    intros g. rewrite Hp, elem_of_seqZ. lia. }
  destruct (Hperm pA HA) as (NA & LA & MA & EA).
  destruct (Hperm pB HB) as (NB & LB & MB & EB).
  assert (forall l, l ∈ loci -> 0 <= l < JS.len pA /\ 0 <= l < JS.len pB) as Hr2.
  { intros l Hl. specialize (Hr l Hl). lia. }
  set (sorted := JSsort.sort (fun a b => a - b) loci).
  assert (sorted ≡ₚ loci) as Hs by apply JSsort_Permutation.
  unfold crossover. rewrite forEachLocus_mark by done.
  cbn [mbind Completion_bind]. fold sorted.
  rewrite forEachLocus_fill by (intros l Hl; apply Hr2; by rewrite <- Hs).
  eexists _, _. split; [reflexivity|]. cbn [fst snd].
  split; apply mark_fill_Permutation; try done.
  - apply genesAt_NoDup; [done..|]. intros; by apply Hr2.
  - intros g Hg. apply EA, EB. eapply genesAt_elem; [done|]. intros; by apply Hr2.
  - by apply genesAt_Permutation.
  - apply genesAt_NoDup; [done..|]. intros; by apply Hr2.
  - intros g Hg. apply EB, EA. eapply genesAt_elem; [done|]. intros; by apply Hr2.
  - by apply genesAt_Permutation.
Qed.

(** The loci that [_mate] selects are distinct and lie in [first, N-1], where
    first is 1 under a fixed origin. *)
Lemma drawLocus_post this budget selected draws :
  firstFreeLocus this <= dimension (configs this) - 1 ->
  post False
    (fun r => firstFreeLocus this <= r.1 <= dimension (configs this) - 1
              /\ r.1 ∉ selected)
    (drawLocus this budget selected draws).
Proof.
  intros HN. unfold drawLocus.
  eapply post_mono;
    [|apply (post_doWhile False
               (fun l => firstFreeLocus this <= l <= dimension (configs this) - 1))].
  - intros [l d] [Hl Hc]. split; [done|]. by apply includes_false.
  - intros s d. eapply post_mono; [|apply post_randomR].
    intros [l d'] [u ->]. by apply random_range.
Qed.

Lemma selectLoci_post this budget count draws :
  firstFreeLocus this <= dimension (configs this) - 1 ->
  post False
    (fun r => NoDup r.1
              /\ forall l, l ∈ r.1 ->
                   firstFreeLocus this <= l <= dimension (configs this) - 1)
    (selectLoci this budget count draws).
Proof.
  intros HN. unfold selectLoci.
  eapply post_mono;
    [|apply (post_while False
               (fun sel => NoDup sel
                  /\ forall l, l ∈ sel ->
                       firstFreeLocus this <= l <= dimension (configs this) - 1))].
  - intros [sel d] [H _]. exact H.
  - intros sel d [Hnd Hr] _.
    eapply post_bind; [by apply drawLocus_post|].
    intros [l d'] [Hl Hfresh]. simpl. split; [by apply Set_add_NoDup|].
    intros x [Hx| ->]%Set_add_elem; auto.
  - split; [constructor|]. intros l Hl. by apply elem_of_nil in Hl.
Qed.

Lemma mateLoci_post this budget draws :
  firstFreeLocus this <= dimension (configs this) - 1 ->
  post False
    (fun r => NoDup r.1
              /\ forall l, l ∈ r.1 ->
                   firstFreeLocus this <= l <= dimension (configs this) - 1)
    (mateLoci this budget draws).
Proof.
  intros HN. unfold mateLoci.
  eapply post_bind; [apply post_randomR|]. intros [count d] _.
  by apply selectLoci_post.
Qed.

Lemma firstFreeLocus_range this : 0 <= firstFreeLocus this <= 1.
Proof. unfold firstFreeLocus. destruct (_isOriginFixed this); lia. Qed.

Lemma mate_post this budget (a b : ChromosomeStr) draws :
  2 <= dimension (configs this) ->
  a ≡ₚ seqZ 0 (dimension (configs this)) ->
  b ≡ₚ seqZ 0 (dimension (configs this)) ->
  post False
    (fun r => forall child, child ∈ r.1 ->
                child ≡ₚ seqZ 0 (dimension (configs this)))
    (_mate this budget [a; b] draws).
Proof.
  intros HN Ha Hb. unfold _mate, strToChr.
  rewrite !Set_of_NoDup by (rewrite ?Ha, ?Hb; apply NoDup_seqZ).
  pose proof (firstFreeLocus_range this) as Hf.
  eapply post_bind; [apply mateLoci_post; lia|].
  intros [loci d] [Hnd Hr].
  destruct (crossover_Permutation a b loci _ Ha Hb Hnd) as (cA & cB & -> & HA & HB).
  { intros l Hl. specialize (Hr l Hl). simpl in Hr. lia. }
  simpl. intros child Hc. rewrite Set_of_elem in Hc.
  unfold chrToStr in Hc.
  apply elem_of_cons in Hc as [->|Hc]; [by rewrite HA|].
  apply list_elem_of_singleton in Hc as ->. by rewrite HB.
Qed.

(** ** The fixed origin stays at position 0 *)

Lemma Set_of_acc_head {A} `{EqDecision A} (l : list A) : forall s a,
  head s = Some a -> head (foldl JS.Set_add s l) = Some a.
Proof.
  induction l as [|x l IH]; intros s a Hs; simpl; [done|].
  apply IH. by apply Set_add_head.
Qed.

Lemma Set_of_head {A} `{EqDecision A} (l : list A) : head (JS.Set_of l) = head l.
Proof.
  destruct l as [|x l]; [done|]. unfold JS.Set_of. simpl.
  by apply Set_of_acc_head.
Qed.

Lemma relIndex_ge_1 {A} (a : list A) i :
  1 <= i -> (1 <= length a)%nat -> (1 <= JS.relIndex a i)%nat.
Proof.
  intros Hi Ha. unfold JS.relIndex, JS.len.
  assert ((i <? 0) = false) as -> by lia. lia.
Qed.

Lemma head_take {A} (a : list A) n : (1 <= n)%nat -> head (take n a) = head a.
Proof. destruct n; [lia|]. by destruct a. Qed.

Lemma head_app_l {A} (a b : list A) x : head a = Some x -> head (a ++ b) = Some x.
Proof. by destruct a. Qed.

Lemma splice_head {A} (a items : list A) start dc x :
  head a = Some x -> 1 <= start -> head (JS.splice a start dc items) = Some x.
Proof.
  intros Ha Hs. unfold JS.splice. apply head_app_l.
  rewrite head_take; [done|]. apply relIndex_ge_1; [done|].
  destruct a; [done|simpl; lia].
Qed.

Lemma filter_head (f : Z -> bool) (a : list Z) x :
  head a = Some x -> f x = true -> head (List.filter f a) = Some x.
Proof. destruct a; simpl; [done|]. intros [= ->] ->. done. Qed.

Lemma slice_not_first (c : list Z) b e x :
  NoDup c -> head c = Some x -> 1 <= b -> x ∉ JS.slice c b e.
Proof.
  intros Hnd Hx Hb. destruct c as [|y c]; [done|]. injection Hx as ->.
  apply NoDup_cons in Hnd as [Hy _].
  unfold JS.slice. intros H.
  assert (1 <= JS.relIndex (x :: c) b)%nat as Hk
    by (apply relIndex_ge_1; [done|simpl; lia]).
  destruct (JS.relIndex (x :: c) b) as [|k]; [lia|]. simpl in H.
  apply Hy. eapply elem_of_sublist; [exact H|].
  etrans; [apply sublist_take|apply sublist_drop].
Qed.

Lemma drawMutationLoci_range this budget draws :
  firstFreeLocus this <= dimension (configs this) ->
  post False (fun r => firstFreeLocus this <= r.1.1 /\ firstFreeLocus this <= r.1.2)
    (drawMutationLoci this budget draws).
Proof.
  intros HN. unfold drawMutationLoci.
  eapply post_mono;
    [|apply (post_doWhile False
               (fun l => firstFreeLocus this <= l.1 /\ firstFreeLocus this <= l.2))].
  - intros [l d] [H _]. exact H.
  - intros s d. eapply post_bind; [apply post_randomR|]. intros [a d1] [u Hu].
    eapply post_bind; [apply post_randomR|]. intros [b d2] [v Hv].
    simpl in *. subst a b. split; apply random_lower; lia.
Qed.

Lemma mutate_head this budget (c : ChromosomeStr) O draws :
  _isOriginFixed this = true -> 1 <= dimension (configs this) ->
  head c = Some O ->
  post False (fun r => head r.1 = Some O) (_mutate this budget c draws).
Proof.
  intros Hfix HN Hc.
  assert (firstFreeLocus this = 1) as Hf by (unfold firstFreeLocus; by rewrite Hfix).
  eapply post_mono with (P := fun r => r.1 ≡ₚ strToChr c /\ head r.1 = Some O);
    [by intros ? [_ ?]|].
  unfold _mutate. set (ch := strToChr c).
  assert (NoDup ch) as Hnd by apply Set_of_is_NoDup.
  assert (head ch = Some O) as Hh by (unfold ch, strToChr; by rewrite Set_of_head).
  eapply post_bind; [apply drawMutationLoci_range; lia|].
  intros [loci d1] [H1 H2]. simpl in H1, H2.
  destruct (if loci.2 <? loci.1 then (loci.2, loci.1) else loci)
    as [firstLocus lastLocus] eqn:El.
  assert (1 <= firstLocus) as Hfl.
  { destruct (loci.2 <? loci.1); [|destruct loci]; injection El as <- <-; simpl in *; lia. }
  set (inv := reverse (JS.slice ch firstLocus (lastLocus + 1))).
  set (f := List.filter _ ch).
  eapply post_bind; [apply post_randomR|]. intros [disp d2] [u Hu]. simpl in Hu.
  assert (head f = Some O) as Hhf.
  { apply filter_head; [done|]. apply negb_true_iff, includes_false.
    unfold inv. rewrite elem_of_reverse. by apply slice_not_first. }
  assert (1 <= disp) as Hd.
  { rewrite Hu, <- Hf. apply random_lower. unfold JS.len. lia. }
  assert (JS.splice f disp 0 inv ≡ₚ ch) as Hperm.
  { rewrite splice_insert_Permutation. apply filter_out_Permutation; [done| |].
    - unfold inv. rewrite reverse_Permutation.
      eapply sublist_NoDup; [done|apply slice_sublist].
    - intros x Hx. unfold inv in Hx. rewrite elem_of_reverse in Hx.
      eapply elem_of_sublist; [done|apply slice_sublist]. }
  assert (JS.len (JS.splice f disp 0 inv) = JS.len ch) as ->.
  { unfold JS.len. by rewrite Hperm. }
  rewrite Z.eqb_refl. simpl. unfold chrToStr.
  rewrite Set_of_NoDup by (by rewrite Hperm).
  split; [done|]. by apply splice_head.
Qed.

Lemma indexOf_from_missing (l : list Z) g : forall k,
  g ∉ l -> JS.indexOf_from l g k = -1.
Proof.
  induction l as [|y l IH]; intros k Hg; [done|].
  apply not_elem_of_cons in Hg as [Hy Hg]. simpl.
  rewrite bool_decide_false by done. by apply IH.
Qed.

Lemma mark1_length o g : length (mark1 o g) = Nat.max 1 (length o).
Proof.
  destruct (decide (g ∈ o)) as [Hg|Hg].
  - rewrite mark1_punch, punch_length by done.
    destruct o; [by apply elem_of_nil in Hg|simpl; lia].
  - unfold mark1, JS.indexOf. rewrite indexOf_from_missing by done.
    unfold JS.splice, JS.relIndex, JS.len.
    assert ((-1 <? 0) = true) as -> by done.
    rewrite length_app, length_take. cbn [app length].
    rewrite length_drop. lia.
Qed.

Lemma mark1_head o g a :
  head o = Some a -> a <> g -> (2 <= length o)%nat -> head (mark1 o g) = Some a.
Proof.
  intros Ho Hag Hlen. destruct (decide (g ∈ o)) as [Hg|Hg].
  - rewrite mark1_punch by done. by apply punch_head.
  - unfold mark1, JS.indexOf. rewrite indexOf_from_missing by done.
    unfold JS.splice. apply head_app_l. rewrite head_take; [done|].
    unfold JS.relIndex, JS.len. assert ((-1 <? 0) = true) as -> by done. lia.
Qed.

Lemma get_not_first (p : list Z) l g O :
  NoDup p -> head p = Some O -> 1 <= l -> JS.get p l = Some g -> g <> O.
Proof.
  intros Hnd Hh Hl Hg ->. rewrite head_lookup in Hh.
  rewrite get_lookup in Hg by lia.
  pose proof (NoDup_lookup p _ _ _ Hnd Hh Hg). lia.
Qed.

Lemma forEachLocus_post (I : list Z * list Z -> Prop)
    (body : list Z * list Z -> Z -> Completion (list Z * list Z)) loci :
  (forall o l, l ∈ loci -> I o -> post True I (body o l)) ->
  forall o, I o -> post True I (forEachLocus body o loci).
Proof.
  induction loci as [|l loci IH]; intros Hbody o Ho; simpl; [done|].
  eapply post_bind; [apply Hbody; [left|done]|].
  intros o' Ho'. apply IH; [|done]. intros; apply Hbody; [by right|done].
Qed.

Lemma crossover_head pA pB loci O :
  NoDup pA -> NoDup pB -> head pA = Some O -> head pB = Some O -> O <> -1 ->
  (forall l, l ∈ loci -> 1 <= l) ->
  post True (fun o => head o.1 = Some O /\ head o.2 = Some O)
    (crossover pA pB loci).
Proof.
  intros NA NB HA HB HO Hl. unfold crossover.
  eapply post_bind.
  - apply (forEachLocus_post
             (fun o => (head o.1 = Some O /\ length o.1 = length pA)
                       /\ (head o.2 = Some O /\ length o.2 = length pB)));
      [|done].
    intros [oA oB] l Hin [[HhA HlA] [HhB HlB]]. simpl in *.
    unfold markLocus.
    destruct (JS.get pB l) as [gB|] eqn:EB; [|done].
    destruct (JS.get pA l) as [gA|] eqn:EA; [|done].
    specialize (Hl l Hin).
    apply get_Some_range in EA as RA. apply get_Some_range in EB as RB.
    unfold JS.len in RA, RB. cbn [post fst snd].
    change (JS.splice oA (JS.indexOf oA gB) 1 [-1]) with (mark1 oA gB).
    change (JS.splice oB (JS.indexOf oB gA) 1 [-1]) with (mark1 oB gA).
    rewrite !mark1_length, HlA, HlB.
    repeat split; try lia.
    + apply mark1_head; [done| |lia]. intros ->. by eapply (get_not_first pB).
    + apply mark1_head; [done| |lia]. intros ->. by eapply (get_not_first pA).
  - intros marked [[HhA _] [HhB _]].
    apply (forEachLocus_post (fun o => head o.1 = Some O /\ head o.2 = Some O));
      [|done].
    intros [oA oB] l _ [H1 H2]. simpl in *. unfold fillLocus.
    destruct (JS.get pB l); [|done]. destruct (JS.get pA l); [|done].
    simpl. split; by apply fill_head.
Qed.

Lemma selectLoci_lower this budget count draws :
  firstFreeLocus this <= dimension (configs this) ->
  post False (fun r => forall l, l ∈ r.1 -> firstFreeLocus this <= l)
    (selectLoci this budget count draws).
Proof.
  intros HN. unfold selectLoci.
  eapply post_mono;
    [|apply (post_while False
               (fun sel => forall l, l ∈ sel -> firstFreeLocus this <= l))].
  - intros [sel d] [H _]. exact H.
  - intros sel d Hr _. unfold drawLocus.
    eapply post_bind.
    + apply (post_doWhile False (fun l => firstFreeLocus this <= l)).
      intros s d0. eapply post_mono; [|apply post_randomR].
      intros [l d'] [u Hu]. simpl in *. subst l. apply random_lower. lia.
    + intros [l d'] [Hlo _]. simpl in *.
      intros x [Hx| ->]%Set_add_elem; auto.
  - intros l Hl. by apply elem_of_nil in Hl.
Qed.

Lemma mateLoci_lower this budget draws :
  firstFreeLocus this <= dimension (configs this) ->
  post False (fun r => forall l, l ∈ r.1 -> firstFreeLocus this <= l)
    (mateLoci this budget draws).
Proof.
  intros HN. unfold mateLoci.
  eapply post_bind; [apply post_randomR|]. intros [count d] _.
  by apply selectLoci_lower.
Qed.

Lemma mate_head this budget (a b : ChromosomeStr) O draws :
  _isOriginFixed this = true -> 1 <= dimension (configs this) -> O <> -1 ->
  head a = Some O -> head b = Some O ->
  post True (fun r => forall child, child ∈ r.1 -> head child = Some O)
    (_mate this budget [a; b] draws).
Proof.
  intros Hfix HN HO Ha Hb.
  assert (firstFreeLocus this = 1) as Hf by (unfold firstFreeLocus; by rewrite Hfix).
  unfold _mate.
  eapply post_bind; [apply post_weaken, mateLoci_lower; lia|].
  intros [loci d] Hl. simpl in Hl. rewrite Hf in Hl.
  eapply post_bind.
  - apply (crossover_head _ _ loci O); try done;
      try apply Set_of_is_NoDup; unfold strToChr; by rewrite Set_of_head.
  - intros [cA cB] [HA HB]. simpl in *. intros child Hc.
    rewrite Set_of_elem in Hc. unfold chrToStr in Hc.
    apply elem_of_cons in Hc as [->|Hc]; [done|].
    by apply list_elem_of_singleton in Hc as ->.
Qed.

Lemma originGenes_head this O :
  fixedOriginIndex (configs this) = Some O ->
  head (foldl JS.Set_add [] (originGenes this)) = Some O.
Proof. intros H. unfold originGenes. by rewrite H. Qed.

Lemma randomChromosome_head this budget O draws :
  fixedOriginIndex (configs this) = Some O ->
  post False (fun r => head r.1 = Some O) (randomChromosome this budget draws).
Proof.
  intros HO. unfold randomChromosome.
  eapply post_mono; [|apply (post_while False (fun c => head c = Some O))].
  - by intros ? [? _].
  - intros c d Hc _. eapply post_bind; [apply post_randomR|].
    intros [node d'] _. destruct (JS.includes c node); simpl; [done|].
    by apply Set_add_head.
  - by apply originGenes_head.
Qed.

Lemma generateRandomChrs_head this budget count O draws :
  fixedOriginIndex (configs this) = Some O ->
  post False (fun r => forall c, c ∈ r.1 -> head c = Some O)
    (_generateRandomChrs this budget count draws).
Proof.
  intros HO. unfold _generateRandomChrs.
  eapply post_mono;
    [|apply (post_while False (fun pop : Population => forall c, c ∈ pop -> head c = Some O))].
  - by intros ? [? _].
  - intros pop d Hpop _.
    eapply post_bind; [by apply randomChromosome_head|].
    intros [c d'] Hc. simpl in *.
    intros x [Hx| ->]%Set_add_elem; auto.
  - intros c Hc. by apply elem_of_nil in Hc.
Qed.

Lemma nnaChromosome_head this budget O draws :
  fixedOriginIndex (configs this) = Some O ->
  post True (fun r => head r.1 = Some O) (nnaChromosome this budget draws).
Proof.
  intros HO. unfold nnaChromosome.
  eapply post_bind.
  - apply (post_while True (fun v : list Z * list Z * bool => head v.1.1 = Some O)).
    + intros v d Hv _. eapply post_bind; [apply post_randomR|].
      intros [node d'] _. destruct (JS.includes v.1.2 node); simpl; [done|].
      by apply Set_add_head.
    + by apply originGenes_head.
  - intros [found d] [Hfound _]. simpl in Hfound.
    eapply post_bind.
    + apply (post_while True (fun v : list Z * list Z => head v.1 = Some O)); [|done].
      intros v d0 Hv _.
      destruct (nearestNeighbor this v.1 v.2) as [[gene|]| | |]; simpl; try done.
      by apply Set_add_head.
    + intros [filled d0] [Hf _]. done.
Qed.

Lemma generateNnaChrs_head this budget count O draws :
  fixedOriginIndex (configs this) = Some O ->
  post True (fun r => forall c, c ∈ r.1 -> head c = Some O)
    (_generateNnaChrs this budget count draws).
Proof.
  intros HO. unfold _generateNnaChrs.
  eapply post_mono;
    [|apply (post_while True (fun pop : Population => forall c, c ∈ pop -> head c = Some O))].
  - by intros ? [? _].
  - intros pop d Hpop _.
    eapply post_bind; [by apply nnaChromosome_head|].
    intros [c d'] Hc. simpl in *.
    intros x [Hx| ->]%Set_add_elem; auto.
  - intros c Hc. by apply elem_of_nil in Hc.
Qed.

(** ** Evaluation *)

Lemma pathCost_cons this a b c :
  pathCost this (a :: b :: c)
  = x ← _getRouteCost this a b; y ← pathCost this (b :: c); Return (x + y).
Proof. reflexivity. Qed.

Lemma evalGenes_path this : forall c g vars,
  lastGene vars = Some g ->
  evalGenes this vars c
  = p ← pathCost this (g :: c);
    Return {| cost := cost vars + p;
              lastGene := Some (default g (last c));
              firstGene := firstGene vars |}.
Proof.
  induction c as [|b c IH]; intros g vars Hg.
  - simpl. rewrite Z.add_0_r. destruct vars; simpl in *; by subst.
  - cbn [evalGenes]. rewrite pathCost_cons. unfold evalGene. rewrite Hg.
    destruct (_getRouteCost this g b) as [x| | |]; try done.
    cbn [mbind Completion_bind].
    erewrite IH by reflexivity. cbn [cost firstGene].
    destruct (pathCost this (b :: c)) as [y| | |]; try done.
    cbn [mbind Completion_bind]. rewrite Z.add_assoc.
    do 3 f_equal. destruct c as [|z c]; [done|]. rewrite last_cons_cons.
    destruct (last (z :: c)) eqn:E; [done|]. by apply last_None in E.
Qed.

(** What the code computes, for every chromosome and every table. *)
Lemma chromosomeCost_codeCost this c : chromosomeCost this c = codeCost this c.
Proof.
  unfold chromosomeCost, codeCost. destruct c as [|a c]; [done|].
  cbn [evalGenes]. unfold evalGene at 1. cbn [lastGene mbind Completion_bind cost].
  erewrite evalGenes_path by reflexivity. cbn [cost firstGene].
  destruct (pathCost this (a :: c)) as [p| | |]; try done.
  cbn [mbind Completion_bind lastGene firstGene cost head].
  assert (last (a :: c) = Some (default a (last c))) as ->.
  { destruct c as [|b c]; [done|]. rewrite last_cons_cons.
    by destruct (last (b :: c)) eqn:E; [|apply last_None in E]. }
  rewrite Z.add_0_l. done.
Qed.

(** ** The statistics record *)

Lemma get_app_l {A} (a b : list A) i x :
  JS.get a i = Some x -> JS.get (a ++ b) i = Some x.
Proof.
  unfold JS.get. destruct (i <? 0); [done|]. apply lookup_app_l_Some.
Qed.

Lemma get_app_last {A} (a : list A) x : JS.get (a ++ [x]) (JS.len a) = Some x.
Proof.
  unfold JS.get, JS.len.
  assert ((Z.of_nat (length a) <? 0) = false) as -> by (apply Z.ltb_ge; lia).
  rewrite Nat2Z.id. by rewrite list_lookup_middle.
Qed.

Lemma recordedAt_push history generation value v' :
  recordedAt history generation value 1 ->
  recordedAt (Some (default [] history ++ [v'])) generation value 1.
Proof.
  intros (h & g & v & -> & -> & -> & Hget). exists (h ++ [v']), g, v.
  repeat split; try done. by apply get_app_l.
Qed.

Lemma recordedAt_new history g v :
  historyLength history = g - 1 ->
  recordedAt (Some (default [] history ++ [v])) (Some g) (Some v) 1.
Proof.
  intros Hlen. exists (default [] history ++ [v]), g, v. repeat split; try done.
  unfold historyLength in Hlen. rewrite <- Hlen. apply get_app_last.
Qed.

Lemma historyLength_push history v :
  historyLength (Some (default [] history ++ [v])) = historyLength history + 1.
Proof. unfold historyLength, JS.len. simpl. rewrite length_app. simpl. lia. Qed.

(** A registration on a population that is not empty returns, and it leaves
    the record in order. *)
Lemma registerSolutionStats_spec now population st :
  population <> [] -> statsPending st ->
  exists st', _registerSolutionStats now population st = Return st'
              /\ _generationCount st' = _generationCount st
              /\ statsRegistered st'.
Proof.
  intros Hpop (Hb & Hw & Hbest & Hworst). unfold _registerSolutionStats.
  destruct (quickSort_spec population) as (sorted & -> & Hperm & _).
  cbn [mbind Completion_bind].
  assert (0 < JS.len sorted) as Hlen.
  { unfold JS.len. rewrite Hperm. destruct population; [done|simpl; lia]. }
  destruct (get_in_range sorted (JS.len sorted - 1)) as [best ->]; [lia|].
  destruct (get_in_range sorted 0) as [worst ->]; [lia|].
  cbn [orTypeError mbind Completion_bind].
  eexists. split; [reflexivity|]. split; [reflexivity|].
  unfold statsRegistered. cbn [_solution _generationCount bestCostHistory
    worstCostHistory bestCost worstCost bestCostGeneration worstCostGeneration].
  rewrite !historyLength_push. split; [lia|]. split; [lia|].
  unfold bestRecorded, worstRecorded. cbn [bestCostHistory
    worstCostHistory bestCost worstCost bestCostGeneration worstCostGeneration].
  split.
  - destruct (bestCost (_solution st)) as [old|] eqn:Eold.
    + destruct Hbest as [?|Hbest]; [done|].
      destruct (falsyNum (Some old) || _); [by apply recordedAt_new|].
      unfold bestRecorded in Hbest. rewrite Eold in Hbest.
      by apply recordedAt_push.
    + by apply recordedAt_new.
  - destruct (worstCost (_solution st)) as [old|] eqn:Eold.
    + destruct Hworst as [?|Hworst]; [done|].
      destruct (falsyNum (Some old) || _); [by apply recordedAt_new|].
      unfold worstRecorded in Hworst. rewrite Eold in Hworst.
      by apply recordedAt_push.
    + by apply recordedAt_new.
Qed.

Lemma statsPending_next st : statsRegistered st -> statsPending (nextGeneration st).
Proof.
  intros (Hb & Hw & Hbest & Hworst). unfold statsPending, nextGeneration. simpl.
  repeat split; try lia; auto.
Qed.

Lemma statsPending_initial start :
  statsPending
    (nextGeneration {| _generationCount := 0; _solution := emptySolution;
                       _solvingStartTime := start |}).
Proof. unfold statsPending. simpl. repeat split; auto. Qed.

Lemma registerSolutionStats_post now population st :
  statsPending st ->
  post True statsRegistered (_registerSolutionStats now population st).
Proof.
  intros Hst. destruct population as [|e population].
  - vm_compute. done.
  - destruct (registerSolutionStats_spec now (e :: population) st) as (st' & -> & _ & H);
      done.
Qed.

Lemma generateInitialPopulation_state this budget st draws :
  post True (fun r => r.1.2 = nextGeneration st)
    (_generateInitialPopulation this budget st draws).
Proof.
  unfold _generateInitialPopulation.
  destruct (_generateNnaChrs _ _ _ _) as [[p1 d1]| | |]; try done.
  cbn [mbind Completion_bind].
  destruct (_generateRandomChrs _ _ _ _) as [[p2 d2]| | |]; try done.
  cbn [mbind Completion_bind].
  destruct (while _ _ _ _ _) as [[v d3]| | |]; done.
Qed.

Lemma solveStep_post this budget clock v draws :
  statsRegistered v.2 ->
  post True (fun r => statsRegistered r.1.2) (solveStep this budget clock v draws).
Proof.
  intros Hv. destruct v as [pop st]. unfold solveStep.
  destruct (_evolvePopulation _ _ _ _) as [[evolved d]| | |]; try done.
  cbn [mbind Completion_bind].
  destruct (_survivalSelection _ _ _) as [next| | |]; try done.
  cbn [mbind Completion_bind].
  eapply post_bind.
  - apply registerSolutionStats_post. by apply (statsPending_next st).
  - by intros st' Hst'.
Qed.

Lemma solve_post this budget start clock draws :
  post True (fun r => statsRegistered r.1.2)
    (solve this budget start clock (initialState) draws).
Proof.
  unfold solve.
  eapply post_bind; [apply generateInitialPopulation_state|].
  intros [[pop st] d] Hst. simpl in Hst. subst st.
  destruct (_evaluatePopulationFitness this pop) as [evaluated| | |]; try done.
  cbn [mbind Completion_bind].
  eapply post_bind; [apply registerSolutionStats_post, statsPending_initial|].
  intros st Hst.
  eapply post_mono; [|apply (post_while True (fun v => statsRegistered v.2))].
  - by intros ? [? _].
  - intros v d0 Hv _. by apply solveStep_post.
  - done.
Qed.

(** ** Array.prototype.sort *)

Section SortFacts.
Context {A : Type} (cmp : A -> A -> Z) (R : relation A).
Hypothesis cmp_R : forall x y, cmp x y <= 0 <-> R x y.
Hypothesis R_total : forall x y, R x y \/ R y x.

Lemma JSsort_insert_Sorted x l : Sorted R l -> Sorted R (JSsort.insert cmp x l).
Proof.
  induction 1 as [|y l Hl IH Hhd]; simpl.
  - repeat constructor.
  - destruct (cmp x y <=? 0) eqn:E.
    + apply Z.leb_le, cmp_R in E. repeat constructor; done.
    + apply Z.leb_gt in E. constructor; [done|].
      assert (R y x) as Hyx.
      { destruct (R_total x y) as [H|H]; [|done]. apply cmp_R in H. lia. }
      destruct Hhd as [|z l' Hz]; simpl.
      * by constructor.
      * destruct (cmp x z <=? 0); by constructor.
Qed.

Lemma JSsort_Sorted l : Sorted R (JSsort.sort cmp l).
Proof.
  induction l as [|x l IH]; simpl; [constructor|].
  by apply JSsort_insert_Sorted.
Qed.
End SortFacts.

Lemma StronglySorted_lookup_2 {A} (R : relation A) (l : list A) :
  (forall a b x y, (a < b)%nat -> l !! a = Some x -> l !! b = Some y -> R x y) ->
  StronglySorted R l.
Proof.
  induction l as [|x l IH]; intros H; constructor.
  - apply IH. intros a b y z Hab Ha Hb. apply (H (S a) (S b)); [lia|done..].
  - apply Forall_forall. intros y [i Hi]%list_elem_of_lookup_1.
    apply (H 0%nat (S i)); [lia|done..].
Qed.

(** ** Rows of equal length *)

Lemma lookup_bind_rows {A B} (f : A -> list B) (n : nat) (rows : list A) :
  (forall r, r ∈ rows -> length (f r) = n) ->
  forall i j r, rows !! i = Some r -> (j < n)%nat ->
    (rows ≫= f) !! (i * n + j)%nat = f r !! j.
Proof.
  induction rows as [|r0 rows IH]; intros Hlen i j r Hi Hj; [done|].
  rewrite bind_cons. destruct i as [|i]; simpl in Hi.
  - injection Hi as ->. rewrite lookup_app_l; [done|].
    rewrite Hlen by left. lia.
  - rewrite lookup_app_r by (rewrite Hlen by left; lia).
    rewrite Hlen by left.
    replace (S i * n + j - n)%nat with (i * n + j)%nat by lia.
    apply IH; [|done..]. intros; apply Hlen; by right.
Qed.

Lemma length_bind_rows {A B} (f : A -> list B) (n : nat) (rows : list A) :
  (forall r, r ∈ rows -> length (f r) = n) ->
  length (rows ≫= f) = (length rows * n)%nat.
Proof.
  induction rows as [|r0 rows IH]; intros Hlen; [done|].
  rewrite bind_cons, length_app, Hlen by left. simpl.
  rewrite IH; [done|]. intros; apply Hlen; by right.
Qed.

(** ** The loops of calculateCostTable *)

Lemma foldl_two_ways {X A B} (p : X -> bool) (f : X -> A) (g : X -> B) l :
  forall acc,
    foldl (fun (acc : list A * list B) x =>
             if p x then (acc.1 ++ [f x], acc.2) else (acc.1, acc.2 ++ [g x]))
      acc l
    = (acc.1 ++ (f <$> List.filter p l),
       acc.2 ++ (g <$> List.filter (fun x => negb (p x)) l)).
Proof.
  induction l as [|x l IH]; intros [a b]; simpl.
  - by rewrite !app_nil_r.
  - rewrite IH. destruct (p x); simpl; by rewrite <- !app_assoc.
Qed.

Lemma filter_split_Permutation {X A} (p : X -> bool) (f : X -> A) l :
  (f <$> List.filter p l) ++ (f <$> List.filter (fun x => negb (p x)) l) ≡ₚ f <$> l.
Proof.
  induction l as [|x l IH]; simpl; [done|].
  destruct (p x); simpl.
  - by rewrite IH.
  - by rewrite <- Permutation_middle, IH.
Qed.

Lemma foldl_rows {X A B} (row : X -> list A * list B) l : forall acc,
  foldl (fun (acc : list A * list B) x =>
           (acc.1 ++ (row x).1, acc.2 ++ (row x).2)) acc l
  = (acc.1 ++ (l ≫= fun x => (row x).1), acc.2 ++ (l ≫= fun x => (row x).2)).
Proof.
  induction l as [|x l IH]; intros [a b]; cbn [foldl fst snd].
  - by rewrite !app_nil_r.
  - rewrite IH. cbn [fst snd]. by rewrite !bind_cons, <- !app_assoc.
Qed.

Lemma bind_app_Permutation {X A} (f g : X -> list A) l :
  (l ≫= f) ++ (l ≫= g) ≡ₚ l ≫= fun x => f x ++ g x.
Proof.
  induction l as [|x l IH]; [done|].
  rewrite !bind_cons, <- IH, <- !app_assoc.
  apply Permutation_app_head.
  rewrite !app_assoc. apply Permutation_app_tail, Permutation_app_comm.
Qed.

Lemma settleOrder_Permutation {A} codes (pending : list A) : forall settled,
  settleOrder codes pending settled ≡ₚ settled ++ pending.
Proof.
  revert codes. induction pending as [|p pending IH]; intros codes settled; simpl.
  - by rewrite app_nil_r.
  - rewrite IH. etrans.
    { apply Permutation_app_tail. symmetry. apply Permutation_middle. }
    simpl. rewrite take_drop. apply Permutation_middle.
Qed.

(** ** calculateCostTable *)

Lemma foldl_pointwise {A X} (f g : A -> X -> A) l :
  (forall a x, f a x = g a x) -> forall a, foldl f a l = foldl g a l.
Proof. intros H. induction l as [|x l IH]; intros a; simpl; [done|]. by rewrite H, IH. Qed.

Lemma items_lookup (coords : list Coordinate) (j : nat) c :
  coords !! j = Some c ->
  zip (seqZ 0 (JS.len coords)) coords !! j = Some (Z.of_nat j, c).
Proof.
  intros Hc. rewrite lookup_zip_with, Hc.
  rewrite lookup_seqZ_lt; [done|]. apply lookup_lt_Some in Hc. unfold JS.len. lia.
Qed.

Lemma items_length (coords : list Coordinate) :
  length (zip (seqZ 0 (JS.len coords)) coords) = length coords.
Proof. unfold JS.len. rewrite length_zip_with, length_seqZ. lia. Qed.

Lemma items_elem (coords : list Coordinate) x :
  x ∈ zip (seqZ 0 (JS.len coords)) coords ->
  exists j : nat, x.1 = Z.of_nat j /\ coords !! j = Some x.2.
Proof.
  intros [j Hj]%list_elem_of_lookup_1. exists j.
  apply lookup_zip_with_Some in Hj as (a & c & -> & Ha & Hc).
  apply lookup_seqZ in Ha as [-> _]. simpl. split; [lia|done].
Qed.

Lemma fmap_filter_ext {X A} (p : X -> bool) (f g : X -> A) l :
  (forall x, p x = true -> f x = g x) ->
  f <$> List.filter p l = g <$> List.filter p l.
Proof.
  intros H. induction l as [|x l IH]; [done|]. cbn [List.filter].
  destruct (p x) eqn:E; [|done]. rewrite !fmap_cons. by rewrite IH, H.
Qed.

Lemma bind_Permutation_pointwise {X A} (f g : X -> list A) l :
  (forall x, x ∈ l -> f x ≡ₚ g x) -> l ≫= f ≡ₚ l ≫= g.
Proof.
  induction l as [|x l IH]; intros H; [done|].
  rewrite !bind_cons. apply Permutation_app; [apply H; left|].
  apply IH. intros; apply H; by right.
Qed.

Lemma fmap_over_bind {X A B} (h : A -> B) (f : X -> list A) l :
  h <$> (l ≫= f) = l ≫= fun x => h <$> f x.
Proof.
  induction l as [|x l IH]; [done|]. by rewrite !bind_cons, fmap_app, IH.
Qed.

Lemma lexLe_cmp (a b : Z * Z * Cost) :
  (if a.1.1 =? b.1.1 then a.1.2 - b.1.2 else a.1.1 - b.1.1) <= 0 <-> lexLe a b.
Proof. unfold lexLe. destruct (a.1.1 =? b.1.1) eqn:E; lia. Qed.

Lemma lexLe_total (a b : Z * Z * Cost) : lexLe a b \/ lexLe b a.
Proof. unfold lexLe. lia. Qed.

#[local] Instance lexLe_trans : Transitive lexLe.
Proof. intros a b c. unfold lexLe. lia. Qed.

Section BrokerProofs.
Variable isLatLong : string -> bool.
Variable fetch : string -> string -> Exn + Response.
Variable Date_now : Z.
Variables (apiKey : string) (vehicle : option bc.NeshanVehicle).
Variable coords : list Coordinate.

Let fetched (o d : string) : Completion RouteData :=
  getNeshanRoute isLatLong fetch Date_now apiKey (o, d) vehicle.
Let items := zip (seqZ 0 (JS.len coords)) coords.

Lemma issueRow_eq (i : Z) (o : Coordinate) :
  issueRow isLatLong fetch Date_now apiKey vehicle coords i o
  = ((fun d : Z * Coordinate => (i, d.1, 0))
       <$> List.filter (fun d : Z * Coordinate => i =? d.1) items,
     (fun d : Z * Coordinate => (i, d.1, fetched o d.2))
       <$> List.filter (fun d : Z * Coordinate => negb (i =? d.1)) items).
Proof.
  unfold issueRow. fold items.
  rewrite (foldl_pointwise _
    (fun acc x => if i =? x.1 then (acc.1 ++ [(i, x.1, 0)], acc.2)
                  else (acc.1, acc.2 ++ [(i, x.1, fetched o x.2)])));
    [|by intros a [j d]].
  by rewrite (foldl_two_ways (fun d : Z * Coordinate => i =? d.1)
                (fun d => (i, d.1, 0)) (fun d => (i, d.1, fetched o d.2))).
Qed.

Lemma issueAll_eq :
  issueAll isLatLong fetch Date_now apiKey vehicle coords
  = (items ≫= (fun o => (issueRow isLatLong fetch Date_now apiKey vehicle
                            coords o.1 o.2).1),
     items ≫= (fun o => (issueRow isLatLong fetch Date_now apiKey vehicle
                            coords o.1 o.2).2)).
Proof.
  unfold issueAll. fold items.
  by rewrite (foldl_rows
    (fun o => issueRow isLatLong fetch Date_now apiKey vehicle coords o.1 o.2)).
Qed.

Lemma awaitAll_fulfilled settling : forall costTable,
  (forall p, p ∈ settling -> fulfilled p.2) ->
  awaitAll costTable settling = Return (costTable ++ (pushOf <$> settling)).
Proof.
  induction settling as [|[[i j] outcome] settling IH]; intros ct H; simpl.
  - by rewrite app_nil_r.
  - destruct (H (i, j, outcome)) as [data Hd]; [left|]. simpl in Hd. subst outcome.
    rewrite IH by (intros; apply H; by right).
    by rewrite <- app_assoc.
Qed.

(** The promises a row creates push, with the row's diagonal entry, the
    row of the table. *)
Lemma row_Permutation (o : Z * Coordinate) :
  (issueRow isLatLong fetch Date_now apiKey vehicle coords o.1 o.2).1
  ++ (pushOf <$> (issueRow isLatLong fetch Date_now apiKey vehicle coords
                    o.1 o.2).2)
  ≡ₚ tableRow fetched coords o.
Proof.
  rewrite issueRow_eq. cbn [fst snd]. unfold tableRow. fold items.
  rewrite <- (filter_split_Permutation (fun d : Z * Coordinate => o.1 =? d.1)
                (fun d : Z * Coordinate =>
                   (o.1, d.1,
                    if o.1 =? d.1 then 0 else durationOf (fetched o.2 d.2)))
                items).
  rewrite <- list_fmap_compose.
  apply Permutation_app.
  - erewrite fmap_filter_ext; [reflexivity|]. intros x Hx. simpl. by rewrite Hx.
  - erewrite fmap_filter_ext; [reflexivity|]. intros x Hx.
    apply negb_true_iff in Hx. unfold pushOf. simpl. by rewrite Hx.
Qed.

Lemma tableRow_length o : length (tableRow fetched coords o) = length coords.
Proof. unfold tableRow. by rewrite length_fmap, items_length. Qed.

Lemma tableOf_length_nat :
  length (tableOf fetched coords) = (length coords * length coords)%nat.
Proof.
  unfold tableOf.
  rewrite (length_bind_rows _ (length coords)) by (intros; apply tableRow_length).
  by rewrite items_length.
Qed.

Lemma tableOf_length : JS.len (tableOf fetched coords) = JS.len coords * JS.len coords.
Proof. unfold JS.len at 1. rewrite tableOf_length_nat. unfold JS.len. lia. Qed.

Lemma tableOf_lookup (i j : nat) o d :
  coords !! i = Some o -> coords !! j = Some d ->
  JS.get (tableOf fetched coords) (Z.of_nat i * JS.len coords + Z.of_nat j)
  = Some (Z.of_nat i, Z.of_nat j,
          if Z.of_nat i =? Z.of_nat j then 0 else durationOf (fetched o d)).
Proof.
  intros Hi Hj. rewrite get_lookup by (unfold JS.len; lia).
  replace (Z.to_nat (Z.of_nat i * JS.len coords + Z.of_nat j))
    with (i * length coords + j)%nat by (unfold JS.len; lia).
  unfold tableOf.
  rewrite (lookup_bind_rows _ (length coords) _ (fun _ _ => tableRow_length _)
             i j (Z.of_nat i, o)).
  - unfold tableRow. rewrite list_lookup_fmap, (items_lookup _ _ _ Hj). done.
  - by apply items_lookup.
  - by apply lookup_lt_Some in Hj.
Qed.

Lemma tableOf_Sorted : Sorted lexLe (tableOf fetched coords).
Proof.
  apply StronglySorted_Sorted, StronglySorted_lookup_2.
  intros a b x y Hab Ha Hb.
  assert (b < length coords * length coords)%nat as Hbl.
  { apply lookup_lt_Some in Hb. pose proof tableOf_length as H.
    unfold JS.len in H. lia. }
  assert (0 < length coords)%nat as HN by lia.
  set (n := length coords) in *.
  assert (forall k, (k < n * n)%nat ->
            exists i j o d, k = (i * n + j)%nat /\ (i < n)%nat /\ (j < n)%nat
              /\ coords !! i = Some o /\ coords !! j = Some d) as Hsplit.
  { intros k Hk. exists (k / n)%nat, (k `mod` n)%nat.
    assert (k / n < n)%nat as H1 by (apply Nat.Div0.div_lt_upper_bound; lia).
    assert (k `mod` n < n)%nat as H2 by (apply Nat.mod_upper_bound; lia).
    destruct (lookup_lt_is_Some_2 coords (k / n)%nat H1) as [o Ho].
    destruct (lookup_lt_is_Some_2 coords (k `mod` n)%nat H2) as [d Hd].
    exists o, d. repeat split; try done.
    rewrite (Nat.div_mod_eq k n) at 1. lia. }
  destruct (Hsplit a ltac:(lia)) as (ia & ja & oa & da & -> & Hia & Hja & Hoa & Hda).
  destruct (Hsplit b Hbl) as (ib & jb & ob & db & -> & Hib & Hjb & Hob & Hdb).
  pose proof (tableOf_lookup ia ja oa da Hoa Hda) as Ea.
  pose proof (tableOf_lookup ib jb ob db Hob Hdb) as Eb.
  rewrite get_lookup in Ea, Eb by (unfold JS.len; lia).
  replace (Z.to_nat (Z.of_nat ia * JS.len coords + Z.of_nat ja))
    with (ia * n + ja)%nat in Ea by (unfold JS.len; lia).
  replace (Z.to_nat (Z.of_nat ib * JS.len coords + Z.of_nat jb))
    with (ib * n + jb)%nat in Eb by (unfold JS.len; lia).
  rewrite Ea in Ha. rewrite Eb in Hb. injection Ha as <-. injection Hb as <-.
  unfold lexLe. simpl. nia.
Qed.

Lemma tableOf_elem x :
  x ∈ tableOf fetched coords ->
  exists (i j : nat) o d,
    coords !! i = Some o /\ coords !! j = Some d
    /\ x = (Z.of_nat i, Z.of_nat j,
            if Z.of_nat i =? Z.of_nat j then 0 else durationOf (fetched o d)).
Proof.
  unfold tableOf. intros (o & Hx & Ho)%list_elem_of_bind.
  unfold tableRow in Hx. apply list_elem_of_fmap in Hx as (d & -> & Hd).
  apply items_elem in Ho as (i & Ei & Hi). apply items_elem in Hd as (j & Ej & Hj).
  exists i, j, o.2, d.2. rewrite Ei, Ej. done.
Qed.

(** With a key and the supported API and every fetch fulfilled, the call
    returns the table, in whatever order the fetches settle. *)
Lemma calculateCostTable_fulfilled apiName codes :
  apiKey <> EmptyString -> nullish apiName pc.NESHAN = pc.NESHAN ->
  (forall (i j : nat) o d, coords !! i = Some o -> coords !! j = Some d ->
     i <> j -> fulfilled (fetched o d)) ->
  calculateCostTable isLatLong fetch Date_now coords (apiKey, apiName) vehicle
    codes
  = Return (tableOf fetched coords).
Proof.
  intros Hkey Hapi Hall. unfold calculateCostTable. cbn [fst snd].
  rewrite bool_decide_false by done. rewrite Hapi.
  rewrite bool_decide_true by done. cbn [negb].
  rewrite issueAll_eq.
  set (row := fun o : Z * Coordinate =>
         issueRow isLatLong fetch Date_now apiKey vehicle coords o.1 o.2).
  set (resps := items ≫= fun o => (row o).2).
  assert (forall p, p ∈ resps -> fulfilled p.2) as Hresps.
  { intros p (o & Hp & Ho)%list_elem_of_bind. unfold row in Hp.
    rewrite issueRow_eq in Hp. cbn [snd] in Hp.
    apply list_elem_of_fmap in Hp as (d & -> & Hd).
    apply list_elem_of_In, filter_In in Hd as [Hd Hne].
    apply list_elem_of_In in Hd.
    apply items_elem in Ho as (i & Ei & Hi). apply items_elem in Hd as (j & Ej & Hj).
    simpl. apply (Hall i j); [done..|]. intros ->.
    rewrite Ei, Ej, Z.eqb_refl in Hne. done. }
  rewrite awaitAll_fulfilled.
  2: { intros p Hp. apply Hresps. rewrite settleOrder_Permutation in Hp. done. }
  cbn [mbind Completion_bind]. f_equal.
  set (cmp := fun a b : Z * Z * Cost =>
                if a.1.1 =? b.1.1 then a.1.2 - b.1.2 else a.1.1 - b.1.1).
  set (pushed := _ ++ _).
  assert (pushed ≡ₚ tableOf fetched coords) as Hperm.
  { unfold pushed. rewrite settleOrder_Permutation. simpl.
    unfold resps. rewrite fmap_over_bind.
    rewrite bind_app_Permutation. unfold tableOf.
    apply bind_Permutation_pointwise. intros o _. apply row_Permutation. }
  apply (Sorted_unique_strong lexLe).
  - intros x1 x2 H1 H2 [Hlt|[Ho Hd]] [Hlt'|[Ho' Hd']]; try lia.
    rewrite JSsort_Permutation, Hperm in H1.
    apply tableOf_elem in H1 as (i1 & j1 & o1 & d1 & Hi1 & Hj1 & ->).
    apply tableOf_elem in H2 as (i2 & j2 & o2 & d2 & Hi2 & Hj2 & ->).
    cbn [fst snd] in Ho, Hd, Ho', Hd'.
    assert (i1 = i2) as Ei by lia. assert (j1 = j2) as Ej by lia. subst i2 j2.
    rewrite Hi1 in Hi2. rewrite Hj1 in Hj2.
    injection Hi2 as <-. injection Hj2 as <-. done.
  - apply (JSsort_Sorted cmp lexLe); [apply lexLe_cmp|apply lexLe_total].
  - apply tableOf_Sorted.
  - by rewrite JSsort_Permutation.
Qed.

(** A fetcher call settles: it fulfils or it rejects. *)
Lemma getNeshanRoute_settles o d :
  fulfilled (fetched o d) \/ exists e, fetched o d = Throw e.
Proof.
  unfold fetched, getNeshanRoute.
  destruct (negb (isLatLong o) || negb (isLatLong d)); [right; eauto|].
  destruct (fetch _ _) as [e|response]; [right; eauto|].
  destruct (negb (ok response)); [right; eauto|].
  destruct (json response) as [route|]; [|right; eauto].
  destruct (JS.get (routes route) 0) as [direction|]; [|right; simpl; eauto].
  cbn [orTypeError mbind Completion_bind].
  destruct (JS.get (legs direction) 0) as [leg|]; [|right; simpl; eauto].
  left. cbn [orTypeError mbind Completion_bind]. eexists. reflexivity.
Qed.

Lemma getNeshanRoute_invalid o d :
  isLatLong o = false \/ isLatLong d = false ->
  fetched o d = Throw (AppError BAD_REQUEST bc.ORG_DEST_VALID_ERR).
Proof.
  intros H. unfold fetched, getNeshanRoute.
  assert (negb (isLatLong o) || negb (isLatLong d) = true) as ->; [|done].
  destruct H as [-> | ->]; [done|]. apply orb_true_r.
Qed.

Lemma awaitAll_rejected settling : forall costTable,
  (forall p, p ∈ settling -> fulfilled p.2 \/ exists e, p.2 = Throw e) ->
  (exists p e, p ∈ settling /\ p.2 = Throw e) ->
  exists e, awaitAll costTable settling
            = Throw (Error (bc.NESHAN_API_FAILED +:+ ", " +:+ exnText e)).
Proof.
  induction settling as [|[[i j] outcome] settling IH]; intros ct Hall (p & e & Hp & He).
  - by apply elem_of_nil in Hp.
  - cbn [awaitAll]. destruct (Hall (i, j, outcome)) as [[data Hd]|[e' He']]; [left| |];
      simpl in *; subst outcome.
    + apply IH; [intros; apply Hall; by right|].
      apply elem_of_cons in Hp as [->|Hp]; [done|eauto].
    + exists e'. done.
Qed.

(** One fetch that rejects makes the whole call throw, in whatever order
    the fetches settle and whatever the other fetches do. *)
Lemma resps_elem p :
  p ∈ (issueAll isLatLong fetch Date_now apiKey vehicle coords).2 <->
  exists (i j : nat) o d,
    coords !! i = Some o /\ coords !! j = Some d /\ i <> j
    /\ p = (Z.of_nat i, Z.of_nat j, fetched o d).
Proof.
  rewrite issueAll_eq. cbn [snd]. rewrite list_elem_of_bind. split.
  - intros (o & Hp & Ho). rewrite issueRow_eq in Hp. cbn [snd] in Hp.
    apply list_elem_of_fmap in Hp as (d & -> & Hd).
    apply list_elem_of_In, filter_In in Hd as [Hd Hne].
    apply list_elem_of_In in Hd.
    apply items_elem in Ho as (i & Ei & Hi). apply items_elem in Hd as (j & Ej & Hj).
    exists i, j, o.2, d.2. rewrite Ei, Ej in *. repeat split; try done.
    intros ->. by rewrite Z.eqb_refl in Hne.
  - intros (i & j & o & d & Hi & Hj & Hne & ->).
    exists (Z.of_nat i, o). split.
    + rewrite issueRow_eq. cbn [fst snd]. apply list_elem_of_fmap.
      exists (Z.of_nat j, d). split; [done|].
      apply list_elem_of_In, filter_In. split.
      * apply list_elem_of_In. eapply list_elem_of_lookup_2. by apply items_lookup.
      * simpl. apply negb_true_iff, Z.eqb_neq. lia.
    + eapply list_elem_of_lookup_2. by apply items_lookup.
Qed.

(** One fetch that rejects makes the whole call throw, in whatever order
    the fetches settle and whatever the other fetches do. *)
Lemma calculateCostTable_rejected apiInfo codes (i j : nat) o d e :
  coords !! i = Some o -> coords !! j = Some d -> i <> j ->
  fetched o d = Throw e -> apiInfo.1 = apiKey ->
  exists e', calculateCostTable isLatLong fetch Date_now coords apiInfo vehicle
               codes = Throw e'.
Proof.
  intros Hi Hj Hne He Hk. unfold calculateCostTable. rewrite Hk.
  case_bool_decide; [unfold raise; eauto|].
  case_bool_decide; [|unfold raise; simpl; eauto]. cbn [negb].
  destruct (issueAll _ _ _ _ _ _) as [costTable resps] eqn:Eall.
  destruct (awaitAll_rejected (settleOrder codes resps []) costTable) as [e' ->].
  - intros p Hp. rewrite settleOrder_Permutation in Hp. simpl in Hp.
    assert (p ∈ (issueAll isLatLong fetch Date_now apiKey vehicle coords).2) as Hp'
      by (by rewrite Eall).
    apply resps_elem in Hp' as (i' & j' & o' & d' & _ & _ & _ & ->).
    apply getNeshanRoute_settles.
  - exists (Z.of_nat i, Z.of_nat j, fetched o d), e. split; [|done].
    rewrite settleOrder_Permutation. simpl.
    assert (resps = (issueAll isLatLong fetch Date_now apiKey vehicle coords).2) as ->
      by (by rewrite Eall).
    apply resps_elem. eauto 10.
  - simpl. eauto.
Qed.
End BrokerProofs.

(** ** The nearest neighbour *)

(** On a row without a zero cost off the diagonal, the scan of
    [_generateNnaChrs] finds the node the specification asks for. *)
Lemma nnRoutes_specNearest this visited : forall rs row vars best,
  Forall2 (fun route e => JS.get (costTable this) route = Some e) rs row ->
  Forall (fun e : Z * Z * Cost => e.1.1 <> e.1.2 -> e.2 <> 0) row ->
  nnStands vars best -> (forall d c, best = Some (d, c) -> c <> 0) ->
  exists vars', nnRoutes this visited vars rs = Return vars'
                /\ nnStands vars' (specNearest visited best row).
Proof.
  induction rs as [|route rs IH]; intros row vars best Hrow Hpos Hst Hb.
  - apply Forall2_nil_inv_l in Hrow as ->. simpl. eauto.
  - apply Forall2_cons_inv_l in Hrow as ([[o d] c] & row' & Hget & Hrow & ->).
    apply Forall_cons in Hpos as [Hc Hpos]. simpl in Hc.
    cbn [nnRoutes specNearest]. unfold nnRoute. rewrite Hget.
    cbn [orTypeError mbind Completion_bind].
    destruct (o =? d) eqn:Eod; cbn [negb andb mbind Completion_bind].
    { apply (IH row' vars best); done. }
    apply Z.eqb_neq in Eod. specialize (Hc Eod).
    destruct best as [[bd bc]|]; destruct Hst as [Hcand Hcost]; rewrite Hcost.
    + assert (bc <> 0) as Hbc by (by eapply Hb).
      assert (truthy (Some bc) = true) as -> by (simpl; apply negb_true_iff; lia).
      cbn [negb orb andb from_option].
      destruct (c <? bc), (negb (JS.includes visited d));
        cbn [andb mbind Completion_bind].
      * apply IH; try done. intros ?? [= <- <-]. done.
      * apply IH; try done.
      * apply IH; try done.
      * apply IH; try done.
    + cbn [truthy negb orb andb].
      destruct (negb (JS.includes visited d)); cbn [andb mbind Completion_bind].
      * apply IH; try done. intros ?? [= <- <-]. done.
      * apply IH; try done.
Qed.

(* ********************************************************************* *)
(** * The claims *)
(* ********************************************************************* *)

(** ** C1: the evaluator *)

(** Where the code and the specification agree on the cost of a tour: on
    open tours, and on closed tours that neither start nor end at node 0. *)
Lemma chromosomeCost_specCost this c :
  _returnToOrigin this = false \/ (truthy (head c) = true /\ truthy (last c) = true) ->
  chromosomeCost this c = specCost this c.
Proof.
  intros H. rewrite chromosomeCost_codeCost. unfold codeCost, specCost.
  destruct (pathCost this c); try done. cbn [mbind Completion_bind].
  destruct H as [->|[-> ->]]; [done|]. by rewrite !andb_true_r.
Qed.

(** C1.  The fitness of a chromosome is to be 1 / cost(C), where cost(C) adds
    the closing edge exactly when returnToOrigin is true, and the tour
    [0,1,2,3] of the four-node table is to cost 6.  On that table, with
    returnToOrigin = true, the specification's formula gives 6, but
    [_evaluateChromosomeFitness] arrives at the cost 3 and returns the
    fitness 1/3: the first gene is node 0, which the test
    [firstGene && lastGene] takes for an absent gene, and the closing edge
    3 -> 0 is left out. *)
Theorem C1_tour_0123_is_evaluated_at_cost_3 :
  _returnToOrigin ga4 = true
  /\ specCost ga4 [0;1;2;3] = Return 6
  /\ chromosomeCost ga4 [0;1;2;3] = Return 3
  /\ _evaluateChromosomeFitness ga4 [0;1;2;3] = Return (Fin (1 # 3)).
Proof. repeat split; reflexivity. Qed.

(** The first scenario of the specification, run to its end: the solver
    reports the best cost 3 for the tour [0,1,2,3]. *)
Example scenario1_best_cost :
  ('(v, _) ← solve ga4 50 0 (fun g => g) initialState (lcg 400 7);
   Return (solution (_solution v.2), bestCost (_solution v.2)))
  = Return (Some [0;1;2;3], Some (Fin 3)).
Proof. vm_compute. reflexivity. Qed.

(** ** C2 and C3: survival selection *)

Example prevGeneration_evaluated :
  _evaluatePopulationFitness gaS prevPopulation = Return prevGeneration.
Proof. vm_compute. reflexivity. Qed.

(** C2.  The next generation is to contain the E fittest chromosomes of the
    previous one, put in place of the E least fit of the evolved one.  With
    E = 2, a previous generation with the fitness values 1/3, 1/4, 1/5, 1/6,
    1/7 and an evolved population with the values 1/7, 1/6, 1/5, 1/4, 1/3,
    [_survivalSelection] returns the three least fit of the evolved
    population followed by the three least fit of the previous generation.
    Both arrays are sorted by ascending fitness, so the splice at
    [length - E] removes the fittest of the evolved population and
    [slice(0, E + 1)] takes the least fit of the previous generation, one
    more than E.  The two best of the previous generation, [0,1,2,3] and
    [1,0,2,3], are not in the result. *)
Theorem C2_survival_selection_drops_the_elite :
  _eliteCount gaS = 2
  /\ _survivalSelection gaS prevGeneration evolvedPopulation
     = Return [([2;0;3;1], Fin (1 # 7)); ([0;3;1;2], Fin (1 # 6));
               ([2;3;0;1], Fin (1 # 5)); ([1;3;0;2], Fin (1 # 7));
               ([3;0;2;1], Fin (1 # 6)); ([0;2;1;3], Fin (1 # 5))].
Proof. split; vm_compute; reflexivity. Qed.

(** C3.  On a large problem every generation that [_survivalSelection]
    returns is to have exactly P chromosomes.  With P = 5 and E = 2, a
    previous generation of 5 and an evolved population of 5 other
    chromosomes, the generation returned has 6: two entries are removed and
    [slice(0, E + 1)] puts three in.  A whole run of [solve] on the same
    instance ends, after two rounds of the loop, with a generation of 6. *)
Theorem C3_generation_has_one_more_than_P :
  _isProblemLarge gaS = true /\ _populationSize gaS = 5
  /\ JS.len prevGeneration = 5 /\ JS.len evolvedPopulation = 5
  /\ (next ← _survivalSelection gaS prevGeneration evolvedPopulation;
      Return (JS.len next)) = Return 6
  /\ ('(v, _) ← solve gaS 50 0 (fun g => g) initialState (lcg 400 42);
      Return (JS.len v.1, _generationCount v.2)) = Return (6, 3).
Proof. repeat split; vm_compute; reflexivity. Qed.

(** ** C4: the statistics record *)

(** C4.  The model of the repository refuses a solved problem unless
    [bestCostHistory[bestCostGeneration] === bestCost], and the same for the
    worst cost; the record that the solver makes does not pass: the
    generation count is 1 at the first registration, the history has one
    entry, at index 0, and [bestCostHistory[1]] is undefined.  So it is after
    the first registration, and in the record that [solve] resolves to on
    three nodes. *)
Theorem C4_cost_is_not_recorded_at_its_generation :
  (exists st,
     _registerSolutionStats 0 prevGeneration (nextGeneration initialState)
     = Return st
     /\ bestCostGeneration (_solution st) = Some 1
     /\ bestCostHistory (_solution st) = Some [Fin 3]
     /\ ~ bestRecorded (_solution st) 0
     /\ ~ worstRecorded (_solution st) 0)
  /\ (exists generation st rest,
        solve ga3 60 0 (fun g => g) initialState (lcg 300 5)
        = Return ((generation, st), rest)
        /\ bestCostGeneration (_solution st) = Some 1
        /\ bestCostHistory (_solution st) = Some [Fin 5]
        /\ bestCost (_solution st) = Some (Fin 5)
        /\ ~ bestRecorded (_solution st) 0
        /\ ~ worstRecorded (_solution st) 0).
Proof.
  split.
  - eexists. split; [vm_compute; reflexivity|].
    cbn [_solution bestCostGeneration bestCostHistory].
    split; [done|]. split; [done|].
    split; intros (h & g & v & Hh & Hg & Hv & Hget); simpl in *;
      injection Hh as <-; injection Hg as <-; discriminate Hget.
  - eexists _, _, _. split; [vm_compute; reflexivity|].
    cbn [_solution bestCostGeneration bestCostHistory bestCost].
    split; [done|]. split; [done|]. split; [done|].
    split; intros (h & g & v & Hh & Hg & Hv & Hget); simpl in *;
      injection Hh as <-; injection Hg as <-; discriminate Hget.
Qed.

Lemma registeredState_statsRegistered st : registeredState st -> statsRegistered st.
Proof.
  induction 1 as [start now population st Hrun|now population st st' _ IH Hrun].
  - eapply (post_Return_inv True); [|exact Hrun].
    apply registerSolutionStats_post, statsPending_initial.
  - eapply (post_Return_inv True); [|exact Hrun].
    by apply registerSolutionStats_post, statsPending_next.
Qed.

(** What the code keeps instead.  It counts the generations from 1 and
    pushes the cost of generation g to index g - 1: after every registration
    [bestCostHistory[bestCostGeneration - 1] == bestCost] and
    [worstCostHistory[worstCostGeneration - 1] == worstCost], in every state
    that follows a registration, and so in the state that [solve] ends
    in. *)
Lemma cost_is_recorded_one_before_its_generation :
  (forall st, registeredState st ->
     bestRecorded (_solution st) 1 /\ worstRecorded (_solution st) 1)
  /\ (forall this budget start clock draws generation st rest,
        solve this budget start clock initialState draws
        = Return ((generation, st), rest) ->
        bestRecorded (_solution st) 1 /\ worstRecorded (_solution st) 1).
Proof.
  split.
  - intros st (_ & _ & Hb & Hw)%registeredState_statsRegistered. done.
  - intros this budget start clock draws generation st rest Hrun.
    pose proof (solve_post this budget start clock draws) as H.
    rewrite Hrun in H. destruct H as (_ & _ & Hb & Hw). done.
Qed.

Example cost_is_recorded_one_before_run :
  (exists st,
     _registerSolutionStats 0 prevGeneration (nextGeneration initialState)
     = Return st
     /\ bestRecorded (_solution st) 1 /\ worstRecorded (_solution st) 1)
  /\ (exists generation st rest,
        solve gaS 50 0 (fun g => g) initialState (lcg 400 42)
        = Return ((generation, st), rest)
        /\ bestRecorded (_solution st) 1 /\ worstRecorded (_solution st) 1).
Proof.
  destruct cost_is_recorded_one_before_its_generation as [Hstate Hsolve].
  split.
  - eexists. split; [vm_compute; reflexivity|].
    apply Hstate. eapply (registered_seed 0 0 prevGeneration).
    vm_compute. reflexivity.
  - eexists _, _, _. split; [vm_compute; reflexivity|].
    eapply (Hsolve gaS 50%nat 0 (fun g => g) (lcg 400 42)).
    vm_compute. reflexivity.
Qed.

(** ** C5: the fixed origin *)

Lemma startsAt_head O tour : startsAt O tour <-> head tour = Some O.
Proof. unfold startsAt. by rewrite get_lookup, head_lookup. Qed.

(** C5.  Under [fixedOriginIndex = O] every chromosome that a component
    produces has O at position 0: every member of the populations that
    nearest-neighbour seeding and random seeding return, the mutant of a
    chromosome that has O at position 0, and both offspring of two parents
    that have O at position 0.  [post] says it of whatever the call returns;
    seeding by nearest neighbours and crossover may end in an error on a
    malformed table or on parents shorter than the dimension, random seeding
    and mutation end in none. *)
Theorem C5_fixed_origin_stays_at_position_0 this O :
  fixedOriginIndex (configs this) = Some O ->
  0 <= O < dimension (configs this) ->
  (forall budget count draws,
     post True (fun r => forall c, c ∈ r.1 -> startsAt O c)
       (_generateNnaChrs this budget count draws))
  /\ (forall budget count draws,
        post False (fun r => forall c, c ∈ r.1 -> startsAt O c)
          (_generateRandomChrs this budget count draws))
  /\ (forall budget c draws,
        startsAt O c ->
        post False (fun r => startsAt O r.1) (_mutate this budget c draws))
  /\ (forall budget a b draws,
        startsAt O a -> startsAt O b ->
        post True (fun r => forall child, child ∈ r.1 -> startsAt O child)
          (_mate this budget [a; b] draws)).
Proof.
  intros HO Hrange.
  assert (_isOriginFixed this = true) as Hfix.
  { unfold _isOriginFixed. rewrite HO. by apply bool_decide_eq_true. }
  repeat split.
  - intros budget count draws.
    eapply post_mono; [|by apply generateNnaChrs_head].
    intros r H c Hc. by apply startsAt_head, H.
  - intros budget count draws.
    eapply post_mono; [|by apply generateRandomChrs_head].
    intros r H c Hc. by apply startsAt_head, H.
  - intros budget c draws Hc%startsAt_head.
    eapply post_mono; [|apply (mutate_head this budget c O); [done|lia|done]].
    intros r H. by apply startsAt_head.
  - intros budget a b draws Ha%startsAt_head Hb%startsAt_head.
    eapply post_mono;
      [|apply (mate_head this budget a b O); [done|lia|lia|done|done]].
    intros r H child Hc. by apply startsAt_head, H.
Qed.

Lemma C5_fixed_origin_witness :
  post True (fun r => forall c, c ∈ r.1 -> startsAt 0 c)
    (_generateNnaChrs ga4 20 2 (lcg 50 1))
  /\ post False (fun r => forall c, c ∈ r.1 -> startsAt 0 c)
       (_generateRandomChrs ga4 20 2 (lcg 50 2))
  /\ post False (fun r => startsAt 0 r.1) (_mutate ga4 10 [0;1;2;3] (lcg 10 3))
  /\ post True (fun r => forall child, child ∈ r.1 -> startsAt 0 child)
       (_mate ga4 10 [[0;1;2;3]; [0;3;1;2]] (lcg 20 9)).
Proof.
  destruct (C5_fixed_origin_stays_at_position_0 ga4 0 eq_refl)
    as (Hnna & Hrandom & Hmutate & Hmate); [simpl; lia|].
  split; [apply Hnna|]. split; [apply Hrandom|].
  split; [apply Hmutate; reflexivity|apply Hmate; reflexivity].
Defined.

(** The calls of the witness return. *)
Example C5_runs :
  ('(p, _) ← _generateNnaChrs ga4 20 2 (lcg 50 1); Return p)
  = Return [[0;2;1;3]; [0;1;2;3]]
  /\ ('(p, _) ← _generateRandomChrs ga4 20 2 (lcg 50 2); Return p)
     = Return [[0;2;1;3]; [0;3;2;1]]
  /\ ('(c, _) ← _mutate ga4 10 [0;1;2;3] (lcg 10 3); Return c)
     = Return [0;2;1;3]
  /\ ('(c, _) ← _mate ga4 10 [[0;1;2;3]; [0;3;1;2]] (lcg 20 9); Return c)
     = Return [[0;1;2;3]; [0;2;1;3]].
Proof. repeat split; vm_compute; reflexivity. Qed.

(** ** C6: mutation *)

Lemma sort_Permutation_eq (a b : list Z) :
  a ≡ₚ b -> JSsort.sort (fun x y => x - y) a = JSsort.sort (fun x y => x - y) b.
Proof.
  intros H. apply (Sorted_unique Z.le).
  - apply (JSsort_Sorted _ Z.le); intros; lia.
  - apply (JSsort_Sorted _ Z.le); intros; lia.
  - by rewrite !JSsort_Permutation.
Qed.

(** C6.  For every chromosome c that is a permutation of [0,N), N >= 3, and
    all draws, [_mutate] ends in no error: the check of the gene count never
    fires.  The chromosome it returns has the genes of c,
    [sort(mutate(c)) == sort(c)], and as many of them. *)
Theorem C6_mutation_keeps_the_genes this budget (c : ChromosomeStr) draws :
  3 <= dimension (configs this) ->
  c ≡ₚ seqZ 0 (dimension (configs this)) ->
  post False
    (fun r => r.1 ≡ₚ c
              /\ JSsort.sort (fun x y => x - y) r.1
                 = JSsort.sort (fun x y => x - y) c
              /\ JS.len r.1 = JS.len c)
    (_mutate this budget c draws).
Proof.
  intros _ Hc. eapply post_mono; [|apply mutate_post].
  - intros r Hr. split; [done|]. split; [by apply sort_Permutation_eq|].
    unfold JS.len. by rewrite Hr.
  - rewrite Hc. apply NoDup_seqZ.
Qed.

Lemma C6_mutation_witness :
  post False
    (fun r => r.1 ≡ₚ [0;1;2;3]
              /\ JSsort.sort (fun x y => x - y) r.1
                 = JSsort.sort (fun x y => x - y) [0;1;2;3]
              /\ JS.len r.1 = JS.len [0;1;2;3])
    (_mutate gaS 10 [0;1;2;3] [toUnif (1 # 3); toUnif (2 # 3); toUnif 0]).
Proof.
  apply (C6_mutation_keeps_the_genes gaS 10 [0;1;2;3]); [simpl; lia|reflexivity].
Defined.

(** The call of the witness: loci 1 and 2, displacement to position 0. *)
Example C6_run :
  _mutate gaS 10 [0;1;2;3] [toUnif (1 # 3); toUnif (2 # 3); toUnif 0]
  = Return ([2;1;0;3], []).
Proof. vm_compute. reflexivity. Qed.

(** ** C7: crossover *)

Lemma distinct_permutations_dimension (a b : list Z) N :
  a <> b -> a ≡ₚ seqZ 0 N -> b ≡ₚ seqZ 0 N -> 2 <= N.
Proof.
  intros Hab Ha Hb. destruct (decide (2 <= N)) as [|Hn]; [done|]. exfalso.
  apply Hab. destruct (decide (N <= 0)).
  - assert (seqZ 0 N = []) as E.
    { apply length_zero_iff_nil. rewrite length_seqZ. lia. }
    rewrite E in Ha, Hb. apply Permutation_nil_r in Ha, Hb. congruence.
  - assert (N = 1) as -> by lia. change (seqZ 0 1) with [0] in Ha, Hb.
    apply Permutation_singleton_r in Ha, Hb. congruence.
Qed.

(** C7.  For two distinct parents that are permutations of [0,N) and all
    draws, [_mate] ends in no error and both offspring are permutations of
    [0,N); and the loci it selects, [mateLoci], leave out position 0 when the
    origin is fixed. *)
Theorem C7_crossover_keeps_permutations this budget (a b : ChromosomeStr) draws :
  a <> b ->
  a ≡ₚ seqZ 0 (dimension (configs this)) ->
  b ≡ₚ seqZ 0 (dimension (configs this)) ->
  post False
    (fun r => forall child, child ∈ r.1 ->
                child ≡ₚ seqZ 0 (dimension (configs this))
                /\ JSsort.sort (fun x y => x - y) child
                   = seqZ 0 (dimension (configs this)))
    (_mate this budget [a; b] draws)
  /\ post False
       (fun r => _isOriginFixed this = true -> 0 ∉ r.1)
       (mateLoci this budget draws).
Proof.
  intros Hab Ha Hb.
  pose proof (distinct_permutations_dimension a b _ Hab Ha Hb) as HN.
  split.
  - eapply post_mono; [|by apply mate_post].
    intros r H child Hc. specialize (H child Hc). split; [done|].
    apply (Sorted_unique Z.le).
    + apply (JSsort_Sorted _ Z.le); intros; lia.
    + apply StronglySorted_Sorted, StronglySorted_lookup_2.
      intros i j x y Hij [-> _]%lookup_seqZ [-> _]%lookup_seqZ. lia.
    + by rewrite JSsort_Permutation.
  - pose proof (firstFreeLocus_range this) as Hf.
    eapply post_mono; [|apply mateLoci_post; lia].
    intros r [_ Hr] Hfix H0. specialize (Hr 0 H0).
    unfold firstFreeLocus in Hr. rewrite Hfix in Hr. lia.
Qed.

Lemma C7_crossover_witness :
  post False
    (fun r => forall child, child ∈ r.1 ->
                child ≡ₚ seqZ 0 4
                /\ JSsort.sort (fun x y => x - y) child = seqZ 0 4)
    (_mate ga4 10 [[0;1;2;3]; [0;3;1;2]] (lcg 20 9))
  /\ post False (fun r => _isOriginFixed ga4 = true -> 0 ∉ r.1)
       (mateLoci ga4 10 (lcg 20 9)).
Proof.
  apply (C7_crossover_keeps_permutations ga4 10 [0;1;2;3] [0;3;1;2]).
  - intros H. discriminate H.
  - reflexivity.
  - vm_compute. apply perm_skip, perm_trans with [1;3;2].
    + apply perm_swap.
    + apply perm_skip, perm_swap.
Defined.

(** The call of the witness: the loci 2 and 3 are selected. *)
Example C7_run :
  ('(c, _) ← _mate ga4 10 [[0;1;2;3]; [0;3;1;2]] (lcg 20 9); Return c)
  = Return [[0;1;2;3]; [0;2;1;3]]
  /\ ('(l, _) ← mateLoci ga4 10 (lcg 20 9); Return l) = Return [2; 3].
Proof. split; vm_compute; reflexivity. Qed.

(** ** C8: nearest-neighbour seeding *)

(** C8.  The node appended to a partial tour is to be an unvisited node of
    minimum cost from the tail, the first such in scan order, for every
    table with non-negative entries.  On the three-node table whose nodes 0
    and 1 lie at the same place, with the tail 0 and only node 0 visited,
    the specification's rule picks node 1 at cost 0, and the scan of
    [_generateNnaChrs] picks node 2 at cost 5: after the candidate 1 the
    nearest cost is 0, [!nearestNeighborCost] takes it for not yet
    initialised, and the next unvisited node replaces the candidate.  The
    whole chromosome for the start node 0 is [0,2,1]. *)
Theorem C8_nearest_neighbour_skips_a_zero_cost_node :
  take 3 table3 = [(0,0,0); (0,1,0); (0,2,5)]
  /\ specNearest [0] None (take 3 table3) = Some (1, 0)
  /\ nearestNeighbor ga3 [0] [0] = Return (Some 2)
  /\ nnaChromosome ga3 5 [toUnif 0] = Return ([0;2;1], []).
Proof. repeat split; vm_compute; reflexivity. Qed.

(** On a row that has no zero cost off the diagonal the scan is the
    specification's rule. *)
Lemma nearestNeighbor_specNearest this chromosome visited tail row :
  last chromosome = Some tail ->
  Forall2 (fun route e => JS.get (costTable this) route = Some e)
    (seqZ (tail * dimension (configs this)) (dimension (configs this))) row ->
  Forall (fun e : Z * Z * Cost => e.1.1 <> e.1.2 -> e.2 <> 0) row ->
  nearestNeighbor this chromosome visited
  = Return (fst <$> specNearest visited None row).
Proof.
  intros Hlast Hrow Hpos. unfold nearestNeighbor. rewrite Hlast.
  unfold _getCostTableBoundaries.
  replace (tail * dimension (configs this) + dimension (configs this)
           - tail * dimension (configs this))
    with (dimension (configs this)) by lia.
  destruct (nnRoutes_specNearest this visited _ row
              {| nearestNeighborCost := None; nextGeneCandidate := None |}
              None Hrow Hpos) as (vars & -> & Hst); [done..|].
  cbn [mbind Completion_bind]. f_equal.
  destruct (specNearest visited None row) as [[d c]|]; by destruct Hst as [-> _].
Qed.

(** ** C9 and C10: the cost table of the routing client *)

(** What a fulfilled fetch carries is what the provider reported: the
    duration of the first leg of the first route of a 2xx response. *)
Lemma getNeshanRoute_duration isLatLong fetch now apiKey o d vehicle data :
  getNeshanRoute isLatLong fetch now apiKey (o, d) vehicle = Return data ->
  exists url response route direction leg,
    fetch url apiKey = inr response /\ ok response = true
    /\ json response = Some route
    /\ JS.get (routes route) 0 = Some direction
    /\ JS.get (legs direction) 0 = Some leg
    /\ duration (route_cost data) = leg_duration leg.
Proof.
  unfold getNeshanRoute.
  destruct (negb (isLatLong o) || negb (isLatLong d)); [done|].
  match goal with |- context [fetch ?u apiKey] => set (url := u) end.
  destruct (fetch url apiKey) as [e|response] eqn:Ef; [done|].
  destruct (ok response) eqn:Eok; [|done]. cbn [negb].
  destruct (json response) as [route|] eqn:Ej; [|done].
  destruct (JS.get (routes route) 0) as [direction|] eqn:Er; [|done].
  cbn [orTypeError mbind Completion_bind].
  destruct (JS.get (legs direction) 0) as [leg|] eqn:El; [|done].
  cbn [orTypeError mbind Completion_bind]. intros [= <-].
  exists url, response, route, direction, leg. done.
Qed.

(** C9.  For N coordinates, a key, the supported API and fetches that all
    fulfil, [calculateCostTable] returns, in whatever order the fetches
    settle, a table of N * N entries; the entry at i * N + i is (i, i, 0);
    the entry at i * N + j, i <> j, is (i, j, d) with d the duration that
    the fetch from coordinate i to coordinate j carries; and the table is
    sorted by (origin, destination). *)
Theorem C9_cost_table_of_fulfilled_fetches
    isLatLong fetch now (coords : list Coordinate) apiKey apiName vehicle codes :
  apiKey <> EmptyString -> nullish apiName pc.NESHAN = pc.NESHAN ->
  (forall (i j : nat) o d, coords !! i = Some o -> coords !! j = Some d ->
     i <> j ->
     fulfilled (getNeshanRoute isLatLong fetch now apiKey (o, d) vehicle)) ->
  exists table,
    calculateCostTable isLatLong fetch now coords (apiKey, apiName) vehicle
      codes = Return table
    /\ JS.len table = JS.len coords * JS.len coords
    /\ (forall (i : nat) o, coords !! i = Some o ->
          JS.get table (Z.of_nat i * JS.len coords + Z.of_nat i)
          = Some (Z.of_nat i, Z.of_nat i, 0))
    /\ (forall (i j : nat) o d data,
          coords !! i = Some o -> coords !! j = Some d -> i <> j ->
          getNeshanRoute isLatLong fetch now apiKey (o, d) vehicle = Return data ->
          JS.get table (Z.of_nat i * JS.len coords + Z.of_nat j)
          = Some (Z.of_nat i, Z.of_nat j, duration (route_cost data)))
    /\ Sorted lexLe table.
Proof.
  intros Hkey Hapi Hall. eexists. split.
  { by apply calculateCostTable_fulfilled. }
  split; [apply tableOf_length|]. split; [|split].
  - intros i o Hi. rewrite (tableOf_lookup _ _ _ _ _ _ i i o o Hi Hi).
    by rewrite Z.eqb_refl.
  - intros i j o d data Hi Hj Hne Hdata.
    rewrite (tableOf_lookup _ _ _ _ _ _ i j o d Hi Hj).
    assert ((Z.of_nat i =? Z.of_nat j) = false) as -> by (apply Z.eqb_neq; lia).
    by rewrite Hdata.
  - apply tableOf_Sorted.
Qed.

Lemma C9_cost_table_witness :
  exists table,
    calculateCostTable isLatLongEx fetchEx 0 coordsEx ("key", None) None [2; 0; 1; 1; 0; 3]%nat
    = Return table
    /\ JS.len table = JS.len coordsEx * JS.len coordsEx
    /\ (forall (i : nat) o, coordsEx !! i = Some o ->
          JS.get table (Z.of_nat i * JS.len coordsEx + Z.of_nat i)
          = Some (Z.of_nat i, Z.of_nat i, 0))
    /\ (forall (i j : nat) o d data,
          coordsEx !! i = Some o -> coordsEx !! j = Some d -> i <> j ->
          getNeshanRoute isLatLongEx fetchEx 0 "key" (o, d) None = Return data ->
          JS.get table (Z.of_nat i * JS.len coordsEx + Z.of_nat j)
          = Some (Z.of_nat i, Z.of_nat j, duration (route_cost data)))
    /\ Sorted lexLe table.
Proof.
  apply (C9_cost_table_of_fulfilled_fetches isLatLongEx fetchEx 0 coordsEx "key").
  - intros H. discriminate H.
  - reflexivity.
  - intros i j o d Hi Hj _.
    destruct i as [|[|[|i]]]; [| | |discriminate Hi]; injection Hi as <-;
      (destruct j as [|[|[|j]]]; [| | |discriminate Hj]); injection Hj as <-;
      eexists; vm_compute; reflexivity.
Defined.

(** The table of the witness. *)
Example C9_run :
  calculateCostTable isLatLongEx fetchEx 0 coordsEx ("key", None) None
    [2; 0; 1; 1; 0; 3]%nat
  = Return [(0,0,0); (0,1,555); (0,2,457);
            (1,0,267); (1,1,0); (1,2,569);
            (2,0,401); (2,1,801); (2,2,0)].
Proof. vm_compute. reflexivity. Qed.

(** C10.  [calculateCostTable] throws, and returns no table, whenever one
    of the fetches between two different coordinates rejects, in whatever
    order the fetches settle; with an empty key it throws the
    key-is-missing error whatever the coordinates and the provider are.
    [getNeshanRoute] throws the invalid-origin-or-destination error when one
    of the two texts is not a latitude,longitude, and on valid texts the
    fetching-failed error when the response has a status outside 200..299. *)
Theorem C10_failures_of_the_routing_client isLatLong fetch now :
  (forall (coords : list Coordinate) apiInfo vehicle codes (i j : nat) o d e,
     coords !! i = Some o -> coords !! j = Some d -> i <> j ->
     getNeshanRoute isLatLong fetch now apiInfo.1 (o, d) vehicle = Throw e ->
     exists e', calculateCostTable isLatLong fetch now coords apiInfo vehicle
                  codes = Throw e')
  /\ (forall (coords : list Coordinate) apiName vehicle codes,
        calculateCostTable isLatLong fetch now coords (EmptyString, apiName) vehicle codes
        = Throw (Error bc.NESHAN_API_KEY_NOT_FOUND))
  /\ (forall apiKey o d vehicle,
        isLatLong o = false \/ isLatLong d = false ->
        getNeshanRoute isLatLong fetch now apiKey (o, d) vehicle
        = Throw (AppError BAD_REQUEST bc.ORG_DEST_VALID_ERR))
  /\ (forall apiKey o d vehicle url response,
        isLatLong o = true -> isLatLong d = true ->
        url = bc.NESHAN_V4_BASE_URL +:+ "?type="
              +:+ bc.vehicleText (nullish vehicle bc.MOTORCYCLE)
              +:+ "&origin=" +:+ o +:+ "&destination=" +:+ d ->
        fetch url apiKey = inr response ->
        status response < 200 \/ 299 < status response ->
        getNeshanRoute isLatLong fetch now apiKey (o, d) vehicle
        = Throw (AppError INTERNAL_SERVER_ERROR bc.NESHAN_API_FAILED)).
Proof.
  split; [|split; [|split]].
  - intros coords apiInfo vehicle codes i j o d e Hi Hj Hne He.
    by eapply (calculateCostTable_rejected isLatLong fetch now apiInfo.1 vehicle
                 coords apiInfo codes i j o d e).
  - intros. reflexivity.
  - intros. by apply getNeshanRoute_invalid.
  - intros apiKey o d vehicle url response Ho Hd -> Hf Hs.
    unfold getNeshanRoute. rewrite Ho, Hd. cbn [negb orb]. rewrite Hf.
    assert (ok response = false) as ->; [|done]. unfold ok. lia.
Qed.

Lemma C10_failures_witness :
  (exists e', calculateCostTable isLatLongEx fetchDown 0 coordsEx ("key", None)
                None [1; 0; 2]%nat = Throw e')
  /\ calculateCostTable isLatLongEx fetchEx 0 coordsEx (EmptyString, None) None []
     = Throw (Error bc.NESHAN_API_KEY_NOT_FOUND)
  /\ getNeshanRoute isLatLongEx fetchEx 0 "key" ("35.70,51.40", "nowhere") None
     = Throw (AppError BAD_REQUEST bc.ORG_DEST_VALID_ERR)
  /\ getNeshanRoute isLatLongEx fetchDown 0 "key" ("35.70,51.40", "35.71,51.42")
       None
     = Throw (AppError INTERNAL_SERVER_ERROR bc.NESHAN_API_FAILED).
Proof.
  split; [|split; [|split]].
  - destruct (C10_failures_of_the_routing_client isLatLongEx fetchDown 0)
      as (H & _).
    apply (H coordsEx ("key", None) None [1; 0; 2]%nat 0%nat 1%nat
             "35.70,51.40" "35.71,51.42"
             (AppError INTERNAL_SERVER_ERROR bc.NESHAN_API_FAILED));
      [reflexivity|reflexivity|lia|vm_compute; reflexivity].
  - destruct (C10_failures_of_the_routing_client isLatLongEx fetchEx 0)
      as (_ & H & _).
    apply H.
  - destruct (C10_failures_of_the_routing_client isLatLongEx fetchEx 0)
      as (_ & _ & H & _).
    apply H. right. vm_compute. reflexivity.
  - destruct (C10_failures_of_the_routing_client isLatLongEx fetchDown 0)
      as (_ & _ & _ & H).
    eapply H; [reflexivity|reflexivity|reflexivity|reflexivity|].
    right. simpl. lia.
Defined.

(** The call of the witness throws the wrapped error of the fetch that
    settled first. *)
Example C10_run :
  calculateCostTable isLatLongEx fetchDown 0 coordsEx ("key", None) None
    [1; 0; 2]%nat
  = Throw (Error
      "Fetching routing data from Neshan failed, Error: Fetching routing data from Neshan failed").
Proof. vm_compute. reflexivity. Qed.

(* ********************************************************************* *)
(** * Further properties *)
(* ********************************************************************* *)

(** ** quickSort.ts *)

(** X1.  [quickSort] returns for every array: what it returns is a
    permutation of the array, and the fitness values do not decrease along
    it. *)
Theorem X1_quickSort_sorts_every_array {K} (s : list (K * number)) :
  exists s', quickSort s = Return s' /\ s' ≡ₚ s /\ fitnessAscending s'.
Proof. apply quickSort_spec. Qed.

Lemma fitnessAt_fz {K} (s : list (K * number)) i :
  fitnessAt s i = orTypeError (fz s i).
Proof. reflexivity. Qed.

(** X2.  For a segment inside the array [choosePivot] returns the left, the
    middle or the right index, and the fitness there is a median of the
    three: it is not above both of the other two and not below both. *)
Theorem X2_choosePivot_returns_the_median {K} (s : list (K * number)) left right :
  0 <= left -> left <= right -> right < JS.len s ->
  exists l m r,
    fz s left = Some l /\ fz s ((left + right) `div` 2) = Some m
    /\ fz s right = Some r
    /\ (choosePivot s left right = Return left /\ medianOf l m r
        \/ choosePivot s left right = Return ((left + right) `div` 2)
           /\ medianOf m l r
        \/ choosePivot s left right = Return right /\ medianOf r l m).
Proof.
  intros H0 Hlr Hr.
  assert (left <= (left + right) `div` 2 <= right) as Hmid.
  { split; [apply Z.div_le_lower_bound|apply Z.div_le_upper_bound]; lia. }
  destruct (fz_in_range s left) as [l Hl]; [lia|].
  destruct (fz_in_range s ((left + right) `div` 2)) as [m Hm]; [lia|].
  destruct (fz_in_range s right) as [r Hrr]; [lia|].
  exists l, m, r. split; [done|]. split; [done|]. split; [done|].
  unfold choosePivot. rewrite !fitnessAt_fz, Hl, Hm, Hrr.
  cbn [orTypeError mbind Completion_bind].
  unfold medianOf.
  pose proof (num_ltb_asym l m); pose proof (num_ltb_asym m r);
  pose proof (num_ltb_asym l r).
  destruct (num_ltb l m), (num_ltb m r), (num_ltb l r),
    (num_ltb m l), (num_ltb r m), (num_ltb r l);
    try match goal with
        | H : true = true -> true = false |- _ => discriminate (H eq_refl)
        end;
    first [ left; split; [reflexivity|split; intros [? ?]; discriminate]
          | right; left; split; [reflexivity|split; intros [? ?]; discriminate]
          | right; right; split; [reflexivity|split; intros [? ?]; discriminate] ].
Qed.

Lemma X2_choosePivot_witness :
  exists l m r,
    fz [(10, Fin 3); (11, Fin 1); (12, Fin 2)] 0 = Some l
    /\ fz [(10, Fin 3); (11, Fin 1); (12, Fin 2)] ((0 + 2) `div` 2) = Some m
    /\ fz [(10, Fin 3); (11, Fin 1); (12, Fin 2)] 2 = Some r
    /\ (choosePivot [(10, Fin 3); (11, Fin 1); (12, Fin 2)] 0 2 = Return 0
        /\ medianOf l m r
        \/ choosePivot [(10, Fin 3); (11, Fin 1); (12, Fin 2)] 0 2
           = Return ((0 + 2) `div` 2)
           /\ medianOf m l r
        \/ choosePivot [(10, Fin 3); (11, Fin 1); (12, Fin 2)] 0 2 = Return 2
           /\ medianOf r l m).
Proof.
  apply (X2_choosePivot_returns_the_median
           [(10, Fin 3); (11, Fin 1); (12, Fin 2)] 0 2); [lia|lia|].
  vm_compute. reflexivity.
Defined.

(** The pivot of the witness is the entry at the right end, of fitness 2. *)
Example X2_choosePivot_run :
  choosePivot [(10, Fin 3); (11, Fin 1); (12, Fin 2)] 0 2 = Return 2.
Proof. reflexivity. Qed.

(** X3.  For a segment of at least two entries inside the array,
    [partition] returns: it has permuted the entries of the segment and
    touched no other, the index it returns lies inside the segment, right
    of its first entry, and no entry of the segment at or right of the index
    has a lower fitness than an entry left of it. *)
Theorem X3_partition_splits_the_segment {K} (s : list (K * number)) L0 R0 :
  0 <= L0 -> L0 < R0 -> R0 < JS.len s ->
  exists s' index,
    partition s L0 R0 = Return (s', index)
    /\ s' ≡ₚ s
    /\ (forall i, i < L0 \/ R0 < i -> JS.get s' i = JS.get s i)
    /\ L0 < index <= R0
    /\ (forall i j a b, L0 <= i < index -> index <= j <= R0 ->
          fz s' i = Some a -> fz s' j = Some b -> num_ltb b a = false).
Proof.
  intros H0 Hlr Hr.
  destruct (partition_spec s L0 R0 H0 Hlr Hr)
    as (s' & index & p & Hrun & Hseg & Hidx & Hlow & Hhigh).
  exists s', index. split; [done|]. split; [apply Hseg|].
  split; [apply Hseg|]. split; [done|].
  intros i j a b Hi Hj Ha Hb.
  destruct (Hlow i Hi) as (a' & Ha' & Hap).
  destruct (Hhigh j Hj) as (b' & Hb' & Hpb).
  rewrite Ha in Ha'. rewrite Hb in Hb'. injection Ha' as <-. injection Hb' as <-.
  by apply (num_leb_trans a p b).
Qed.

Lemma X3_partition_witness :
  exists s' index,
    partition [(10, Fin 3); (11, Fin 1); (12, Fin 2); (13, Fin 0)] 1 3
    = Return (s', index)
    /\ s' ≡ₚ [(10, Fin 3); (11, Fin 1); (12, Fin 2); (13, Fin 0)]
    /\ (forall i, i < 1 \/ 3 < i ->
          JS.get s' i
          = JS.get [(10, Fin 3); (11, Fin 1); (12, Fin 2); (13, Fin 0)] i)
    /\ 1 < index <= 3
    /\ (forall i j a b, 1 <= i < index -> index <= j <= 3 ->
          fz s' i = Some a -> fz s' j = Some b -> num_ltb b a = false).
Proof.
  apply (X3_partition_splits_the_segment
           [(10, Fin 3); (11, Fin 1); (12, Fin 2); (13, Fin 0)] 1 3);
    [lia|lia|vm_compute; reflexivity].
Defined.

(** The call of the witness swaps the ends of the segment. *)
Example X3_partition_run :
  partition [(10, Fin 3); (11, Fin 1); (12, Fin 2); (13, Fin 0)] 1 3
  = Return ([(10, Fin 3); (13, Fin 0); (12, Fin 2); (11, Fin 1)], 2).
Proof. vm_compute. reflexivity. Qed.

Lemma fz_out_of_range {K} (s : list (K * number)) i :
  i < 0 \/ JS.len s <= i -> fz s i = None.
Proof.
  intros H. destruct (fz s i) as [v|] eqn:E; [|done].
  apply fz_Some_range in E. lia.
Qed.

(** X4.  [quickSort(source, left, right)] with bounds of the caller's: an
    array of at most one entry is returned as it is, whatever the bounds
    are; for a longer array a left or a right bound outside the array ends
    the call in a TypeError, thrown where [choosePivot] reads the fitness of
    an entry that is not there. *)
Theorem X4_quickSort_with_bounds_outside_the_array {K} (s : list (K * number))
    budget left right :
  (JS.len s <= 1 -> quickSortRange (S budget) s left right = Return s)
  /\ (1 < JS.len s ->
      left < 0 \/ JS.len s <= left \/ right < 0 \/ JS.len s <= right ->
      quickSortRange (S budget) s left right = Throw TypeError).
Proof.
  split.
  - intros H. rewrite quickSortRange_S.
    assert ((1 <? JS.len s) = false) as -> by (apply Z.ltb_ge; lia). done.
  - intros H Hout. rewrite quickSortRange_S.
    assert ((1 <? JS.len s) = true) as -> by (apply Z.ltb_lt; lia).
    assert (choosePivot s left right = Throw TypeError) as Hp.
    { unfold choosePivot. rewrite !fitnessAt_fz.
      assert (fz s left = None \/ fz s right = None) as Hnone.
      { destruct Hout as [?|[?|[?|?]]];
          [left|left|right|right]; apply fz_out_of_range; lia. }
      destruct (fz s left) as [l|]; [|done].
      destruct (fz s ((left + right) `div` 2)) as [m|]; [|done].
      destruct Hnone as [? | Hn]; [done|]. rewrite Hn. done. }
    unfold partition. rewrite Hp. done.
Qed.

Lemma X4_quickSort_bounds_witness :
  quickSortRange 1 [(10, Fin 3)] 5 (-2) = Return [(10, Fin 3)]
  /\ quickSortRange 3 [(10, Fin 3); (11, Fin 1)] 0 2 = Throw TypeError.
Proof.
  split.
  - apply (X4_quickSort_with_bounds_outside_the_array [(10, Fin 3)] 0 5 (-2)).
    unfold JS.len. simpl. lia.
  - apply (X4_quickSort_with_bounds_outside_the_array
             [(10, Fin 3); (11, Fin 1)] 2 0 2); [unfold JS.len; simpl; lia|].
    right. right. right. unfold JS.len. simpl. lia.
Defined.

(** ** general.ts *)

Lemma toUnif_unif q : Qle_bool 0 q && Qltb q 1 = true -> unif (toUnif q) = q.
Proof.
  intros H. unfold toUnif.
  generalize (@eq_refl bool (Qle_bool 0 q && Qltb q 1)).
  generalize (Qle_bool 0 q && Qltb q 1) at 2 3.
  intros b Hb. destruct b; [done|]. congruence.
Qed.

(** X5.  For min <= max, [random(min, max)] is an integer of [min, max]
    whatever [Math.random()] gives, and every integer of [min, max], both
    ends included, is the value of [random(min, max)] for some value of
    [Math.random()]. *)
Theorem X5_random_covers_the_range (min max : Z) :
  min <= max ->
  (forall u, min <= random u min max <= max)
  /\ (forall k, min <= k <= max -> exists u, random u min max = k).
Proof.
  intros Hmm. split; [intros u; by apply random_range|].
  intros k Hk.
  set (n := max - min + 1).
  set (q := ((k - min) # Z.to_pos n)%Q).
  assert (Qle_bool 0 q && Qltb q 1 = true) as Hq.
  { apply andb_true_intro. split.
    - apply Qle_bool_iff. unfold q, Qle. simpl. lia.
    - apply Qltb_lt. unfold q, Qlt. simpl. rewrite Z2Pos.id by lia. lia. }
  exists (toUnif q). unfold random. rewrite toUnif_unif by done.
  fold n. assert (q * inject_Z n == inject_Z (k - min))%Q as ->.
  { unfold q, Qeq, Qmult, inject_Z. simpl. rewrite Pos.mul_1_r.
    rewrite Z2Pos.id by lia. lia. }
  rewrite Qfloor_Z. lia.
Qed.

Lemma X5_random_witness :
  (forall u, 2 <= random u 2 5 <= 5)
  /\ (forall k, 2 <= k <= 5 -> exists u, random u 2 5 = k).
Proof. apply (X5_random_covers_the_range 2 5). lia. Defined.

Lemma fact_eq stack num :
  fact stack num
  = if (num =? 0) || (num =? 1) then Return (Finite 1)
    else match stack with
         | O => Throw RangeError
         | S stack' =>
             f ← fact stack' (num - 1);
             if 2 <=? num then Return (times num f) else Unmodelled
         end.
Proof. by destruct stack. Qed.

Lemma fact_products n : forall stack,
  (n <= S stack)%nat -> fact stack (Z.of_nat n) = Return (products n).
Proof.
  induction n as [|n IH]; intros stack Hn; rewrite fact_eq; [done|].
  cbn [products]. case_bool_decide as E.
  - injection E as ->. done.
  - assert ((Z.of_nat (S n) =? 0) = false) as -> by (apply Z.eqb_neq; lia).
    assert ((Z.of_nat (S n) =? 1) = false) as -> by (apply Z.eqb_neq; lia).
    cbn [orb]. destruct stack as [|stack]; [lia|].
    replace (Z.of_nat (S n) - 1) with (Z.of_nat n) by lia.
    rewrite IH by lia. cbn [mbind Completion_bind].
    assert ((2 <=? Z.of_nat (S n)) = true) as -> by (apply Z.leb_le; lia).
    done.
Qed.

Lemma factOf_products num : 0 <= num -> factOf num = products (Z.to_nat num).
Proof.
  intros H. unfold factOf.
  rewrite <- (Z2Nat.id num) at 2 by done. by rewrite fact_products by lia.
Qed.

Lemma fact_RangeError stack : forall num,
  num < 0 \/ Z.of_nat stack < num - 1 -> fact stack num = Throw RangeError.
Proof.
  induction stack as [|stack IH]; intros num H; rewrite fact_eq.
  - assert ((num =? 0) = false) as -> by (apply Z.eqb_neq; lia).
    assert ((num =? 1) = false) as -> by (apply Z.eqb_neq; lia). done.
  - assert ((num =? 0) = false) as -> by (apply Z.eqb_neq; lia).
    assert ((num =? 1) = false) as -> by (apply Z.eqb_neq; lia).
    cbn [orb]. rewrite IH by lia. done.
Qed.

Lemma toDouble_atLeastOne z : 1 <= z -> atLeastOne (toDouble z).
Proof.
  intros Hz. unfold toDouble. destruct (z <? 2 ^ 53) eqn:E; [done|].
  apply Z.ltb_ge in E. cbn zeta.
  set (shift := Z.log2 z - 52).
  set (head := Z.shiftr z shift).
  set (rest := Z.land z (Z.ones shift)).
  set (half := Z.shiftl 1 (shift - 1)).
  set (rounded := if rest <? half then head
                  else if half <? rest then head + 1
                  else if Z.even head then head else head + 1).
  destruct (Z.shiftl rounded shift <? 2 ^ 1024); [|done].
  assert (53 <= Z.log2 z) as Hlog.
  { apply Z.log2_le_pow2; [lia|]. exact E. }
  assert (0 <= shift) as Hshift by (unfold shift; lia).
  assert (1 <= head) as Hhead.
  { unfold head. rewrite Z.shiftr_div_pow2 by done.
    destruct (Z.log2_spec z) as [Hlo _]; [lia|].
    assert (2 ^ shift <= 2 ^ Z.log2 z)
      by (apply Z.pow_le_mono_r; unfold shift; lia).
    apply Z.div_le_lower_bound; lia. }
  assert (head <= rounded) as Hrounded.
  { unfold rounded. repeat case_match; lia. }
  cbn [atLeastOne]. rewrite Z.shiftl_mul_pow2 by done.
  assert (0 < 2 ^ shift) by (apply Z.pow_pos_nonneg; lia). nia.
Qed.

Lemma products_atLeastOne n : atLeastOne (products n).
Proof.
  induction n as [|n IH]; [done|]. cbn [products].
  case_bool_decide; [done|]. destruct (products n) as [z|]; [|done].
  cbn [times atLeastOne] in *. apply toDouble_atLeastOne. nia.
Qed.

Lemma factOf_atLeastOne num : atLeastOne (factOf num).
Proof.
  destruct (decide (0 <= num)) as [H|H].
  - rewrite factOf_products by done. apply products_atLeastOne.
  - unfold factOf. rewrite fact_RangeError by lia. done.
Qed.

Lemma products_exact :
  Forall (fun n => products n = Finite (factorial n)) (seq 0 23).
Proof. apply (bool_decide_unpack _). vm_compute. exact I. Qed.

Lemma products_rounded :
  Forall (fun n => products n <> Finite (factorial n)
                   /\ products n <> Infinite) (seq 23 148).
Proof. apply (bool_decide_unpack _). vm_compute. exact I. Qed.

Lemma products_Infinite n : (171 <= n)%nat -> products n = Infinite.
Proof.
  induction 1 as [|n Hn IH]; [vm_compute; reflexivity|].
  cbn [products]. rewrite IH. case_bool_decide; [lia|done].
Qed.

(** X6.  [fact(num)] multiplies doubles.  For a whole number num >= 0 and a
    stack that lets num - 1 calls nest it returns, a number that is never
    below 1: 1 for 0 and for 1, and from 2 on the double nearest to num times
    what it returns for num - 1.  That is num! up to 22; from 23 to 170 it
    is a finite number that is not num!; from 171 on it is Infinity.  For a
    negative num, and when num - 1 calls are more than the stack lets nest,
    it ends in a RangeError. *)
Theorem X6_fact_multiplies_doubles (stack : nat) (num : Z) :
  (0 <= num -> num - 1 <= Z.of_nat stack ->
   fact stack num = Return (factOf num) /\ atLeastOne (factOf num))
  /\ (num < 0 \/ Z.of_nat stack < num - 1 ->
      fact stack num = Throw RangeError)
  /\ (2 <= num -> factOf num = times num (factOf (num - 1)))
  /\ (0 <= num <= 22 -> factOf num = Finite (factorial (Z.to_nat num)))
  /\ (23 <= num <= 170 ->
      exists z, factOf num = Finite z /\ z <> factorial (Z.to_nat num))
  /\ (171 <= num -> factOf num = Infinite).
Proof.
  split; [|split; [|split; [|split; [|split]]]].
  - intros H0 Hstack. split; [|apply factOf_atLeastOne].
    rewrite factOf_products by done.
    rewrite <- (Z2Nat.id num) at 1 by done. apply fact_products. lia.
  - apply fact_RangeError.
  - intros H2. rewrite !factOf_products by lia.
    replace (Z.to_nat num) with (S (Z.to_nat (num - 1))) by lia.
    cbn [products]. case_bool_decide; [lia|]. f_equal. lia.
  - intros H. rewrite factOf_products by lia.
    pose proof products_exact as Hall. rewrite Forall_forall in Hall.
    apply Hall, elem_of_seq. lia.
  - intros H. rewrite factOf_products by lia.
    pose proof products_rounded as Hall. rewrite Forall_forall in Hall.
    destruct (Hall (Z.to_nat num)) as [Hne Hfin]; [apply elem_of_seq; lia|].
    destruct (products (Z.to_nat num)) as [z|]; [|done].
    exists z. split; [done|]. intros ->. done.
  - intros H. rewrite factOf_products by lia. apply products_Infinite. lia.
Qed.

Lemma X6_fact_witness :
  (fact 30 23 = Return (factOf 23) /\ atLeastOne (factOf 23))
  /\ fact 30 (-1) = Throw RangeError
  /\ fact 30 40 = Throw RangeError
  /\ factOf 5 = Finite (factorial 5)
  /\ (exists z, factOf 23 = Finite z /\ z <> factorial 23)
  /\ factOf 171 = Infinite.
Proof.
  split; [|split; [|split; [|split; [|split]]]].
  - destruct (X6_fact_multiplies_doubles 30 23) as (H & _).
    apply H; simpl; lia.
  - destruct (X6_fact_multiplies_doubles 30 (-1)) as (_ & H & _).
    apply H. left. lia.
  - destruct (X6_fact_multiplies_doubles 30 40) as (_ & H & _).
    apply H. right. simpl. lia.
  - destruct (X6_fact_multiplies_doubles 0 5) as (_ & _ & _ & H & _).
    apply H. lia.
  - destruct (X6_fact_multiplies_doubles 0 23) as (_ & _ & _ & _ & H & _).
    apply H. lia.
  - destruct (X6_fact_multiplies_doubles 0 171) as (_ & _ & _ & _ & _ & H).
    apply H. lia.
Defined.

(** [fact(5)] is 120, [fact(22)] is 22!, [fact(23)] is 2^20 * 1.5 above
    23!, and [fact(170)] is the last finite one. *)
Example X6_fact_run :
  fact 200 5 = Return (Finite 120)
  /\ fact 200 0 = Return (Finite 1) /\ fact 0 1 = Return (Finite 1)
  /\ fact 200 22 = Return (Finite 1124000727777607680000)
  /\ fact 200 23 = Return (Finite 25852016738884978212864)
  /\ factorial 23 = 25852016738884976640000
  /\ (exists z, fact 200 170 = Return (Finite z))
  /\ fact 200 171 = Return Infinite.
Proof.
  repeat split; try (vm_compute; reflexivity). eexists. vm_compute. reflexivity.
Qed.

(** ** class GA: evaluation *)

Ltac inlist :=
  repeat match goal with
         | H : _ ∈ _ :: _ |- _ => rewrite elem_of_cons in H
         | H : _ ∈ _ ++ _ |- _ => rewrite elem_of_app in H
         | H : _ ∈ [] |- _ => by apply elem_of_nil in H
         end;
  rewrite ?elem_of_cons, ?elem_of_app; solve [intuition (subst; auto; done)].

Lemma getRouteCost_rowMajor this a b :
  rowMajor (dimension (configs this)) (costTable this) ->
  0 <= a < dimension (configs this) -> 0 <= b < dimension (configs this) ->
  exists c, _getRouteCost this a b = Return c
            /\ (a, b, c) ∈ costTable this.
Proof.
  intros Ht Ha Hb. destruct (Ht a b Ha Hb) as [c Hc]. exists c.
  unfold _getRouteCost. rewrite Hc. split; [done|].
  rewrite get_lookup in Hc by nia. by eapply list_elem_of_lookup_2.
Qed.

Lemma getRouteCost_cases this a b :
  (exists c, _getRouteCost this a b = Return c)
  \/ _getRouteCost this a b = Throw TypeError.
Proof.
  unfold _getRouteCost. destruct (JS.get _ _); [left; by eexists|by right].
Qed.

Lemma pathCost_cases this c :
  (exists v, pathCost this c = Return v) \/ pathCost this c = Throw TypeError.
Proof.
  induction c as [|a [|b rest] IH]; [left; by eexists..|].
  rewrite pathCost_cons.
  destruct (getRouteCost_cases this a b) as [[x ->]| ->]; [|by right].
  destruct IH as [[y ->]| ->]; [left; by eexists|by right].
Qed.

Lemma pathCost_total this c :
  rowMajor (dimension (configs this)) (costTable this) ->
  nonNegative (costTable this) ->
  (forall g, g ∈ c -> 0 <= g < dimension (configs this)) ->
  exists v, pathCost this c = Return v /\ 0 <= v.
Proof.
  intros Ht Hnn. induction c as [|a [|b rest] IH]; intros Hc.
  - by exists 0.
  - by exists 0.
  - rewrite pathCost_cons.
    destruct (getRouteCost_rowMajor this a b Ht) as (x & -> & Hx);
      [apply Hc; inlist..|].
    destruct IH as (y & Hy1 & Hy); [intros g Hg; apply Hc; inlist|].
    rewrite Hy1.
    exists (x + y). split; [done|]. specialize (Hnn _ Hx). simpl in Hnn. lia.
Qed.

Lemma codeCost_total this c :
  rowMajor (dimension (configs this)) (costTable this) ->
  nonNegative (costTable this) ->
  (forall g, g ∈ c -> 0 <= g < dimension (configs this)) ->
  exists v, codeCost this c = Return v /\ 0 <= v.
Proof.
  intros Ht Hnn Hc. unfold codeCost.
  destruct (pathCost_total this c Ht Hnn Hc) as (p & -> & Hp).
  cbn [mbind Completion_bind].
  destruct (_returnToOrigin this && truthy (head c) && truthy (last c));
    [|by exists p].
  destruct (last c) as [l|] eqn:El; [|by exists p].
  destruct (head c) as [f|] eqn:Ef; [|by exists p].
  destruct (getRouteCost_rowMajor this l f Ht) as (x & -> & Hx);
    [apply Hc; by apply last_Some_elem_of
    |apply Hc; by apply head_Some_elem_of|].
  exists (p + x). split; [done|]. specialize (Hnn _ Hx). simpl in Hnn. lia.
Qed.

Lemma pathCost_failed this pre a b suf :
  JS.get (costTable this) (a * dimension (configs this) + b) = None ->
  pathCost this (pre ++ a :: b :: suf) = Throw TypeError.
Proof.
  intros Hab.
  assert (_getRouteCost this a b = Throw TypeError) as Hcost.
  { unfold _getRouteCost. by rewrite Hab. }
  induction pre as [|x pre IH].
  - cbn [app]. rewrite pathCost_cons, Hcost. done.
  - destruct pre as [|y pre].
    + cbn [app] in *. rewrite pathCost_cons, IH.
      by destruct (getRouteCost_cases this x a) as [[v ->]| ->].
    + cbn [app] in *. rewrite pathCost_cons, IH.
      by destruct (getRouteCost_cases this x y) as [[v ->]| ->].
Qed.

(** X7.  Over a table that lists every pair of [0,N) row by row and has no
    negative cost, [_evaluateChromosomeFitness] returns for every chromosome
    whose genes are nodes of [0,N): the cost it arrives at is not negative,
    and the fitness, its reciprocal, is above 0 (it is Infinity for the
    cost 0). *)
Theorem X7_evaluation_of_a_tour_over_a_full_table this (c : Chromosome) :
  rowMajor (dimension (configs this)) (costTable this) ->
  nonNegative (costTable this) ->
  (forall g, g ∈ c -> 0 <= g < dimension (configs this)) ->
  exists cost,
    chromosomeCost this c = Return cost /\ 0 <= cost
    /\ _evaluateChromosomeFitness this c = Return (num_inv (num_of_Z cost))
    /\ num_ltb (Fin 0) (num_inv (num_of_Z cost)) = true.
Proof.
  intros Ht Hnn Hc.
  destruct (codeCost_total this c Ht Hnn Hc) as (v & Hv & Hpos).
  rewrite <- chromosomeCost_codeCost in Hv.
  exists v. split; [done|]. split; [done|]. split.
  { unfold _evaluateChromosomeFitness. by rewrite Hv. }
  unfold num_inv, num_of_Z.
  destruct (Qeq_bool (inject_Z v) 0) eqn:E; [done|].
  cbn [num_ltb]. apply Qltb_lt. apply Qinv_lt_0_compat.
  apply Qeq_bool_neq in E.
  assert (inject_Z 0 <= inject_Z v)%Q as H0 by (rewrite <- Zle_Qle; lia).
  apply Qle_lteq in H0. destruct H0 as [H0|H0]; [done|]. by symmetry in H0.
Qed.

Lemma table4_rowMajor : rowMajor 4 table4.
Proof.
  intros o d Ho Hd.
  assert (o = 0 \/ o = 1 \/ o = 2 \/ o = 3) as [->|[->|[->| ->]]] by lia;
    (assert (d = 0 \/ d = 1 \/ d = 2 \/ d = 3) as [->|[->|[->| ->]]] by lia);
    eexists; reflexivity.
Qed.

Lemma table4_nonNegative : nonNegative table4.
Proof.
  unfold nonNegative. apply Forall_forall. unfold table4.
  repeat constructor; simpl; lia.
Qed.

Lemma X7_evaluation_witness :
  exists cost,
    chromosomeCost ga4 [2;0;3;1] = Return cost /\ 0 <= cost
    /\ _evaluateChromosomeFitness ga4 [2;0;3;1]
       = Return (num_inv (num_of_Z cost))
    /\ num_ltb (Fin 0) (num_inv (num_of_Z cost)) = true.
Proof.
  apply (X7_evaluation_of_a_tour_over_a_full_table ga4 [2;0;3;1]).
  - exact table4_rowMajor.
  - exact table4_nonNegative.
  - intros g Hg. simpl.
    repeat (apply elem_of_cons in Hg as [->|Hg]); [lia..|].
    by apply elem_of_nil in Hg.
Defined.

(** The tour of the witness costs 2 + 3 + 2 and the way back 1. *)
Example X7_evaluation_run :
  chromosomeCost ga4 [2;0;3;1] = Return 8
  /\ _evaluateChromosomeFitness ga4 [2;0;3;1] = Return (Fin (1 # 8)).
Proof. split; reflexivity. Qed.

Lemma codeCost_cases this c :
  (exists v, codeCost this c = Return v) \/ codeCost this c = Throw TypeError.
Proof.
  unfold codeCost.
  destruct (pathCost_cases this c) as [[p ->]| ->]; [|by right].
  cbn [mbind Completion_bind].
  destruct (_returnToOrigin this && truthy (head c) && truthy (last c));
    [|left; by eexists].
  destruct (last c) as [l|]; [|left; by eexists].
  destruct (head c) as [f|]; [|left; by eexists].
  destruct (getRouteCost_cases this l f) as [[x ->]| ->];
    [left; by eexists|by right].
Qed.

(** X8.  [_evaluateChromosomeFitness] checks no gene: it returns or it ends
    in a TypeError, and it ends in a TypeError whenever two genes that follow
    each other in the chromosome give an index, a * dimension + b, that is
    outside the cost table. *)
Theorem X8_evaluation_fails_with_a_TypeError_only this :
  (forall c : Chromosome,
     (exists f, _evaluateChromosomeFitness this c = Return f)
     \/ _evaluateChromosomeFitness this c = Throw TypeError)
  /\ (forall pre a b suf,
        JS.get (costTable this) (a * dimension (configs this) + b) = None ->
        _evaluateChromosomeFitness this (pre ++ a :: b :: suf)
        = Throw TypeError).
Proof.
  split.
  - intros c. unfold _evaluateChromosomeFitness.
    rewrite chromosomeCost_codeCost.
    destruct (codeCost_cases this c) as [[v ->]| ->];
      [left; by eexists|by right].
  - intros pre a b suf Hab. unfold _evaluateChromosomeFitness.
    rewrite chromosomeCost_codeCost. unfold codeCost.
    by rewrite pathCost_failed.
Qed.

Lemma X8_TypeError_witness :
  _evaluateChromosomeFitness ga4 ([0; 1] ++ 3 :: 4 :: [2]) = Throw TypeError.
Proof.
  destruct (X8_evaluation_fails_with_a_TypeError_only ga4) as [_ H].
  apply (H [0; 1] 3 4 [2]). reflexivity.
Defined.

Lemma pathCost_snoc this : forall c x y,
  pathCost this (c ++ [x; y])
  = p ← pathCost this (c ++ [x]); r ← _getRouteCost this x y; Return (p + r).
Proof.
  induction c as [|a c IH]; intros x y.
  - cbn [app]. rewrite pathCost_cons. cbn [pathCost mbind Completion_bind].
    destruct (getRouteCost_cases this x y) as [[v ->]| ->]; [|done].
    cbn [mbind Completion_bind]. f_equal. lia.
  - destruct c as [|b c].
    + cbn [app] in *. rewrite !pathCost_cons.
      destruct (getRouteCost_cases this a x) as [[v ->]| ->]; [|done].
      destruct (getRouteCost_cases this x y) as [[w ->]| ->]; [|done].
      cbn [pathCost mbind Completion_bind]. f_equal. lia.
    + cbn [app] in *. rewrite !pathCost_cons. rewrite (IH x y).
      destruct (getRouteCost_cases this a b) as [[v ->]| ->]; [|done].
      cbn [mbind Completion_bind].
      destruct (pathCost_cases this (b :: c ++ [x])) as [[p ->]| ->]; [|done].
      cbn [mbind Completion_bind].
      destruct (getRouteCost_cases this x y) as [[w ->]| ->]; [|done].
      cbn [mbind Completion_bind]. f_equal. lia.
Qed.

Lemma pathCost_reverse this c :
  symmetricOn this c -> pathCost this (reverse c) = pathCost this c.
Proof.
  induction c as [|a [|b rest] IH]; intros Hsym; [done..|].
  rewrite pathCost_cons. rewrite reverse_cons, reverse_cons, <- app_assoc.
  cbn [app]. rewrite pathCost_snoc. rewrite <- reverse_cons, IH.
  2:{ intros x y Hx Hy. apply Hsym; by apply list_elem_of_further. }
  rewrite (Hsym b a) by inlist.
  destruct (getRouteCost_cases this a b) as [[v ->]| ->].
  - destruct (pathCost_cases this (b :: rest)) as [[p ->]| ->]; [|done].
    cbn [mbind Completion_bind]. f_equal. lia.
  - by destruct (pathCost_cases this (b :: rest)) as [[p ->]| ->].
Qed.

(** X9.  When the cost between any two genes of a chromosome is the same in
    both directions, the chromosome and its reverse have the same fitness,
    with or without the return to the origin. *)
Theorem X9_fitness_of_the_reversed_tour this (c : Chromosome) :
  symmetricOn this c ->
  _evaluateChromosomeFitness this (reverse c)
  = _evaluateChromosomeFitness this c.
Proof.
  intros Hsym. unfold _evaluateChromosomeFitness. f_equal.
  rewrite !chromosomeCost_codeCost. unfold codeCost.
  rewrite pathCost_reverse by done.
  rewrite head_reverse, last_reverse.
  destruct (pathCost_cases this c) as [[p ->]| ->]; [|done].
  cbn [mbind Completion_bind].
  destruct (head c) as [f|] eqn:Ef, (last c) as [l|] eqn:El; cbn [truthy];
    rewrite ?andb_false_r; try done.
  rewrite (Hsym f l);
    [|by apply head_Some_elem_of|by apply last_Some_elem_of].
  by destruct (_returnToOrigin this), (negb (f =? 0)), (negb (l =? 0)).
Qed.

Lemma X9_reversed_tour_witness :
  _evaluateChromosomeFitness ga4 (reverse [1;3;2;0])
  = _evaluateChromosomeFitness ga4 [1;3;2;0].
Proof.
  apply (X9_fitness_of_the_reversed_tour ga4 [1;3;2;0]).
  intros a b Ha Hb.
  repeat (apply elem_of_cons in Ha as [->|Ha]);
    [..|by apply elem_of_nil in Ha];
    repeat (apply elem_of_cons in Hb as [->|Hb]);
    solve [reflexivity | by apply elem_of_nil in Hb].
Defined.

Lemma Map_set_absent {K V} `{EqDecision K} (m : list (K * V)) k v :
  k ∉ m.*1 -> JS.Map_set m k v = m ++ [(k, v)].
Proof.
  induction m as [|[k' v'] m IH]; intros Hk; [done|].
  cbn [JS.Map_set]. rewrite fmap_cons, not_elem_of_cons in Hk.
  destruct Hk as [Hne Hk]. simpl in Hne.
  rewrite bool_decide_eq_false_2 by congruence. by rewrite IH.
Qed.

Lemma evaluateInto_spec this population : forall acc,
  NoDup (acc.*1 ++ population) ->
  (forall c, c ∈ population ->
     exists f, _evaluateChromosomeFitness this (strToChr c) = Return f) ->
  exists ev,
    evaluateInto this acc population = Return (acc ++ ev)
    /\ ev.*1 = population
    /\ forall e, e ∈ ev ->
         _evaluateChromosomeFitness this (strToChr e.1) = Return e.2.
Proof.
  induction population as [|c rest IH]; intros acc Hnd Hev.
  - exists []. rewrite app_nil_r. split; [done|]. split; [done|].
    intros e He. by apply elem_of_nil in He.
  - destruct (Hev c) as [f Hf]; [by left|].
    cbn [evaluateInto]. rewrite Hf. cbn [mbind Completion_bind].
    apply NoDup_app in Hnd as (Hacc & Hdis & Hrest).
    apply NoDup_cons in Hrest as [Hc Hrest].
    rewrite Map_set_absent.
    2:{ intros Hin. apply (Hdis c Hin). by left. }
    destruct (IH (acc ++ [(c, f)])) as (ev & Hrun & Hkeys & Hfit).
    { rewrite fmap_app, <- app_assoc. cbn. apply NoDup_app. split; [done|].
      split; [|by apply NoDup_cons].
      intros x Hx. by apply Hdis. }
    { intros x Hx. apply Hev. by right. }
    exists ((c, f) :: ev). rewrite Hrun, <- app_assoc. split; [done|].
    split; [cbn; by rewrite Hkeys|].
    intros e [->|He]%elem_of_cons; [done|by apply Hfit].
Qed.

Lemma evaluatePopulation_lists this (population : Population) :
  NoDup population ->
  (forall c, c ∈ population ->
     exists f, _evaluateChromosomeFitness this (strToChr c) = Return f) ->
  exists ev,
    _evaluatePopulationFitness this population = Return ev
    /\ ev.*1 = population
    /\ forall e, e ∈ ev ->
         _evaluateChromosomeFitness this (strToChr e.1) = Return e.2.
Proof.
  intros Hnd Hev. by apply (evaluateInto_spec this population []).
Qed.

(** X10.  For a population of different chromosomes that all evaluate,
    [_evaluatePopulationFitness] returns a map that lists the chromosomes of
    the population in their order, each with the fitness that
    [_evaluateChromosomeFitness] gives it. *)
Theorem X10_evaluated_population_lists_the_population this
    (population : Population) :
  NoDup population ->
  (forall c, c ∈ population ->
     exists f, _evaluateChromosomeFitness this (strToChr c) = Return f) ->
  exists ev,
    _evaluatePopulationFitness this population = Return ev
    /\ ev.*1 = population
    /\ forall e, e ∈ ev ->
         _evaluateChromosomeFitness this (strToChr e.1) = Return e.2.
Proof. apply evaluatePopulation_lists. Qed.

Lemma X10_evaluated_population_witness :
  exists ev,
    _evaluatePopulationFitness gaS prevPopulation = Return ev
    /\ ev.*1 = prevPopulation
    /\ forall e, e ∈ ev ->
         _evaluateChromosomeFitness gaS (strToChr e.1) = Return e.2.
Proof.
  apply (X10_evaluated_population_lists_the_population gaS prevPopulation).
  - apply (bool_decide_unpack _). vm_compute. exact I.
  - intros c Hc. unfold prevPopulation in Hc.
    repeat (apply elem_of_cons in Hc as [->|Hc]);
      [eexists; vm_compute; reflexivity..|].
    by apply elem_of_nil in Hc.
Defined.

(** ** class GA: statistics and termination *)

(** What a registration does, given the sorted population's two ends. *)
Lemma registerSolutionStats_inv now population st st' :
  _registerSolutionStats now population st = Return st' ->
  exists sorted best worst,
    quickSort population = Return sorted
    /\ JS.get sorted (JS.len sorted - 1) = Some best
    /\ JS.get sorted 0 = Some worst
    /\ _generationCount st' = _generationCount st
    /\ _solvingStartTime st' = _solvingStartTime st
    /\ solvedIn (_solution st') = Some (now - _solvingStartTime st)
    /\ generations (_solution st') = Some (_generationCount st)
    /\ bestCostHistory (_solution st')
       = Some (default [] (bestCostHistory (_solution st)) ++ [num_inv best.2])
    /\ worstCostHistory (_solution st')
       = Some (default [] (worstCostHistory (_solution st))
               ++ [num_inv worst.2])
    /\ (let updateBest :=
          falsyNum (bestCost (_solution st))
          || from_option (fun old => num_ltb (num_inv best.2) old) false
               (bestCost (_solution st)) in
        solution (_solution st')
        = (if updateBest then Some best.1 else solution (_solution st))
        /\ bestCost (_solution st')
           = (if updateBest then Some (num_inv best.2)
              else bestCost (_solution st))
        /\ bestCostGeneration (_solution st')
           = (if updateBest then Some (_generationCount st)
              else bestCostGeneration (_solution st)))
    /\ (let updateWorst :=
          falsyNum (worstCost (_solution st))
          || from_option (fun old => num_ltb old (num_inv worst.2)) false
               (worstCost (_solution st)) in
        worstCost (_solution st')
        = (if updateWorst then Some (num_inv worst.2)
           else worstCost (_solution st))
        /\ worstCostGeneration (_solution st')
           = (if updateWorst then Some (_generationCount st)
              else worstCostGeneration (_solution st))).
Proof.
  unfold _registerSolutionStats.
  destruct (quickSort population) as [sorted| | |]; try done.
  cbn [mbind Completion_bind].
  destruct (JS.get sorted (JS.len sorted - 1)) as [best|] eqn:Eb; [|done].
  cbn [orTypeError mbind Completion_bind].
  destruct (JS.get sorted 0) as [worst|] eqn:Ew; [|done].
  cbn [orTypeError mbind Completion_bind].
  intros [= <-]. exists sorted, best, worst. split; [done|]. split; [done|].
  split; [done|]. cbn. repeat split.
Qed.

Lemma sorted_ends {K} (population sorted : list (K * number)) best worst :
  quickSort population = Return sorted ->
  JS.get sorted (JS.len sorted - 1) = Some best ->
  JS.get sorted 0 = Some worst ->
  best ∈ population /\ worst ∈ population
  /\ (forall e, e ∈ population -> num_ltb best.2 e.2 = false)
  /\ (forall e, e ∈ population -> num_ltb e.2 worst.2 = false).
Proof.
  intros Hsort Hbest Hworst.
  destruct (quickSort_spec population) as (s' & Hs' & Hperm & Hasc).
  rewrite Hsort in Hs'. injection Hs' as <-.
  pose proof (get_Some_range _ _ _ Hbest) as Hr.
  rewrite get_lookup in Hbest, Hworst by lia.
  split. { rewrite <- Hperm. by eapply list_elem_of_lookup_2. }
  split. { rewrite <- Hperm. by eapply list_elem_of_lookup_2. }
  split.
  - intros e He. rewrite <- Hperm in He.
    apply list_elem_of_lookup_1 in He as [i Hi].
    apply (Hasc i _ e best Hi Hbest).
    apply lookup_lt_Some in Hi. unfold JS.len in *. lia.
  - intros e He. rewrite <- Hperm in He.
    apply list_elem_of_lookup_1 in He as [i Hi].
    apply (Hasc _ i worst e Hworst Hi). simpl. lia.
Qed.

Lemma registration_returns now (population : EvaluatedPopulation) st :
  population <> [] ->
  exists st' best worst,
    _registerSolutionStats now population st = Return st'
    /\ best ∈ population /\ worst ∈ population
    /\ (forall e, e ∈ population -> num_ltb best.2 e.2 = false)
    /\ (forall e, e ∈ population -> num_ltb e.2 worst.2 = false)
    /\ bestCostHistory (_solution st')
       = Some (default [] (bestCostHistory (_solution st))
               ++ [num_inv best.2])
    /\ worstCostHistory (_solution st')
       = Some (default [] (worstCostHistory (_solution st))
               ++ [num_inv worst.2])
    /\ generations (_solution st') = Some (_generationCount st)
    /\ solvedIn (_solution st') = Some (now - _solvingStartTime st).
Proof.
  intros Hpop.
  destruct (quickSort_spec population) as (sorted & Hsort & Hperm & _).
  assert (0 < JS.len sorted) as Hlen.
  { unfold JS.len. rewrite Hperm. destruct population; [done|simpl; lia]. }
  destruct (get_in_range sorted (JS.len sorted - 1)) as [best Hbest]; [lia|].
  destruct (get_in_range sorted 0) as [worst Hworst]; [lia|].
  destruct (_registerSolutionStats now population st) as [st'| | |] eqn:Hrun.
  2-4: unfold _registerSolutionStats in Hrun; rewrite Hsort in Hrun;
       cbn [mbind Completion_bind] in Hrun; rewrite Hbest, Hworst in Hrun;
       discriminate Hrun.
  apply registerSolutionStats_inv in Hrun
    as (sorted' & best' & worst' & Hsort' & Hbest' & Hworst' & _ & _ & Hin
        & Hgen & Hbh & Hwh & _ & _).
  rewrite Hsort in Hsort'. injection Hsort' as <-.
  rewrite Hbest in Hbest'. injection Hbest' as <-.
  rewrite Hworst in Hworst'. injection Hworst' as <-.
  destruct (sorted_ends population sorted best worst Hsort Hbest Hworst)
    as (? & ? & ? & ?).
  exists st', best, worst. done.
Qed.

(** X11.  [_registerSolutionStats] on an empty population ends in a
    TypeError.  On any other population it returns: the cost it appends to
    the history of best costs is the reciprocal of the fitness of a member
    that no member is fitter than, the cost it appends to the history of
    worst costs the reciprocal of the fitness of a member that is fitter
    than no member; it reports the generation count and the time since the
    start. *)
Theorem X11_registration_records_the_two_extremes now
    (population : EvaluatedPopulation) st :
  (population = [] -> _registerSolutionStats now population st = Throw TypeError)
  /\ (population <> [] ->
      exists st' best worst,
        _registerSolutionStats now population st = Return st'
        /\ best ∈ population /\ worst ∈ population
        /\ (forall e, e ∈ population -> num_ltb best.2 e.2 = false)
        /\ (forall e, e ∈ population -> num_ltb e.2 worst.2 = false)
        /\ bestCostHistory (_solution st')
           = Some (default [] (bestCostHistory (_solution st))
                   ++ [num_inv best.2])
        /\ worstCostHistory (_solution st')
           = Some (default [] (worstCostHistory (_solution st))
                   ++ [num_inv worst.2])
        /\ generations (_solution st') = Some (_generationCount st)
        /\ solvedIn (_solution st') = Some (now - _solvingStartTime st)).
Proof. split; [by intros ->|apply registration_returns]. Qed.

Lemma X11_registration_witness :
  _registerSolutionStats 7 [] initialState = Throw TypeError
  /\ exists st' best worst,
       _registerSolutionStats 7 prevGeneration (nextGeneration initialState)
       = Return st'
       /\ best ∈ prevGeneration /\ worst ∈ prevGeneration
       /\ (forall e, e ∈ prevGeneration -> num_ltb best.2 e.2 = false)
       /\ (forall e, e ∈ prevGeneration -> num_ltb e.2 worst.2 = false)
       /\ bestCostHistory (_solution st')
          = Some (default []
                    (bestCostHistory (_solution (nextGeneration initialState)))
                  ++ [num_inv best.2])
       /\ worstCostHistory (_solution st')
          = Some (default []
                    (worstCostHistory (_solution (nextGeneration initialState)))
                  ++ [num_inv worst.2])
       /\ generations (_solution st')
          = Some (_generationCount (nextGeneration initialState))
       /\ solvedIn (_solution st')
          = Some (7 - _solvingStartTime (nextGeneration initialState)).
Proof.
  split.
  - destruct (X11_registration_records_the_two_extremes 7 [] initialState)
      as [H _].
    apply H. reflexivity.
  - destruct (X11_registration_records_the_two_extremes 7 prevGeneration
                (nextGeneration initialState)) as [_ H].
    apply H. discriminate.
Defined.

(** The registration of the witness: the best cost is 3, the worst 7. *)
Example X11_registration_run :
  (st ← _registerSolutionStats 7 prevGeneration (nextGeneration initialState);
   Return (bestCostHistory (_solution st), worstCostHistory (_solution st),
           solvedIn (_solution st)))
  = Return (Some [Fin 3], Some [Fin 7], Some 7).
Proof. vm_compute. reflexivity. Qed.

(** X12.  A registration keeps the recorded best cost the least entry of
    the history of best costs, and the recorded worst cost the greatest
    entry of the history of worst costs: this holds after the first
    registration, and after every later one for which the cost on record
    is not 0.  (A recorded cost of 0 is taken for a missing one and
    overwritten.) *)
Theorem X12_recorded_costs_are_the_extremes_of_their_histories now
    (population : EvaluatedPopulation) st st' :
  _registerSolutionStats now population st = Return st' ->
  (bestCost (_solution st) = None /\ bestCostHistory (_solution st) = None
   \/ leastRecorded (_solution st) /\ nonZero (bestCost (_solution st)) ->
   leastRecorded (_solution st'))
  /\ (worstCost (_solution st) = None /\ worstCostHistory (_solution st) = None
      \/ greatestRecorded (_solution st) /\ nonZero (worstCost (_solution st)) ->
      greatestRecorded (_solution st')).
Proof.
  intros Hrun.
  apply registerSolutionStats_inv in Hrun
    as (sorted & best & worst & _ & _ & _ & _ & _ & _ & _ & Hbh & Hwh
        & (_ & Hbc & _) & (Hwc & _)).
  split.
  - intros [[Hnone Hh]|[(h & b & Hh & Hb & Hin & Hleast) Hnz]].
    + rewrite Hnone in Hbc. rewrite Hh in Hbh. cbn in Hbc, Hbh.
      exists [num_inv best.2], (num_inv best.2).
      split; [done|]. split; [done|]. split; [by left|].
      intros v ->%list_elem_of_singleton. apply num_ltb_irrefl.
    + rewrite Hb in Hbc. rewrite Hh in Hbh. cbn [default] in Hbh.
      cbn [falsyNum from_option] in Hbc. rewrite (Hnz b Hb) in Hbc.
      cbn [negb orb] in Hbc.
      destruct (num_ltb (num_inv best.2) b) eqn:Hlt.
      * exists (h ++ [num_inv best.2]), (num_inv best.2).
        split; [done|]. split; [done|].
        split; [apply elem_of_app; right; by left|].
        intros v [Hv| ->%list_elem_of_singleton]%elem_of_app;
          [|apply num_ltb_irrefl].
        destruct (num_ltb v (num_inv best.2)) eqn:E; [|done].
        rewrite <- (Hleast v Hv). symmetry. by eapply num_ltb_trans.
      * exists (h ++ [num_inv best.2]), b.
        split; [done|]. split; [done|].
        split; [apply elem_of_app; by left|].
        intros v [Hv| ->%list_elem_of_singleton]%elem_of_app; [by apply Hleast|done].
  - intros [[Hnone Hh]|[(h & w & Hh & Hw & Hin & Hmost) Hnz]].
    + rewrite Hnone in Hwc. rewrite Hh in Hwh. cbn in Hwc, Hwh.
      exists [num_inv worst.2], (num_inv worst.2).
      split; [done|]. split; [done|]. split; [by left|].
      intros v ->%list_elem_of_singleton. apply num_ltb_irrefl.
    + rewrite Hw in Hwc. rewrite Hh in Hwh. cbn [default] in Hwh.
      cbn [falsyNum from_option] in Hwc. rewrite (Hnz w Hw) in Hwc.
      cbn [negb orb] in Hwc.
      destruct (num_ltb w (num_inv worst.2)) eqn:Hlt.
      * exists (h ++ [num_inv worst.2]), (num_inv worst.2).
        split; [done|]. split; [done|].
        split; [apply elem_of_app; right; by left|].
        intros v [Hv| ->%list_elem_of_singleton]%elem_of_app;
          [|apply num_ltb_irrefl].
        destruct (num_ltb (num_inv worst.2) v) eqn:E; [|done].
        rewrite <- (Hmost v Hv). symmetry. by eapply num_ltb_trans.
      * exists (h ++ [num_inv worst.2]), w.
        split; [done|]. split; [done|].
        split; [apply elem_of_app; by left|].
        intros v [Hv| ->%list_elem_of_singleton]%elem_of_app; [by apply Hmost|done].
Qed.

Lemma X12_recorded_costs_witness :
  exists st',
    _registerSolutionStats 7 prevGeneration (nextGeneration initialState)
    = Return st'
    /\ leastRecorded (_solution st') /\ greatestRecorded (_solution st').
Proof.
  eexists. split; [vm_compute; reflexivity|].
  edestruct (X12_recorded_costs_are_the_extremes_of_their_histories 7
               prevGeneration (nextGeneration initialState)) as [Hb Hw];
    [vm_compute; reflexivity|].
  split; [apply Hb|apply Hw]; left; split; reflexivity.
Defined.

Lemma registerSolutionStats_summary now population st :
  statsPending st ->
  post True (fun st' => statsRegistered st'
                        /\ _generationCount st' = _generationCount st
                        /\ generations (_solution st')
                           = Some (_generationCount st))
    (_registerSolutionStats now population st).
Proof.
  intros Hst.
  destruct (_registerSolutionStats now population st) as [st'| | |] eqn:Hrun;
    try done.
  cbn [post]. split.
  { eapply (post_Return_inv True); [|exact Hrun].
    by apply registerSolutionStats_post. }
  apply registerSolutionStats_inv in Hrun
    as (_ & _ & _ & _ & _ & _ & Hc & _ & _ & Hg & _). done.
Qed.

Lemma solve_summary this budget start clock draws :
  post True
    (fun r => statsRegistered r.1.2 /\ summarised this r.1.2
              /\ _hasEndingConditionsMet this r.1.2 = true)
    (solve this budget start clock initialState draws).
Proof.
  unfold solve.
  eapply post_bind; [apply generateInitialPopulation_state|].
  intros [[pop st] d] Hst. simpl in Hst. subst st.
  destruct (_evaluatePopulationFitness this pop) as [evaluated| | |]; try done.
  cbn [mbind Completion_bind].
  eapply post_bind;
    [apply registerSolutionStats_summary, statsPending_initial|].
  intros st (Hreg & Hcount & Hgen). cbn in Hcount, Hgen.
  eapply post_mono;
    [|apply (post_while True
               (fun v => statsRegistered v.2 /\ summarised this v.2))].
  - intros r [[Hr Hs] Hend]. split; [done|]. split; [done|].
    by apply negb_false_iff in Hend.
  - intros [pop' st'] d0 [Hv Hs] Hcond. cbn [snd] in *.
    apply negb_true_iff in Hcond.
    assert (_generationCount st' <= _maxGens this) as Hle.
    { unfold _hasEndingConditionsMet in Hcond.
      destruct (_maxGens this <? _generationCount st') eqn:E; [done|].
      by apply Z.ltb_ge in E. }
    unfold solveStep.
    destruct (_evolvePopulation _ _ _ _) as [[evolved d1]| | |]; try done.
    cbn [mbind Completion_bind].
    destruct (_survivalSelection _ _ _) as [next| | |]; try done.
    cbn [mbind Completion_bind].
    eapply post_bind.
    + apply registerSolutionStats_summary. by apply (statsPending_next st').
    + intros st2 (Hreg2 & Hc2 & Hg2). cbn in Hc2, Hg2. cbn [post fst snd].
      split; [done|]. destruct Hreg2 as (Hb2 & Hw2 & _).
      destruct Hs as (_ & _ & _ & Hrange).
      unfold summarised. rewrite Hg2, Hc2, Hb2, Hw2, Hc2.
      repeat split; lia.
  - cbn [snd]. split; [done|]. destruct Hreg as (Hb & Hw & _).
    unfold summarised. rewrite Hgen, Hb, Hw, Hcount. repeat split; lia.
Qed.

(** X13.  When [solve] returns, the solution reports as [generations] the
    count of generations the object has reached, both histories have that
    many entries, the count is at least 1 and at most maxGens + 1, and one
    of the ending conditions holds. *)
Theorem X13_solve_reports_what_it_ran this budget start clock draws :
  post True
    (fun r => summarised this r.1.2
              /\ _hasEndingConditionsMet this r.1.2 = true)
    (solve this budget start clock initialState draws).
Proof.
  eapply post_mono; [|apply solve_summary]. by intros r (_ & ? & ?).
Qed.

(** A run of the instance of five chromosomes ends after maxGens + 1 = 3
    generations. *)
Example X13_solve_run :
  ('(v, _) ← solve gaS 50 0 (fun g => g) initialState (lcg 400 42);
   Return (generations (_solution v.2),
           historyLength (bestCostHistory (_solution v.2)),
           _hasEndingConditionsMet gaS v.2))
  = Return (Some 3, 3, true).
Proof. vm_compute. reflexivity. Qed.

Lemma ended_when_small this st :
  _isProblemLarge this = false -> _hasEndingConditionsMet this st = true.
Proof.
  intros H. unfold _hasEndingConditionsMet. rewrite H.
  destruct (_maxGens this <? _generationCount st); [done|].
  by destruct (truthy _ && _).
Qed.

(** X14.  On a problem that is not large (the configured population size
    is not below the number of tours) [solve] evolves nothing: when it
    returns, the generation count is 1, both histories have the one entry
    of the initial population, and best and worst cost are those and of
    generation 1. *)
Theorem X14_small_problem_is_not_evolved this budget start clock draws :
  _isProblemLarge this = false ->
  post True
    (fun r => _generationCount r.1.2 = 1
              /\ generations (_solution r.1.2) = Some 1
              /\ bestCostGeneration (_solution r.1.2) = Some 1
              /\ worstCostGeneration (_solution r.1.2) = Some 1
              /\ exists b w,
                   bestCost (_solution r.1.2) = Some b
                   /\ bestCostHistory (_solution r.1.2) = Some [b]
                   /\ worstCost (_solution r.1.2) = Some w
                   /\ worstCostHistory (_solution r.1.2) = Some [w])
    (solve this budget start clock initialState draws).
Proof.
  intros Hsmall. unfold solve.
  eapply post_bind; [apply generateInitialPopulation_state|].
  intros [[pop st] d] Hst. simpl in Hst. subst st.
  destruct (_evaluatePopulationFitness this pop) as [evaluated| | |]; try done.
  cbn [mbind Completion_bind].
  destruct (_registerSolutionStats _ _ _) as [st| | |] eqn:Hrun; try done.
  cbn [mbind Completion_bind].
  apply registerSolutionStats_inv in Hrun
    as (sorted & best & worst & _ & _ & _ & Hc & _ & _ & Hg & Hbh & Hwh
        & (_ & Hbc & Hbg) & (Hwc & Hwg)).
  cbn in Hc, Hg, Hbh, Hwh, Hbc, Hbg, Hwc, Hwg.
  eapply post_mono;
    [|apply (post_while True (fun v => v.2 = st))].
  - intros r [-> _]. rewrite Hc, Hg, Hbg, Hwg, Hbc, Hbh, Hwc, Hwh.
    do 4 (split; [done|]). by eexists _, _.
  - intros v d0 -> Hcond. rewrite ended_when_small in Hcond by done. done.
  - done.
Qed.

Lemma X14_small_problem_witness :
  post True
    (fun r => _generationCount r.1.2 = 1
              /\ generations (_solution r.1.2) = Some 1
              /\ bestCostGeneration (_solution r.1.2) = Some 1
              /\ worstCostGeneration (_solution r.1.2) = Some 1
              /\ exists b w,
                   bestCost (_solution r.1.2) = Some b
                   /\ bestCostHistory (_solution r.1.2) = Some [b]
                   /\ worstCost (_solution r.1.2) = Some w
                   /\ worstCostHistory (_solution r.1.2) = Some [w])
    (solve ga3 60 0 (fun g => g) initialState (lcg 300 5)).
Proof.
  apply (X14_small_problem_is_not_evolved ga3 60 0 (fun g => g) (lcg 300 5)).
  reflexivity.
Defined.

(** The run of the witness: the six tours of three nodes, one generation. *)
Example X14_small_problem_run :
  ('(v, _) ← solve ga3 60 0 (fun g => g) initialState (lcg 300 5);
   Return (JS.len v.1, _generationCount v.2, bestCostHistory (_solution v.2)))
  = Return (6, 1, Some [Fin 5]).
Proof. vm_compute. reflexivity. Qed.

(** ** class GA: selection *)

Lemma len_nonneg {A} (a : list A) : 0 <= JS.len a.
Proof. unfold JS.len. lia. Qed.

Lemma len_Set_add {A} `{EqDecision A} (s : list A) x :
  JS.len (JS.Set_add s x) = if JS.includes s x then JS.len s else JS.len s + 1.
Proof.
  unfold JS.Set_add. destruct (JS.includes s x); [done|].
  unfold JS.len. rewrite length_app. simpl. lia.
Qed.

Lemma len_Set_add_le {A} `{EqDecision A} (s : list A) x :
  JS.len s <= JS.len (JS.Set_add s x) <= JS.len s + 1.
Proof. rewrite len_Set_add. destruct (JS.includes s x); lia. Qed.

Lemma randomSelection_post (population : EvaluatedPopulation) draws :
  2 <= JS.len population ->
  post False (fun r => r.1 ∈ population.*1) (_randomSelection population draws).
Proof.
  intros Hlen. unfold _randomSelection.
  assert ((JS.len population <? 2) = false) as -> by (apply Z.ltb_ge; lia).
  eapply post_bind; [apply post_randomR|].
  intros [i d] [u Hu]. simpl in Hu. subst i.
  pose proof (random_range u 0 (JS.len population - 1)) as Hr.
  destruct (get_in_range population.*1 (random u 0 (JS.len population - 1)))
    as [c Hc].
  { unfold JS.len in *. rewrite length_fmap. lia. }
  rewrite Hc. cbn [post fst].
  rewrite get_lookup in Hc by lia. by eapply list_elem_of_lookup_2.
Qed.

(** A call that selects the third chromosome. *)
Example random_selection_run :
  ('(c, _) ← _randomSelection prevGeneration (lcg 5 1); Return c)
  = Return [0;2;1;3].
Proof. vm_compute. reflexivity. Qed.

Lemma selectChromosome_elem (population : EvaluatedPopulation) : forall acc index c,
  selectChromosome population acc index = Some c -> c ∈ population.*1.
Proof.
  induction population as [|[k f] rest IH]; intros acc index c; [done|].
  cbn [selectChromosome]. destruct (num_geb _ _).
  - intros [= <-]. by left.
  - intros H. right. by eapply IH.
Qed.

Lemma rouletteWheelSelection_post budget (population : EvaluatedPopulation) draws :
  2 <= JS.len population ->
  post False
    (fun r => exists a b, r.1 = [a; b] /\ a <> b
                          /\ a ∈ population.*1 /\ b ∈ population.*1)
    (_rouletteWheelSelection budget population draws).
Proof.
  intros Hlen. unfold _rouletteWheelSelection.
  assert ((JS.len population <? 2) = false) as -> by (apply Z.ltb_ge; lia).
  eapply post_mono;
    [|apply (post_while False
               (fun s : Couple => NoDup s /\ (forall c, c ∈ s -> c ∈ population.*1)
                                  /\ JS.len s <= 2))].
  - intros [s d] [(Hnd & Hsub & Hle) Hcond]. cbn [fst] in *.
    apply Z.ltb_ge in Hcond.
    destruct s as [|a [|b [|c s]]]; unfold JS.len in *; simpl in *; try lia.
    exists a, b. split; [done|].
    apply NoDup_cons in Hnd as [Hab _].
    split; [intros ->; apply Hab; by left|].
    split; apply Hsub; [by left|right; by left].
  - intros s d (Hnd & Hsub & Hle) Hcond. apply Z.ltb_lt in Hcond.
    eapply post_bind; [apply post_Math_random|].
    intros [u d'] _.
    destruct (selectChromosome _ _ _) as [selected|] eqn:Hsel; cbn [post fst].
    + split; [by apply Set_add_NoDup|]. split.
      * intros c [Hc| ->]%Set_add_elem; [by apply Hsub|].
        by eapply selectChromosome_elem.
      * pose proof (len_Set_add_le s selected). lia.
    + split; [done|]. split; [done|lia].
  - split; [apply NoDup_nil_2|]. split; [|unfold JS.len; simpl; lia].
    intros c Hc. by apply elem_of_nil in Hc.
Qed.

Lemma randomSelection_returns (population : EvaluatedPopulation) u draws :
  2 <= JS.len population ->
  exists c, _randomSelection population (u :: draws) = Return (c, draws)
            /\ c ∈ population.*1.
Proof.
  intros Hlen. unfold _randomSelection.
  assert ((JS.len population <? 2) = false) as -> by (apply Z.ltb_ge; lia).
  cbn [randomR Math_random mbind Completion_bind].
  pose proof (random_range u 0 (JS.len population - 1)) as Hr.
  destruct (get_in_range population.*1 (random u 0 (JS.len population - 1)))
    as [c Hc].
  { unfold JS.len in *. rewrite length_fmap. lia. }
  rewrite Hc. exists c. split; [done|].
  rewrite get_lookup in Hc by lia. by eapply list_elem_of_lookup_2.
Qed.

Lemma rouletteWheelSelection_two_draws budget
    (population : EvaluatedPopulation) u1 u2 a b draws :
  2 <= JS.len population -> (3 <= budget)%nat ->
  selectChromosome population (Fin 0)
    (num_scale (unif u1) (foldl num_add (Fin 0) population.*2)) = Some a ->
  selectChromosome population (Fin 0)
    (num_scale (unif u2) (foldl num_add (Fin 0) population.*2)) = Some b ->
  a <> b ->
  _rouletteWheelSelection budget population (u1 :: u2 :: draws)
  = Return ([a; b], draws).
Proof.
  intros Hlen Hbudget Ha Hb Hab. unfold _rouletteWheelSelection.
  assert ((JS.len population <? 2) = false) as -> by (apply Z.ltb_ge; lia).
  destruct budget as [|[|[|budget]]]; [lia..|].
  cbn [while]. change (JS.len (@nil ChromosomeStr) <? 2) with true.
  cbn [Math_random mbind Completion_bind]. rewrite Ha.
  cbn [mbind Completion_bind while].
  change (JS.Set_add [] a) with [a].
  change (JS.len [a] <? 2) with true.
  cbn [Math_random mbind Completion_bind]. rewrite Hb.
  cbn [mbind Completion_bind while].
  assert (JS.Set_add [a] b = [a; b]) as ->.
  { unfold JS.Set_add, JS.includes. rewrite bool_decide_false; [done|].
    intros Hin%list_elem_of_singleton. by subst. }
  done.
Qed.

(** X15.  Both selection operators throw the invalid-population error,
    with the status 500, on a population of fewer than two members.  On any
    other population [_randomSelection] returns after one draw, a
    chromosome of the population.  [_rouletteWheelSelection] throws no
    error, whatever the draws: it draws until two draws have selected
    different chromosomes, it returns after the first two draws when these
    have, and the couple it returns, when it returns, is made of two
    different chromosomes of the population.  (It need not return: X17.) *)
Theorem X15_selection_returns_members_of_the_population budget
    (population : EvaluatedPopulation) u draws :
  (JS.len population < 2 ->
   _randomSelection population draws
   = Throw (AppError INTERNAL_SERVER_ERROR gc.SELECTION_INVALID_POPULATION)
   /\ _rouletteWheelSelection budget population draws
      = Throw (AppError INTERNAL_SERVER_ERROR gc.SELECTION_INVALID_POPULATION))
  /\ (2 <= JS.len population ->
      (exists c, _randomSelection population (u :: draws) = Return (c, draws)
                 /\ c ∈ population.*1)
      /\ post False
           (fun r => exists a b, r.1 = [a; b] /\ a <> b
                                 /\ a ∈ population.*1 /\ b ∈ population.*1)
           (_rouletteWheelSelection budget population draws)
      /\ (forall u1 u2 a b,
            (3 <= budget)%nat ->
            selectChromosome population (Fin 0)
              (num_scale (unif u1) (foldl num_add (Fin 0) population.*2))
            = Some a ->
            selectChromosome population (Fin 0)
              (num_scale (unif u2) (foldl num_add (Fin 0) population.*2))
            = Some b ->
            a <> b ->
            _rouletteWheelSelection budget population (u1 :: u2 :: draws)
            = Return ([a; b], draws))).
Proof.
  split.
  - intros H. unfold _randomSelection, _rouletteWheelSelection.
    assert ((JS.len population <? 2) = true) as -> by (apply Z.ltb_lt; lia).
    done.
  - intros H. split; [by apply randomSelection_returns|].
    split; [by apply rouletteWheelSelection_post|].
    intros u1 u2 a b Hb Ha Hb' Hab.
    by apply rouletteWheelSelection_two_draws.
Qed.

Lemma X15_selection_witness :
  (_randomSelection [([0;1;2;3], Fin (1 # 3))] (lcg 5 1)
   = Throw (AppError INTERNAL_SERVER_ERROR gc.SELECTION_INVALID_POPULATION)
   /\ _rouletteWheelSelection 10 [([0;1;2;3], Fin (1 # 3))] (lcg 5 1)
      = Throw (AppError INTERNAL_SERVER_ERROR gc.SELECTION_INVALID_POPULATION))
  /\ (exists c,
        _randomSelection prevGeneration (toUnif (1 # 2) :: lcg 10 1)
        = Return (c, lcg 10 1)
        /\ c ∈ prevGeneration.*1)
  /\ post False
       (fun r => exists a b, r.1 = [a; b] /\ a <> b
                             /\ a ∈ prevGeneration.*1 /\ b ∈ prevGeneration.*1)
       (_rouletteWheelSelection 10 prevGeneration (lcg 10 1))
  /\ _rouletteWheelSelection 10 prevGeneration
       (toUnif (1 # 2) :: toUnif (1 # 10) :: lcg 10 1)
     = Return ([[1;0;2;3]; [0;1;2;3]], lcg 10 1).
Proof.
  split; [|split; [|split]].
  - destruct (X15_selection_returns_members_of_the_population 10
                [([0;1;2;3], Fin (1 # 3))] (toUnif (1 # 2)) (lcg 5 1))
      as [H _].
    apply H. unfold JS.len. simpl. lia.
  - destruct (X15_selection_returns_members_of_the_population 10
                prevGeneration (toUnif (1 # 2)) (lcg 10 1)) as [_ H].
    destruct H as (H & _ & _); [unfold JS.len; simpl; lia|]. exact H.
  - destruct (X15_selection_returns_members_of_the_population 10
                prevGeneration (toUnif (1 # 2)) (lcg 10 1)) as [_ H].
    destruct H as (_ & H & _); [unfold JS.len; simpl; lia|]. exact H.
  - destruct (X15_selection_returns_members_of_the_population 10
                prevGeneration (toUnif (1 # 2)) (lcg 10 1)) as [_ H].
    destruct H as (_ & _ & H); [unfold JS.len; simpl; lia|].
    apply (H (toUnif (1 # 2)) (toUnif (1 # 10)));
      [lia|vm_compute; reflexivity|vm_compute; reflexivity|].
    discriminate.
Defined.

(** The second call of the witness. *)
Example roulette_selection_run :
  ('(c, _) ← _rouletteWheelSelection 10 prevGeneration (lcg 10 1); Return c)
  = Return [[1;0;2;3]; [0;1;2;3]].
Proof. vm_compute. reflexivity. Qed.

Lemma selectChromosome_found (population : EvaluatedPopulation) : forall acc index,
  population <> [] ->
  num_geb (foldl num_add acc population.*2) index = true ->
  exists c, selectChromosome population acc index = Some c.
Proof.
  induction population as [|[k f] rest IH]; intros acc index Hne Hge; [done|].
  cbn [selectChromosome]. destruct (num_geb (num_add acc f) index) eqn:E;
    [by eexists|].
  destruct rest as [|e rest]; [cbn in Hge; congruence|].
  apply IH; [done|]. exact Hge.
Qed.

Lemma total_finite (values : list number) : forall a,
  (0 <= a)%Q ->
  (forall v, v ∈ values -> exists q, v = Fin q /\ (0 <= q)%Q) ->
  exists T, foldl num_add (Fin a) values = Fin T /\ (0 <= T)%Q.
Proof.
  induction values as [|v values IH]; intros a Ha Hv; [by exists a|].
  destruct (Hv v) as (q & -> & Hq); [by left|].
  cbn [foldl num_add]. apply IH.
  - apply Qle_trans with (0 + 0)%Q; [done|]. by apply Qplus_le_compat.
  - intros w Hw. apply Hv. by right.
Qed.

(** X16.  On a population that is not empty and whose fitness values are
    finite and not negative, [selectChromosome] of the roulette wheel
    returns a chromosome of the population for every value of
    [Math.random()]: the accumulated fitness reaches the index at the last
    member at the latest, and the [null] it could return is never
    returned. *)
Theorem X16_the_wheel_always_stops_on_a_member
    (population : EvaluatedPopulation) (u : Unif) :
  population <> [] ->
  (forall e, e ∈ population -> exists q, e.2 = Fin q /\ (0 <= q)%Q) ->
  exists c,
    selectChromosome population (Fin 0)
      (num_scale (unif u) (foldl num_add (Fin 0) population.*2)) = Some c
    /\ c ∈ population.*1.
Proof.
  intros Hne Hfin.
  destruct (total_finite population.*2 0) as (T & HT & HT0); [done| |].
  { intros v (e & -> & He)%list_elem_of_fmap. by apply Hfin. }
  destruct (selectChromosome_found population (Fin 0)
              (num_scale (unif u) (foldl num_add (Fin 0) population.*2)))
    as [c Hc]; [done| |].
  - rewrite HT. cbn [num_scale num_geb num_ltb]. apply negb_true_iff.
    apply Qltb_ge. destruct (unif_bounds u) as [_ Hu].
    rewrite <- (Qmult_1_l T) at 2. apply Qmult_le_compat_r; [|done].
    by apply Qlt_le_weak.
  - exists c. split; [done|]. by eapply selectChromosome_elem.
Qed.

Lemma X16_the_wheel_witness :
  exists c,
    selectChromosome prevGeneration (Fin 0)
      (num_scale (unif (toUnif (1 # 2)))
         (foldl num_add (Fin 0) prevGeneration.*2)) = Some c
    /\ c ∈ prevGeneration.*1.
Proof.
  apply (X16_the_wheel_always_stops_on_a_member prevGeneration
           (toUnif (1 # 2))).
  - discriminate.
  - intros e He. unfold prevGeneration in He.
    repeat (apply elem_of_cons in He as [->|He]);
      [eexists; split; [reflexivity|unfold Qle; simpl; lia]..|].
    by apply elem_of_nil in He.
Defined.

(** The index of the witness, half of the total fitness, falls on the
    second chromosome. *)
Example X16_the_wheel_run :
  selectChromosome prevGeneration (Fin 0)
    (num_scale (unif (toUnif (1 # 2)))
       (foldl num_add (Fin 0) prevGeneration.*2)) = Some [1;0;2;3].
Proof. vm_compute. reflexivity. Qed.

Lemma while_stuck {S} (I : S -> Prop) cond (body : S -> Rand S) :
  (forall s, I s -> cond s = true) ->
  (forall s draws, I s ->
     body s draws = Unfinished
     \/ exists s' draws', body s draws = Return (s', draws') /\ I s') ->
  forall budget s draws, I s -> while budget cond body s draws = Unfinished.
Proof.
  intros Hcond Hbody. induction budget as [|budget IH]; intros s draws Hs; [done|].
  cbn [while]. rewrite (Hcond s Hs).
  destruct (Hbody s draws Hs) as [->|(s' & draws' & -> & Hs')]; [done|].
  cbn [mbind Completion_bind]. by apply IH.
Qed.

Lemma total_infinite (values : list number) : forall acc,
  Infinity ∈ values \/ acc = Infinity -> foldl num_add acc values = Infinity.
Proof.
  induction values as [|v values IH]; intros acc H.
  - destruct H as [H|H]; [by apply elem_of_nil in H|done].
  - cbn [foldl]. apply IH. destruct H as [[<-|H]%elem_of_cons| ->].
    + right. by destruct acc.
    + by left.
    + right. by destruct v.
Qed.

Lemma selectChromosome_NaN (population : EvaluatedPopulation) : forall acc,
  selectChromosome population acc None = None.
Proof. induction population as [|[k f] rest IH]; intros acc; [done|]. apply IH. Qed.

Lemma selectChromosome_Infinity (population : EvaluatedPopulation) e :
  e ∈ population -> e.2 = Infinity ->
  exists c, forall a', selectChromosome population (Fin a') (Some Infinity) = Some c.
Proof.
  induction population as [|[k f] rest IH]; intros He Hinf.
  { by apply elem_of_nil in He. }
  destruct f as [q|].
  - apply elem_of_cons in He as [->|He]; [done|].
    destruct (IH He Hinf) as [c Hc]. exists c. intros a'.
    cbn [selectChromosome num_add num_geb num_ltb negb]. apply Hc.
  - exists k. intros a'. done.
Qed.

(** X17.  When a member of the population has the fitness Infinity (its
    tour costs 0), [_rouletteWheelSelection] does not return: the total
    fitness is Infinity, every index that is not NaN selects the first such
    member and NaN selects none, so the couple never gets its second
    chromosome.  Whatever budget of rounds and whatever draws the model is
    given, they are used up. *)
Theorem X17_roulette_selection_hangs_on_an_infinite_fitness budget
    (population : EvaluatedPopulation) e draws :
  2 <= JS.len population -> e ∈ population -> e.2 = Infinity ->
  _rouletteWheelSelection budget population draws = Unfinished.
Proof.
  intros Hlen He Hinf. unfold _rouletteWheelSelection.
  assert ((JS.len population <? 2) = false) as -> by (apply Z.ltb_ge; lia).
  rewrite total_infinite.
  2:{ left. rewrite <- Hinf. apply list_elem_of_fmap. by exists e. }
  destruct (selectChromosome_Infinity population e He Hinf) as [c Hc].
  apply (while_stuck (fun s : Couple => s = [] \/ s = [c])).
  - by intros s [->| ->].
  - intros s [|u d] Hs; [by left|]. right. cbn [Math_random mbind Completion_bind].
    cbn [num_scale]. destruct (Qeq_bool (unif u) 0).
    + rewrite selectChromosome_NaN. by eexists _, _.
    + rewrite Hc. eexists _, _. split; [done|].
      destruct Hs as [->| ->]; right; [done|].
      unfold JS.Set_add, JS.includes. rewrite bool_decide_eq_true_2; [done|by left].
  - by left.
Qed.

Lemma X17_roulette_selection_witness :
  _rouletteWheelSelection 50 [([0;1], Fin 1); ([1;0], Infinity)] (lcg 100 3)
  = Unfinished.
Proof.
  apply (X17_roulette_selection_hangs_on_an_infinite_fitness 50
           [([0;1], Fin 1); ([1;0], Infinity)] ([1;0], Infinity) (lcg 100 3)).
  - unfold JS.len. simpl. lia.
  - right. by left.
  - reflexivity.
Defined.

(** ** class GA: the initial population *)

(** The tours of [0,N) are N! lists. *)

Lemma length_interleave {A} (x : A) l : length (interleave x l) = S (length l).
Proof.
  induction l as [|y l IH]; [done|]. cbn [interleave length].
  by rewrite length_fmap, IH.
Qed.

Lemma length_bind_same {A B} (f : A -> list B) (k : nat) l :
  (forall y, y ∈ l -> length (f y) = k) ->
  length (l ≫= f) = (length l * k)%nat.
Proof.
  induction l as [|y l IH]; intros H; [done|].
  change ((y :: l) ≫= f) with (f y ++ (l ≫= f)).
  rewrite length_app, H, IH; [simpl; lia| |by left].
  intros z Hz. apply H. by right.
Qed.

Lemma length_permutations {A} (l : list A) :
  Z.of_nat (length (permutations l)) = factorial (length l).
Proof.
  induction l as [|x l IH]; [done|]. cbn [permutations length factorial].
  rewrite (length_bind_same _ (S (length l))).
  - rewrite <- IH. lia.
  - intros y Hy%permutations_Permutation. rewrite length_interleave.
    by rewrite (Permutation_length Hy).
Qed.

Lemma tours_count N (p : list (list Z)) :
  NoDup p -> (forall c, c ∈ p -> tour N c) ->
  JS.len p <= factorial (Z.to_nat N).
Proof.
  intros Hnd Htours.
  assert (p ⊆+ permutations (seqZ 0 N)) as Hsub.
  { apply NoDup_submseteq; [done|]. intros c Hc.
    apply permutations_Permutation. symmetry. by apply Htours. }
  apply submseteq_length in Hsub. unfold JS.len.
  rewrite <- (length_seqZ 0 N), <- length_permutations. lia.
Qed.

Lemma post_impossible {A} (P : A -> Prop) (c : Completion A) :
  post False P c -> (forall a, ~ P a) -> c = Unfinished.
Proof.
  destruct c as [a| | |]; cbn [post]; [|done..].
  intros H Hn. by destruct (Hn a).
Qed.

Lemma full_tour N c : NoDup c -> inRange N c -> N <= JS.len c -> tour N c.
Proof.
  intros Hnd Hr Hlen. apply submseteq_length_Permutation.
  - apply NoDup_submseteq; [done|]. intros x Hx. apply elem_of_seqZ.
    specialize (Hr x Hx). lia.
  - rewrite length_seqZ. unfold JS.len in Hlen. lia.
Qed.

Lemma tour_NoDup N c : tour N c -> NoDup c.
Proof. intros ->. apply NoDup_seqZ. Qed.

Lemma tour_inRange N c : tour N c -> inRange N c.
Proof. intros H g Hg. rewrite H in Hg. apply elem_of_seqZ in Hg. lia. Qed.

Lemma tour_len N c : 0 <= N -> tour N c -> JS.len c = N.
Proof. intros HN H. unfold JS.len. rewrite H, length_seqZ. lia. Qed.

Lemma unvisited_exists N (visited : list Z) :
  NoDup visited -> inRange N visited -> JS.len visited < N ->
  exists d, 0 <= d < N /\ d ∉ visited.
Proof.
  intros Hnd Hr Hlen.
  destruct (decide (Forall (fun d => d ∈ visited) (seqZ 0 N))) as [Hall|Hex].
  - exfalso. rewrite Forall_forall in Hall.
    assert (seqZ 0 N ⊆+ visited) as Hsub.
    { apply NoDup_submseteq; [apply NoDup_seqZ|done]. }
    apply submseteq_length in Hsub. rewrite length_seqZ in Hsub.
    unfold JS.len in Hlen. lia.
  - apply not_Forall_Exists in Hex; [|intros x; apply _].
    apply Exists_exists in Hex as (d & Hd & Hnot).
    exists d. apply elem_of_seqZ in Hd. split; [lia|done].
Qed.

Lemma originGenes_set this :
  originInRange this ->
  NoDup (foldl JS.Set_add [] (originGenes this))
  /\ inRange (dimension (configs this)) (foldl JS.Set_add [] (originGenes this)).
Proof.
  intros Ho. unfold originGenes.
  destruct (fixedOriginIndex (configs this)) as [O|] eqn:E; cbn.
  - split; [apply NoDup_singleton|].
    intros g ->%list_elem_of_singleton. by apply Ho.
  - split; [apply NoDup_nil_2|]. intros g Hg. by apply elem_of_nil in Hg.
Qed.

Lemma randomChromosome_tour this budget draws :
  originInRange this ->
  post False (fun r => tour (dimension (configs this)) r.1)
    (randomChromosome this budget draws).
Proof.
  intros Ho. unfold randomChromosome.
  eapply post_mono;
    [|apply (post_while False
               (fun c => NoDup c /\ inRange (dimension (configs this)) c))].
  - intros [c d] [[Hnd Hr] Hcond]. cbn [fst] in *.
    apply Z.ltb_ge in Hcond. by apply full_tour.
  - intros c d [Hnd Hr] Hcond. apply Z.ltb_lt in Hcond.
    eapply post_bind; [apply post_randomR|].
    intros [node d'] [u Hu]. cbn [fst] in *. subst node.
    pose proof (len_nonneg c).
    pose proof (random_range u 0 (dimension (configs this) - 1)) as Hrange.
    destruct (JS.includes c _); cbn [post fst]; [done|].
    split; [by apply Set_add_NoDup|].
    intros g [Hg| ->]%Set_add_elem; [by apply Hr|lia].
  - by apply originGenes_set.
Qed.

Lemma Set_population_post budget count draws
    (gen : Rand Chromosome) (Q : Chromosome -> Prop) :
  (forall draws, post False (fun r => Q r.1) (gen draws)) ->
  post False
    (fun r : Population * list Unif =>
       NoDup r.1 /\ (forall c, c ∈ r.1 -> Q c) /\ JS.len r.1 = Z.max 0 count)
    (while budget
       (fun population : Population => JS.len population <? count)
       (fun population draws =>
          '(chromosome, draws) ← gen draws;
          Return (JS.Set_add population (chrToStr chromosome), draws))
       [] draws).
Proof.
  intros Hgen.
  eapply post_mono;
    [|apply (post_while False
               (fun p : Population =>
                  NoDup p /\ (forall c, c ∈ p -> Q c)
                  /\ JS.len p <= Z.max 0 count))].
  - intros [p d] [(Hnd & Hq & Hle) Hcond]. cbn [fst] in *.
    apply Z.ltb_ge in Hcond. pose proof (len_nonneg p).
    split; [done|]. split; [done|lia].
  - intros p d (Hnd & Hq & Hle) Hcond. apply Z.ltb_lt in Hcond.
    eapply post_bind; [apply Hgen|].
    intros [c d'] Hc. cbn [post fst] in *.
    split; [by apply Set_add_NoDup|]. split.
    + intros x [Hx| ->]%Set_add_elem; [by apply Hq|done].
    + pose proof (len_Set_add_le p (chrToStr c)). lia.
  - split; [apply NoDup_nil_2|]. split; [|unfold JS.len; simpl; lia].
    intros c Hc. by apply elem_of_nil in Hc.
Qed.

Lemma generateRandomChrs_tours this budget count draws :
  originInRange this ->
  post False
    (fun r => NoDup r.1 /\ (forall c, c ∈ r.1 -> tour (dimension (configs this)) c)
              /\ JS.len r.1 = Z.max 0 count)
    (_generateRandomChrs this budget count draws).
Proof.
  intros Ho. unfold _generateRandomChrs.
  apply (Set_population_post budget count draws
           (randomChromosome this budget) (tour (dimension (configs this)))).
  intros d. by apply randomChromosome_tour.
Qed.

Section Nearest.
Variable this : GA.
Variable visited : list Z.
Variable tail : Z.
Let N := dimension (configs this).

Lemma nnRoute_step vars route :
  rowOf this tail route -> candidateOK this visited vars ->
  exists vars',
    nnRoute this visited vars route = Return vars'
    /\ candidateOK this visited vars'
    /\ (is_Some (nextGeneCandidate vars) -> is_Some (nextGeneCandidate vars'))
    /\ (forall d c, JS.get (costTable this) route = Some (tail, d, c) ->
          d <> tail -> d ∉ visited -> is_Some (nextGeneCandidate vars')).
Proof.
  intros (d & c & Hget & Hd) [Hnone Hok]. unfold nnRoute. rewrite Hget.
  cbn [orTypeError mbind Completion_bind].
  destruct (tail =? d) eqn:Etd.
  { exists vars. split; [done|]. split; [done|]. split; [done|].
    intros d' c' [= <- <-] Hne. apply Z.eqb_eq in Etd. congruence. }
  destruct (JS.includes visited d) eqn:Einc; cbn [negb]; rewrite ?andb_false_r.
  { exists vars. split; [done|]. split; [done|]. split; [done|].
    intros d' c' [= <- <-] _ Hnot. apply includes_true in Einc. done. }
  rewrite andb_true_r.
  destruct (negb (truthy (nearestNeighborCost vars)) || _) eqn:Eupd.
  - eexists. split; [done|]. split.
    { split; [done|]. cbn. intros g [= <-]. apply includes_false in Einc. done. }
    split; by eexists.
  - exists vars. split; [done|]. split; [done|]. split; [done|].
    intros d' c' _ _ _.
    destruct (nextGeneCandidate vars) as [g|] eqn:Eg; [by eexists|].
    rewrite (Hnone eq_refl) in Eupd. done.
Qed.

Lemma nnRoutes_scan : forall rs vars,
  (forall route, route ∈ rs -> rowOf this tail route) -> candidateOK this visited vars ->
  exists vars',
    nnRoutes this visited vars rs = Return vars'
    /\ candidateOK this visited vars'
    /\ (is_Some (nextGeneCandidate vars) -> is_Some (nextGeneCandidate vars'))
    /\ (forall route d c, route ∈ rs ->
          JS.get (costTable this) route = Some (tail, d, c) ->
          d <> tail -> d ∉ visited -> is_Some (nextGeneCandidate vars')).
Proof.
  induction rs as [|route rs IH]; intros vars Hrow Hok.
  - exists vars. split; [done|]. split; [done|]. split; [done|].
    intros route d c Hin. by apply elem_of_nil in Hin.
  - destruct (nnRoute_step vars route) as (vars1 & Hrun & Hok1 & Hkeep1 & Hnew1);
      [apply Hrow; by left|done|].
    destruct (IH vars1) as (vars2 & Hrun2 & Hok2 & Hkeep2 & Hnew2);
      [intros r Hr; apply Hrow; by right|done|].
    exists vars2. cbn [nnRoutes]. rewrite Hrun. cbn [mbind Completion_bind].
    split; [done|]. split; [done|]. split; [by auto|].
    intros r d c [->|Hin]%elem_of_cons Hget Hne Hnot.
    + apply Hkeep2. by eapply Hnew1.
    + by eapply Hnew2.
Qed.
End Nearest.

Lemma nearestNeighbor_unvisited this (chromosome visited : list Z) tail :
  rowMajor (dimension (configs this)) (costTable this) ->
  last chromosome = Some tail ->
  0 <= tail < dimension (configs this) -> tail ∈ visited ->
  NoDup visited -> inRange (dimension (configs this)) visited ->
  JS.len visited < dimension (configs this) ->
  exists g, nearestNeighbor this chromosome visited = Return (Some g)
            /\ (g ∉ visited) /\ 0 <= g < dimension (configs this).
Proof.
  intros Ht Hlast Htail Hvis Hnd Hr Hlen. unfold nearestNeighbor.
  rewrite Hlast. unfold _getCostTableBoundaries.
  set (N := dimension (configs this)) in *.
  replace (tail * N + N - tail * N) with N by lia.
  destruct (unvisited_exists N visited Hnd Hr Hlen) as (d & Hd & Hnot).
  destruct (nnRoutes_scan this visited tail (seqZ (tail * N) N)
              {| nearestNeighborCost := None; nextGeneCandidate := None |})
    as (vars & Hrun & [_ Hok] & _ & Hnew).
  - intros route [Hlo Hhi]%elem_of_seqZ.
    destruct (Ht tail (route - tail * N)) as [c Hc]; [done|lia|].
    exists (route - tail * N), c. split; [|lia]. rewrite <- Hc. f_equal. lia.
  - split; [done|]. intros g Hg. discriminate Hg.
  - rewrite Hrun. cbn [mbind Completion_bind].
    destruct (Ht tail d Htail Hd) as [c Hc].
    destruct (Hnew (tail * N + d) d c) as [g Hg].
    + apply elem_of_seqZ. lia.
    + done.
    + intros ->. done.
    + done.
    + exists g. rewrite Hg. split; [done|]. by apply Hok.
Qed.

Lemma tourCheck_ok N c : tourCheck N c = true -> tour N c.
Proof.
  unfold tourCheck. intros [[Hnd Hr]%andb_true_iff Hlen]%andb_true_iff.
  apply full_tour.
  - by apply bool_decide_eq_true in Hnd.
  - intros g Hg. rewrite forallb_forall in Hr.
    apply list_elem_of_In in Hg. specialize (Hr g Hg). lia.
  - lia.
Qed.

Lemma ga4_originInRange : originInRange ga4.
Proof. intros O [= <-]. simpl. lia. Qed.

(** X18.  Over a table that lists every pair of [0,N) row by row, the scan
    of the row of the last gene finds a next gene whenever a node is left:
    for visited nodes that are different nodes of [0,N), fewer than N, the
    last gene among them, [nearestNeighbor] returns a node of [0,N) that was
    not visited.  No step of the seeding adds [undefined] or a node twice. *)
Theorem X18_the_nearest_neighbour_is_a_node_not_yet_visited this
    (chromosome visited : list Z) tail :
  rowMajor (dimension (configs this)) (costTable this) ->
  last chromosome = Some tail ->
  0 <= tail < dimension (configs this) -> tail ∈ visited ->
  NoDup visited -> inRange (dimension (configs this)) visited ->
  JS.len visited < dimension (configs this) ->
  exists g, nearestNeighbor this chromosome visited = Return (Some g)
            /\ (g ∉ visited) /\ 0 <= g < dimension (configs this).
Proof. apply nearestNeighbor_unvisited. Qed.

Lemma X18_nearest_neighbour_witness :
  exists g, nearestNeighbor ga4 [0; 2] [0; 2] = Return (Some g)
            /\ (g ∉ [0; 2]) /\ 0 <= g < dimension (configs ga4).
Proof.
  apply (X18_the_nearest_neighbour_is_a_node_not_yet_visited ga4 [0; 2] [0; 2] 2).
  - exact table4_rowMajor.
  - reflexivity.
  - simpl. lia.
  - right. by left.
  - apply (bool_decide_unpack _). vm_compute. exact I.
  - intros g Hg. simpl.
    repeat (apply elem_of_cons in Hg as [->|Hg]); [lia..|].
    by apply elem_of_nil in Hg.
  - unfold JS.len. simpl. lia.
Defined.

(** From node 2 the scan picks node 1, at the cost 1. *)
Example X18_nearest_neighbour_run :
  nearestNeighbor ga4 [0; 2] [0; 2] = Return (Some 1).
Proof. vm_compute. reflexivity. Qed.

Lemma Set_add_nonempty {A} `{EqDecision A} (s : list A) x : JS.Set_add s x <> [].
Proof.
  unfold JS.Set_add. destruct (JS.includes s x) eqn:E.
  - apply includes_true in E. intros ->. by apply elem_of_nil in E.
  - by destruct s.
Qed.

Lemma nnaChromosome_tour this budget draws :
  rowMajor (dimension (configs this)) (costTable this) ->
  1 <= dimension (configs this) ->
  originInRange this ->
  post False (fun r => tour (dimension (configs this)) r.1)
    (nnaChromosome this budget draws).
Proof.
  intros Ht HN Ho. unfold nnaChromosome.
  set (N := dimension (configs this)) in *.
  destruct (originGenes_set this Ho) as [Hnd0 Hr0]. fold N in Hr0.
  eapply post_bind.
  { apply (post_while False
             (fun v : list Z * list Z * bool =>
                v.1.1 = v.1.2 /\ NoDup v.1.1 /\ inRange N v.1.1
                /\ (v.2 = true -> v.1.1 <> []))).
    - intros [[chr vis] found] d (Heq & Hnd & Hr & Hf) Hcond.
      cbn [fst snd] in *. subst vis. apply negb_true_iff in Hcond. subst found.
      eapply post_bind; [apply post_randomR|].
      intros [node d'] [u Hu]. cbn [fst] in *. subst node.
      destruct (JS.includes chr _) eqn:Einc; cbn [post fst snd]; [done|].
      split; [done|]. split; [by apply Set_add_NoDup|]. split.
      + intros g [Hg| ->]%Set_add_elem; [by apply Hr|].
        pose proof (random_range u 0 (N - 1)). lia.
      + intros _. apply Set_add_nonempty.
    - cbn [fst snd]. done. }
  intros [[[chr vis] found] d] [(Heq & Hnd & Hr & Hf) Hcond].
  cbn [fst snd] in *. subst vis. apply negb_false_iff in Hcond.
  specialize (Hf Hcond).
  eapply post_bind.
  { apply (post_while False
             (fun v : list Z * list Z =>
                v.1 = v.2 /\ NoDup v.1 /\ inRange N v.1 /\ v.1 <> [])).
    - intros [c vis] d0 (Heq & Hndc & Hrc & Hne) Hc.
      cbn [fst snd] in *. subst vis. apply Z.ltb_lt in Hc.
      destruct (last c) as [tail|] eqn:El.
      2:{ apply last_None in El. done. }
      destruct (nearestNeighbor_unvisited this c c tail) as (g & -> & Hg & Hgr);
        try done.
      { apply Hrc. by apply last_Some_elem_of. }
      { by apply last_Some_elem_of. }
      cbn [post fst snd]. split; [done|]. split; [by apply Set_add_NoDup|].
      split; [|apply Set_add_nonempty].
      intros x [Hx| ->]%Set_add_elem; [by apply Hrc|done].
    - cbn [fst snd]. done. }
  intros [[c vis] d1] [(Heq & Hndc & Hrc & Hne) Hc]. cbn [post fst snd] in *.
  apply Z.ltb_ge in Hc. by apply full_tour.
Qed.

Lemma generateNnaChrs_tours this budget count draws :
  rowMajor (dimension (configs this)) (costTable this) ->
  1 <= dimension (configs this) ->
  originInRange this ->
  post False
    (fun r => NoDup r.1 /\ (forall c, c ∈ r.1 -> tour (dimension (configs this)) c)
              /\ JS.len r.1 = Z.max 0 count)
    (_generateNnaChrs this budget count draws).
Proof.
  intros Ht HN Ho. unfold _generateNnaChrs.
  apply (Set_population_post budget count draws
           (nnaChromosome this budget) (tour (dimension (configs this)))).
  intros d. by apply nnaChromosome_tour.
Qed.

(** X19.  Over a table that lists every pair of [0,N) row by row, N >= 1,
    and for a fixed origin, if there is one, that is a node,
    [_generateNnaChrs(count)] and [_generateRandomChrs(count)] throw no
    error, whatever the draws, and what they return, when they return, is
    a population of count chromosomes, all different, each a tour: every
    node of [0,N) once.  For a count of 0 or below they return the empty
    population and draw nothing.  For a count above N!, the number of
    tours, they never return. *)
Theorem X19_seeding_returns_different_tours this :
  rowMajor (dimension (configs this)) (costTable this) ->
  1 <= dimension (configs this) ->
  originInRange this ->
  (forall budget count draws,
     post False
       (fun r => NoDup r.1
                 /\ (forall c, c ∈ r.1 -> tour (dimension (configs this)) c)
                 /\ JS.len r.1 = Z.max 0 count)
       (_generateNnaChrs this budget count draws))
  /\ (forall budget count draws,
        post False
          (fun r => NoDup r.1
                    /\ (forall c, c ∈ r.1 -> tour (dimension (configs this)) c)
                    /\ JS.len r.1 = Z.max 0 count)
          (_generateRandomChrs this budget count draws))
  /\ (forall budget count draws,
        count <= 0 -> (1 <= budget)%nat ->
        _generateNnaChrs this budget count draws = Return ([], draws)
        /\ _generateRandomChrs this budget count draws = Return ([], draws))
  /\ (forall budget count draws,
        factorial (Z.to_nat (dimension (configs this))) < count ->
        _generateNnaChrs this budget count draws = Unfinished
        /\ _generateRandomChrs this budget count draws = Unfinished).
Proof.
  intros Ht HN Ho. split; [|split; [|split]]; intros budget count draws.
  - by apply generateNnaChrs_tours.
  - by apply generateRandomChrs_tours.
  - intros Hcount Hbudget. destruct budget as [|budget]; [lia|].
    unfold _generateNnaChrs, _generateRandomChrs. cbn [while].
    assert ((JS.len (@nil ChromosomeStr) <? count) = false) as ->
      by (apply Z.ltb_ge; unfold JS.len; simpl; lia).
    done.
  - intros Hcount. split.
    + eapply post_impossible; [by apply generateNnaChrs_tours|].
      intros r (Hnd & Htours & Hlen).
      assert (JS.len r.1 <= factorial (Z.to_nat (dimension (configs this))))
        by exact (tours_count _ _ Hnd Htours).
      unfold Population in *. lia.
    + eapply post_impossible; [by apply generateRandomChrs_tours|].
      intros r (Hnd & Htours & Hlen).
      assert (JS.len r.1 <= factorial (Z.to_nat (dimension (configs this))))
        by exact (tours_count _ _ Hnd Htours).
      unfold Population in *. lia.
Qed.

Lemma X19_seeding_witness :
  post False
    (fun r => NoDup r.1
              /\ (forall c, c ∈ r.1 -> tour (dimension (configs ga4)) c)
              /\ JS.len r.1 = Z.max 0 2)
    (_generateNnaChrs ga4 20 2 (lcg 50 1))
  /\ post False
       (fun r => NoDup r.1
                 /\ (forall c, c ∈ r.1 -> tour (dimension (configs ga4)) c)
                 /\ JS.len r.1 = Z.max 0 3)
       (_generateRandomChrs ga4 20 3 (lcg 50 2))
  /\ (_generateNnaChrs ga4 20 0 (lcg 50 1) = Return ([], lcg 50 1)
      /\ _generateRandomChrs ga4 20 0 (lcg 50 1) = Return ([], lcg 50 1))
  /\ (_generateNnaChrs ga4 20 25 (lcg 50 1) = Unfinished
      /\ _generateRandomChrs ga4 20 25 (lcg 50 1) = Unfinished).
Proof.
  destruct (X19_seeding_returns_different_tours ga4)
    as (Hnna & Hrandom & Hnone & Hnever).
  - exact table4_rowMajor.
  - simpl. lia.
  - exact ga4_originInRange.
  - split; [apply Hnna|]. split; [apply Hrandom|].
    split; [apply Hnone; lia|]. apply Hnever. vm_compute. reflexivity.
Defined.

(** The calls of the witness. *)
Example X19_seeding_run :
  ('(p, _) ← _generateNnaChrs ga4 20 2 (lcg 50 1); Return p)
  = Return [[0;2;1;3]; [0;1;2;3]]
  /\ ('(p, _) ← _generateRandomChrs ga4 20 3 (lcg 50 2); Return p)
     = Return [[0;2;1;3]; [0;3;2;1]; [0;1;2;3]].
Proof. split; vm_compute; reflexivity. Qed.

Lemma admitRandom_spec (randomPopulation : Population) :
  forall (initialPopulation : Population) n,
  NoDup initialPopulation -> 0 <= n ->
  let r := foldl (fun (acc : Population * Z) chr =>
                    if JS.includes acc.1 chr then (acc.1, acc.2 + 1)
                    else (JS.Set_add acc.1 chr, acc.2))
             (initialPopulation, n) randomPopulation in
  NoDup r.1
  /\ (forall c, c ∈ r.1 -> c ∈ initialPopulation \/ c ∈ randomPopulation)
  /\ JS.len r.1 + r.2 = JS.len initialPopulation + n + JS.len randomPopulation
  /\ 0 <= r.2.
Proof.
  induction randomPopulation as [|chr rest IH]; intros init n Hnd Hn.
  - cbn. split; [done|]. split; [by left|]. unfold JS.len. simpl. lia.
  - cbn [foldl fst snd]. destruct (JS.includes init chr) eqn:E.
    + destruct (IH init (n + 1)) as (H1 & H2 & H3 & H4); [done|lia|].
      cbn zeta in *. split; [done|]. split.
      * intros c Hc. destruct (H2 c Hc); [by left|right; by right].
      * split; [|done]. etrans; [exact H3|]. unfold JS.len. simpl. lia.
    + destruct (IH (JS.Set_add init chr) n) as (H1 & H2 & H3 & H4);
        [by apply Set_add_NoDup|lia|].
      cbn zeta in *. split; [done|]. split.
      * intros c Hc. destruct (H2 c Hc) as [[?| ->]%Set_add_elem|?];
          [by left|right; by left|right; by right].
      * split; [|done]. pose proof (len_Set_add init chr) as HL.
        rewrite E in HL. etrans; [exact H3|]. rewrite HL.
        unfold JS.len. simpl. lia.
Qed.

Lemma admitRandom_ok (initialPopulation randomPopulation : Population) :
  NoDup initialPopulation ->
  NoDup (admitRandom initialPopulation randomPopulation).1
  /\ (forall c, c ∈ (admitRandom initialPopulation randomPopulation).1 ->
        c ∈ initialPopulation \/ c ∈ randomPopulation)
  /\ JS.len (admitRandom initialPopulation randomPopulation).1
     + (admitRandom initialPopulation randomPopulation).2
     = JS.len initialPopulation + JS.len randomPopulation
  /\ 0 <= (admitRandom initialPopulation randomPopulation).2.
Proof.
  intros Hnd.
  destruct (admitRandom_spec randomPopulation initialPopulation 0 Hnd)
    as (H1 & H2 & H3 & H4); [lia|].
  split; [exact H1|]. split; [exact H2|]. split; [|exact H4].
  etrans; [exact H3|]. lia.
Qed.

Lemma generateInitialPopulation_tours this budget st draws :
  rowMajor (dimension (configs this)) (costTable this) ->
  1 <= dimension (configs this) ->
  originInRange this ->
  post False
    (fun r => NoDup r.1.1
              /\ (forall c, c ∈ r.1.1 -> tour (dimension (configs this)) c)
              /\ _populationSize this <= JS.len r.1.1
                 <= Z.max 0 (nnaChrCount this)
                    + Z.max 0 (_populationSize this - nnaChrCount this)
              /\ r.1.2 = nextGeneration st)
    (_generateInitialPopulation this budget st draws).
Proof.
  intros Ht HN Ho. unfold _generateInitialPopulation.
  fold (nnaChrCount this).
  set (N := dimension (configs this)) in *.
  set (P := _populationSize this).
  set (T := Z.max 0 (nnaChrCount this) + Z.max 0 (P - nnaChrCount this)).
  eapply post_bind; [by apply generateNnaChrs_tours|].
  intros [init d] (Hnd & Htours & Hlen). cbn [fst] in *.
  eapply post_bind; [by apply generateRandomChrs_tours|].
  intros [rand d'] (Hndr & Htoursr & Hlenr). cbn [fst] in *.
  eapply post_bind.
  { apply (post_while False
             (fun v : Population * Population =>
                NoDup v.1 /\ (forall c, c ∈ v.1 -> tour N c)
                /\ (forall c, c ∈ v.2 -> tour N c)
                /\ JS.len v.1 + JS.len v.2 = T)).
    - intros [i r] d0 (Hi & Hti & Htr & Hsum) Hcond. cbn [fst snd] in *.
      destruct (admitRandom_ok i r Hi) as (H1 & H2 & H3 & H4).
      destruct (admitRandom i r) as [i' dup]. cbn [fst snd] in *.
      eapply post_bind; [by apply generateRandomChrs_tours|].
      intros [r' d1] (_ & Htr' & Hlr'). cbn [post fst snd] in *.
      split; [done|]. split.
      { intros c Hc. destruct (H2 c Hc); auto. }
      split; [done|]. lia.
    - cbn [fst snd]. split; [done|]. split; [done|]. split; [done|].
      unfold T. fold P in Hlenr. lia. }
  intros [[i r] d2] [(Hi & Hti & Htr & Hsum) Hcond]. cbn [post fst snd] in *.
  apply Z.ltb_ge in Hcond. pose proof (len_nonneg r).
  split; [done|]. split; [done|]. split; [fold P; lia|done].
Qed.

Lemma dimensionBased_atLeastOne this :
  atLeastOne (dimensionBasedPopulationSize this).
Proof.
  unfold dimensionBasedPopulationSize.
  destruct (_isOriginFixed this); apply factOf_atLeastOne.
Qed.

Lemma populationSize_nonneg this :
  0 <= defaultPopulationMaxSize this -> 0 <= _populationSize this.
Proof.
  intros H. unfold _populationSize.
  pose proof (dimensionBased_atLeastOne this) as Hd.
  destruct (dimensionBasedPopulationSize this) as [size|]; [|done].
  cbn [atLeastOne] in Hd. destruct (defaultPopulationMaxSize this <? size); lia.
Qed.

Lemma nnaChrCount_range this :
  1 <= dimension (configs this) ->
  0 <= nullish (nnaPercentage (configs this)) gc.NNA_POPULATION_PERCENTAGE
    <= 100 ->
  0 <= _populationSize this ->
  0 <= nnaChrCount this <= _populationSize this.
Proof.
  intros HN Hp HP. unfold nnaChrCount.
  set (pct := nullish _ _) in *. set (P := _populationSize this) in *.
  assert (0 <= (2 * (pct * P) + 100) `div` 200 <= P) as Hc.
  { split.
    - apply Z.div_pos; nia.
    - apply Z.lt_succ_r. apply Z.div_lt_upper_bound; nia. }
  destruct (_isOriginFixed this);
    destruct (_ <? _) eqn:E; try lia; apply Z.ltb_lt in E; lia.
Qed.

(** X20.  Over a table that lists every pair of [0,N) row by row, N >= 1,
    with a fixed origin, if there is one, that is a node, a percentage of
    nearest-neighbour chromosomes in 0..100 and a configured population size
    that is not negative, [_generateInitialPopulation] ends in no error.
    The population it returns has exactly the population size of the
    object in chromosomes, all different, each a tour; and the generation
    count has gone up by one. *)
Theorem X20_the_initial_population_is_P_different_tours this budget st draws :
  rowMajor (dimension (configs this)) (costTable this) ->
  1 <= dimension (configs this) ->
  originInRange this ->
  0 <= nullish (nnaPercentage (configs this)) gc.NNA_POPULATION_PERCENTAGE
    <= 100 ->
  0 <= defaultPopulationMaxSize this ->
  post False
    (fun r => NoDup r.1.1
              /\ (forall c, c ∈ r.1.1 -> tour (dimension (configs this)) c)
              /\ JS.len r.1.1 = _populationSize this
              /\ _generationCount r.1.2 = _generationCount st + 1)
    (_generateInitialPopulation this budget st draws).
Proof.
  intros Ht HN Ho Hpct Hsize.
  pose proof (populationSize_nonneg this Hsize) as HP.
  pose proof (nnaChrCount_range this HN Hpct HP) as Hc.
  eapply post_mono; [|by apply generateInitialPopulation_tours].
  intros r (Hnd & Htours & Hlen & Hst).
  split; [done|]. split; [done|]. split; [lia|]. by rewrite Hst.
Qed.

Lemma X20_initial_population_witness :
  post False
    (fun r => NoDup r.1.1
              /\ (forall c, c ∈ r.1.1 -> tour (dimension (configs gaS)) c)
              /\ JS.len r.1.1 = _populationSize gaS
              /\ _generationCount r.1.2 = _generationCount initialState + 1)
    (_generateInitialPopulation gaS 30 initialState (lcg 100 42)).
Proof.
  apply (X20_the_initial_population_is_P_different_tours gaS 30 initialState
           (lcg 100 42)).
  - exact table4_rowMajor.
  - simpl. lia.
  - intros O H. discriminate H.
  - vm_compute. split; discriminate.
  - vm_compute. discriminate.
Defined.

(** The call of the witness: two chromosomes of the nearest-neighbour
    seeding and three random ones. *)
Example X20_initial_population_run :
  ('(r, _) ← _generateInitialPopulation gaS 30 initialState (lcg 100 42);
   Return (r.1, _generationCount r.2))
  = Return ([[2;1;0;3]; [1;0;2;3]; [3;1;0;2]; [2;0;3;1]; [0;2;3;1]], 1).
Proof. vm_compute. reflexivity. Qed.

(** ** class GA: evolution *)

Lemma Map_has_true {K V} `{EqDecision K} (m : list (K * V)) k :
  JS.Map_has m k = true <-> k ∈ m.*1.
Proof. unfold JS.Map_has. apply bool_decide_eq_true. Qed.

Lemma Map_has_false {K V} `{EqDecision K} (m : list (K * V)) k :
  JS.Map_has m k = false <-> k ∉ m.*1.
Proof. unfold JS.Map_has. apply bool_decide_eq_false. Qed.

Lemma two_members {A} (l : list A) :
  2 <= JS.len l -> NoDup l -> exists a b, a ∈ l /\ b ∈ l /\ a <> b.
Proof.
  intros Hlen Hnd. destruct l as [|a [|b l]]; unfold JS.len in Hlen;
    simpl in Hlen; try lia.
  exists a, b. split; [by left|]. split; [right; by left|].
  apply NoDup_cons in Hnd as [Hab _]. intros ->. apply Hab. by left.
Qed.

Section Evolve.
Variable this : GA.
Variable lastGeneration : EvaluatedPopulation.
Let N := dimension (configs this).
Let P := _populationSize this.
Let lo := Z.max 0 (_mutationCount this).

Lemma evolving_add hi p c :
  evolving this lastGeneration hi p -> tour N c -> JS.len p < hi ->
  evolving this lastGeneration hi
    (if negb (_isProblemLarge this) || negb (JS.Map_has lastGeneration c)
     then JS.Set_add p c else p).
Proof.
  intros (Hnd & Ht & Hdis & Hlen) Hc Hlt.
  destruct (negb (_isProblemLarge this) || negb (JS.Map_has lastGeneration c))
    eqn:E; [|done].
  split; [by apply Set_add_NoDup|]. split; [|split].
  - intros x [Hx| ->]%Set_add_elem; [by apply Ht|done].
  - intros Hlarge x [Hx| ->]%Set_add_elem; [by apply Hdis|].
    rewrite Hlarge in E. cbn [negb orb] in E.
    apply negb_true_iff in E. by apply Map_has_false.
  - pose proof (len_Set_add_le p c). lia.
Qed.

Lemma evolving_len_mono p c :
  JS.len p
  <= JS.len (if negb (_isProblemLarge this) || negb (JS.Map_has lastGeneration c)
             then JS.Set_add p c else p).
Proof.
  destruct (negb _ || negb _); [|lia]. pose proof (len_Set_add_le p c). lia.
Qed.

Lemma offsprings_admitted hi (offsprings : list ChromosomeStr) : forall p,
  P <= hi -> evolving this lastGeneration hi p -> (forall c, c ∈ offsprings -> tour N c) ->
  let p' :=
    foldl (fun (population : Population) chromosome =>
             if negb (JS.includes population chromosome)
                && (JS.len population <? _populationSize this)
             then
               if negb (_isProblemLarge this)
                  || negb (JS.Map_has lastGeneration chromosome)
               then JS.Set_add population chromosome
               else population
             else population)
      p offsprings in
  evolving this lastGeneration hi p' /\ JS.len p <= JS.len p'.
Proof.
  induction offsprings as [|c rest IH]; intros p HP Hp Hc; [by split|].
  cbn [foldl]. cbn zeta.
  destruct (negb (JS.includes p c) && (JS.len p <? _populationSize this)) eqn:E.
  - apply andb_true_iff in E as [_ Hlt%Z.ltb_lt].
    destruct (IH (if negb (_isProblemLarge this)
                     || negb (JS.Map_has lastGeneration c)
                  then JS.Set_add p c else p)) as [H1 H2].
    + done.
    + apply evolving_add; [done|apply Hc; by left|unfold P in HP; clear -Hlt HP; lia].
    + intros x Hx. apply Hc. by right.
    + split; [exact H1|]. etrans; [apply (evolving_len_mono p c)|exact H2].
  - apply IH; [done|done|]. intros x Hx. apply Hc. by right.
Qed.

Lemma evolvePopulation_post budget draws :
  2 <= JS.len lastGeneration -> NoDup lastGeneration.*1 ->
  (forall c, c ∈ lastGeneration.*1 -> tour N c) ->
  post False
    (fun r => NoDup r.1 /\ (forall c, c ∈ r.1 -> tour N c)
              /\ (_isProblemLarge this = true ->
                  forall c, c ∈ r.1 -> c ∉ lastGeneration.*1)
              /\ JS.len r.1 = Z.max lo P)
    (_evolvePopulation this budget lastGeneration draws).
Proof.
  intros Hlen Hnd Htours.
  assert (2 <= N) as HN.
  { destruct (two_members lastGeneration.*1) as (a & b & Ha & Hb & Hab).
    - unfold JS.len in *. by rewrite length_fmap.
    - done.
    - eapply (distinct_permutations_dimension a b); [done|by apply Htours..]. }
  unfold _evolvePopulation.
  eapply post_bind.
  { apply (post_while False (evolving this lastGeneration lo)).
    - intros p d Hp Hcond. apply Z.ltb_lt in Hcond.
      eapply post_bind; [by apply randomSelection_post|].
      intros [c d1] Hc. cbn [fst] in Hc.
      eapply post_bind.
      { apply mutate_post. eapply tour_NoDup. by apply Htours. }
      intros [c' d2] Hc'. cbn [fst] in Hc'.
      assert (tour N c') as Ht' by (unfold tour; rewrite Hc'; by apply Htours).
      pose proof (evolving_add lo p c' Hp Ht') as Hadd.
      destruct (negb (_isProblemLarge this)
                || negb (JS.Map_has lastGeneration c'));
        cbn [post fst]; [apply Hadd; unfold lo; lia|done].
    - split; [apply NoDup_nil_2|]. split; [|split].
      + intros c Hc. by apply elem_of_nil in Hc.
      + intros _ c Hc. by apply elem_of_nil in Hc.
      + unfold JS.len, lo. simpl. lia. }
  intros [p d] [Hp Hcond]. cbn [fst] in *. apply Z.ltb_ge in Hcond.
  assert (JS.len p = lo) as Hplo.
  { destruct Hp as (_ & _ & _ & Hle). pose proof (len_nonneg p). unfold lo in *. lia. }
  eapply post_mono;
    [|apply (post_while False
               (fun q => evolving this lastGeneration (Z.max lo P) q /\ lo <= JS.len q))].
  - intros [q d3] [[(Hq1 & Hq2 & Hq3 & Hq4) Hq5] Hc]. cbn [fst] in *.
    apply Z.ltb_ge in Hc. unfold P.
    split; [done|]. split; [done|]. split; [done|]. lia.
  - intros q d3 [Hq Hqlo] Hc.
    eapply post_bind; [by apply rouletteWheelSelection_post|].
    intros [parents d4] (a & b & Hpar & Hab & Ha & Hb). cbn [fst] in Hpar.
    subst parents.
    eapply post_bind.
    { apply (mate_post this budget a b); [done|by apply Htours..]. }
    intros [offsprings d5] Hoff. cbn [fst] in Hoff.
    apply post_Return. cbn [fst].
    destruct (offsprings_admitted (Z.max lo P) offsprings q) as [H1 H2];
      [unfold P; lia|done|done|].
    cbn zeta in H1, H2. split; [exact H1|]. etrans; [exact Hqlo|exact H2].
  - cbn [fst]. split; [|lia]. destruct Hp as (H1 & H2 & H3 & H4).
    split; [done|]. split; [done|]. split; [done|]. lia.
Qed.
End Evolve.

Lemma prevGeneration_tours c :
  c ∈ prevGeneration.*1 -> tour (dimension (configs gaS)) c.
Proof.
  intros Hc. apply tourCheck_ok. cbn in Hc.
  repeat (apply elem_of_cons in Hc as [->|Hc]); [reflexivity..|].
  by apply elem_of_nil in Hc.
Qed.

Lemma prevGeneration_NoDup : NoDup prevGeneration.*1.
Proof. apply (bool_decide_unpack _). vm_compute. exact I. Qed.

Lemma evolvePopulation_never this budget
    (lastGeneration : EvaluatedPopulation) draws :
  2 <= JS.len lastGeneration -> NoDup lastGeneration.*1 ->
  (forall c, c ∈ lastGeneration.*1 -> tour (dimension (configs this)) c) ->
  _isProblemLarge this = true ->
  factorial (Z.to_nat (dimension (configs this)))
  < JS.len lastGeneration + _populationSize this ->
  _evolvePopulation this budget lastGeneration draws = Unfinished.
Proof.
  intros Hlen Hnd Htours Hlarge Hfew.
  eapply post_impossible; [by apply evolvePopulation_post|].
  intros r (Hndr & Htr & Hnew & Hsize). specialize (Hnew Hlarge).
  assert (JS.len (r.1 ++ lastGeneration.*1)
          <= factorial (Z.to_nat (dimension (configs this)))) as Hcount.
  { apply tours_count.
    - apply NoDup_app. split; [done|]. split; [|done]. exact Hnew.
    - intros c [Hc|Hc]%elem_of_app; auto. }
  unfold JS.len, Population in *.
  rewrite length_app, length_fmap in Hcount. lia.
Qed.

(** X21.  For a last generation of at least two chromosomes, all different
    and each a tour, [_evolvePopulation] throws no error, whatever the
    draws.  The chromosomes of the population it returns, when it returns,
    are all different, each is a tour, on a large problem none of them is a
    chromosome of the last generation, and their number is the population
    size of the object, or the count of mutants where that is greater.  On
    a large problem it never returns when the last generation and a
    population of that size are together more than N!, the number of
    tours. *)
Theorem X21_the_evolved_population_is_new_tours this budget
    (lastGeneration : EvaluatedPopulation) draws :
  2 <= JS.len lastGeneration -> NoDup lastGeneration.*1 ->
  (forall c, c ∈ lastGeneration.*1 -> tour (dimension (configs this)) c) ->
  post False
    (fun r => NoDup r.1
              /\ (forall c, c ∈ r.1 -> tour (dimension (configs this)) c)
              /\ (_isProblemLarge this = true ->
                  forall c, c ∈ r.1 -> c ∉ lastGeneration.*1)
              /\ JS.len r.1
                 = Z.max (Z.max 0 (_mutationCount this)) (_populationSize this))
    (_evolvePopulation this budget lastGeneration draws)
  /\ (_isProblemLarge this = true ->
      factorial (Z.to_nat (dimension (configs this)))
      < JS.len lastGeneration + _populationSize this ->
      _evolvePopulation this budget lastGeneration draws = Unfinished).
Proof.
  intros Hlen Hnd Htours. split; [by apply evolvePopulation_post|].
  by apply evolvePopulation_never.
Qed.

Lemma generationT_tours c :
  c ∈ generationT.*1 -> tour (dimension (configs gaT)) c.
Proof.
  intros Hc. apply tourCheck_ok. unfold generationT in Hc. simpl in Hc.
  repeat (apply elem_of_cons in Hc as [->|Hc]); [reflexivity..|].
  by apply elem_of_nil in Hc.
Qed.

Lemma X21_evolved_population_witness :
  post False
    (fun r => NoDup r.1
              /\ (forall c, c ∈ r.1 -> tour (dimension (configs gaS)) c)
              /\ (_isProblemLarge gaS = true ->
                  forall c, c ∈ r.1 -> c ∉ prevGeneration.*1)
              /\ JS.len r.1
                 = Z.max (Z.max 0 (_mutationCount gaS)) (_populationSize gaS))
    (_evolvePopulation gaS 30 prevGeneration (lcg 200 7))
  /\ _evolvePopulation gaT 30 generationT (lcg 200 7) = Unfinished.
Proof.
  split.
  - apply (X21_the_evolved_population_is_new_tours gaS 30 prevGeneration
             (lcg 200 7)).
    + unfold JS.len. simpl. lia.
    + exact prevGeneration_NoDup.
    + exact prevGeneration_tours.
  - apply (X21_the_evolved_population_is_new_tours gaT 30 generationT
             (lcg 200 7)).
    + unfold JS.len. simpl. lia.
    + apply (bool_decide_unpack _). vm_compute. exact I.
    + exact generationT_tours.
    + vm_compute. reflexivity.
    + vm_compute. reflexivity.
Defined.

(** The call of the witness: one mutant, then offspring. *)
Example X21_evolved_population_run :
  ('(p, _) ← _evolvePopulation gaS 30 prevGeneration (lcg 200 7); Return p)
  = Return [[3;1;0;2]; [0;1;3;2]; [1;0;3;2]; [2;0;1;3]; [3;0;1;2]].
Proof. vm_compute. reflexivity. Qed.

(** ** class GA: survival selection *)

Lemma Map_of_acc {K V} `{EqDecision K} (l : list (K * V)) : forall acc,
  NoDup (acc ++ l).*1 ->
  foldl (fun m e => JS.Map_set m e.1 e.2) acc l = acc ++ l.
Proof.
  induction l as [|[k v] l IH]; intros acc Hnd; [by rewrite app_nil_r|].
  cbn [foldl fst snd]. rewrite Map_set_absent.
  - rewrite IH; rewrite <- app_assoc; done.
  - rewrite fmap_app in Hnd. apply NoDup_app in Hnd as (_ & Hdis & _).
    intros Hin. apply (Hdis k Hin). by left.
Qed.

Lemma Map_of_NoDup {K V} `{EqDecision K} (l : list (K * V)) :
  NoDup l.*1 -> JS.Map_of l = l.
Proof. intros H. unfold JS.Map_of. by rewrite Map_of_acc. Qed.

Lemma splice_parts {A} (a items : list A) start deleteCount :
  exists keep1 keep2,
    JS.splice a start deleteCount items = keep1 ++ items ++ keep2
    /\ keep1 ++ keep2 `sublist_of` a.
Proof.
  unfold JS.splice. eexists _, _. split; [reflexivity|].
  set (ks := JS.relIndex a start).
  trans (take ks a ++ drop ks a); [|by rewrite take_drop].
  apply sublist_app; [done|]. rewrite <- drop_drop. apply sublist_drop.
Qed.

Lemma splice_tail {A} (a items : list A) E :
  0 <= E <= JS.len a ->
  JS.splice a (JS.len a - E) E items = take (Z.to_nat (JS.len a - E)) a ++ items.
Proof.
  intros HE. unfold JS.splice, JS.relIndex.
  assert ((JS.len a - E <? 0) = false) as -> by (apply Z.ltb_ge; lia).
  rewrite Z.min_l by lia. rewrite Z2Nat.id by lia.
  replace (Z.min (Z.max E 0) (JS.len a - (JS.len a - E))) with E by lia.
  rewrite drop_ge, app_nil_r; [done|]. unfold JS.len in *. lia.
Qed.

Lemma slice_head {A} (a : list A) e :
  0 <= e -> JS.slice a 0 e = take (Z.to_nat e) a.
Proof.
  intros He. unfold JS.slice, JS.relIndex. simpl.
  assert ((e <? 0) = false) as -> by (apply Z.ltb_ge; lia).
  pose proof (len_nonneg a).
  rewrite (Z.min_l 0) by lia. cbn [Z.to_nat drop]. rewrite Nat.sub_0_r.
  destruct (decide (e <= JS.len a)).
  - by rewrite Z.min_l by lia.
  - rewrite Z.min_r by lia. unfold JS.len in *. rewrite Nat2Z.id.
    rewrite firstn_all. rewrite take_ge; [done|lia].
Qed.

Lemma survivalSelection_spec this (lastGeneration : EvaluatedPopulation)
    (evolvedPopulation : Population) :
  NoDup lastGeneration.*1 -> NoDup evolvedPopulation ->
  (forall c, c ∈ evolvedPopulation -> c ∉ lastGeneration.*1) ->
  (forall c, c ∈ evolvedPopulation ->
     exists f, _evaluateChromosomeFitness this (strToChr c) = Return f) ->
  exists sortedLast sortedNext,
    _survivalSelection this lastGeneration evolvedPopulation
    = Return (JS.splice sortedNext (JS.len sortedNext - _eliteCount this)
                (_eliteCount this)
                (JS.slice sortedLast 0 (_eliteCount this + 1)))
    /\ sortedLast ≡ₚ lastGeneration /\ fitnessAscending sortedLast
    /\ sortedNext.*1 ≡ₚ evolvedPopulation /\ evaluatedBy this sortedNext
    /\ fitnessAscending sortedNext
    /\ NoDup (JS.splice sortedNext (JS.len sortedNext - _eliteCount this)
                (_eliteCount this)
                (JS.slice sortedLast 0 (_eliteCount this + 1))).*1.
Proof.
  intros Hndl Hnde Hdis Hev. unfold _survivalSelection.
  destruct (quickSort_spec lastGeneration) as (sl & -> & Hpl & Hal).
  cbn [mbind Completion_bind].
  destruct (evaluatePopulation_lists this
              evolvedPopulation Hnde Hev) as (ev & -> & Hkeys & Hfit).
  cbn [mbind Completion_bind].
  destruct (quickSort_spec ev) as (sn & -> & Hpn & Han).
  cbn [mbind Completion_bind].
  assert (sn.*1 ≡ₚ evolvedPopulation) as Hkp.
  { rewrite <- Hkeys. by apply fmap_Permutation. }
  assert (sl.*1 ≡ₚ lastGeneration.*1) as Hlp by (by apply fmap_Permutation).
  assert (NoDup (JS.splice sn (JS.len sn - _eliteCount this) (_eliteCount this)
                   (JS.slice sl 0 (_eliteCount this + 1))).*1) as Hnd.
  { destruct (splice_parts sn (JS.slice sl 0 (_eliteCount this + 1))
                (JS.len sn - _eliteCount this) (_eliteCount this))
      as (k1 & k2 & -> & Hsub).
    assert (NoDup (k1 ++ k2).*1) as Hk.
    { eapply sublist_NoDup; [|by apply fmap_sublist].
      by rewrite Hkp. }
    assert (NoDup (JS.slice sl 0 (_eliteCount this + 1)).*1) as Hs.
    { eapply sublist_NoDup; [|apply fmap_sublist, slice_sublist].
      by rewrite Hlp. }
    assert (forall x, x ∈ (JS.slice sl 0 (_eliteCount this + 1)).*1 ->
                      x ∉ (k1 ++ k2).*1) as Hd.
    { intros x Hx Hx'. apply (Hdis x).
      - rewrite <- Hkp. eapply elem_of_sublist; [exact Hx'|].
        by apply fmap_sublist.
      - rewrite <- Hlp. eapply elem_of_sublist; [exact Hx|].
        apply fmap_sublist, slice_sublist. }
    rewrite !fmap_app in *. apply NoDup_app in Hk as (Hk1 & Hk12 & Hk2).
    apply NoDup_app. split; [done|]. split.
    - intros x Hx [Hx'|Hx']%elem_of_app.
      + apply (Hd x Hx'). apply elem_of_app. by left.
      + by apply (Hk12 x).
    - apply NoDup_app. split; [done|]. split; [|done].
      intros x Hx Hx'. apply (Hd x Hx). apply elem_of_app. by right. }
  exists sl, sn. rewrite Map_of_NoDup by done.
  split; [done|]. split; [done|]. split; [done|].
  split; [done|]. split; [|done].
  intros e He. apply Hfit. by rewrite <- Hpn.
Qed.

(** X22.  What [_survivalSelection] returns, for an elite count E with
    0 < E <= the size of the evolved population and E < the size of the last
    generation, when the chromosomes of the last generation are different,
    those of the evolved population are different and evaluate, and the two
    have no chromosome in common: with both sorted by ascending fitness, the
    next generation is all of the evolved population but its E fittest,
    followed by the E + 1 least fit of the last generation.  It has one
    chromosome more than the evolved population. *)
Theorem X22_the_next_generation_keeps_the_least_fit_of_the_last this
    (lastGeneration : EvaluatedPopulation) (evolvedPopulation : Population) :
  NoDup lastGeneration.*1 -> NoDup evolvedPopulation ->
  (forall c, c ∈ evolvedPopulation -> c ∉ lastGeneration.*1) ->
  (forall c, c ∈ evolvedPopulation ->
     exists f, _evaluateChromosomeFitness this (strToChr c) = Return f) ->
  0 < _eliteCount this <= JS.len evolvedPopulation ->
  _eliteCount this < JS.len lastGeneration ->
  exists sortedLast sortedNext next,
    _survivalSelection this lastGeneration evolvedPopulation = Return next
    /\ sortedLast ≡ₚ lastGeneration /\ fitnessAscending sortedLast
    /\ sortedNext.*1 ≡ₚ evolvedPopulation /\ evaluatedBy this sortedNext
    /\ fitnessAscending sortedNext
    /\ next = take (Z.to_nat (JS.len evolvedPopulation - _eliteCount this))
                sortedNext
              ++ take (Z.to_nat (_eliteCount this + 1)) sortedLast
    /\ JS.len next = JS.len evolvedPopulation + 1.
Proof.
  intros Hndl Hnde Hdis Hev HE HEl.
  destruct (survivalSelection_spec this lastGeneration evolvedPopulation
              Hndl Hnde Hdis Hev)
    as (sl & sn & Hrun & Hpl & Hal & Hkp & Hfit & Han & _).
  assert (JS.len sn = JS.len evolvedPopulation) as Hn.
  { unfold JS.len. by rewrite <- Hkp, length_fmap. }
  assert (JS.len sl = JS.len lastGeneration) as Hl.
  { unfold JS.len. by rewrite Hpl. }
  rewrite splice_tail, slice_head, Hn in Hrun by lia.
  eexists sl, sn, _. split; [exact Hrun|]. do 5 (split; [done|]).
  split; [done|]. unfold JS.len in *.
  rewrite length_app, !length_take. lia.
Qed.

Lemma X22_next_generation_witness :
  exists sortedLast sortedNext next,
    _survivalSelection gaS prevGeneration evolvedPopulation = Return next
    /\ sortedLast ≡ₚ prevGeneration /\ fitnessAscending sortedLast
    /\ sortedNext.*1 ≡ₚ evolvedPopulation /\ evaluatedBy gaS sortedNext
    /\ fitnessAscending sortedNext
    /\ next = take (Z.to_nat (JS.len evolvedPopulation - _eliteCount gaS))
                sortedNext
              ++ take (Z.to_nat (_eliteCount gaS + 1)) sortedLast
    /\ JS.len next = JS.len evolvedPopulation + 1.
Proof.
  apply (X22_the_next_generation_keeps_the_least_fit_of_the_last gaS
           prevGeneration evolvedPopulation).
  - apply (bool_decide_unpack _). vm_compute. exact I.
  - apply (bool_decide_unpack _). vm_compute. exact I.
  - intros c Hc. unfold evolvedPopulation in Hc.
    repeat (apply elem_of_cons in Hc as [->|Hc]);
      [apply (bool_decide_unpack _); vm_compute; exact I..|].
    by apply elem_of_nil in Hc.
  - intros c Hc. unfold evolvedPopulation in Hc.
    repeat (apply elem_of_cons in Hc as [->|Hc]);
      [eexists; vm_compute; reflexivity..|].
    by apply elem_of_nil in Hc.
  - vm_compute. split; [reflexivity|discriminate].
  - vm_compute. reflexivity.
Defined.

(** ** class GA: the whole run *)

Lemma post_and {A} (P Q : A -> Prop) c :
  post False P c -> post True Q c -> post False (fun a => P a /\ Q a) c.
Proof. by destruct c. Qed.

Lemma pathCost_returns this c :
  rowMajor (dimension (configs this)) (costTable this) ->
  inRange (dimension (configs this)) c ->
  exists v, pathCost this c = Return v.
Proof.
  intros Ht. induction c as [|a [|b rest] IH]; intros Hc.
  - by exists 0.
  - by exists 0.
  - rewrite pathCost_cons.
    destruct (getRouteCost_rowMajor this a b Ht) as (x & -> & _).
    { apply Hc. by left. } { apply Hc. right. by left. }
    destruct IH as (y & Hy); [intros g Hg; apply Hc; by right|].
    rewrite Hy. by eexists.
Qed.

Lemma evaluate_returns this c :
  rowMajor (dimension (configs this)) (costTable this) ->
  inRange (dimension (configs this)) c ->
  exists f, _evaluateChromosomeFitness this c = Return f.
Proof.
  intros Ht Hc. unfold _evaluateChromosomeFitness.
  rewrite chromosomeCost_codeCost. unfold codeCost.
  destruct (pathCost_returns this c Ht Hc) as (p & ->).
  cbn [mbind Completion_bind].
  destruct (_returnToOrigin this && truthy (head c) && truthy (last c));
    [|by eexists].
  destruct (last c) as [l|] eqn:El; [|by eexists].
  destruct (head c) as [f|] eqn:Ef; [|by eexists].
  destruct (getRouteCost_rowMajor this l f Ht) as (x & -> & _).
  { apply Hc. by apply last_Some_elem_of. }
  { apply Hc. by apply head_Some_elem_of. }
  by eexists.
Qed.

Lemma strToChr_tour N c : tour N c -> strToChr c = c.
Proof. intros H. unfold strToChr. apply Set_of_NoDup. by eapply tour_NoDup. Qed.

Lemma evaluatePopulation_generation this (population : Population) :
  rowMajor (dimension (configs this)) (costTable this) ->
  NoDup population ->
  (forall c, c ∈ population -> tour (dimension (configs this)) c) ->
  exists ev, _evaluatePopulationFitness this population = Return ev
             /\ ev.*1 = population /\ evaluatedBy this ev.
Proof.
  intros Ht Hnd Htours.
  apply evaluatePopulation_lists; [done|].
  intros c Hc. rewrite (strToChr_tour _ c) by auto.
  apply evaluate_returns; [done|]. eapply tour_inRange. by apply Htours.
Qed.

Lemma registration_keeps_the_solution this now
    (population : EvaluatedPopulation) st :
  population <> [] ->
  (forall c, c ∈ population.*1 -> tour (dimension (configs this)) c) ->
  evaluatedBy this population ->
  bestCost (_solution st) = None \/ solutionOK this (_solution st) ->
  post False (fun st' => solutionOK this (_solution st'))
    (_registerSolutionStats now population st).
Proof.
  intros Hne Htours Hev Hold.
  destruct (registration_returns now population st Hne)
    as (st' & best & worst & Hrun & Hb & _).
  rewrite Hrun. cbn [post].
  apply registerSolutionStats_inv in Hrun
    as (sorted & best' & worst' & Hsort & Hbest & Hworst & _ & _ & _ & _ & _ & _
        & (Hs & Hc & _) & _).
  destruct (sorted_ends population sorted best' worst' Hsort Hbest Hworst)
    as (Hin & _).
  assert (tour (dimension (configs this)) best'.1) as Ht.
  { apply Htours. apply list_elem_of_fmap. by exists best'. }
  destruct (falsyNum (bestCost (_solution st)) || _) eqn:Eupd.
  - exists best'.1, best'.2. split; [done|]. split; [done|]. split; [|done].
    rewrite <- (strToChr_tour _ _ Ht). by apply Hev.
  - destruct Hold as [Hnone|(c & f & H1 & H2 & H3 & H4)].
    + rewrite Hnone in Eupd. done.
    + exists c, f. rewrite Hs, Hc. done.
Qed.

Section Safe.
Variable this : GA.
Let N := dimension (configs this).
Hypothesis Htable : rowMajor N (costTable this).
Hypothesis HN : 1 <= N.
Hypothesis Horigin : originInRange this.
Hypothesis Hsize : 2 <= defaultPopulationMaxSize this.
Hypothesis Helite : 1 <= _eliteCount this.

Lemma populationSize_pos :
  1 <= _populationSize this
  /\ (_isProblemLarge this = true -> 2 <= _populationSize this).
Proof.
  unfold _populationSize, _isProblemLarge.
  pose proof (dimensionBased_atLeastOne this) as Hd.
  destruct (dimensionBasedPopulationSize this) as [size|];
    [|split; [lia|intros _; lia]].
  cbn [atLeastOne] in Hd.
  destruct (defaultPopulationMaxSize this <? size); split; (done || lia).
Qed.

Lemma survival_generation (lastGeneration : EvaluatedPopulation)
    (evolvedPopulation : Population) :
  generationOK this lastGeneration -> 2 <= JS.len lastGeneration ->
  NoDup evolvedPopulation ->
  (forall c, c ∈ evolvedPopulation -> tour N c) ->
  (forall c, c ∈ evolvedPopulation -> c ∉ lastGeneration.*1) ->
  post False (fun next => generationOK this next /\ 2 <= JS.len next)
    (_survivalSelection this lastGeneration evolvedPopulation).
Proof.
  intros (Hndl & Htl & Hevl & _ & _) Hlen Hnde Hte Hdis.
  destruct (survivalSelection_spec this lastGeneration evolvedPopulation)
    as (sl & sn & -> & Hpl & _ & Hkp & Hfit & _ & Hnd); [done..| |].
  { intros c Hc. rewrite (strToChr_tour N c) by auto.
    apply evaluate_returns; [done|]. eapply tour_inRange. by apply Hte. }
  cbn [post].
  destruct (splice_parts sn (JS.slice sl 0 (_eliteCount this + 1))
              (JS.len sn - _eliteCount this) (_eliteCount this))
    as (k1 & k2 & Heq & Hsub).
  rewrite Heq in *.
  assert (forall e, e ∈ k1 ++ JS.slice sl 0 (_eliteCount this + 1) ++ k2 ->
                    e ∈ lastGeneration \/ e ∈ sn) as Hfrom.
  { intros e [He|[He|He]%elem_of_app]%elem_of_app.
    - right. eapply elem_of_sublist; [|exact Hsub]. apply elem_of_app. by left.
    - left. rewrite <- Hpl. eapply elem_of_sublist; [exact He|].
      apply slice_sublist.
    - right. eapply elem_of_sublist; [|exact Hsub]. apply elem_of_app. by right. }
  assert (2 <= JS.len (JS.slice sl 0 (_eliteCount this + 1))) as Hitems.
  { rewrite slice_head by lia. unfold JS.len in *. rewrite length_take.
    rewrite Hpl. lia. }
  assert (2 <= JS.len (k1 ++ JS.slice sl 0 (_eliteCount this + 1) ++ k2)) as H2.
  { unfold JS.len in *. rewrite !length_app. lia. }
  split; [|done]. split; [done|]. split; [|split; [|split]].
  - intros c (e & -> & He)%list_elem_of_fmap.
    destruct (Hfrom e He) as [Hl|Hn].
    + apply Htl. apply list_elem_of_fmap. by exists e.
    + apply Hte. rewrite <- Hkp. apply list_elem_of_fmap. by exists e.
  - intros e He. destruct (Hfrom e He) as [Hl|Hn]; [by apply Hevl|by apply Hfit].
  - intros Hnil. rewrite Hnil in H2. unfold JS.len in H2. simpl in H2. lia.
  - done.
Qed.

Lemma large_when_running st :
  _hasEndingConditionsMet this st = false -> _isProblemLarge this = true.
Proof.
  unfold _hasEndingConditionsMet.
  destruct (_maxGens this <? _generationCount st); [done|].
  destruct (truthy _ && _); [done|].
  by destruct (_isProblemLarge this).
Qed.

Lemma solveStep_safe budget clock v draws :
  generationOK this v.1 -> solutionOK this (_solution v.2) ->
  _hasEndingConditionsMet this v.2 = false ->
  post False
    (fun r => generationOK this r.1.1 /\ solutionOK this (_solution r.1.2))
    (solveStep this budget clock v draws).
Proof.
  destruct v as [ev st]. cbn [fst snd]. intros Hgen Hsol Hrun.
  pose proof (large_when_running st Hrun) as Hlarge.
  pose proof Hgen as (Hnd & Ht & Hev & Hne & Hlen). specialize (Hlen Hlarge).
  unfold solveStep.
  eapply post_bind; [by apply evolvePopulation_post|].
  intros [evolved d] (Hnde & Hte & Hdis & _). cbn [fst] in *.
  eapply post_bind; [apply survival_generation; auto|].
  intros next [Hnext Hlen'].
  eapply post_bind.
  - apply (registration_keeps_the_solution this); [apply Hnext..|by right].
  - intros st' Hst'. by apply post_Return.
Qed.

Lemma solve_safe budget start clock draws :
  post False
    (fun r => generationOK this r.1.1 /\ solutionOK this (_solution r.1.2))
    (solve this budget start clock initialState draws).
Proof.
  unfold solve.
  eapply post_bind; [by apply generateInitialPopulation_tours|].
  intros [[pop st] d] (Hnd & Ht & [Hlen _] & Hst). cbn [fst snd] in *. subst st.
  destruct (evaluatePopulation_generation this pop) as (ev & -> & Hkeys & Hev);
    [done..|].
  cbn [mbind Completion_bind].
  destruct populationSize_pos as [HP HP2].
  assert (generationOK this ev) as Hgen.
  { split; [by rewrite Hkeys|]. split; [by rewrite Hkeys|]. split; [done|].
    assert (JS.len ev = JS.len pop) as Hl.
    { unfold JS.len. by rewrite <- Hkeys, length_fmap. }
    split.
    - intros ->. unfold JS.len in *. simpl in *. lia.
    - intros Hlarge. specialize (HP2 Hlarge). lia. }
  eapply post_bind.
  { apply (registration_keeps_the_solution this); [apply Hgen..|by left]. }
  intros st Hsol.
  eapply post_mono;
    [|apply (post_while False
               (fun v => generationOK this v.1
                         /\ solutionOK this (_solution v.2)))].
  - by intros r [? _].
  - intros v d0 [Hg Hs] Hcond. apply negb_true_iff in Hcond.
    by apply solveStep_safe.
  - done.
Qed.

Lemma solve_never budget start clock draws :
  _isProblemLarge this = true ->
  1 <= _maxGens this -> 0 <= _maxChromosomeAge this ->
  factorial (Z.to_nat N) < 2 * _populationSize this ->
  solve this budget start clock initialState draws = Unfinished.
Proof.
  intros Hlarge Hgens Hage Hfew. unfold solve.
  match goal with
  | |- context [_generateInitialPopulation this budget ?st0 draws] =>
      pose proof (generateInitialPopulation_tours this budget st0 draws
                    Htable HN Horigin) as Hinit;
      destruct (_generateInitialPopulation this budget st0 draws)
        as [[[pop st] d]| | |]; cbn [post] in Hinit; [|done..]
  end.
  destruct Hinit as (Hnd & Ht & [Hlen _] & Hst). cbn [fst snd] in *. subst st.
  cbn [mbind Completion_bind].
  destruct (evaluatePopulation_generation this pop) as (ev & -> & Hkeys & Hev);
    [done..|].
  cbn [mbind Completion_bind].
  destruct populationSize_pos as [HP HP2]. specialize (HP2 Hlarge).
  assert (JS.len ev = JS.len pop) as Hl.
  { unfold JS.len. by rewrite <- Hkeys, length_fmap. }
  assert (ev <> []) as Hne.
  { intros ->. unfold JS.len in *. simpl in *. lia. }
  match goal with
  | |- context [_registerSolutionStats ?now ev ?st1] =>
      destruct (registration_returns now ev st1 Hne)
        as (st' & _ & _ & Hrun & _); rewrite Hrun;
      apply registerSolutionStats_inv in Hrun
        as (_ & best & _ & _ & _ & _ & Hcount & _ & _ & _ & _ & _
            & (_ & _ & Hbest) & _)
  end.
  cbn [mbind Completion_bind]. cbn in Hcount, Hbest.
  destruct budget as [|budget']; [done|]. cbn [while fst snd].
  assert (_hasEndingConditionsMet this st' = false) as ->.
  { unfold _hasEndingConditionsMet. rewrite Hcount, Hbest.
    cbn [truthy default from_option id].
    assert ((_maxGens this <? 0 + 1) = false) as -> by (apply Z.ltb_ge; lia).
    assert ((_maxChromosomeAge this <? 0 + 1 - (0 + 1)) = false) as ->
      by (apply Z.ltb_ge; lia).
    rewrite Hlarge, andb_false_r. done. }
  cbn [negb]. unfold solveStep. rewrite evolvePopulation_never; try done.
  - lia.
  - by rewrite Hkeys.
  - by rewrite Hkeys.
  - fold N. lia.
Qed.
End Safe.

(** X23.  Over a table that lists every pair of [0,N) row by row, N >= 1,
    with a fixed origin, if there is one, that is a node, a configured
    population size of at least 2 and an elite count of at least 1, [solve]
    throws no error, whatever the draws.  When it returns, the chromosomes
    of the last generation are all different, each is a tour and has the
    fitness the evaluator gives it, and the solution on record is a tour
    whose cost, as the evaluator has it, is the best cost on record.  It
    never returns on a large problem with a population size above half of
    N!, the number of tours, when the generations and the age allowed are
    at least 1 and 0: the first evolution would need more new tours than
    there are. *)
Theorem X23_solve_throws_no_error_over_a_full_table this budget start clock
    draws :
  rowMajor (dimension (configs this)) (costTable this) ->
  1 <= dimension (configs this) ->
  originInRange this ->
  2 <= defaultPopulationMaxSize this ->
  1 <= _eliteCount this ->
  post False
    (fun r => generationOK this r.1.1 /\ solutionOK this (_solution r.1.2))
    (solve this budget start clock initialState draws)
  /\ (_isProblemLarge this = true ->
      1 <= _maxGens this -> 0 <= _maxChromosomeAge this ->
      factorial (Z.to_nat (dimension (configs this)))
      < 2 * _populationSize this ->
      solve this budget start clock initialState draws = Unfinished).
Proof. intros. split; [by apply solve_safe|]. by apply solve_never. Qed.

Lemma tableT_rowMajor : rowMajor 3 tableT.
Proof.
  intros o d Ho Hd.
  assert (o = 0 \/ o = 1 \/ o = 2) as [->|[->| ->]] by lia;
    (assert (d = 0 \/ d = 1 \/ d = 2) as [->|[->| ->]] by lia);
    eexists; reflexivity.
Qed.

Lemma table5_rowMajor : rowMajor 5 table5.
Proof.
  intros o d Ho Hd.
  assert (o = 0 \/ o = 1 \/ o = 2 \/ o = 3 \/ o = 4)
    as [->|[->|[->|[->| ->]]]] by lia;
    (assert (d = 0 \/ d = 1 \/ d = 2 \/ d = 3 \/ d = 4)
       as [->|[->|[->|[->| ->]]]] by lia);
    eexists; reflexivity.
Qed.

Lemma X23_solve_witness :
  post False
    (fun r => generationOK gaS r.1.1 /\ solutionOK gaS (_solution r.1.2))
    (solve gaS 50 0 (fun g => g) initialState (lcg 400 42))
  /\ solve gaT 50 0 (fun g => g) initialState (lcg 400 42) = Unfinished.
Proof.
  split.
  - apply (X23_solve_throws_no_error_over_a_full_table gaS 50 0 (fun g => g)
             (lcg 400 42)).
    + exact table4_rowMajor.
    + simpl. lia.
    + intros O H. discriminate H.
    + vm_compute. discriminate.
    + vm_compute. discriminate.
  - apply (X23_solve_throws_no_error_over_a_full_table gaT 50 0 (fun g => g)
             (lcg 400 42)).
    + exact tableT_rowMajor.
    + simpl. lia.
    + intros O H. discriminate H.
    + vm_compute. discriminate.
    + vm_compute. discriminate.
    + vm_compute. reflexivity.
    + vm_compute. discriminate.
    + vm_compute. discriminate.
    + vm_compute. reflexivity.
Defined.

(** Five nodes under the default configs: 120 tours, 100 chromosomes a
    generation, and no run of [solve] that returns. *)
Example solve_never_returns_on_five_nodes budget start clock draws :
  solve ga5 budget start clock initialState draws = Unfinished.
Proof.
  apply solve_never.
  - exact table5_rowMajor.
  - simpl. lia.
  - intros O H. discriminate H.
  - vm_compute. discriminate.
  - vm_compute. reflexivity.
  - vm_compute. discriminate.
  - vm_compute. discriminate.
  - vm_compute. reflexivity.
Qed.

(** The run of the witness returns the tour [1,0,2,3] at the cost 4. *)
Example X23_solve_run :
  ('(v, _) ← solve gaS 50 0 (fun g => g) initialState (lcg 400 42);
   Return (solution (_solution v.2), bestCost (_solution v.2)))
  = Return (Some [1;0;2;3], Some (Fin 4)).
Proof. vm_compute. reflexivity. Qed.
(* ===================================================================== *)
(** * The routing client, the coordinates file, the broker, capitalize *)
(* ===================================================================== *)

Section Routes.
Variable isLatLong : string -> bool.
Variable fetch : string -> string -> Exn + Response.
Variable Date_now : Z.

(** X24.  [getNeshanRoute] returns exactly when both texts are valid
    coordinates, the fetch of the route URL resolves to a response with a
    status of 200..299 whose body parses, and the body has a first route
    with a first leg; what it returns is the origin, the destination, the
    distance and the duration of that leg, and the time.  On valid
    coordinates, a fetch that rejects makes it throw the error of the
    fetch; a body that does not parse, a SyntaxError; a body with no first
    route or no first leg, a TypeError. *)
Theorem X24_what_getNeshanRoute_settles_with apiKey o d vehicle :
  (forall data,
     getNeshanRoute isLatLong fetch Date_now apiKey (o, d) vehicle = Return data
     <-> isLatLong o = true /\ isLatLong d = true
         /\ exists response route direction leg,
              fetch (routeUrl vehicle o d) apiKey = inr response
              /\ ok response = true /\ json response = Some route
              /\ JS.get (routes route) 0 = Some direction
              /\ JS.get (legs direction) 0 = Some leg
              /\ data = {| origin := o; destination := d;
                           route_cost := {| distance := leg_distance leg;
                                            duration := leg_duration leg |};
                           fetchedAt := Date_now |})
  /\ (isLatLong o = true -> isLatLong d = true ->
      (forall e, fetch (routeUrl vehicle o d) apiKey = inl e ->
         getNeshanRoute isLatLong fetch Date_now apiKey (o, d) vehicle
         = Throw e)
      /\ (forall response,
            fetch (routeUrl vehicle o d) apiKey = inr response ->
            ok response = true ->
            (json response = None ->
             getNeshanRoute isLatLong fetch Date_now apiKey (o, d) vehicle
             = Throw SyntaxError)
            /\ (forall route,
                  json response = Some route ->
                  JS.get (routes route) 0 = None
                  \/ (exists direction, JS.get (routes route) 0 = Some direction
                                        /\ JS.get (legs direction) 0 = None) ->
                  getNeshanRoute isLatLong fetch Date_now apiKey (o, d) vehicle
                  = Throw TypeError))).
Proof.
  split.
  - intros data. unfold getNeshanRoute. fold (routeUrl vehicle o d).
    split.
    + destruct (isLatLong o); [|done]. destruct (isLatLong d); [|done].
      cbn [negb orb].
      destruct (fetch (routeUrl vehicle o d) apiKey) as [e|response] eqn:Ef;
        [done|].
      destruct (ok response) eqn:Eok; [|done]. cbn [negb].
      destruct (json response) as [route|] eqn:Ej; [|done].
      destruct (JS.get (routes route) 0) as [direction|] eqn:Er; [|done].
      cbn [orTypeError mbind Completion_bind].
      destruct (JS.get (legs direction) 0) as [leg|] eqn:El; [|done].
      cbn [orTypeError mbind Completion_bind]. intros [= <-].
      split; [done|]. split; [done|]. by exists response, route, direction, leg.
    + intros (-> & -> & response & route & direction & leg & -> & -> & -> & Hr
              & Hl & ->).
      cbn [negb orb]. rewrite Hr. cbn [orTypeError mbind Completion_bind].
      rewrite Hl. done.
  - intros Ho Hd. unfold getNeshanRoute. rewrite Ho, Hd. cbn [negb orb].
    fold (routeUrl vehicle o d). split.
    + intros e ->. done.
    + intros response -> ->. cbn [negb]. split; [by intros ->|].
      intros route -> [->|(direction & -> & Hl)]; [done|].
      cbn [orTypeError mbind Completion_bind]. rewrite Hl. done.
Qed.
End Routes.

Section Tables.
Variable isLatLong : string -> bool.
Variable fetch : string -> string -> Exn + Response.
Variable Date_now : Z.
Variables (apiKey : string) (vehicle : option bc.NeshanVehicle).
Variable coords : list Coordinate.

Lemma awaitAll_outcome settling : forall costTable,
  (forall p, p ∈ settling -> fulfilled p.2 \/ exists e, p.2 = Throw e) ->
  (exists table, awaitAll costTable settling = Return table)
  \/ (exists p e, p ∈ settling /\ p.2 = Throw e
                  /\ awaitAll costTable settling
                     = Throw (Error (bc.NESHAN_API_FAILED +:+ ", "
                                     +:+ exnText e))).
Proof.
  induction settling as [|[[i j] outcome] settling IH]; intros ct Hall.
  - left. by eexists.
  - cbn [awaitAll].
    destruct (Hall (i, j, outcome)) as [[data Hd]|[e He]]; [by left| |];
      simpl in *; subst outcome.
    + destruct (IH (ct ++ [(i, j, duration (route_cost data))]))
        as [Hok|(p & e & Hp & He & Hrun)].
      * intros p Hp. apply Hall. by right.
      * by left.
      * right. exists p, e. split; [by right|done].
    + right. exists (i, j, Throw e), e. split; [by left|done].
Qed.

Lemma exnText_printsAs e : printsAs e (exnText e).
Proof. by destruct e. Qed.

(** X25.  With a key, [calculateCostTable] throws the unsupported-API error
    for every API name but the supported one (no name stands for the
    supported one).  With the supported API, whatever it throws is an Error
    whose message is the fetching-failed message, a comma, and the text of
    the error that [getNeshanRoute] threw for two different coordinates of
    the list: for an Error or an AppError that is Error, a colon and its
    message (Error alone for an empty message); for an error of the
    platform, a text that starts with its name. *)
Theorem X25_how_calculateCostTable_fails apiName codes :
  apiKey <> EmptyString ->
  (nullish apiName pc.NESHAN <> pc.NESHAN ->
   calculateCostTable isLatLong fetch Date_now coords (apiKey, apiName)
     vehicle codes
   = Throw (Error bc.API_UNSUPPORTED_ERR))
  /\ (nullish apiName pc.NESHAN = pc.NESHAN ->
      forall e',
        calculateCostTable isLatLong fetch Date_now coords (apiKey, apiName)
          vehicle codes = Throw e' ->
        exists (i j : nat) o d e text,
          coords !! i = Some o /\ coords !! j = Some d /\ i <> j
          /\ getNeshanRoute isLatLong fetch Date_now apiKey (o, d) vehicle
             = Throw e
          /\ printsAs e text
          /\ e' = Error (bc.NESHAN_API_FAILED +:+ ", " +:+ text)).
Proof.
  intros Hkey. unfold calculateCostTable. cbn [fst snd].
  rewrite bool_decide_eq_false_2 by done. split.
  - intros Hapi. rewrite bool_decide_eq_false_2 by done. done.
  - intros Hapi e'. rewrite bool_decide_eq_true_2 by done. cbn [negb].
    destruct (issueAll _ _ _ _ _ _) as [costTable resps] eqn:Eall.
    destruct (awaitAll_outcome (settleOrder codes resps []) costTable)
      as [[table ->]|(p & e & Hp & He & ->)].
    + intros p Hp. rewrite settleOrder_Permutation in Hp. simpl in Hp.
      assert (p ∈ (issueAll isLatLong fetch Date_now apiKey vehicle coords).2)
        as Hp' by (by rewrite Eall).
      apply resps_elem in Hp' as (i' & j' & o' & d' & _ & _ & _ & ->).
      apply getNeshanRoute_settles.
    + done.
    + cbn [mbind Completion_bind]. intros [= <-].
      rewrite settleOrder_Permutation in Hp. simpl in Hp.
      assert (p ∈ (issueAll isLatLong fetch Date_now apiKey vehicle coords).2)
        as Hp' by (by rewrite Eall).
      apply resps_elem in Hp' as (i & j & o & d & Hi & Hj & Hne & ->).
      exists i, j, o, d, e, (exnText e). split; [done|]. split; [done|].
      split; [done|]. split; [done|]. split; [apply exnText_printsAs|done].
Qed.
End Tables.

Section Pipeline.
Variable isLatLong : string -> bool.
Variable fetch : string -> string -> Exn + Response.
Variable Date_now : Z.
Variables (apiKey : string) (vehicle : option bc.NeshanVehicle).
Variable coords : list Coordinate.

Lemma tableOf_rowMajor :
  rowMajor (JS.len coords)
    (tableOf (fun o d => getNeshanRoute isLatLong fetch Date_now apiKey (o, d)
                           vehicle) coords).
Proof.
  intros o d Ho Hd.
  destruct (lookup_lt_is_Some_2 coords (Z.to_nat o)) as [co Hco].
  { unfold JS.len in *. lia. }
  destruct (lookup_lt_is_Some_2 coords (Z.to_nat d)) as [cd Hcd].
  { unfold JS.len in *. lia. }
  pose proof (tableOf_lookup isLatLong fetch Date_now apiKey vehicle coords
                _ _ _ _ Hco Hcd) as H.
  rewrite !Z2Nat.id in H by lia. eexists. exact H.
Qed.

(** X26.  For the supported API, a key and fetches that all fulfil, the
    table that [calculateCostTable] returns is one the solver can read,
    when the configured dimension is the number of coordinates: it lists
    every pair of [0,N) row by row, and [_getRouteCost] returns 0 from a
    node to itself and the fetched duration between two different nodes.
    For N >= 1, an origin that is a node, a population size of at least 2
    and an elite count of at least 1, [solve] over it throws no error,
    whatever the draws, and when it returns, its last generation is made of
    different tours and the solution on record is a tour with the best
    cost on record.  (It need not return: X23.) *)
Theorem X26_the_cost_table_is_one_the_solver_reads apiName codes
    (cfg : IConfigs) :
  apiKey <> EmptyString -> nullish apiName pc.NESHAN = pc.NESHAN ->
  (forall (i j : nat) o d, coords !! i = Some o -> coords !! j = Some d ->
     i <> j ->
     fulfilled (getNeshanRoute isLatLong fetch Date_now apiKey (o, d) vehicle)) ->
  dimension cfg = JS.len coords ->
  exists table,
    calculateCostTable isLatLong fetch Date_now coords (apiKey, apiName)
      vehicle codes = Return table
    /\ rowMajor (dimension cfg) table
    /\ (forall (i : nat) o, coords !! i = Some o ->
          _getRouteCost {| costTable := table; configs := cfg |}
            (Z.of_nat i) (Z.of_nat i) = Return 0)
    /\ (forall (i j : nat) o d data,
          coords !! i = Some o -> coords !! j = Some d -> i <> j ->
          getNeshanRoute isLatLong fetch Date_now apiKey (o, d) vehicle
          = Return data ->
          _getRouteCost {| costTable := table; configs := cfg |}
            (Z.of_nat i) (Z.of_nat j) = Return (duration (route_cost data)))
    /\ (1 <= dimension cfg ->
        originInRange {| costTable := table; configs := cfg |} ->
        2 <= defaultPopulationMaxSize {| costTable := table; configs := cfg |} ->
        1 <= _eliteCount {| costTable := table; configs := cfg |} ->
        forall budget start clock draws,
          post False
            (fun r =>
               generationOK {| costTable := table; configs := cfg |} r.1.1
               /\ solutionOK {| costTable := table; configs := cfg |}
                    (_solution r.1.2))
            (solve {| costTable := table; configs := cfg |} budget start
               clock initialState draws)).
Proof.
  intros Hkey Hapi Hall Hdim. eexists. split.
  { by apply calculateCostTable_fulfilled. }
  split; [rewrite Hdim; apply tableOf_rowMajor|]. split; [|split].
  - intros i o Hi. unfold _getRouteCost. cbn [costTable configs]. rewrite Hdim.
    rewrite (tableOf_lookup isLatLong fetch Date_now apiKey vehicle coords
               i i o o Hi Hi). by rewrite Z.eqb_refl.
  - intros i j o d data Hi Hj Hne Hdata. unfold _getRouteCost.
    cbn [costTable configs]. rewrite Hdim.
    rewrite (tableOf_lookup isLatLong fetch Date_now apiKey vehicle coords
               i j o d Hi Hj).
    assert ((Z.of_nat i =? Z.of_nat j) = false) as -> by (apply Z.eqb_neq; lia).
    by rewrite Hdata.
  - intros HN Ho Hsize Helite budget start clock draws.
    apply solve_safe; try done. cbn [costTable configs]. rewrite Hdim.
    apply tableOf_rowMajor.
Qed.
End Pipeline.

Lemma trimStart_blank s : allSpace s = true -> Text.trimStart s = EmptyString.
Proof.
  induction s as [|c s IH]; [done|]. cbn [allSpace Text.trimStart].
  intros [-> Hs]%andb_true_iff. by apply IH.
Qed.

Lemma trimStart_text s :
  allSpace s = false ->
  exists c t, Text.trimStart s = String c t /\ Text.isWhiteSpace c = false.
Proof.
  induction s as [|c s IH]; [done|]. cbn [allSpace Text.trimStart].
  destruct (Text.isWhiteSpace c) eqn:E; [apply IH|]. intros _. by exists c, s.
Qed.

Lemma trimEnd_text c t :
  Text.isWhiteSpace c = false -> Text.trimEnd (String c t) <> EmptyString.
Proof.
  intros E. cbn [Text.trimEnd]. destruct (Text.trimEnd t); [by rewrite E|done].
Qed.

Lemma trim_truthy s : Text.truthy (Text.trim s) = negb (allSpace s).
Proof.
  unfold Text.truthy, Text.trim. destruct (allSpace s) eqn:E.
  - by rewrite trimStart_blank.
  - destruct (trimStart_text s E) as (c & t & -> & Hc).
    rewrite bool_decide_eq_false_2; [done|]. by apply trimEnd_text.
Qed.

Lemma ontoFirst_lines c ls :
  Text.isLineBreak c = false ->
  Forall (fun l => noBreak l = true) ls ->
  Forall (fun l => noBreak l = true) (Text.ontoFirst c ls).
Proof.
  intros Hc Hls. destruct Hls as [|l ls Hl Hls]; cbn.
  - constructor; [|done]. cbn. by rewrite Hc.
  - constructor; [|done]. cbn. by rewrite Hc.
Qed.

Lemma splitLines_noBreak s :
  Forall (fun l => noBreak l = true) (Text.splitLines s).
Proof.
  induction s as [|c s IH]; [by repeat constructor|].
  cbn [Text.splitLines]. destruct (Text.isLineBreak c) eqn:E.
  - by constructor.
  - by apply ontoFirst_lines.
Qed.

Lemma splitLines_blank s :
  allSpace s = true -> Forall (fun l => allSpace l = true) (Text.splitLines s).
Proof.
  induction s as [|c s IH]; [by repeat constructor|].
  cbn [allSpace Text.splitLines]. intros [Hc Hs]%andb_true_iff.
  specialize (IH Hs). destruct (Text.isLineBreak c); [by constructor|].
  destruct IH as [|l ls Hl Hls]; cbn.
  - constructor; [|done]. cbn. by rewrite Hc.
  - constructor; [|done]. cbn. by rewrite Hc, Hl.
Qed.

Lemma filter_none {A} (f : A -> bool) l :
  Forall (fun x => f x = false) l -> List.filter f l = [].
Proof.
  induction 1 as [|x l Hx Hl IH]; [done|]. cbn. by rewrite Hx.
Qed.

Lemma splitLines_nonempty s : Text.splitLines s <> [].
Proof.
  destruct s as [|c s]; [done|]. cbn [Text.splitLines].
  destruct (Text.isLineBreak c); [done|]. by destruct (Text.splitLines s).
Qed.

Lemma splitLines_line l rest :
  noBreak l = true ->
  Text.splitLines (l +:+ rest)
  = match Text.splitLines rest with
    | [] => [l]
    | r :: rs => (l +:+ r) :: rs
    end.
Proof.
  induction l as [|c l IH]; intros Hl.
  - change (EmptyString +:+ rest) with rest.
    pose proof (splitLines_nonempty rest).
    by destruct (Text.splitLines rest).
  - cbn [noBreak] in Hl. apply andb_true_iff in Hl as [Hc Hl].
    apply negb_true_iff in Hc.
    change (String c l +:+ rest) with (String c (l +:+ rest)).
    cbn [Text.splitLines]. rewrite Hc, IH by done.
    destruct (Text.splitLines rest); reflexivity.
Qed.

Lemma kept_lines_breaks sep rest :
  allBreaks sep = true -> sep <> EmptyString ->
  List.filter (fun line => Text.truthy (Text.trim line))
    (Text.splitLines (sep +:+ rest))
  = List.filter (fun line => Text.truthy (Text.trim line))
      (EmptyString :: Text.splitLines rest).
Proof.
  induction sep as [|c sep IH]; intros Hs Hne; [done|].
  cbn [allBreaks] in Hs. apply andb_true_iff in Hs as [Hc Hs].
  change (String c sep +:+ rest) with (String c (sep +:+ rest)).
  cbn [Text.splitLines]. rewrite Hc.
  destruct sep as [|c' sep']; [done|].
  cbn [List.filter]. rewrite IH by done. cbn [List.filter]. done.
Qed.

Lemma append_empty l : l +:+ EmptyString = l.
Proof.
  induction l as [|c l IH]; [done|].
  change (String c (l +:+ EmptyString) = String c l). by rewrite IH.
Qed.

Lemma kept_lines_joined sep ls :
  allBreaks sep = true -> sep <> EmptyString ->
  Forall (fun l => noBreak l = true /\ allSpace l = false) ls ->
  List.filter (fun line => Text.truthy (Text.trim line))
    (Text.splitLines (String.concat sep ls))
  = match ls with [] => [] | _ => ls end.
Proof.
  intros Hsep Hne Hall. induction Hall as [|l ls [Hl Hb] Hall IH]; [done|].
  destruct ls as [|l' ls'].
  - cbn [String.concat]. rewrite <- (append_empty l) at 1.
    rewrite splitLines_line by done. cbn [Text.splitLines].
    rewrite append_empty. cbn [List.filter]. by rewrite trim_truthy, Hb.
  - change (String.concat sep (l :: l' :: ls'))
      with (l +:+ sep +:+ String.concat sep (l' :: ls')).
    rewrite splitLines_line by done.
    pose proof (kept_lines_breaks sep (String.concat sep (l' :: ls')) Hsep Hne)
      as Hk.
    pose proof (splitLines_nonempty (sep +:+ String.concat sep (l' :: ls')))
      as Hn.
    destruct (Text.splitLines (sep +:+ String.concat sep (l' :: ls')))
      as [|r rs] eqn:E; [done|].
    destruct sep as [|c sep']; [done|].
    cbn [allBreaks] in Hsep. apply andb_true_iff in Hsep as [Hc Hsep'].
    change (String c sep' +:+ String.concat (String c sep') (l' :: ls'))
      with (String c (sep' +:+ String.concat (String c sep') (l' :: ls')))
      in E.
    cbn [Text.splitLines] in E. rewrite Hc in E. injection E as <- <-.
    rewrite append_empty. cbn [List.filter] in *.
    rewrite trim_truthy, Hb. cbn [negb]. f_equal.
    rewrite IH in Hk. cbn in Hk. exact Hk.
Qed.

Lemma concat_text sep l ls :
  allSpace l = false -> String.concat sep (l :: ls) <> EmptyString.
Proof.
  intros Hl. destruct l as [|c l]; [done|].
  destruct ls as [|l' ls]; [done|].
  change (String.concat sep (String c l :: l' :: ls))
    with (String c (l +:+ sep +:+ String.concat sep (l' :: ls))). done.
Qed.

Section Coords.
Variable isLatLong : string -> bool.
Variable readFile : string -> Exn + string.
Variable PROBLEM_COORDS_FILE_ERR : string.

(** X27.  (Texts of code units below 256; white space is what [trim]
    strips.)  [getCoords] throws what [readFile] rejects with, and the
    coordinates-file error with the status 400 for an empty file.  A file
    that is not empty but all white space gives the empty list, for a real
    instance too.  What [getCoords] returns are lines of a file that is not
    empty: none is blank, none has a line break, and all are valid
    coordinates when the instance is real.  For a file made of lines that
    are not blank, joined by a separator of one or more line breaks,
    [getCoords] returns just these lines, or throws the coordinates-file
    error when the instance is real and a line is no valid coordinate. *)
Theorem X27_what_getCoords_settles_with path isRealInstance :
  (forall e, readFile path = inl e ->
     getCoords isLatLong readFile PROBLEM_COORDS_FILE_ERR path isRealInstance
     = Throw e)
  /\ (readFile path = inr EmptyString ->
      getCoords isLatLong readFile PROBLEM_COORDS_FILE_ERR path isRealInstance
      = Throw (AppError BAD_REQUEST PROBLEM_COORDS_FILE_ERR))
  /\ (forall text, readFile path = inr text -> text <> EmptyString ->
      allSpace text = true ->
      getCoords isLatLong readFile PROBLEM_COORDS_FILE_ERR path isRealInstance
      = Return [])
  /\ (forall coords,
      getCoords isLatLong readFile PROBLEM_COORDS_FILE_ERR path isRealInstance
      = Return coords ->
      exists text, readFile path = inr text /\ text <> EmptyString
        /\ Forall (fun c => allSpace c = false /\ noBreak c = true
                            /\ (isRealInstance = true -> isLatLong c = true))
             coords)
  /\ (forall sep ls, readFile path = inr (String.concat sep ls) ->
      allBreaks sep = true -> sep <> EmptyString -> ls <> [] ->
      Forall (fun l => noBreak l = true /\ allSpace l = false) ls ->
      getCoords isLatLong readFile PROBLEM_COORDS_FILE_ERR path isRealInstance
      = if isRealInstance && negb (forallb isLatLong ls)
        then Throw (AppError BAD_REQUEST PROBLEM_COORDS_FILE_ERR)
        else Return ls).
Proof.
  unfold getCoords. repeat split.
  - by intros e ->.
  - by intros ->.
  - intros text -> Hne Hblank. unfold Text.truthy at 1.
    rewrite bool_decide_false by done. cbn [negb].
    rewrite filter_none; [by rewrite andb_false_r|].
    eapply Forall_impl; [by apply splitLines_blank|].
    intros l Hl. cbn beta in *. by rewrite trim_truthy, Hl.
  - intros coords. destruct (readFile path) as [e|text]; [done|].
    unfold Text.truthy at 1. destruct (decide (text = EmptyString)) as [->|Hne].
    { by rewrite bool_decide_true. }
    rewrite bool_decide_false by done. cbn [negb].
    destruct (isRealInstance && _) eqn:Hvalid; [done|].
    intros [= <-]. exists text. split; [done|]. split; [done|].
    apply Forall_forall. intros c [Hin Hc]%list_elem_of_In%filter_In.
    rewrite trim_truthy in Hc. apply negb_true_iff in Hc. split; [done|]. split.
    + pose proof (splitLines_noBreak text) as Hnb.
      rewrite Forall_forall in Hnb. apply Hnb. by apply list_elem_of_In.
    + intros ->. cbn [andb] in Hvalid. apply negb_false_iff in Hvalid.
      rewrite forallb_forall in Hvalid. apply Hvalid, filter_In.
      split; [done|]. by rewrite trim_truthy, Hc.
  - intros sep ls -> Hsep Hne Hls Hall. unfold Text.truthy at 1.
    rewrite bool_decide_false.
    2:{ destruct Hall as [|l ls' [_ Hl] _]; [done|]. by apply concat_text. }
    cbn [negb]. rewrite kept_lines_joined by done.
    destruct ls; [done|]. by destruct (isRealInstance && _).
Qed.
End Coords.

Section BrokerProps.
Variable isLatLong : string -> bool.
Variable fetch : string -> string -> Exn + Response.
Variable readFile : string -> Exn + string.
Variable PROBLEM_COORDS_FILE_ERR : string.
Variable NESHAN_API_KEY : option string.
Variable SupportedAlgorithm_GA : string.


Lemma newBroker_cases problem :
  (pb.isRealInstance problem = true /\ pb.apiName problem = Some pc.NESHAN
   /\ NESHAN_API_KEY = None
   /\ newBroker NESHAN_API_KEY SupportedAlgorithm_GA problem = Throw (Error bc.NESHAN_API_KEY_NOT_FOUND))
  \/ (~ (pb.isRealInstance problem = true
         /\ pb.apiName problem = Some pc.NESHAN /\ NESHAN_API_KEY = None)
      /\ pb.algorithm problem <> SupportedAlgorithm_GA
      /\ newBroker NESHAN_API_KEY SupportedAlgorithm_GA problem = Throw (AppError BAD_REQUEST pc2.ALGORITHM_ENUM_ERR))
  \/ (~ (pb.isRealInstance problem = true
         /\ pb.apiName problem = Some pc.NESHAN /\ NESHAN_API_KEY = None)
      /\ pb.algorithm problem = SupportedAlgorithm_GA
      /\ newBroker NESHAN_API_KEY SupportedAlgorithm_GA problem
         = Return {| _problem := problem;
                     _apiKey :=
                       if pb.isRealInstance problem
                          && bool_decide (pb.apiName problem = Some pc.NESHAN)
                       then NESHAN_API_KEY else None |}).
Proof.
  unfold newBroker, _handleApiKey, _selectAlgorithm.
  destruct (pb.isRealInstance problem) eqn:Hreal; cbn [andb].
  - destruct (decide (pb.apiName problem = Some pc.NESHAN)) as [Hapi|Hapi].
    + rewrite (bool_decide_true _ Hapi). destruct NESHAN_API_KEY as [key|].
      * right. destruct (decide (pb.algorithm problem = SupportedAlgorithm_GA))
          as [Halg|Halg].
        -- right. rewrite (bool_decide_true _ Halg). split; [|done].
           by intros (_ & _ & ?).
        -- left. rewrite (bool_decide_false _ Halg). split; [|done].
           by intros (_ & _ & ?).
      * by left.
    + rewrite (bool_decide_false _ Hapi). right.
      destruct (decide (pb.algorithm problem = SupportedAlgorithm_GA))
        as [Halg|Halg].
      * right. rewrite (bool_decide_true _ Halg). split; [|done].
        by intros (_ & ? & _).
      * left. rewrite (bool_decide_false _ Halg). split; [|done].
        by intros (_ & ? & _).
  - right. destruct (decide (pb.algorithm problem = SupportedAlgorithm_GA))
      as [Halg|Halg].
    + right. rewrite (bool_decide_true _ Halg). split; [|done].
      by intros (? & _).
    + left. rewrite (bool_decide_false _ Halg). split; [|done].
      by intros (? & _).
Qed.

(** X28.  [new Broker(problem)] throws the key-is-missing error for a real
    instance of the supported API when the environment has no key,
    whatever the algorithm is; otherwise it throws the algorithm error,
    with the status 400, for every algorithm but GA.  For a broker that
    was constructed, [exec] on an instance that is not real never
    returns: it throws the error of [getCoords], or, when the coordinates
    were read, the problem-not-supported error with the status 400.  On a
    real instance whose coordinates were read, it throws the
    key-is-missing error when the API name is not the supported one (so
    also when there is none) or when the key of the environment is the
    empty text.  So [exec] returns only for a real instance of the
    supported API with a key that is not empty. *)
Theorem X28_what_a_Broker_refuses problem :
  (pb.isRealInstance problem = true -> pb.apiName problem = Some pc.NESHAN ->
   NESHAN_API_KEY = None ->
   newBroker NESHAN_API_KEY SupportedAlgorithm_GA problem
   = Throw (Error bc.NESHAN_API_KEY_NOT_FOUND))
  /\ (~ (pb.isRealInstance problem = true
         /\ pb.apiName problem = Some pc.NESHAN /\ NESHAN_API_KEY = None) ->
      pb.algorithm problem <> SupportedAlgorithm_GA ->
      newBroker NESHAN_API_KEY SupportedAlgorithm_GA problem
      = Throw (AppError BAD_REQUEST pc2.ALGORITHM_ENUM_ERR))
  /\ (forall this,
      newBroker NESHAN_API_KEY SupportedAlgorithm_GA problem = Return this ->
      _problem this = problem
      /\ pb.algorithm problem = SupportedAlgorithm_GA
      /\ forall cfg now codes stack budget start clock draws,
         (pb.isRealInstance problem = false ->
          exists e,
            exec isLatLong fetch readFile PROBLEM_COORDS_FILE_ERR this cfg now
              codes stack budget start clock draws = Throw e
            /\ (getCoords isLatLong readFile PROBLEM_COORDS_FILE_ERR
                  (pb.path problem) false = Throw e
                \/ fulfilled (getCoords isLatLong readFile
                                PROBLEM_COORDS_FILE_ERR (pb.path problem) false)
                   /\ e = AppError BAD_REQUEST pc2.PROBLEM_NOT_SUPPORTED))
         /\ (pb.isRealInstance problem = true ->
             fulfilled (getCoords isLatLong readFile PROBLEM_COORDS_FILE_ERR
                          (pb.path problem) true) ->
             pb.apiName problem <> Some pc.NESHAN
             \/ NESHAN_API_KEY = Some EmptyString ->
             exec isLatLong fetch readFile PROBLEM_COORDS_FILE_ERR this cfg now
               codes stack budget start clock draws
             = Throw (Error bc.NESHAN_API_KEY_NOT_FOUND))
         /\ (forall r,
             exec isLatLong fetch readFile PROBLEM_COORDS_FILE_ERR this cfg now
               codes stack budget start clock draws = Return r ->
             pb.isRealInstance problem = true
             /\ pb.apiName problem = Some pc.NESHAN
             /\ exists key, NESHAN_API_KEY = Some key /\ key <> EmptyString)).
Proof.
  split; [|split].
  - intros Hreal Hapi Hkey.
    destruct (newBroker_cases problem) as [H|[H|H]]; [by apply H|..];
      destruct H as (Hn & _); by destruct Hn.
  - intros Hn Halg.
    destruct (newBroker_cases problem) as [H|[H|H]]; [|by apply H|].
    + destruct Hn. by destruct H as (? & ? & ? & _).
    + by destruct H as (_ & ? & _).
  - intros this Hnew.
    destruct (newBroker_cases problem) as [H|[H|H]];
      [destruct H as (_ & _ & _ & H); congruence
      |destruct H as (_ & _ & H); congruence|].
    destruct H as (Hn & Halg & H). rewrite H in Hnew. injection Hnew as <-.
    cbn [_problem]. split; [done|]. split; [done|].
    intros cfg now codes stack budget start clock draws.
    unfold exec, execCostTable. cbn [_problem _apiKey].
    split; [|split].
    + intros Hreal. rewrite Hreal.
      destruct (getCoords isLatLong readFile PROBLEM_COORDS_FILE_ERR (pb.path problem) false) as [coords|e| |] eqn:Hc.
      * eexists. split; [reflexivity|]. right. split; [by eexists|done].
      * eexists. split; [reflexivity|]. by left.
      * exfalso. revert Hc. unfold getCoords.
        destruct (readFile _); [done|]. by destruct (negb _).
      * exfalso. revert Hc. unfold getCoords.
        destruct (readFile _); [done|]. by destruct (negb _).
    + intros Hreal [coords Hc] Hbad. rewrite Hreal, Hc. cbn [andb].
      assert ((if bool_decide (pb.apiName problem = Some pc.NESHAN)
               then NESHAN_API_KEY else None) = None
              \/ (if bool_decide (pb.apiName problem = Some pc.NESHAN)
                  then NESHAN_API_KEY else None) = Some EmptyString) as Hk.
      { destruct Hbad as [Hbad| ->].
        - left. by rewrite bool_decide_false.
        - destruct (bool_decide _); [by right|by left]. }
      cbn [mbind Completion_bind].
      unfold calculateCostTable. cbn [fst snd].
      destruct Hk as [-> | ->]; cbn [default]; by rewrite bool_decide_true.
    + intros r Hr.
      destruct (pb.isRealInstance problem) eqn:Hreal.
      2:{ exfalso. revert Hr.
          destruct (getCoords isLatLong readFile PROBLEM_COORDS_FILE_ERR (pb.path problem) false); done. }
      cbn [andb] in Hr.
      destruct (getCoords isLatLong readFile PROBLEM_COORDS_FILE_ERR (pb.path problem) true) as [coords| | |]; try done.
      cbn [mbind Completion_bind] in Hr. unfold calculateCostTable in Hr.
      cbn [fst snd] in Hr. split; [done|].
      destruct (decide (pb.apiName problem = Some pc.NESHAN)) as [Hapi|Hapi].
      2:{ rewrite (bool_decide_false _ Hapi) in Hr. cbn [default] in Hr.
          by rewrite bool_decide_true in Hr. }
      split; [done|]. rewrite (bool_decide_true _ Hapi) in Hr.
      destruct NESHAN_API_KEY as [key|]; cbn [default] in Hr.
      2:{ by rewrite bool_decide_true in Hr. }
      exists key. split; [done|]. intros ->. by rewrite bool_decide_true in Hr.
Qed.

Lemma newGA_outcome stack costTable' (cfg : IConfigs) :
  let this := {| costTable := costTable'; configs := cfg |} in
  let num := if _isOriginFixed this then dimension cfg - 1 else dimension cfg in
  (0 <= num -> num - 1 <= Z.of_nat stack ->
   newGA stack costTable' cfg = Return this)
  /\ (num < 0 \/ Z.of_nat stack < num - 1 ->
      newGA stack costTable' cfg = Throw RangeError).
Proof.
  intros this num. unfold newGA. fold this. fold num. split.
  - intros H0 Hstack. rewrite <- (Z2Nat.id num) at 1 by done.
    rewrite fact_products by lia. done.
  - intros H. by rewrite fact_RangeError.
Qed.

(** X29.  For a broker constructed for a real instance of the supported
    API with a key, when [getCoords] returns as many coordinates as the
    problem's dimension and all fetches fulfil, [exec] constructs the
    solver over the table of the fetched durations and the configs with
    the problem's dimension.  The constructor ends in a RangeError when
    its call of [fact] does: for the dimension 0 under a fixed origin, and
    when the dimension asks for more nested calls than the stack lets
    nest.  Otherwise [exec] resolves to what [solve] resolves to: for a
    dimension of at least 1, an origin that is a node, a population size
    of at least 2 and an elite count of at least 1 it throws no error,
    whatever the draws, and the solution it resolves to, when it does, is
    a tour with the best cost on record.  (It need not resolve: X23.) *)
Theorem X29_exec_solves_over_the_fetched_durations problem this key coords
    (cfg : IConfigs) now codes stack :
  newBroker NESHAN_API_KEY SupportedAlgorithm_GA problem = Return this ->
  pb.isRealInstance problem = true -> pb.apiName problem = Some pc.NESHAN ->
  NESHAN_API_KEY = Some key -> key <> EmptyString ->
  getCoords isLatLong readFile PROBLEM_COORDS_FILE_ERR (pb.path problem) true
  = Return coords ->
  pb.dimension problem = JS.len coords ->
  (forall (i j : nat) o d, coords !! i = Some o -> coords !! j = Some d ->
     i <> j -> fulfilled (getNeshanRoute isLatLong fetch now key (o, d) None)) ->
  let algorithm :=
    {| costTable :=
         tableOf (fun o d => getNeshanRoute isLatLong fetch now key (o, d) None)
           coords;
       configs := setDimension cfg (pb.dimension problem) |} in
  let num :=
    if _isOriginFixed algorithm then pb.dimension problem - 1
    else pb.dimension problem in
  (num < 0 \/ Z.of_nat stack < num - 1 ->
   forall budget start clock draws,
     exec isLatLong fetch readFile PROBLEM_COORDS_FILE_ERR this cfg now codes
       stack budget start clock draws
     = Throw RangeError)
  /\ (0 <= num -> num - 1 <= Z.of_nat stack ->
      (forall budget start clock draws,
         exec isLatLong fetch readFile PROBLEM_COORDS_FILE_ERR this cfg now
           codes stack budget start clock draws
         = '(v, draws) ← solve algorithm budget start clock initialState draws;
           Return (_solution v.2, draws))
      /\ (1 <= pb.dimension problem -> originInRange algorithm ->
          2 <= defaultPopulationMaxSize algorithm ->
          1 <= _eliteCount algorithm ->
          forall budget start clock draws,
            post False (fun r => solutionOK algorithm r.1)
              (exec isLatLong fetch readFile PROBLEM_COORDS_FILE_ERR this cfg
                 now codes stack budget start clock draws))).
Proof.
  intros Hnew Hreal Hapi Henv Hkey Hcoords Hdim Hall algorithm num.
  assert (this = {| _problem := problem; _apiKey := Some key |}) as ->.
  { revert Hnew. unfold newBroker, _handleApiKey, _selectAlgorithm.
    rewrite Hreal, Hapi, Henv.
    rewrite (bool_decide_true (Some pc.NESHAN = Some pc.NESHAN)) by done.
    cbn [andb].
    cbn [mbind Completion_bind].
    destruct (bool_decide _); [|intros H; vm_compute in H; discriminate H].
    cbn [mbind Completion_bind]. congruence. }
  assert (forall budget start clock draws,
     exec isLatLong fetch readFile PROBLEM_COORDS_FILE_ERR
       {| _problem := problem; _apiKey := Some key |} cfg now codes stack
       budget start clock draws
     = (this ← newGA stack (costTable algorithm) (configs algorithm);
        '(v, draws) ← solve this budget start clock initialState draws;
        Return (_solution v.2, draws))) as Hexec.
  { intros budget start clock draws. unfold exec, execCostTable.
    cbn [_problem _apiKey]. rewrite Hreal, Hcoords.
    cbn [mbind Completion_bind from_option id]. rewrite Hapi.
    rewrite (calculateCostTable_fulfilled isLatLong fetch now key None coords
               (Some pc.NESHAN) codes Hkey eq_refl Hall).
    reflexivity. }
  destruct (newGA_outcome stack (costTable algorithm) (configs algorithm))
    as [Hok Hthrow].
  split.
  - intros Hnum budget start clock draws. rewrite Hexec, Hthrow; [done|].
    exact Hnum.
  - intros H0 Hstack.
    assert (forall budget start clock draws,
      exec isLatLong fetch readFile PROBLEM_COORDS_FILE_ERR
        {| _problem := problem; _apiKey := Some key |} cfg now codes stack
        budget start clock draws
      = '(v, draws) ← solve algorithm budget start clock initialState draws;
        Return (_solution v.2, draws)) as Hsolve.
    { intros budget start clock draws. rewrite Hexec, Hok; done. }
    split; [exact Hsolve|].
    intros HN Ho Hsize Helite budget start clock draws. rewrite Hsolve.
    pose proof (solve_safe algorithm) as Hsafe.
    eapply post_bind; [apply Hsafe; try done|].
    + subst algorithm. cbn [costTable configs setDimension dimension].
      rewrite Hdim. apply tableOf_rowMajor.
    + intros [[ev st] d] [_ Hsol]. exact Hsol.
Qed.
End BrokerProps.

Lemma splitRuns_nonempty b str : Utf16.splitRuns b str <> [].
Proof.
  revert b. induction str as [|c str IH]; intros b; [done|].
  cbn [Utf16.splitRuns]. destruct (Utf16.isWhiteSpace c).
  - destruct b; [apply IH|done].
  - specialize (IH false). by destruct (Utf16.splitRuns false str).
Qed.

Lemma splitRuns_word w rest :
  noSpace w = true ->
  Utf16.splitRuns false (w ++ rest)
  = match Utf16.splitRuns false rest with
    | [] => [w]
    | r :: rs => (w ++ r) :: rs
    end.
Proof.
  induction w as [|c w IH]; intros Hw.
  - cbn [app]. pose proof (splitRuns_nonempty false rest).
    by destruct (Utf16.splitRuns false rest).
  - cbn [noSpace forallb] in Hw. apply andb_true_iff in Hw as [Hc Hw].
    apply negb_true_iff in Hc. cbn [app Utf16.splitRuns]. rewrite Hc.
    rewrite IH by done. by destruct (Utf16.splitRuns false rest).
Qed.

Lemma splitRuns_run ws rest :
  spaces ws = true -> startsWord rest = true ->
  Utf16.splitRuns true (ws ++ rest) = Utf16.splitRuns false rest.
Proof.
  induction ws as [|c ws IH]; intros Hws Hrest.
  - cbn [app]. destruct rest as [|c rest]; [done|].
    cbn [startsWord] in Hrest. apply negb_true_iff in Hrest.
    cbn [Utf16.splitRuns]. by rewrite Hrest.
  - cbn [spaces forallb] in Hws. apply andb_true_iff in Hws as [Hc Hws].
    cbn [app Utf16.splitRuns]. rewrite Hc. by apply IH.
Qed.

Lemma join_cons w words :
  words <> [] -> Utf16.join (w :: words) = w ++ 32%N :: Utf16.join words.
Proof. by destruct words. Qed.

Section CapitalizeProps.
Variable toUpperCase : N -> list N.

Lemma capitalize_join str :
  capitalize toUpperCase str
  = Utf16.join (capitalizeWord toUpperCase <$> Utf16.splitRuns false str).
Proof. by destruct str. Qed.

(** X30.  [capitalize] on a text with no white space puts the upper case
    of the first code unit in front of the rest of the text.  A word
    followed by a run of white space and a text that starts no white
    space is capitalized piece by piece, with one space for the run:
    [capitalize (w ++ ws ++ rest)] is [capitalize w], a space, and
    [capitalize rest]; the word and the rest may be empty, so that white
    space at either end of the text leaves one space there.  A text of
    nothing but white space becomes one space. *)
Theorem X30_capitalize_word_by_word :
  (forall c w, noSpace (c :: w) = true ->
     capitalize toUpperCase (c :: w) = toUpperCase c ++ w)
  /\ (forall w ws rest,
      noSpace w = true -> spaces ws = true -> ws <> [] ->
      startsWord rest = true ->
      capitalize toUpperCase (w ++ ws ++ rest)
      = capitalize toUpperCase w ++ [32%N] ++ capitalize toUpperCase rest)
  /\ (forall ws, spaces ws = true -> ws <> [] ->
      capitalize toUpperCase ws = [32%N]).
Proof.
  assert (forall w, noSpace w = true ->
            capitalize toUpperCase w = capitalizeWord toUpperCase w) as Hword.
  { intros w Hw. rewrite capitalize_join.
    pose proof (splitRuns_word w [] Hw) as H. rewrite app_nil_r in H.
    rewrite H. cbn [Utf16.splitRuns fmap list_fmap Utf16.join].
    by rewrite app_nil_r. }
  assert (forall w ws rest,
      noSpace w = true -> spaces ws = true -> ws <> [] ->
      startsWord rest = true ->
      capitalize toUpperCase (w ++ ws ++ rest)
      = capitalize toUpperCase w ++ [32%N] ++ capitalize toUpperCase rest)
    as Hcomp.
  { intros w ws rest Hw Hws Hne Hrest.
    rewrite (capitalize_join (w ++ _)), splitRuns_word by done.
    destruct ws as [|c ws]; [done|].
    cbn [spaces forallb] in Hws. apply andb_true_iff in Hws as [Hc Hws].
    cbn [app Utf16.splitRuns]. rewrite Hc, splitRuns_run by done.
    rewrite app_nil_r. cbn [fmap list_fmap]. rewrite join_cons.
    2:{ pose proof (splitRuns_nonempty false rest).
        by destruct (Utf16.splitRuns false rest). }
    by rewrite Hword, capitalize_join. }
  split; [|split].
  - intros c w Hw. by rewrite Hword.
  - exact Hcomp.
  - intros ws Hws Hne. pose proof (Hcomp [] ws [] eq_refl Hws Hne eq_refl) as H.
    cbn [app] in H. by rewrite app_nil_r in H.
Qed.
End CapitalizeProps.

(** ** Examples *)

Lemma X24_routes_witness :
  getNeshanRoute isLatLongEx fetchOffline 0 "key"
    ("35.70,51.40", "35.71,51.42") None = Throw TypeError
  /\ getNeshanRoute isLatLongEx fetchPage 0 "key"
       ("35.70,51.40", "35.71,51.42") None = Throw SyntaxError
  /\ getNeshanRoute isLatLongEx fetchNoRoute 0 "key"
       ("35.70,51.40", "35.71,51.42") None = Throw TypeError.
Proof.
  split; [|split].
  - destruct (X24_what_getNeshanRoute_settles_with isLatLongEx fetchOffline 0
                "key" "35.70,51.40" "35.71,51.42" None) as [_ H].
    destruct H as [H _]; [reflexivity|reflexivity|]. apply H. reflexivity.
  - destruct (X24_what_getNeshanRoute_settles_with isLatLongEx fetchPage 0
                "key" "35.70,51.40" "35.71,51.42" None) as [_ H].
    destruct H as [_ H]; [reflexivity|reflexivity|].
    destruct (H _ eq_refl eq_refl) as [H' _]. apply H'. reflexivity.
  - destruct (X24_what_getNeshanRoute_settles_with isLatLongEx fetchNoRoute 0
                "key" "35.70,51.40" "35.71,51.42" None) as [_ H].
    destruct H as [_ H]; [reflexivity|reflexivity|].
    destruct (H _ eq_refl eq_refl) as [_ H']. eapply H'; [reflexivity|].
    left. reflexivity.
Defined.

(** A call that returns. *)
Example getNeshanRoute_run :
  getNeshanRoute isLatLongEx fetchEx 7 "key" ("35.70,51.40", "35.71,51.42") None
  = Return {| origin := "35.70,51.40"; destination := "35.71,51.42";
              route_cost := {| distance := 1000; duration := 555 |};
              fetchedAt := 7 |}.
Proof. vm_compute. reflexivity. Qed.

Lemma X25_table_failures_witness :
  calculateCostTable isLatLongEx fetchEx 0 coordsEx ("key", Some "google") None
    [] = Throw (Error bc.API_UNSUPPORTED_ERR)
  /\ exists (i j : nat) o d e text,
       coordsEx !! i = Some o /\ coordsEx !! j = Some d /\ i <> j
       /\ getNeshanRoute isLatLongEx fetchDown 0 "key" (o, d) None = Throw e
       /\ printsAs e text
       /\ Error "Fetching routing data from Neshan failed, Error: Fetching routing data from Neshan failed"
          = Error (bc.NESHAN_API_FAILED +:+ ", " +:+ text).
Proof.
  split.
  - destruct (X25_how_calculateCostTable_fails isLatLongEx fetchEx 0 "key" None
                coordsEx (Some "google") []) as [H _]; [discriminate|].
    apply H. discriminate.
  - destruct (X25_how_calculateCostTable_fails isLatLongEx fetchDown 0 "key"
                None coordsEx None [1; 0; 2]%nat) as [_ H]; [discriminate|].
    apply H; [reflexivity|]. vm_compute. reflexivity.
Defined.

Lemma X26_cost_table_witness :
  exists table,
    calculateCostTable isLatLongEx fetchEx 0 coordsEx ("key", None) None
      [2; 0; 1; 1; 0; 3]%nat = Return table
    /\ rowMajor 3 table
    /\ _getRouteCost {| costTable := table; configs := configs3 |} 1 1
       = Return 0
    /\ post False
         (fun r =>
            generationOK {| costTable := table; configs := configs3 |} r.1.1
            /\ solutionOK {| costTable := table; configs := configs3 |}
                 (_solution r.1.2))
         (solve {| costTable := table; configs := configs3 |} 40 0
            (fun g => g) initialState (lcg 400 42)).
Proof.
  destruct (X26_the_cost_table_is_one_the_solver_reads isLatLongEx fetchEx 0
              "key" None coordsEx None [2; 0; 1; 1; 0; 3]%nat configs3)
    as (table & Htable & Hrows & Hdiag & _ & Hsolve).
  - intros H. discriminate H.
  - reflexivity.
  - intros i j o d Hi Hj _.
    destruct i as [|[|[|i]]]; [| | |discriminate Hi]; injection Hi as <-;
      (destruct j as [|[|[|j]]]; [| | |discriminate Hj]); injection Hj as <-;
      eexists; vm_compute; reflexivity.
  - reflexivity.
  - exists table. split; [exact Htable|]. split; [exact Hrows|]. split.
    + apply (Hdiag 1%nat "35.71,51.42"). reflexivity.
    + apply Hsolve.
      * simpl. lia.
      * intros O HO. discriminate HO.
      * vm_compute. discriminate.
      * vm_compute. discriminate.
Defined.

(** The solution over the table of the example of C9. *)
Example cost_table_solved :
  (table ← calculateCostTable isLatLongEx fetchEx 0 coordsEx ("key", None) None
             [2; 0; 1; 1; 0; 3]%nat;
   '(v, _) ← solve {| costTable := table; configs := configs3 |} 40 0
               (fun g => g) initialState (lcg 400 42);
   Return (solution (_solution v.2), bestCost (_solution v.2)))
  = Return (Some [1;2;0], Some (Fin 970)).
Proof. vm_compute. reflexivity. Qed.

Lemma X27_coordinates_witness :
  getCoords isLatLongEx readFileEx "Invalid coordinates file" "none.txt" true
  = Throw (Error "ENOENT: no such file or directory")
  /\ getCoords isLatLongEx readFileEx "Invalid coordinates file" "blank.txt"
       true = Return []
  /\ getCoords isLatLongEx readFileEx "Invalid coordinates file" "coords.txt"
       true = Return coordsEx.
Proof.
  split; [|split].
  - destruct (X27_what_getCoords_settles_with isLatLongEx readFileEx
                "Invalid coordinates file" "none.txt" true) as (H & _).
    apply H. reflexivity.
  - destruct (X27_what_getCoords_settles_with isLatLongEx readFileEx
                "Invalid coordinates file" "blank.txt" true)
      as (_ & _ & H & _).
    apply (H (" " +:+ LF +:+ LF)); [reflexivity|discriminate|reflexivity].
  - destruct (X27_what_getCoords_settles_with isLatLongEx readFileEx
                "Invalid coordinates file" "coords.txt" true)
      as (_ & _ & _ & _ & H).
    apply (H (CR +:+ LF) coordsEx);
      [reflexivity|reflexivity|discriminate|discriminate|].
    repeat constructor.
Defined.

Lemma X28_refusals_witness :
  newBroker None "GA" problemEx = Throw (Error bc.NESHAN_API_KEY_NOT_FOUND)
  /\ newBroker (Some "key") "GA"
       {| pb.path := "coords.txt"; pb.dimension := 3; pb.algorithm := "SA";
          pb.isRealInstance := true; pb.apiName := Some pc.NESHAN |}
     = Throw (AppError BAD_REQUEST pc2.ALGORITHM_ENUM_ERR)
  /\ exec isLatLongEx fetchEx readFileEx "Invalid coordinates file"
       {| _problem :=
            {| pb.path := "coords.txt"; pb.dimension := 3;
               pb.algorithm := "GA"; pb.isRealInstance := true;
               pb.apiName := None |};
          _apiKey := None |}
       configs3 0 [] 100 40 0 (fun g => g) (lcg 400 42)
     = Throw (Error bc.NESHAN_API_KEY_NOT_FOUND).
Proof.
  split; [|split].
  - destruct (X28_what_a_Broker_refuses isLatLongEx fetchEx readFileEx
                "Invalid coordinates file" None "GA" problemEx) as (H & _).
    apply H; reflexivity.
  - destruct (X28_what_a_Broker_refuses isLatLongEx fetchEx readFileEx
                "Invalid coordinates file" (Some "key") "GA"
                {| pb.path := "coords.txt"; pb.dimension := 3;
                   pb.algorithm := "SA"; pb.isRealInstance := true;
                   pb.apiName := Some pc.NESHAN |}) as (_ & H & _).
    apply H; [|discriminate]. intros (_ & _ & H'). discriminate H'.
  - destruct (X28_what_a_Broker_refuses isLatLongEx fetchEx readFileEx
                "Invalid coordinates file" (Some "key") "GA"
                {| pb.path := "coords.txt"; pb.dimension := 3;
                   pb.algorithm := "GA"; pb.isRealInstance := true;
                   pb.apiName := None |}) as (_ & _ & H).
    destruct (H _ eq_refl) as (_ & _ & H').
    destruct (H' configs3 0 [] 100%nat 40%nat 0 (fun g => g) (lcg 400 42))
      as (_ & H'' & _).
    apply H''; [reflexivity| |left; discriminate].
    eexists. vm_compute. reflexivity.
Defined.

(** The broker of the example resolves to a solution. *)
Example exec_run :
  (this ← newBroker (Some "key") "GA" problemEx;
   '(sol, _) ← exec isLatLongEx fetchEx readFileEx "Invalid coordinates file"
                 this configs3 0 [2; 0; 1; 1; 0; 3]%nat 100 40 0 (fun g => g)
                 (lcg 400 42);
   Return (solution sol, bestCost sol))
  = Return (Some [1;2;0], Some (Fin 970)).
Proof. vm_compute. reflexivity. Qed.

Lemma X29_exec_witness :
  exec isLatLongEx fetchEx readFileEx "Invalid coordinates file"
    {| _problem := problemEx; _apiKey := Some "key" |} configs3 0
    [2; 0; 1; 1; 0; 3]%nat 1 40 0 (fun g => g) (lcg 400 42)
  = Throw RangeError
  /\ exec isLatLongEx fetchEx readFileEx "Invalid coordinates file"
       {| _problem := problemEx; _apiKey := Some "key" |} configs3 0
       [2; 0; 1; 1; 0; 3]%nat 100 40 0 (fun g => g) (lcg 400 42)
     = ('(v, draws) ← solve
           {| costTable :=
                tableOf (fun o d => getNeshanRoute isLatLongEx fetchEx 0 "key"
                                      (o, d) None) coordsEx;
              configs := setDimension configs3 3 |} 40 0 (fun g => g)
           initialState (lcg 400 42);
        Return (_solution v.2, draws))
  /\ post False
       (fun r =>
          solutionOK
            {| costTable :=
                 tableOf (fun o d => getNeshanRoute isLatLongEx fetchEx 0 "key"
                                       (o, d) None) coordsEx;
               configs := setDimension configs3 3 |} r.1)
       (exec isLatLongEx fetchEx readFileEx "Invalid coordinates file"
          {| _problem := problemEx; _apiKey := Some "key" |} configs3 0
          [2; 0; 1; 1; 0; 3]%nat 100 40 0 (fun g => g) (lcg 400 42)).
Proof.
  assert (forall (i j : nat) o d,
            coordsEx !! i = Some o -> coordsEx !! j = Some d -> i <> j ->
            fulfilled (getNeshanRoute isLatLongEx fetchEx 0 "key" (o, d) None))
    as Hall.
  { intros i j o d Hi Hj _.
    destruct i as [|[|[|i]]]; [| | |discriminate Hi]; injection Hi as <-;
      (destruct j as [|[|[|j]]]; [| | |discriminate Hj]); injection Hj as <-;
      eexists; vm_compute; reflexivity. }
  assert (getCoords isLatLongEx readFileEx "Invalid coordinates file"
            (pb.path problemEx) true = Return coordsEx) as Hcoords
    by (vm_compute; reflexivity).
  split; [|split].
  - destruct (X29_exec_solves_over_the_fetched_durations isLatLongEx fetchEx
                readFileEx "Invalid coordinates file" (Some "key") "GA"
                problemEx {| _problem := problemEx; _apiKey := Some "key" |}
                "key" coordsEx configs3 0 [2; 0; 1; 1; 0; 3]%nat 1
                eq_refl eq_refl eq_refl eq_refl ltac:(discriminate) Hcoords
                eq_refl Hall) as [Hthrow _].
    apply Hthrow. right. simpl. lia.
  - destruct (X29_exec_solves_over_the_fetched_durations isLatLongEx fetchEx
                readFileEx "Invalid coordinates file" (Some "key") "GA"
                problemEx {| _problem := problemEx; _apiKey := Some "key" |}
                "key" coordsEx configs3 0 [2; 0; 1; 1; 0; 3]%nat 100
                eq_refl eq_refl eq_refl eq_refl ltac:(discriminate) Hcoords
                eq_refl Hall) as [_ Hreturn].
    destruct Hreturn as [Hsolve _]; [simpl; lia|simpl; lia|].
    exact (Hsolve 40%nat 0 (fun g => g) (lcg 400 42)).
  - destruct (X29_exec_solves_over_the_fetched_durations isLatLongEx fetchEx
                readFileEx "Invalid coordinates file" (Some "key") "GA"
                problemEx {| _problem := problemEx; _apiKey := Some "key" |}
                "key" coordsEx configs3 0 [2; 0; 1; 1; 0; 3]%nat 100
                eq_refl eq_refl eq_refl eq_refl ltac:(discriminate) Hcoords
                eq_refl Hall) as [_ Hreturn].
    destruct Hreturn as [_ Hsafe]; [simpl; lia|simpl; lia|].
    refine (Hsafe _ _ _ _ 40%nat 0 (fun g => g) (lcg 400 42)).
    + simpl. lia.
    + intros O HO. discriminate HO.
    + vm_compute. discriminate.
    + vm_compute. discriminate.
Defined.

Lemma X30_capitalize_witness :
  capitalize toUpperCaseEx [104; 105]%N = toUpperCaseEx 104%N ++ [105%N]
  /\ capitalize toUpperCaseEx ([104; 105] ++ [32; 9] ++ [121; 111])%N
     = capitalize toUpperCaseEx [104; 105]%N ++ [32%N]
       ++ capitalize toUpperCaseEx [121; 111]%N
  /\ capitalize toUpperCaseEx [9; 32; 32]%N = [32%N].
Proof.
  destruct (X30_capitalize_word_by_word toUpperCaseEx) as (Hword & Hrun & Hsp).
  split; [|split].
  - apply Hword. reflexivity.
  - apply Hrun; [reflexivity|reflexivity|discriminate|reflexivity].
  - apply Hsp; [reflexivity|discriminate].
Defined.

(** " hi \t yo" becomes " Hi Yo". *)
Example capitalize_run :
  capitalize toUpperCaseEx [32; 104; 105; 32; 9; 121; 111]%N
  = [32; 72; 105; 32; 89; 111]%N.
Proof. vm_compute. reflexivity. Qed.
